(** * Romish backend: queue, ready check, draft, veto and match results

    A shallow embedding of the matchmaking core of the backend:
    - [Queue]  : models/queue.model.js (addPlayer, removePlayer, accept phase);
    - [User]   : models/user.model.js (updateStats) and the user collection;
    - [Ready]  : ready/ready.socket.js (ReadySession accept and timeout);
    - [Match]  : models/match.model.js (createMatch, pickPlayer, banMap, ...);
    - [Ctl]    : the match, queue and match-accept controllers.

    Mongoose documents are records, collections are lists of documents in
    insertion order (the user collection is a finite map keyed by the unique
    [steamId]), a method that throws returns [Err] with the message of the
    source, and [new Date()] / [Date.now()] is an explicit argument [now] in
    milliseconds.  [save()] persists the document it is called on and
    always succeeds: schema validation is not modelled, except that
    [createMatch] needs its two captains.  Socket emissions and logging do
    not touch any document and are left out. *)

From Stdlib Require Import ZArith Lia.
From stdpp Require Import base option list strings pretty gmap.

Local Open Scope string_scope.
Local Open Scope list_scope.

(** ** Results of methods that may throw *)

Inductive outcome (A : Type) : Type :=
  | Ok (a : A)
  | Err (msg : string).
Arguments Ok {A} a.
Arguments Err {A} msg.

Definition is_ok {A} (r : outcome A) : bool :=
  match r with Ok _ => true | Err _ => false end.

(** The state after a call whose failure leaves the stored document as it
    was (the method throws before [save()]). *)
Definition or_keep {A} (r : outcome A) (old : A) : A :=
  match r with Ok a => a | Err _ => old end.

(** [Array.prototype.includes] on strings. *)
Definition includes (x : string) (l : list string) : bool := bool_decide (x ∈ l).

(** Elements of [new Set(l)], in the order of first insertion. *)
Fixpoint set_of_aux (seen l : list string) : list string :=
  match l with
  | [] => []
  | x :: l' => if includes x seen then set_of_aux seen l'
               else x :: set_of_aux (x :: seen) l'
  end.
Definition set_of (l : list string) : list string := set_of_aux [] l.

(** The snapshot [{ steamId, name, avatar }] handed to queue and match. *)
Record PlayerRef := mkPlayerRef {
  ref_steamId : string;
  ref_name : string;
  ref_avatar : string;
}.

(** ** models/queue.model.js *)

Module Queue.

Inductive Status := waiting | accept_phase | full | processing | completed.

Global Instance Status_eq_dec : EqDecision Status.
Proof. solve_decision. Defined.

Record Entry := mkEntry {
  steamId : string;
  name : string;
  avatar : string;
  joinedAt : Z;
  position : nat;
  hasPriority : bool;
}.

Record AcceptPhase := mkAcceptPhase {
  active : bool;
  startedAt : option Z;
  expiresAt : option Z;
  acceptedPlayers : list string;
  declinedPlayers : list string;
  timeout : Z;
}.

Record t := mkQueue {
  players : list Entry;
  status : Status;
  requiredPlayers : nat;
  acceptPhase : AcceptPhase;
}.

(** [Queue.create({ players: [], status: 'waiting' })] with the schema
    defaults. *)
Definition create : t :=
  {| players := []; status := waiting; requiredPlayers := 10;
     acceptPhase := {| active := false; startedAt := None; expiresAt := None;
                       acceptedPlayers := []; declinedPlayers := [];
                       timeout := 20000 |} |}.

Definition set_position (n : nat) (e : Entry) : Entry :=
  {| steamId := steamId e; name := name e; avatar := avatar e;
     joinedAt := joinedAt e; position := n; hasPriority := hasPriority e |}.

Definition set_priority (e : Entry) : Entry :=
  {| steamId := steamId e; name := name e; avatar := avatar e;
     joinedAt := joinedAt e; position := position e; hasPriority := true |}.

(** [players.forEach((player, index) => { player.position = index + 1 })] *)
Definition recalc (l : list Entry) : list Entry :=
  imap (fun index player => set_position (index + 1) player) l.

Definition has_player (sid : string) (q : t) : bool :=
  bool_decide (Exists (fun p => steamId p = sid) (players q)).

(** [addPlayer(player)]: one formal parameter; the entry is the spread of
    [player] with [position] and [joinedAt], [hasPriority] takes the schema
    default [false]. *)
Definition addPlayer (now : Z) (player : PlayerRef) (q : t) : outcome t :=
  if has_player (ref_steamId player) q then Err "Player already in queue"
  else if bool_decide (requiredPlayers q <= length (players q))%nat
  then Err "Queue is full"
  else
    let players' := players q ++
      [ {| steamId := ref_steamId player; name := ref_name player;
           avatar := ref_avatar player; joinedAt := now;
           position := length (players q) + 1; hasPriority := false |} ] in
    Ok {| players := players';
          status := if bool_decide (length players' = requiredPlayers q)
                    then full else status q;
          requiredPlayers := requiredPlayers q;
          acceptPhase := acceptPhase q |}.

Definition removePlayer (sid : string) (q : t) : outcome t :=
  let players' := filter (fun p => steamId p ≠ sid) (players q) in
  if bool_decide (length players' = length (players q))
  then Err "Player not found in queue"
  else
    Ok {| players := recalc players';
          status := if bool_decide (length players' < requiredPlayers q)%nat
                    then waiting else status q;
          requiredPlayers := requiredPlayers q;
          acceptPhase := acceptPhase q |}.

Definition isFull (q : t) : bool :=
  bool_decide (requiredPlayers q <= length (players q))%nat.

(** [startAcceptPhase()] *)
Definition startAcceptPhase (now : Z) (q : t) : t :=
  {| players := players q; status := accept_phase;
     requiredPlayers := requiredPlayers q;
     acceptPhase :=
       {| active := true; startedAt := Some now;
          expiresAt := Some (now + timeout (acceptPhase q))%Z;
          acceptedPlayers := []; declinedPlayers := [];
          timeout := timeout (acceptPhase q) |} |}.

(** [acceptMatch(steamId)] of the queue-embedded accept phase. *)
Definition acceptMatch (sid : string) (q : t) : outcome t :=
  let a := acceptPhase q in
  if negb (has_player sid q) then Err "Player not in queue"
  else if negb (active a) then Err "Accept phase is not active"
  else if includes sid (acceptedPlayers a) then Err "Player already accepted"
  else if includes sid (declinedPlayers a) then Err "Player already declined"
  else
    Ok {| players := players q; status := status q;
          requiredPlayers := requiredPlayers q;
          acceptPhase :=
            {| active := active a; startedAt := startedAt a;
               expiresAt := expiresAt a;
               acceptedPlayers := acceptedPlayers a ++ [sid];
               declinedPlayers := declinedPlayers a;
               timeout := timeout a |} |}.

Definition reset_accept (a : AcceptPhase) : AcceptPhase :=
  {| active := false; startedAt := None; expiresAt := None;
     acceptedPlayers := []; declinedPlayers := []; timeout := timeout a |}.

Definition status_by_size (l : list Entry) (required : nat) : Status :=
  if bool_decide (required <= length l)%nat then full else waiting.

(** [processAcceptPhaseResults()]: the rebuilt queue and the ids whose
    [inQueue] flag the caller's [User.updateMany] clears. *)
Definition processAcceptPhaseResults (q : t) : t * list string :=
  let accepted := acceptedPlayers (acceptPhase q) in
  let kept := set_priority <$>
    filter (fun p => includes (steamId p) accepted = true) (players q) in
  let removedPlayers := steamId <$>
    filter (fun p => includes (steamId p) accepted = false) (players q) in
  ({| players := recalc kept;
      status := status_by_size kept (requiredPlayers q);
      requiredPlayers := requiredPlayers q;
      acceptPhase := reset_accept (acceptPhase q) |}, removedPlayers).

(** The queue part of the timeout callback of [startReadyPhaseMatch]
    (sockets/index.js): accepted session players first, in queue order and
    with priority, then everyone who was not in the session. *)
Definition rebuildAfterTimeout (acceptors nonAcceptors : list string) (q : t)
  : t * list string :=
  let acceptedSet := set_of acceptors in
  let sessionPlayerIds := set_of (acceptors ++ nonAcceptors) in
  let acceptedPlayersInQueue := set_priority <$>
    filter (fun p => includes (steamId p) sessionPlayerIds = true
                     ∧ includes (steamId p) acceptedSet = true) (players q) in
  let nonSessionPlayers :=
    filter (fun p => includes (steamId p) sessionPlayerIds = false) (players q) in
  let newPlayers := acceptedPlayersInQueue ++ nonSessionPlayers in
  let removedSteamIds :=
    filter (fun id => includes id acceptedSet = false) sessionPlayerIds in
  ({| players := recalc newPlayers;
      status := status_by_size newPlayers (requiredPlayers q);
      requiredPlayers := requiredPlayers q;
      acceptPhase := reset_accept (acceptPhase q) |}, removedSteamIds).

(** Queue operations of the join/leave life cycle. *)
Inductive Op :=
  | Join (now : Z) (player : PlayerRef)
  | Leave (sid : string)
  | ProcessAccept
  | TimeoutRebuild (acceptors nonAcceptors : list string).

Definition apply_op (q : t) (o : Op) : t :=
  match o with
  | Join now player => or_keep (addPlayer now player q) q
  | Leave sid => or_keep (removePlayer sid q) q
  | ProcessAccept => fst (processAcceptPhaseResults q)
  | TimeoutRebuild acc non => fst (rebuildAfterTimeout acc non q)
  end.

Definition run (ops : list Op) (q : t) : t := foldl apply_op q ops.

(** Steam id, position and priority flag of every entry, in order. *)
Definition queue_view (q : t) : list (string * nat * bool) :=
  (fun e => (steamId e, position e, hasPriority e)) <$> players q.

(** [entries[i].position == i + 1] for all [i]. *)
Definition positions_ok (l : list Entry) : Prop :=
  ∀ i e, l !! i = Some e → position e = (i + 1)%nat.

(** [declineMatch(steamId)] *)
Definition declineMatch (sid : string) (q : t) : outcome t :=
  let a := acceptPhase q in
  if negb (has_player sid q) then Err "Player not in queue"
  else if negb (active a) then Err "Accept phase is not active"
  else
    Ok {| players := players q; status := status q;
          requiredPlayers := requiredPlayers q;
          acceptPhase :=
            {| active := active a; startedAt := startedAt a;
               expiresAt := expiresAt a;
               acceptedPlayers := acceptedPlayers a;
               declinedPlayers :=
                 if includes sid (declinedPlayers a) then declinedPlayers a
                 else declinedPlayers a ++ [sid];
               timeout := timeout a |} |}.

(** [hasAccepted(steamId)] and [hasDeclined(steamId)] *)
Definition hasAccepted (sid : string) (q : t) : bool :=
  includes sid (acceptedPlayers (acceptPhase q)).

Definition hasDeclined (sid : string) (q : t) : bool :=
  includes sid (declinedPlayers (acceptPhase q)).

(** [getPlayersBySteamIds(steamIds)] *)
Definition getPlayersBySteamIds (ids : list string) (q : t) : list Entry :=
  filter (fun p => includes (steamId p) ids = true) (players q).

(** Every method that writes the queue document. *)
Inductive Action :=
  | Act (o : Op)
  | StartAccept (now : Z)
  | Accept (sid : string)
  | Decline (sid : string).

Definition apply_action (q : t) (a : Action) : t :=
  match a with
  | Act o => apply_op q o
  | StartAccept now => startAcceptPhase now q
  | Accept sid => or_keep (acceptMatch sid q) q
  | Decline sid => or_keep (declineMatch sid q) q
  end.

Definition run_actions (acts : list Action) (q : t) : t :=
  foldl apply_action q acts.

(** Ten required players, at most that many entries, no steam id twice,
    and no id twice in either accept list. *)
Definition doc_ok (q : t) : Prop :=
  requiredPlayers q = 10%nat /\
  (length (players q) <= requiredPlayers q)%nat /\
  NoDup (steamId <$> players q) /\
  NoDup (acceptedPlayers (acceptPhase q)) /\
  NoDup (declinedPlayers (acceptPhase q)).

(** The status follows the number of entries. *)
Definition status_ok (q : t) : Prop :=
  requiredPlayers q = 10%nat /\
  ((status q = full /\ length (players q) = 10%nat) \/
   (status q = waiting /\ (length (players q) < 10)%nat)).

End Queue.

(** ** models/user.model.js and the user collection *)

Module User.

Record Stats := mkStats {
  matchesPlayed : Z;
  wins : Z;
  losses : Z;
  rating : Z;
}.

Record t := mkUser {
  name : string;
  stats : Stats;
  currentMatch : option string;
  inQueue : bool;
}.

(** [userSchema.methods.updateStats(won)] *)
Definition updateStats (won : bool) (u : t) : t :=
  let s := stats u in
  {| name := name u;
     stats :=
       if won
       then {| matchesPlayed := matchesPlayed s + 1; wins := wins s + 1;
               losses := losses s; rating := rating s + 25 |}
       else {| matchesPlayed := matchesPlayed s + 1; wins := wins s;
               losses := losses s + 1; rating := Z.max 0 (rating s - 25) |};
     currentMatch := currentMatch u;
     inQueue := inQueue u |}.

(** The update [{ currentMatch: null, $inc: { 'stats.matchesPlayed': 1 } }]. *)
Definition clear_match_and_count (u : t) : t :=
  let s := stats u in
  {| name := name u;
     stats := {| matchesPlayed := matchesPlayed s + 1; wins := wins s;
                 losses := losses s; rating := rating s |};
     currentMatch := None;
     inQueue := inQueue u |}.

(** The update [{ currentMatch: null }]. *)
Definition clear_match (u : t) : t :=
  {| name := name u; stats := stats u; currentMatch := None;
     inQueue := inQueue u |}.

(** The update [{ $set: { inQueue: false } }]. *)
Definition clear_inQueue (u : t) : t :=
  {| name := name u; stats := stats u; currentMatch := currentMatch u;
     inQueue := false |}.

(** The update [{ inQueue: true, currentMatch: null }]. *)
Definition requeued (u : t) : t :=
  {| name := name u; stats := stats u; currentMatch := None;
     inQueue := true |}.

(** The collection, keyed by the unique [steamId]. *)
Abbreviation coll := (gmap string t).

(** [User.updateMany({ steamId: { $in: ids } }, update)].  An element of
    [ids] is a string or [undefined] ([None]); a stored [steamId] is always
    a string, so only the strings among [ids] can match. *)
Definition updateMany (ids : list (option string)) (update : t -> t)
    (us : coll) : coll :=
  map_imap (fun k u => Some (if bool_decide (Some k ∈ ids) then update u
                             else u)) us.

(** [User.updateOne({ steamId }, update)] *)
Definition updateOne (sid : string) (update : t -> t) (us : coll) : coll :=
  alter update sid us.

End User.

(** ** ready/ready.socket.js over models/readySession.model.js *)

Module Ready.

Inductive Status := active | completed | timeout | cancelled.

Global Instance Status_eq_dec : EqDecision Status.
Proof. solve_decision. Defined.

Record SPlayer := mkSPlayer {
  userId : string;
  accepted : bool;
  acceptedAt : option Z;
}.

Record Session := mkSession {
  matchId : string;
  queueGroupId : option string;
  playerIds : list string;
  players : list SPlayer;
  expiresAt : Z;
  status : Status;
  completedAt : option Z;
}.

Record Stats := mkStats {
  st_matchId : string;
  totalPlayers : nat;
  acceptedCount : nat;
  pendingCount : nat;
  st_players : list (string * bool);
  secondsRemaining : Z;
}.

Record TimeoutResult := mkTimeoutResult {
  tr_matchId : string;
  tr_queueGroupId : option string;
  nonAcceptors : list string;
  acceptors : list string;
}.

(** What [recordPlayerAccept] returns: [{ error }] or [{ stats }]. *)
Inductive AcceptResult :=
  | AcceptError (error : string)
  | AcceptStats (stats : Stats).

Definition set_status (st : Status) (done_at : option Z) (s : Session)
  : Session :=
  {| matchId := matchId s; queueGroupId := queueGroupId s;
     playerIds := playerIds s; players := players s;
     expiresAt := expiresAt s; status := st; completedAt := done_at |}.

Definition set_players (ps : list SPlayer) (s : Session) : Session :=
  {| matchId := matchId s; queueGroupId := queueGroupId s;
     playerIds := playerIds s; players := ps;
     expiresAt := expiresAt s; status := status s;
     completedAt := completedAt s |}.

(** [startReadyPhase(matchId, playerIds, queueGroupId, timeoutSeconds)] *)
Definition startReadyPhase (now : Z) (mid : string) (ids : list string)
    (qid : option string) (timeoutSeconds : Z) (st : list Session)
  : outcome (Session * list Session) :=
  if bool_decide (mid = "") || negb (bool_decide (length ids = 10%nat))
  then Err "Invalid matchId or playerIds must have exactly 10 players"
  else
    let s := {| matchId := mid; queueGroupId := qid; playerIds := ids;
                players := (fun u => mkSPlayer u false None) <$> ids;
                expiresAt := now + timeoutSeconds * 1000;
                status := active; completedAt := None |} in
    Ok (s, st ++ [s]).

(** [ReadySession.findOne({ matchId, status: 'active' })] *)
Definition findActive (mid : string) (st : list Session)
  : option (nat * Session) :=
  list_find (fun s => matchId s = mid ∧ status s = active) st.

(** [getSessionStats(session)] *)
Definition getSessionStats (now : Z) (s : Session) : Stats :=
  let acceptedCount := length (filter (fun p => accepted p = true) (players s)) in
  {| st_matchId := matchId s;
     totalPlayers := length (players s);
     acceptedCount := acceptedCount;
     pendingCount := length (players s) - acceptedCount;
     st_players := (fun p => (userId p, accepted p)) <$> players s;
     secondsRemaining := Z.max 0 ((expiresAt s - now) / 1000) |}.

(** [recordPlayerAccept(matchId, userId)] *)
Definition recordPlayerAccept (now : Z) (mid uid : string)
    (st : list Session) : AcceptResult * list Session :=
  match findActive mid st with
  | None => (AcceptError "Session not found or expired", st)
  | Some (i, session) =>
      match list_find (fun p => userId p = uid) (players session) with
      | None => (AcceptError "User not in session", st)
      | Some (playerIndex, p) =>
          if accepted p then (AcceptStats (getSessionStats now session), st)
          else
            let session' :=
              set_players (<[playerIndex := mkSPlayer (userId p) true (Some now)]>
                             (players session)) session in
            (AcceptStats (getSessionStats now session'), <[i := session']> st)
      end
  end.

(** [checkAllAccepted(matchId)] *)
Definition checkAllAccepted (mid : string) (st : list Session) : bool :=
  match findActive mid st with
  | None => false
  | Some (_, session) =>
      bool_decide (Forall (fun p => accepted p = true) (players session))
  end.

(** [completeReadyPhase(matchId)]: findOneAndUpdate on the active session. *)
Definition completeReadyPhase (now : Z) (mid : string) (st : list Session)
  : option Session * list Session :=
  match findActive mid st with
  | None => (None, st)
  | Some (i, session) =>
      let session' := set_status completed (Some now) session in
      (Some session', <[i := session']> st)
  end.

(** [handleReadyTimeout(matchId)] *)
Definition handleReadyTimeout (mid : string) (st : list Session)
  : option TimeoutResult * list Session :=
  match findActive mid st with
  | None => (None, st)
  | Some (i, session) =>
      let session' := set_status timeout (completedAt session) session in
      (Some {| tr_matchId := mid;
               tr_queueGroupId := queueGroupId session';
               nonAcceptors :=
                 userId <$> filter (fun p => accepted p = false) (players session');
               acceptors :=
                 userId <$> filter (fun p => accepted p = true) (players session') |},
       <[i := session']> st)
  end.

(** [cancelReadySession(matchId)] *)
Definition cancelReadySession (mid : string) (st : list Session)
  : option Session * list Session :=
  match findActive mid st with
  | None => (None, st)
  | Some (i, session) =>
      let session' := set_status cancelled (completedAt session) session in
      (Some session', <[i := session']> st)
  end.

(** [getNonAcceptors(matchId)] *)
Definition getNonAcceptors (mid : string) (st : list Session) : list string :=
  match findActive mid st with
  | None => []
  | Some (_, session) =>
      userId <$> filter (fun p => accepted p = false) (players session)
  end.

(** [getActiveSessions()] *)
Definition getActiveSessions (st : list Session) : list Session :=
  filter (fun s => status s = active) st.

(** The calls of the service on the collection, one after the other.  The
    schema puts a unique index on [matchId]: the save of a second document
    with a stored match id is refused and [startReadyPhase] rethrows, the
    collection unchanged.  It puts a TTL index on [expiresAt]: [Purge now]
    is the server deleting the documents whose [expiresAt] has passed. *)
Inductive Call :=
  | Start (now : Z) (mid : string) (ids : list string) (qid : option string)
          (timeoutSeconds : Z)
  | Accept (now : Z) (mid uid : string)
  | Complete (now : Z) (mid : string)
  | Timeout (mid : string)
  | Cancel (mid : string)
  | Purge (now : Z).

Definition call (st : list Session) (c : Call) : list Session :=
  match c with
  | Start now mid ids qid secs =>
      if bool_decide (mid ∈ matchId <$> st) then st
      else match startReadyPhase now mid ids qid secs st with
           | Ok (_, st') => st'
           | Err _ => st
           end
  | Accept now mid uid => (recordPlayerAccept now mid uid st).2
  | Complete now mid => (completeReadyPhase now mid st).2
  | Timeout mid => (handleReadyTimeout mid st).2
  | Cancel mid => (cancelReadySession mid st).2
  | Purge now => filter (fun s => (now < expiresAt s)%Z) st
  end.

Definition calls (cs : list Call) (st : list Session) : list Session :=
  foldl call st cs.

Definition session_ok (s : Session) : Prop :=
  matchId s ≠ "" /\ length (players s) = 10%nat /\
  userId <$> players s = playerIds s.

Definition store_ok (st : list Session) : Prop :=
  NoDup (matchId <$> st) /\ Forall session_ok st.

(** What a roster [ps] looks like after the accepts of the ids [us]: a
    player is marked exactly when the id was submitted and no earlier
    roster entry carries it ([findIndex] stops at the first). *)
Definition accepts_ok (ids us : list string) (ps : list SPlayer) : Prop :=
  userId <$> ps = ids /\
  forall j p, ps !! j = Some p ->
    (accepted p = true <->
     userId p ∈ us /\ forall k, (k < j)%nat -> ids !! k <> Some (userId p)).

End Ready.

(** ** models/match.model.js *)

Module Match.

Inductive Side := alpha | beta.
Inductive Team := on (s : Side) | undrafted.
Inductive Phase := accept | draft | veto | ready | live | complete | cancelled.

Global Instance Side_eq_dec : EqDecision Side.
Proof. solve_decision. Defined.
Global Instance Team_eq_dec : EqDecision Team.
Proof. solve_decision. Defined.
Global Instance Phase_eq_dec : EqDecision Phase.
Proof. solve_decision. Defined.

Definition phase_name (ph : Phase) : string :=
  match ph with
  | accept => "accept" | draft => "draft" | veto => "veto"
  | ready => "ready" | live => "live" | complete => "complete"
  | cancelled => "cancelled"
  end.

Definition other (s : Side) : Side :=
  match s with alpha => beta | beta => alpha end.

Record Player := mkPlayer {
  steamId : string;
  name : string;
  avatar : string;
  team : Team;
}.

Record Accepted := mkAccepted { acc_steamId : string; acceptedAt : Z }.
Record Required := mkRequired { req_steamId : string; req_name : string }.

Record AcceptPhase := mkAcceptPhase {
  active : bool;
  startedAt : Z;
  expiresAt : Z;
  timeout : Z;
  acceptedPlayers : list Accepted;
  requiredPlayers : list Required;
}.

Record Teams := mkTeams { t_alpha : list string; t_beta : list string }.
Record Captains := mkCaptains { c_alpha : string; c_beta : string }.
Record Pick := mkPick { captain : Side; pick_steamId : string; pickedAt : Z }.
Record Ban := mkBan { map : string; bannedBy : Side; bannedAt : Z }.

Record ServerInfo := mkServerInfo {
  ip : option string;
  password : option string;
  rcon : option string;
  serverId : option string;
  connectString : option string;
}.

Record Result := mkResult {
  winner : option string;
  score_alpha : Z;
  score_beta : Z;
}.

Record t := mkMatch {
  matchId : string;
  players : list Player;
  captains : Captains;
  teams : Teams;
  phase : Phase;
  acceptPhase : AcceptPhase;
  pickOrder : list Side;
  currentPicker : Side;
  pickIndex : nat;
  pickHistory : list Pick;
  availableMaps : list string;
  bannedMaps : list Ban;
  selectedMap : option string;
  vetoOrder : list Side;
  currentVeto : Side;
  vetoIndex : nat;
  serverInfo : ServerInfo;
  result : Result;
  vetoStartedAt : option Z;
  readyStartedAt : option Z;
  completedAt : option Z;
}.

Definition team_of (s : Side) (ts : Teams) : list string :=
  match s with alpha => t_alpha ts | beta => t_beta ts end.

(** [this.teams[side].push(steamId)] *)
Definition push_team (s : Side) (sid : string) (ts : Teams) : Teams :=
  match s with
  | alpha => {| t_alpha := t_alpha ts ++ [sid]; t_beta := t_beta ts |}
  | beta => {| t_alpha := t_alpha ts; t_beta := t_beta ts ++ [sid] |}
  end.

Definition set_team (tm : Team) (p : Player) : Player :=
  {| steamId := steamId p; name := name p; avatar := avatar p; team := tm |}.

Definition no_server : ServerInfo :=
  {| ip := None; password := None; rcon := None; serverId := None;
     connectString := None |}.

Definition default_maps : list string :=
  ["Dust II"; "Mirage"; "Inferno"; "Nuke"; "Overpass"; "Vertigo"; "Ancient";
   "Cache"; "Cobblestone"; "Anubis"; "Train"; "Aztec"].

(** The loop [for (i = 0; i < totalBans; i++) push(i % 2 === 0 ? 'alpha' : 'beta')]
    with [totalBans = availableMaps.length - 1]. *)
Definition veto_order (maps : list string) : list Side :=
  (fun i => if Nat.even i then alpha else beta) <$> seq 0 (length maps - 1).

Definition pick_order : list Side :=
  [alpha; alpha; beta; beta; alpha; beta; alpha; beta].

(** A match document holding only the schema defaults. *)
Definition defaults : t :=
  {| matchId := ""; players := [];
     captains := {| c_alpha := ""; c_beta := "" |};
     teams := {| t_alpha := []; t_beta := [] |};
     phase := accept;
     acceptPhase := {| active := true; startedAt := 0; expiresAt := 20000;
                       timeout := 20000; acceptedPlayers := [];
                       requiredPlayers := [] |};
     pickOrder := []; currentPicker := alpha; pickIndex := 0;
     pickHistory := []; availableMaps := default_maps; bannedMaps := [];
     selectedMap := None; vetoOrder := []; currentVeto := alpha;
     vetoIndex := 0; serverInfo := no_server;
     result := {| winner := None; score_alpha := 0; score_beta := 0 |};
     vetoStartedAt := None; readyStartedAt := None; completedAt := None |}.

(** What [Match.create] validates of a players entry: [steamId], [name]
    and [avatar] are required strings, and an empty string fails the
    required check. *)
Definition player_saves (p : PlayerRef) : bool :=
  negb (bool_decide (ref_steamId p = ""))
  && negb (bool_decide (ref_name p = ""))
  && negb (bool_decide (ref_avatar p = "")).

(** [Match.createMatch(players, captains)] followed by [generatePickOrder()].
    The callers pass [[captainAlpha, captainBeta]]; with fewer than two
    entries [captains[1]] is [undefined] and the required path
    [captains.beta] makes [Match.create] throw, as does an empty captain id
    or a player with an empty required field.  The message of that
    validation error begins with 'Match validation failed' and goes on to
    name the failing paths; only its beginning is kept here. *)
Definition createMatch (id : string) (now : Z) (ps : list PlayerRef)
    (caps : list string) : outcome t :=
  match caps !! 0%nat, caps !! 1%nat with
  | Some c0, Some c1 =>
    if negb (forallb player_saves ps && negb (bool_decide (c0 = ""))
             && negb (bool_decide (c1 = "")))
    then Err "Match validation failed"
    else
    Ok {| matchId := id;
          players := (fun p =>
            {| steamId := ref_steamId p; name := ref_name p;
               avatar := ref_avatar p;
               team := if includes (ref_steamId p) caps
                       then (if bool_decide (ref_steamId p = c0)
                             then on alpha else on beta)
                       else undrafted |}) <$> ps;
          captains := {| c_alpha := c0; c_beta := c1 |};
          teams := {| t_alpha := [c0]; t_beta := [c1] |};
          phase := accept;
          acceptPhase :=
            {| active := true; startedAt := now; expiresAt := now + 60000;
               timeout := 60000; acceptedPlayers := [];
               requiredPlayers :=
                 (fun p => {| req_steamId := ref_steamId p;
                              req_name := ref_name p |}) <$> ps |};
          pickOrder := pick_order;
          currentPicker := alpha;
          pickIndex := 0;
          pickHistory := [];
          availableMaps := default_maps;
          bannedMaps := [];
          selectedMap := None;
          vetoOrder := [];
          currentVeto := alpha;
          vetoIndex := 0;
          serverInfo := no_server;
          result := {| winner := None; score_alpha := 0; score_beta := 0 |};
          vetoStartedAt := None;
          readyStartedAt := None;
          completedAt := None |}
  | _, _ => Err "Match validation failed"
  end.

(** [this.players.find(p => p.steamId === steamId && p.team === 'undrafted')]:
    index and element of the first hit. *)
Definition find_undrafted (sid : string) (ps : list Player)
  : option (nat * Player) :=
  list_find (fun p => steamId p = sid ∧ team p = undrafted) ps.

(** [this.players.find(p => p.team === 'undrafted')] *)
Definition find_any_undrafted (ps : list Player) : option (nat * Player) :=
  list_find (fun p => team p = undrafted) ps.

(** The last-player rule at the end of the draft. *)
Definition assign_last (ps : list Player) (ts : Teams)
  : list Player * Teams :=
  match find_any_undrafted ps with
  | Some (j, lastPlayer) =>
      let tm := if bool_decide (length (t_alpha ts) < length (t_beta ts))%nat
                then alpha else beta in
      (<[j := set_team (on tm) lastPlayer]> ps,
       push_team tm (steamId lastPlayer) ts)
  | None => (ps, ts)
  end.

Definition pickPlayer (now : Z) (sid : string) (cap : Side) (m : t)
  : outcome t :=
  if bool_decide (currentPicker m ≠ cap) then Err "Not this captain's turn"
  else match find_undrafted sid (players m) with
  | None => Err "Player not found or already drafted"
  | Some (i, player) =>
    let teams1 := push_team cap sid (teams m) in
    let players1 := <[i := set_team (on cap) player]> (players m) in
    let history := pickHistory m ++
      [ {| captain := cap; pick_steamId := sid; pickedAt := now |} ] in
    let index := S (pickIndex m) in
    match pickOrder m !! index with
    | Some next =>
      (* [pickIndex < pickOrder.length]: the next picker is [pickOrder[pickIndex]] *)
      Ok {| matchId := matchId m; players := players1;
            captains := captains m; teams := teams1; phase := phase m;
            acceptPhase := acceptPhase m; pickOrder := pickOrder m;
            currentPicker := next; pickIndex := index;
            pickHistory := history; availableMaps := availableMaps m;
            bannedMaps := bannedMaps m; selectedMap := selectedMap m;
            vetoOrder := vetoOrder m; currentVeto := currentVeto m;
            vetoIndex := vetoIndex m; serverInfo := serverInfo m;
            result := result m; vetoStartedAt := vetoStartedAt m;
            readyStartedAt := readyStartedAt m;
            completedAt := completedAt m |}
    | None =>
      let '(players2, teams2) := assign_last players1 teams1 in
      Ok {| matchId := matchId m; players := players2;
            captains := captains m; teams := teams2; phase := veto;
            acceptPhase := acceptPhase m; pickOrder := pickOrder m;
            currentPicker := currentPicker m; pickIndex := index;
            pickHistory := history; availableMaps := availableMaps m;
            bannedMaps := bannedMaps m; selectedMap := selectedMap m;
            vetoOrder := veto_order (availableMaps m); currentVeto := alpha;
            vetoIndex := 0; serverInfo := serverInfo m;
            result := result m; vetoStartedAt := Some now;
            readyStartedAt := readyStartedAt m;
            completedAt := completedAt m |}
    end
  end.

(** [banMap(mapName, captain)].  The last ban also assigns
    [this.readyStartedAt]; the schema has no such path, so nothing of it
    is stored and the field stays as it was. *)
Definition banMap (now : Z) (mapName : string) (cap : Side) (m : t)
  : outcome t :=
  if bool_decide (currentVeto m ≠ cap) then Err "Not this captain's turn"
  else if negb (includes mapName (availableMaps m))
  then Err "Map not available or already banned"
  else
    let maps' := filter (fun x => x ≠ mapName) (availableMaps m) in
    let banned := bannedMaps m ++
      [ {| map := mapName; bannedBy := cap; bannedAt := now |} ] in
    if bool_decide (length maps' = 1%nat) then
      Ok {| matchId := matchId m; players := players m;
            captains := captains m; teams := teams m; phase := ready;
            acceptPhase := acceptPhase m; pickOrder := pickOrder m;
            currentPicker := currentPicker m; pickIndex := pickIndex m;
            pickHistory := pickHistory m; availableMaps := maps';
            bannedMaps := banned; selectedMap := maps' !! 0%nat;
            vetoOrder := vetoOrder m; currentVeto := currentVeto m;
            vetoIndex := vetoIndex m; serverInfo := serverInfo m;
            result := result m; vetoStartedAt := vetoStartedAt m;
            readyStartedAt := readyStartedAt m;
            completedAt := completedAt m |}
    else
      Ok {| matchId := matchId m; players := players m;
            captains := captains m; teams := teams m; phase := phase m;
            acceptPhase := acceptPhase m; pickOrder := pickOrder m;
            currentPicker := currentPicker m; pickIndex := pickIndex m;
            pickHistory := pickHistory m; availableMaps := maps';
            bannedMaps := banned; selectedMap := selectedMap m;
            vetoOrder := vetoOrder m; currentVeto := other (currentVeto m);
            vetoIndex := S (vetoIndex m); serverInfo := serverInfo m;
            result := result m; vetoStartedAt := vetoStartedAt m;
            readyStartedAt := readyStartedAt m;
            completedAt := completedAt m |}.

(** [generateVetoOrder()] *)
Definition generateVetoOrder (now : Z) (m : t) : t :=
  {| matchId := matchId m; players := players m; captains := captains m;
     teams := teams m; phase := phase m; acceptPhase := acceptPhase m;
     pickOrder := pickOrder m; currentPicker := currentPicker m;
     pickIndex := pickIndex m; pickHistory := pickHistory m;
     availableMaps := availableMaps m; bannedMaps := bannedMaps m;
     selectedMap := selectedMap m;
     vetoOrder := veto_order (availableMaps m); currentVeto := alpha;
     vetoIndex := 0; serverInfo := serverInfo m; result := result m;
     vetoStartedAt := Some now; readyStartedAt := readyStartedAt m;
     completedAt := completedAt m |}.

Definition set_phase (ph : Phase) (m : t) : t :=
  {| matchId := matchId m; players := players m; captains := captains m;
     teams := teams m; phase := ph; acceptPhase := acceptPhase m;
     pickOrder := pickOrder m; currentPicker := currentPicker m;
     pickIndex := pickIndex m; pickHistory := pickHistory m;
     availableMaps := availableMaps m; bannedMaps := bannedMaps m;
     selectedMap := selectedMap m; vetoOrder := vetoOrder m;
     currentVeto := currentVeto m; vetoIndex := vetoIndex m;
     serverInfo := serverInfo m; result := result m;
     vetoStartedAt := vetoStartedAt m; readyStartedAt := readyStartedAt m;
     completedAt := completedAt m |}.

Definition set_serverInfo (si : ServerInfo) (m : t) : t :=
  {| matchId := matchId m; players := players m; captains := captains m;
     teams := teams m; phase := phase m; acceptPhase := acceptPhase m;
     pickOrder := pickOrder m; currentPicker := currentPicker m;
     pickIndex := pickIndex m; pickHistory := pickHistory m;
     availableMaps := availableMaps m; bannedMaps := bannedMaps m;
     selectedMap := selectedMap m; vetoOrder := vetoOrder m;
     currentVeto := currentVeto m; vetoIndex := vetoIndex m;
     serverInfo := si; result := result m;
     vetoStartedAt := vetoStartedAt m; readyStartedAt := readyStartedAt m;
     completedAt := completedAt m |}.

Definition set_acceptPhase (a : AcceptPhase) (m : t) : t :=
  {| matchId := matchId m; players := players m; captains := captains m;
     teams := teams m; phase := phase m; acceptPhase := a;
     pickOrder := pickOrder m; currentPicker := currentPicker m;
     pickIndex := pickIndex m; pickHistory := pickHistory m;
     availableMaps := availableMaps m; bannedMaps := bannedMaps m;
     selectedMap := selectedMap m; vetoOrder := vetoOrder m;
     currentVeto := currentVeto m; vetoIndex := vetoIndex m;
     serverInfo := serverInfo m; result := result m;
     vetoStartedAt := vetoStartedAt m; readyStartedAt := readyStartedAt m;
     completedAt := completedAt m |}.

Definition set_finished (now : Z) (ph : Phase) (r : Result) (m : t) : t :=
  {| matchId := matchId m; players := players m; captains := captains m;
     teams := teams m; phase := ph; acceptPhase := acceptPhase m;
     pickOrder := pickOrder m; currentPicker := currentPicker m;
     pickIndex := pickIndex m; pickHistory := pickHistory m;
     availableMaps := availableMaps m; bannedMaps := bannedMaps m;
     selectedMap := selectedMap m; vetoOrder := vetoOrder m;
     currentVeto := currentVeto m; vetoIndex := vetoIndex m;
     serverInfo := serverInfo m; result := r;
     vetoStartedAt := vetoStartedAt m; readyStartedAt := readyStartedAt m;
     completedAt := Some now |}.

(** [completeMatch(winner, score)]: [if (winner)] skips the empty string,
    [if (score)] holds for the object the controller passes. *)
Definition completeMatch (now : Z) (w : string) (sa sb : Z) (m : t) : t :=
  set_finished now complete
    {| winner := if bool_decide (w = "") then winner (result m) else Some w;
       score_alpha := sa; score_beta := sb |} m.

Definition cancelMatch (now : Z) (m : t) : t :=
  set_finished now cancelled (result m) m.

Definition is_required (sid : string) (a : AcceptPhase) : bool :=
  bool_decide (Exists (fun p => req_steamId p = sid) (requiredPlayers a)).

Definition is_accepted (sid : string) (a : AcceptPhase) : bool :=
  bool_decide (Exists (fun p => acc_steamId p = sid) (acceptedPlayers a)).

Definition acceptMatch (now : Z) (sid : string) (m : t) : outcome t :=
  let a := acceptPhase m in
  if negb (active a) then Err "Accept phase is not active"
  else if bool_decide (expiresAt a < now)%Z then Err "Accept phase has expired"
  else if negb (is_required sid a) then Err "Player is not part of this match"
  else if is_accepted sid a then Err "Player already accepted"
  else Ok (set_acceptPhase
        {| active := active a; startedAt := startedAt a;
           expiresAt := expiresAt a; timeout := timeout a;
           acceptedPlayers := acceptedPlayers a ++
             [ {| acc_steamId := sid; acceptedAt := now |} ];
           requiredPlayers := requiredPlayers a |} m).

Definition allPlayersAccepted (m : t) : bool :=
  bool_decide (length (requiredPlayers (acceptPhase m))
               <= length (acceptedPlayers (acceptPhase m)))%nat.

Record AcceptStatus := mkAcceptStatus {
  st_active : bool;
  acceptedCount : nat;
  requiredCount : nat;
  st_acceptedPlayers : list string;
  st_expiresAt : Z;
  timeRemaining : Z;
}.

Definition getAcceptStatus (now : Z) (m : t) : AcceptStatus :=
  let a := acceptPhase m in
  {| st_active := active a;
     acceptedCount := length (acceptedPlayers a);
     requiredCount := length (requiredPlayers a);
     st_acceptedPlayers := acc_steamId <$> acceptedPlayers a;
     st_expiresAt := expiresAt a;
     timeRemaining := Z.max 0 (expiresAt a - now) |}.

Definition endAcceptPhase (m : t) : t :=
  let a := acceptPhase m in
  let m1 := set_acceptPhase
    {| active := false; startedAt := startedAt a; expiresAt := expiresAt a;
       timeout := timeout a; acceptedPlayers := acceptedPlayers a;
       requiredPlayers := requiredPlayers a |} m in
  set_phase (if allPlayersAccepted m1 then draft else cancelled) m1.

(** One call of a document method, in any phase. *)
Inductive step : t -> t -> Prop :=
  | step_accept now sid m m' : acceptMatch now sid m = Ok m' -> step m m'
  | step_endAccept m : step m (endAcceptPhase m)
  | step_pick now sid cap m m' : pickPlayer now sid cap m = Ok m' -> step m m'
  | step_ban now mapName cap m m' : banMap now mapName cap m = Ok m' -> step m m'
  | step_vetoOrder now m : step m (generateVetoOrder now m)
  | step_live si m : step m (set_phase live (set_serverInfo si m))
  | step_complete now w sa sb m : step m (completeMatch now w sa sb m)
  | step_cancel now m : step m (cancelMatch now m).

(** The states a match created by [createMatch] can reach. *)
Inductive reachable (m0 : t) : t -> Prop :=
  | reach_init : reachable m0 m0
  | reach_step m m' : reachable m0 m -> step m m' -> reachable m0 m'.

(** [getCurrentTurn()] *)
Record Turn := mkTurn {
  turn_phase : Phase;
  turn_captain : Side;
  turn_number : nat;
  turn_total : nat;
}.

Definition getCurrentTurn (m : t) : option Turn :=
  if bool_decide (phase m = draft)
  then Some {| turn_phase := draft; turn_captain := currentPicker m;
               turn_number := pickIndex m + 1;
               turn_total := length (pickOrder m) |}
  else if bool_decide (phase m = veto)
  then Some {| turn_phase := veto; turn_captain := currentVeto m;
               turn_number := vetoIndex m + 1;
               turn_total := length (vetoOrder m) |}
  else None.

(** The sizes of the two teams after [k] picks of the fixed order, the
    captains counted. *)
Definition team_sizes (k : nat) : nat * nat :=
  (1 + length (filter (fun s => s = alpha) (take k pick_order)),
   1 + length (filter (fun s => s = beta) (take k pick_order)))%nat.

(** The players and the two team lists agree after [k] picks. *)
Definition roster_ok (ids : list string) (ps : list Player) (ts : Teams)
    (k : nat) : Prop :=
  steamId <$> ps = ids /\
  length (t_alpha ts) = (team_sizes k).1 /\
  length (t_beta ts) = (team_sizes k).2 /\
  NoDup (t_alpha ts ++ t_beta ts) /\
  (forall x, x ∈ t_alpha ts ++ t_beta ts -> x ∈ ids) /\
  (forall p s, p ∈ ps -> team p = on s <-> steamId p ∈ team_of s ts).

(** The draft bookkeeping of a match of ten players with the ids [ids]. *)
Definition teams_ok (ids : list string) (m : t) : Prop :=
  NoDup ids /\ length ids = 10%nat /\
  roster_ok ids (players m) (teams m) (pickIndex m) /\
  pickOrder m = pick_order /\
  pickIndex m = length (pickHistory m) /\
  ((pickIndex m < 8)%nat -> pick_order !! pickIndex m = Some (currentPicker m)) /\
  (phase m = accept -> pickIndex m = 0%nat) /\
  (phase m = draft -> (pickIndex m < 8)%nat) /\
  (phase m = veto \/ phase m = ready \/ phase m = live -> pickIndex m = 8%nat).

(** The veto bookkeeping of a match. *)
Definition veto_ok (m : t) : Prop :=
  availableMaps m ++ (map <$> bannedMaps m) ≡ₚ default_maps /\
  (phase m = accept \/ phase m = draft ->
   bannedMaps m = [] /\ selectedMap m = None) /\
  (phase m = veto ->
   vetoOrder m = veto_order default_maps /\
   vetoIndex m = length (bannedMaps m) /\ (vetoIndex m < 11)%nat /\
   currentVeto m = (if Nat.even (vetoIndex m) then alpha else beta) /\
   selectedMap m = None) /\
  (phase m = ready \/ phase m = live ->
   length (bannedMaps m) = 11%nat /\
   exists x, availableMaps m = [x] /\ selectedMap m = Some x).

(** The accept bookkeeping of a match. *)
Definition accept_ok (m : t) : Prop :=
  NoDup (acc_steamId <$> acceptedPlayers (acceptPhase m)) /\
  (forall x, x ∈ acc_steamId <$> acceptedPlayers (acceptPhase m) ->
             x ∈ req_steamId <$> requiredPlayers (acceptPhase m)) /\
  (phase m = draft \/ phase m = veto \/ phase m = ready \/ phase m = live ->
   allPlayersAccepted m = true).

End Match.

(** ** The controllers *)

Module Ctl.

(** [p.steamId] for an element [p] of [match.teams.alpha] or
    [match.teams.beta]: the element is a string (the schema type is
    [[String]], [pickPlayer] pushes the [steamId] itself), a string has no
    such property, and the value is [undefined]. *)
Definition team_entry_steamId (p : string) : option string := None.

(** [POST /:matchId/pick] once [verifyCaptain] has resolved the caller to
    a side: [requirePhase('draft')], [verifyTurn], then the controller
    ([steamId] present, a player of the match, not on a team when the team
    entries are read through [.steamId], [match.pickPlayer]). *)
Definition pickRoute (now : Z) (sid : string) (cap : Match.Side)
    (m : Match.t) : outcome Match.t :=
  if negb (bool_decide (Match.phase m = Match.draft))
  then Err "Match must be in draft phase"
  else if bool_decide (Match.currentPicker m ≠ cap) then Err "Not your turn"
  else if bool_decide (sid = "") then Err "Steam ID required"
  else if negb (bool_decide (Exists (fun p => Match.steamId p = sid)
                                    (Match.players m)))
  then Err "Player not in match"
  else if bool_decide
            (Exists (fun p => team_entry_steamId p = Some sid)
                    (Match.t_alpha (Match.teams m) ++
                     Match.t_beta (Match.teams m)))
  then Err "Player already picked"
  else Match.pickPlayer now sid cap m.

Record BanCall := mkBanCall {
  ban_now : Z;
  ban_map : string;
  ban_by : Match.Side;
}.

(** [POST /:matchId/ban] once [verifyCaptain] has resolved the caller to a
    side: [requirePhase('veto')], [verifyTurn], then the controller
    ([mapName] present and available, [match.banMap]). *)
Definition banRoute (c : BanCall) (m : Match.t) : outcome Match.t :=
  if negb (bool_decide (Match.phase m = Match.veto))
  then Err "Match must be in veto phase"
  else if bool_decide (Match.currentVeto m ≠ ban_by c) then Err "Not your turn"
  else if bool_decide (ban_map c = "") then Err "Map name required"
  else if negb (includes (ban_map c) (Match.availableMaps m))
  then Err "Map not available or already banned"
  else Match.banMap (ban_now c) (ban_map c) (ban_by c) m.

(** A sequence of ban requests against one match: the final document and
    the requests that were accepted, in order. *)
Fixpoint run_bans (calls : list BanCall) (m : Match.t)
  : Match.t * list BanCall :=
  match calls with
  | [] => (m, [])
  | c :: cs =>
      match banRoute c m with
      | Ok m' => let '(mf, ok) := run_bans cs m' in (mf, c :: ok)
      | Err _ => run_bans cs m
      end
  end.

(** *** Provisioning after the last ban (match.controller.js, [banMap]) *)

Record ProvisionedServer := mkProvisioned {
  pv_ip : string;
  pv_port : Z;
  pv_password : string;
  pv_serverId : string;
  pv_connectString : string;
}.

(** How [provisionServer(match)] settles: [{ success: true, serverInfo }],
    [{ success: false, error }], or a rejected promise. *)
Inductive Provision :=
  | ProvisionOk (info : ProvisionedServer)
  | ProvisionFailed (error : string)
  | ProvisionThrew (message : string).

(** The [serverInfo] sub-document after the controller's assignment; the
    schema has no [port] path and [rcon] is not assigned. *)
Definition server_of (info : ProvisionedServer) : Match.ServerInfo :=
  {| Match.ip := Some (pv_ip info);
     Match.password := Some (pv_password info);
     Match.rcon := None;
     Match.serverId := Some (pv_serverId info);
     Match.connectString := Some (pv_connectString info) |}.

(** The [.then(...).catch(...)] chain on [provisionServer(match)].
    [notifyThrows] says whether [notifyMatchStart] rejects, which sends the
    success branch into the [.catch] handler after its own save. *)
Definition afterProvision (r : Provision) (notifyThrows : bool)
    (m : Match.t) : Match.t :=
  match r with
  | ProvisionOk info =>
      let m1 := Match.set_phase Match.live
                  (Match.set_serverInfo (server_of info) m) in
      if notifyThrows then Match.set_phase Match.live m1 else m1
  | ProvisionFailed _ => Match.set_phase Match.live m
  | ProvisionThrew _ => Match.set_phase Match.live m
  end.

(** The whole ban request: the route, and once the phase is ready the
    provisioning chain. *)
Definition banRequest (c : BanCall) (r : Provision) (notifyThrows : bool)
    (m : Match.t) : outcome Match.t :=
  match banRoute c m with
  | Ok m' =>
      if bool_decide (Match.phase m' = Match.ready)
      then Ok (afterProvision r notifyThrows m')
      else Ok m'
  | Err e => Err e
  end.

(** *** The veto of simulated captains (utils/autoBanForTestPlayers.js) *)

(** [match.captains[team]] *)
Definition captain_of (team : Match.Side) (m : Match.t) : string :=
  match team with
  | Match.alpha => Match.c_alpha (Match.captains m)
  | Match.beta => Match.c_beta (Match.captains m)
  end.

(** One tick of the interval that [autoBanForTestPlayers] starts, on the
    stored match.  [io] says whether a Socket.IO instance was passed,
    [pick] is [Math.floor(Math.random() * availableMaps.length)], and [r]
    is how [provisionServer] settles when the tick calls it.  When the
    captain on turn is a simulated player the tick bans the drawn map; when
    that ban completed the veto it provisions the server, and only on
    success it stores the server and the live phase: a reported failure is
    logged, and a throw (of [banMap], of [provisionServer]) goes to the
    [catch] of the tick, which logs it too.  The match is then stored as
    [banMap] saved it. *)
Definition autoBanTick (io : bool) (now : Z) (pick : nat) (r : Provision)
    (m : Match.t) : Match.t :=
  if negb (bool_decide (Match.phase m = Match.veto)) then m
  else
    let currentTeam := Match.currentVeto m in
    let currentCaptain := captain_of currentTeam m in
    if negb (String.prefix "SIM_PLAYER_" currentCaptain) then m
    else if negb (bool_decide (2 <= length (Match.availableMaps m))%nat) then m
    else
      match Match.availableMaps m !! pick with
      | None => m
      | Some randomMap =>
          match Match.banMap now randomMap currentTeam m with
          | Err _ => m
          | Ok updatedMatch =>
              if io && (bool_decide (Match.phase updatedMatch = Match.ready)
                        || bool_decide
                             (length (Match.availableMaps updatedMatch)
                              = 1%nat))
              then
                match r with
                | ProvisionOk info =>
                    Match.set_phase Match.live
                      (Match.set_serverInfo (server_of info) updatedMatch)
                | ProvisionFailed _ => updatedMatch
                | ProvisionThrew _ => updatedMatch
                end
              else updatedMatch
          end
      end.

(** One request or timer against a match, as the routes and controllers
    let it through: accepts and the end of the accept phase, picks in the
    draft phase, bans in the veto phase, and the provisioning chain once the
    phase is ready. *)
Inductive route_step : Match.t -> Match.t -> Prop :=
  | route_accept now sid m m' :
      Match.phase m = Match.accept ->
      Match.acceptMatch now sid m = Ok m' -> route_step m m'
  | route_endAccept m :
      Match.active (Match.acceptPhase m) = true
      \/ Match.phase m = Match.accept \/ Match.phase m = Match.draft ->
      route_step m (Match.endAcceptPhase m)
  | route_pick now sid cap m m' :
      pickRoute now sid cap m = Ok m' -> route_step m m'
  | route_ban c m m' : banRoute c m = Ok m' -> route_step m m'
  | route_live r notifyThrows m :
      Match.phase m = Match.ready ->
      route_step m (afterProvision r notifyThrows m).

(** The map pool of a match under way: untouched before the veto, and
    during the veto at least two distinct maps. *)
Definition pool_ok (m : Match.t) : Prop :=
  (Match.active (Match.acceptPhase m) = true -> Match.phase m = Match.accept)
  /\ (Match.phase m = Match.accept \/ Match.phase m = Match.draft ->
      Match.availableMaps m = Match.default_maps)
  /\ (Match.phase m = Match.veto ->
      NoDup (Match.availableMaps m)
      /\ (2 <= length (Match.availableMaps m))%nat).

(** *** Completing a match (match.controller.js, [completeMatch]) *)

Section Complete.

(** The key of the document that [User.findOne({ steamId: undefined })]
    resolves to, if any: the store's answer to a filter whose only value is
    [undefined] is left open. *)
Variable findOne_undefined : User.coll -> option string.

(** [User.findOne({ steamId: v })] *)
Definition findOne (v : option string) (us : User.coll) : option string :=
  match v with
  | Some sid => if bool_decide (is_Some (us !! sid)) then Some sid else None
  | None => findOne_undefined us
  end.

(** [for (const player of team) { user = findOne(...); if (user) updateStats(won) }] *)
Definition updateTeamStats (won : bool) (team : list string)
    (us : User.coll) : User.coll :=
  foldl (fun us player =>
           match findOne (team_entry_steamId player) us with
           | Some k => alter (User.updateStats won) k us
           | None => us
           end) us team.

(** [match.teams[winner]] for [winner] in 'alpha', 'beta'. *)
Definition teams_at (w : string) (m : Match.t) : list string :=
  if bool_decide (w = "alpha") then Match.t_alpha (Match.teams m)
  else Match.t_beta (Match.teams m).

(** [POST /:matchId/complete] after [requirePhase('live')]: the HTTP status,
    the match and the user collection.  The controller lets 'tie' through,
    but [result.winner] is an enum of 'alpha', 'beta', 'draw' and null: the
    [save()] of [match.completeMatch('tie', ...)] rejects the document, the
    [catch] answers 500 and nothing is stored (the controller's own tie
    branch is never reached). *)
Definition completeMatch (now : Z) (w : string) (sa sb : Z) (m : Match.t)
    (us : User.coll) : nat * Match.t * User.coll :=
  if negb (bool_decide (Match.phase m = Match.live)) then (400%nat, m, us)
  else if bool_decide (w = "") || negb (includes w ["alpha"; "beta"; "tie"])
  then (400%nat, m, us)
  else
    let m' := Match.completeMatch now w sa sb m in
    if bool_decide (w = "tie") then (500%nat, m, us)
    else
      let winnerTeam := teams_at w m' in
      let loserTeam :=
        teams_at (if bool_decide (w = "alpha") then "beta" else "alpha") m' in
      let us1 := User.updateMany (team_entry_steamId <$> winnerTeam)
                   User.clear_match_and_count us in
      let us2 := updateTeamStats true winnerTeam us1 in
      let us3 := User.updateMany (team_entry_steamId <$> loserTeam)
                   User.clear_match_and_count us2 in
      let us4 := updateTeamStats false loserTeam us3 in
      (200%nat, m', us4).

End Complete.

(** *** The stored world *)

Record World := mkWorld {
  matches : list Match.t;
  users : User.coll;
  queues : list (string * Queue.t);
  sessions : list Ready.Session;
}.

Definition with_matches (ms : list Match.t) (w : World) : World :=
  {| matches := ms; users := users w; queues := queues w;
     sessions := sessions w |}.

Definition with_sessions (ss : list Ready.Session) (w : World) : World :=
  {| matches := matches w; users := users w; queues := queues w;
     sessions := ss |}.

(** [Queue.getActiveQueue()]: the oldest queue that is waiting or full, or
    a new one (with the object id [fresh]) appended to the collection.
    Returns the index of the queue and the collection. *)
Definition getActiveQueue (fresh : string) (qs : list (string * Queue.t))
  : nat * Queue.t * list (string * Queue.t) :=
  match list_find (fun iq => Queue.status iq.2 = Queue.waiting
                             ∨ Queue.status iq.2 = Queue.full) qs with
  | Some (i, (_, q)) => (i, q, qs)
  | None => (length qs, Queue.create, qs ++ [(fresh, Queue.create)])
  end.

(** What [save()] validates of a players entry of a queue: [steamId],
    [name] and [avatar] are required strings, and an empty string fails
    the required check. *)
Definition entry_saves (player : PlayerRef) : bool :=
  negb (bool_decide (ref_avatar player = ""))
  && negb (bool_decide (ref_steamId player = ""))
  && negb (bool_decide (ref_name player = "")).

(** The loop of [processAcceptTimeout] that puts acceptors back:
    [queue.addPlayer({ steamId, name, avatar: '' }, true)] (the method has
    no second parameter), then [User.updateOne].  The entry has an empty
    [avatar], so the [save()] that ends [addPlayer] rejects the document;
    that throw, like a throw of [addPlayer] itself, leaves the loop, the
    handler's [catch] only logs it, and what is stored is the queue as it
    was before the call. *)
Fixpoint readd (now : Z) (acceptors : list Match.Required) (q : Queue.t)
    (us : User.coll) : Queue.t * User.coll :=
  match acceptors with
  | [] => (q, us)
  | player :: rest =>
      if Queue.has_player (Match.req_steamId player) q then readd now rest q us
      else
        let entry := mkPlayerRef (Match.req_steamId player)
                                 (Match.req_name player) "" in
        match Queue.addPlayer now entry q with
        | Ok q' =>
            if entry_saves entry
            then readd now rest q'
                   (User.updateOne (Match.req_steamId player) User.requeued us)
            else (q, us)
        | Err _ => (q, us)
        end
  end.

(** [processAcceptTimeout(matchId)] (match-accept.controller.js) *)
Definition processAcceptTimeout (now : Z) (fresh : string) (mid : string)
    (w : World) : World :=
  match list_find (fun m => Match.matchId m = mid) (matches w) with
  | None => w
  | Some (i, m) =>
      if negb (Match.active (Match.acceptPhase m)) then w
      else if Match.allPlayersAccepted m then
        with_matches (<[i := Match.endAcceptPhase m]> (matches w)) w
      else
        let a := Match.acceptPhase m in
        let acceptedSteamIds := Match.acc_steamId <$> Match.acceptedPlayers a in
        let acceptors :=
          filter (fun p => includes (Match.req_steamId p) acceptedSteamIds = true)
                 (Match.requiredPlayers a) in
        let us1 :=
          User.updateMany
            ((fun p => Some (Match.req_steamId p)) <$> Match.requiredPlayers a)
            User.clear_match (users w) in
        let '(j, q, qs1) := getActiveQueue fresh (queues w) in
        let '(q', us2) := readd now acceptors q us1 in
        {| matches := <[i := Match.endAcceptPhase m]> (matches w);
           users := us2;
           queues := alter (fun iq => (iq.1, q')) j qs1;
           sessions := sessions w |}
  end.

(** The timer armed by [initializeReadyTimeout] inside
    [startReadyPhaseMatch] (sockets/index.js): [handleReadyTimeout], and
    only for a non-null result the callback that rebuilds the queue the
    session came from ([result.queueGroupId] set and not empty).  The
    caller's own [onTimeout], when one is passed, is outside this model. *)
Definition readyTimeoutFires (mid : string) (w : World) : World :=
  match Ready.handleReadyTimeout mid (sessions w) with
  | (None, _) => w
  | (Some r, ss) =>
      match Ready.tr_queueGroupId r with
      | None => with_sessions ss w
      | Some qid =>
          if bool_decide (qid = "") then with_sessions ss w
          else
            match list_find (fun iq => iq.1 = qid) (queues w) with
            | None => with_sessions ss w
            | Some (j, (_, q)) =>
                let '(q', removedSteamIds) :=
                  Queue.rebuildAfterTimeout (Ready.acceptors r)
                                            (Ready.nonAcceptors r) q in
                {| matches := matches w;
                   users := User.updateMany (Some <$> removedSteamIds)
                              User.clear_inQueue (users w);
                   queues := <[j := (qid, q')]> (queues w);
                   sessions := ss |}
            end
      end
  end.

(** *** Accepting (match-accept.controller.js, [acceptMatch]) *)

(** [POST /api/match/:matchId/accept]: the HTTP status, the error message
    if any, and the matches. *)
Definition acceptMatch (now : Z) (mid sid : string) (ms : list Match.t)
  : nat * option string * list Match.t :=
  match list_find (fun m => Match.matchId m = mid) ms with
  | None => (404%nat, Some "Match not found", ms)
  | Some (i, m) =>
      if negb (bool_decide (Match.phase m = Match.accept))
      then (400%nat,
            Some ("Match is in " +:+ Match.phase_name (Match.phase m)
                  +:+ " phase, not accept phase"), ms)
      else
        match Match.acceptMatch now sid m with
        | Err e => (400%nat, Some e, ms)
        | Ok m' =>
            let m'' := if Match.allPlayersAccepted m'
                       then Match.endAcceptPhase m' else m' in
            (200%nat, None, <[i := m'']> ms)
        end
  end.

(** ready.controller.js [acceptReady] on the session collection: the
    status, the error of the answer, whether [createMatchFromReadySession]
    is called, and the collection afterwards.  [uid] is what the request
    yields as user id, [None] when it carries none; [now'] is the time of
    [completeReadyPhase]. *)
Definition acceptReady (now now' : Z) (mid : string) (uid : option string)
    (st : list Ready.Session)
  : nat * option string * bool * list Ready.Session :=
  if bool_decide (mid = "") then (400%nat, Some "matchId required", false, st)
  else match uid with
  | None => (401%nat, Some "Authentication required", false, st)
  | Some uid =>
      match Ready.recordPlayerAccept now mid uid st with
      | (Ready.AcceptError e, _) => (400%nat, Some e, false, st)
      | (Ready.AcceptStats _, st1) =>
          if Ready.checkAllAccepted mid st1
          then (200%nat, None, true, (Ready.completeReadyPhase now' mid st1).2)
          else (200%nat, None, false, st1)
      end
  end.

(** A series of accept requests for one provisional match id, served one
    after the other (each answered before the next is received): the
    number of times the match creation is called, and the collection. *)
Definition acceptReady_all (mid : string)
    (reqs : list (Z * Z * option string)) (st : list Ready.Session)
  : nat * list Ready.Session :=
  foldl (fun '(n, st) '(now, now', uid) =>
           let r := acceptReady now now' mid uid st in
           ((if r.1.2 then S n else n), r.2))
        (0%nat, st) reqs.

(** *** [acceptReady] between its awaits *)

(** Where a request of [acceptReady] stands: before one of the four calls
    it awaits ([recordPlayerAccept], [checkAllAccepted],
    [completeReadyPhase], [createMatchFromReadySession]), or answered. *)
Inductive ReadyStage :=
  | AtRecord
  | AtCheck
  | AtComplete
  | AtCreate
  | Answered (status : nat) (error : option string).

Record ReadyRequest := mkReadyRequest {
  rr_uid : option string;
  rr_stage : ReadyStage;
}.

(** The next call of a request, run on the collection as it is then: the
    request afterwards, whether the call was
    [createMatchFromReadySession], and the collection.  The controller
    does not look at what [completeReadyPhase] returns (null when no
    active session is left), and [createMatchFromReadySession] looks the
    session up by its match id alone. *)
Definition acceptReady_step (now : Z) (mid : string) (r : ReadyRequest)
    (st : list Ready.Session) : ReadyRequest * bool * list Ready.Session :=
  let at_ stage := {| rr_uid := rr_uid r; rr_stage := stage |} in
  match rr_stage r with
  | AtRecord =>
      if bool_decide (mid = "")
      then (at_ (Answered 400 (Some "matchId required")), false, st)
      else match rr_uid r with
      | None => (at_ (Answered 401 (Some "Authentication required")), false, st)
      | Some uid =>
          match Ready.recordPlayerAccept now mid uid st with
          | (Ready.AcceptError e, _) =>
              (at_ (Answered 400 (Some e)), false, st)
          | (Ready.AcceptStats _, st1) => (at_ AtCheck, false, st1)
          end
      end
  | AtCheck =>
      if Ready.checkAllAccepted mid st then (at_ AtComplete, false, st)
      else (at_ (Answered 200 None), false, st)
  | AtComplete => (at_ AtCreate, false, (Ready.completeReadyPhase now mid st).2)
  | AtCreate => (at_ (Answered 200 None), true, st)
  | Answered _ _ => (r, false, st)
  end.

(** Requests in flight for one provisional match id, and a schedule: at
    each entry the request with that index runs its next call, at that
    time.  The state is the requests, the number of calls of
    [createMatchFromReadySession] so far, and the collection. *)
Definition schedule_step (mid : string)
    (state : list ReadyRequest * nat * list Ready.Session) (e : nat * Z)
  : list ReadyRequest * nat * list Ready.Session :=
  let '(reqs, created, st) := state in
  match reqs !! e.1 with
  | None => state
  | Some r =>
      let '(r', c, st') := acceptReady_step e.2 mid r st in
      (<[e.1 := r']> reqs, (if c then S created else created), st')
  end.

Definition run_schedule (mid : string) (schedule : list (nat * Z))
    (reqs : list ReadyRequest) (st : list Ready.Session)
  : list ReadyRequest * nat * list Ready.Session :=
  foldl (schedule_step mid) (reqs, 0%nat, st) schedule.

End Ctl.

(** ** The middlewares and the routes they guard *)

Module Mw.

(** A middleware passes the request on ([next()]) or answers it with a
    status and an error. *)
Inductive Answer (A : Type) : Type :=
  | Next (a : A)
  | Reply (status : nat) (error : string).
Arguments Next {A} a.
Arguments Reply {A} status error.

Definition and_then {A B} (x : Answer A) (f : A -> Answer B) : Answer B :=
  match x with
  | Next a => f a
  | Reply s e => Reply s e
  end.

(** What the chain hangs on the request: [req.steamId] (set by
    [authenticate]), [req.match] (the document, with its place in the
    collection) and [req.captainTeam]. *)
Record Req := mkReq {
  steamId : string;
  match_ : option (nat * Match.t);
  captainTeam : option Match.Side;
}.

(** [phases.join(' or ')] *)
Fixpoint join_or (l : list string) : string :=
  match l with
  | [] => ""
  | [x] => x
  | x :: rest => x +:+ " or " +:+ join_or rest
  end.

(** phase.middleware.js [verifyMatchParticipant] *)
Definition verifyMatchParticipant (mid : string) (ms : list Match.t)
    (r : Req) : Answer Req :=
  if bool_decide (mid = "") then Reply 400 "Match ID required"
  else match list_find (fun m => Match.matchId m = mid) ms with
  | None => Reply 404 "Match not found"
  | Some (i, m) =>
      if bool_decide (Exists (fun p => Match.steamId p = steamId r)
                             (Match.players m))
      then Next {| steamId := steamId r; match_ := Some (i, m);
                   captainTeam := captainTeam r |}
      else Reply 403 "You are not a participant in this match"
  end.

(** phase.middleware.js [verifyCaptain] *)
Definition verifyCaptain (r : Req) : Answer Req :=
  match match_ r with
  | None => Reply 400 "Match not found in request"
  | Some (i, m) =>
      let isAlpha := bool_decide (Match.c_alpha (Match.captains m) = steamId r) in
      let isBeta := bool_decide (Match.c_beta (Match.captains m) = steamId r) in
      if isAlpha || isBeta
      then Next {| steamId := steamId r; match_ := match_ r;
                   captainTeam :=
                     Some (if isAlpha then Match.alpha else Match.beta) |}
      else Reply 403 "Only captains can perform this action"
  end.

(** phase.middleware.js [verifyTurn] *)
Definition verifyTurn (r : Req) : Answer Req :=
  match match_ r, captainTeam r with
  | Some (i, m), Some cap =>
      if bool_decide (Match.phase m = Match.draft) then
        if bool_decide (Match.currentPicker m ≠ cap)
        then Reply 403 "Not your turn" else Next r
      else if bool_decide (Match.phase m = Match.veto) then
        if bool_decide (Match.currentVeto m ≠ cap)
        then Reply 403 "Not your turn" else Next r
      else Reply 400 "Match not in draft or veto phase"
  | _, _ => Reply 400 "Match or captain data not found"
  end.

(** phase.middleware.js [requirePhase(allowedPhases)] *)
Definition requirePhase (allowed : list Match.Phase) (r : Req)
  : Answer Req :=
  match match_ r with
  | None => Reply 400 "Match not found in request"
  | Some (i, m) =>
      if bool_decide (Match.phase m ∈ allowed) then Next r
      else Reply 400 ("Match must be in "
                      +:+ join_or (Match.phase_name <$> allowed)
                      +:+ " phase")
  end.

(** [req.user.currentMatch = null; req.user.inQueue = false] *)
Definition clear_stale (u : User.t) : User.t :=
  User.clear_inQueue (User.clear_match u).

(** auth.middleware.js [canJoinQueue].  [user] is [req.user], [trustScore]
    its field of that name; [Next] carries the document as the middleware
    leaves (and, when it changed it, saved) it.  The phase is compared as
    the string it is stored as. *)
Definition canJoinQueue (trustScore : Z) (user : option User.t)
    (ms : list Match.t) : Answer User.t :=
  match user with
  | None => Reply 401 "Authentication required"
  | Some u =>
      if User.inQueue u then Reply 400 "Already in queue"
      else
        let trusted (u' : User.t) : Answer User.t :=
          if bool_decide (trustScore < 50)%Z
          then Reply 403 "Trust score too low to join queue"
          else Next u' in
        match User.currentMatch u with
        | None => trusted u
        | Some ref =>
            match list_find (fun m => Match.matchId m = ref) ms with
            | None => trusted (clear_stale u)
            | Some (_, m) =>
                if bool_decide (Match.phase_name (Match.phase m) = "completed")
                   || bool_decide (Match.phase_name (Match.phase m) = "cancelled")
                then trusted (clear_stale u)
                else Reply 400 "Already in an active match"
            end
        end
  end.

(** phase.middleware.js [checkActiveMatch] *)
Definition checkActiveMatch (user : option User.t) (ms : list Match.t)
  : Answer User.t :=
  match user with
  | None => Reply 401 "Authentication required"
  | Some u =>
      match User.currentMatch u with
      | None => Next u
      | Some ref =>
          match list_find (fun m => Match.matchId m = ref) ms with
          | None => Next u
          | Some (_, m) =>
              if negb (bool_decide (Match.phase_name (Match.phase m) = "complete"))
                 && negb (bool_decide (Match.phase_name (Match.phase m) = "cancelled"))
              then Reply 403 "Active match in progress"
              else Next (clear_stale u)
          end
      end
  end.

End Mw.

Module Routes.

(** match.controller.js [pickPlayer], with [req.body.steamId],
    [req.match] and [req.captainTeam]: the status, the error if any and the
    matches.  A throw of [match.pickPlayer] is answered 500 with its
    message. *)
Definition pickPlayer (now : Z) (sid : string) (i : nat) (m : Match.t)
    (cap : Match.Side) (ms : list Match.t)
  : nat * option string * list Match.t :=
  if bool_decide (sid = "") then (400%nat, Some "Steam ID required", ms)
  else if negb (bool_decide (Exists (fun p => Match.steamId p = sid)
                                    (Match.players m)))
  then (400%nat, Some "Player not in match", ms)
  else if bool_decide
            (Exists (fun p => Ctl.team_entry_steamId p = Some sid)
                    (Match.t_alpha (Match.teams m) ++
                     Match.t_beta (Match.teams m)))
  then (400%nat, Some "Player already picked", ms)
  else match Match.pickPlayer now sid cap m with
       | Ok m' => (200%nat, None, <[i := m']> ms)
       | Err e => (500%nat, Some e, ms)
       end.

(** match.controller.js [banMap] up to the save of the ban; the
    provisioning that follows the last ban is [Ctl.afterProvision]. *)
Definition banMap (now : Z) (mapName : string) (i : nat) (m : Match.t)
    (cap : Match.Side) (ms : list Match.t)
  : nat * option string * list Match.t :=
  if bool_decide (mapName = "") then (400%nat, Some "Map name required", ms)
  else if negb (includes mapName (Match.availableMaps m))
  then (400%nat, Some "Map not available or already banned", ms)
  else match Match.banMap now mapName cap m with
       | Ok m' => (200%nat, None, <[i := m']> ms)
       | Err e => (500%nat, Some e, ms)
       end.

(** The chain in front of the pick and ban controllers:
    [verifyMatchParticipant, requirePhase(phase), verifyCaptain,
    verifyTurn]. *)
Definition captainChain (ph : Match.Phase) (caller mid : string)
    (ms : list Match.t) : Mw.Answer Mw.Req :=
  Mw.and_then
    (Mw.and_then
       (Mw.and_then
          (Mw.verifyMatchParticipant mid ms (Mw.mkReq caller None None))
          (Mw.requirePhase [ph]))
       Mw.verifyCaptain)
    Mw.verifyTurn.

(** [POST /api/match/:matchId/pick] for the authenticated [caller]. *)
Definition pick (now : Z) (caller mid sid : string) (ms : list Match.t)
  : nat * option string * list Match.t :=
  match captainChain Match.draft caller mid ms with
  | Mw.Reply s e => (s, Some e, ms)
  | Mw.Next r =>
      match Mw.match_ r, Mw.captainTeam r with
      | Some (i, m), Some cap => pickPlayer now sid i m cap ms
      | _, _ => (500%nat, Some "Failed to pick player", ms)
      end
  end.

(** [POST /api/match/:matchId/ban] for the authenticated [caller]. *)
Definition ban (now : Z) (caller mid mapName : string) (ms : list Match.t)
  : nat * option string * list Match.t :=
  match captainChain Match.veto caller mid ms with
  | Mw.Reply s e => (s, Some e, ms)
  | Mw.Next r =>
      match Mw.match_ r, Mw.captainTeam r with
      | Some (i, m), Some cap => banMap now mapName i m cap ms
      | _, _ => (500%nat, Some "Failed to ban map", ms)
      end
  end.

(** The [server] object of the answer of [getServerInfo]. *)
Record ServerReply := mkServerReply {
  sr_ip : string;
  sr_password : option string;
  sr_map : option string;
  sr_connectString : string;
}.

(** The template literal [`${v}`] for a string or [null]. *)
Definition show (v : option string) : string :=
  match v with Some s => s | None => "null" end.

(** match.controller.js [getServerInfo] *)
Definition getServerInfo (m : Match.t) : nat * string + ServerReply :=
  if negb (bool_decide (Match.phase m = Match.live))
     && negb (bool_decide (Match.phase m = Match.complete))
  then inl (400%nat, "Server info only available for live matches")
  else match Match.ip (Match.serverInfo m) with
  | None => inl (404%nat, "Server info not available")
  | Some ip =>
      if bool_decide (ip = "")
      then inl (404%nat, "Server info not available")
      else inr {| sr_ip := ip;
                  sr_password := Match.password (Match.serverInfo m);
                  sr_map := Match.selectedMap m;
                  sr_connectString :=
                    "connect " +:+ ip +:+ "; password "
                    +:+ show (Match.password (Match.serverInfo m)) |}
  end.

(** [GET /api/match/:matchId/server]:
    [verifyMatchParticipant, requirePhase(['live', 'complete'])], then the
    controller. *)
Definition server (caller mid : string) (ms : list Match.t)
  : nat * string + ServerReply :=
  match Mw.and_then
          (Mw.verifyMatchParticipant mid ms (Mw.mkReq caller None None))
          (Mw.requirePhase [Match.live; Match.complete]) with
  | Mw.Reply s e => inl (s, e)
  | Mw.Next r =>
      match Mw.match_ r with
      | Some (_, m) => getServerInfo m
      | None => inl (500%nat, "Failed to get server info")
      end
  end.

(** [Match.deleteOne({ matchId })]: the first document with the id goes. *)
Definition deleteOne (mid : string) (ms : list Match.t) : list Match.t :=
  match list_find (fun m => Match.matchId m = mid) ms with
  | Some (i, _) => delete i ms
  | None => ms
  end.

(** match.controller.js [cancelMatch] on [req.match]: the users and the
    matches afterwards (the answer is always 200). *)
Definition cancelMatch (m : Match.t) (ms : list Match.t) (us : User.coll)
  : list Match.t * User.coll :=
  (deleteOne (Match.matchId m) ms,
   User.updateMany ((fun p => Some (Match.steamId p)) <$> Match.players m)
     Mw.clear_stale us).

End Routes.

(** ** controllers/queue.controller.js *)

Module QueueCtl.

(** [`PEND-${Date.now()}`] *)
Definition provisionalMatchId (now : Z) : string := "PEND-" +:+ pretty now.

Definition set_status (st : Queue.Status) (q : Queue.t) : Queue.t :=
  {| Queue.players := Queue.players q; Queue.status := st;
     Queue.requiredPlayers := Queue.requiredPlayers q;
     Queue.acceptPhase := Queue.acceptPhase q |}.

(** [req.user.inQueue = b; await req.user.save()] *)
Definition set_inQueue (b : bool) (u : User.t) : User.t :=
  {| User.name := User.name u; User.stats := User.stats u;
     User.currentMatch := User.currentMatch u; User.inQueue := b |}.

(** [queue._id.toString()] for the queue at index [j]. *)
Definition queue_id (fresh : string) (j : nat)
    (qs : list (string * Queue.t)) : string :=
  match qs !! j with
  | Some (k, _) => k
  | None => fresh
  end.

Definition store_queue (j : nat) (q : Queue.t)
    (qs : list (string * Queue.t)) : list (string * Queue.t) :=
  alter (fun iq => (iq.1, q)) j qs.

(** The timeout passed to [startReadyPhase]:
    [Math.floor(timeout ? timeout / 1000 : 20)]. *)
Definition ready_seconds (q : Queue.t) : Z :=
  let t := Queue.timeout (Queue.acceptPhase q) in
  if bool_decide (t = 0)%Z then 20%Z else (t / 1000)%Z.

(** [POST /api/queue/join] behind [authenticate] and [canJoinQueue]: the
    status, the error if any, and the stored world.  [me] is
    [{ steamId, name, avatar }] of [req.user], the document of an
    authenticated user, whose schema requires the three strings;
    [t_join], [t_id] and [t_start] are the clock readings of [addPlayer],
    of the provisional id and of [startReadyPhase]; [fresh] is the id a
    new queue gets.  A throw
    (of [addPlayer], or of the save of the session when its match id is
    already stored) is answered 500, whatever was saved before staying
    saved. *)
Definition joinQueue (t_join t_id t_start : Z) (fresh : string)
    (me : PlayerRef) (w : Ctl.World) : nat * option string * Ctl.World :=
  let '(j, queue, qs) := Ctl.getActiveQueue fresh (Ctl.queues w) in
  let world qs' us ss :=
    {| Ctl.matches := Ctl.matches w; Ctl.users := us; Ctl.queues := qs';
       Ctl.sessions := ss |} in
  if Queue.has_player (ref_steamId me) queue
  then (400%nat, Some "Already in queue",
        world qs (Ctl.users w) (Ctl.sessions w))
  else match Queue.addPlayer t_join me queue with
  | Err _ => (500%nat, Some "Failed to join queue",
              world qs (Ctl.users w) (Ctl.sessions w))
  | Ok q1 =>
      let us1 := alter (set_inQueue true) (ref_steamId me) (Ctl.users w) in
      if Queue.isFull q1 then
        let q2 := set_status Queue.processing q1 in
        let playerIds := Queue.steamId <$> Queue.players q2 in
        let pid := provisionalMatchId t_id in
        if bool_decide (pid ∈ Ready.matchId <$> Ctl.sessions w)
        then (500%nat, Some "Failed to join queue",
              world (store_queue j q2 qs) us1 (Ctl.sessions w))
        else
          match Ready.startReadyPhase t_start pid playerIds
                  (Some (queue_id fresh j qs)) (ready_seconds q2)
                  (Ctl.sessions w) with
          | Err _ => (500%nat, Some "Failed to join queue",
                      world (store_queue j q2 qs) us1 (Ctl.sessions w))
          | Ok (_, ss) =>
              (200%nat, None,
               world (store_queue j (set_status Queue.completed q2) qs)
                     us1 ss)
          end
      else (200%nat, None, world (store_queue j q1 qs) us1 (Ctl.sessions w))
  end.

(** [POST /api/queue/leave] behind [authenticate]. *)
Definition leaveQueue (fresh : string) (sid : string) (w : Ctl.World)
  : nat * option string * Ctl.World :=
  let '(j, queue, qs) := Ctl.getActiveQueue fresh (Ctl.queues w) in
  let world qs' us :=
    {| Ctl.matches := Ctl.matches w; Ctl.users := us; Ctl.queues := qs';
       Ctl.sessions := Ctl.sessions w |} in
  if negb (Queue.has_player sid queue)
  then (400%nat, Some "Not in queue", world qs (Ctl.users w))
  else match Queue.removePlayer sid queue with
  | Err _ => (500%nat, Some "Failed to leave queue", world qs (Ctl.users w))
  | Ok q1 =>
      (200%nat, None,
       world (store_queue j q1 qs)
             (alter (set_inQueue false) sid (Ctl.users w)))
  end.

(** A join request with its clock readings and the id a queue created
    for it would get. *)
Record JoinReq := mkJoinReq {
  jr_join : Z;
  jr_id : Z;
  jr_start : Z;
  jr_fresh : string;
  jr_me : PlayerRef;
}.

Definition join (w : Ctl.World) (r : JoinReq)
  : nat * option string * Ctl.World :=
  joinQueue (jr_join r) (jr_id r) (jr_start r) (jr_fresh r) (jr_me r) w.

(** A series of join requests, the answers dropped. *)
Definition joins (reqs : list JoinReq) (w : Ctl.World) : Ctl.World :=
  foldl (fun w r => (join w r).2) w reqs.

(** [error.message || fallback] *)
Definition message_or (fallback e : string) : string :=
  if bool_decide (e = "") then fallback else e.

(** [POST /api/queue/accept] behind [authenticate].  [getActiveQueue]
    always answers a queue, so the 404 branch is never taken.  What the
    controller does once [acceptedPlayers.length === requiredPlayers]
    (processing the accept phase, [createMatchFromQueue], starting the
    server, the notifications) is left open as [onAllAccepted]: it gets the
    index of the queue, the queue and the stored world, and answers the
    message of what it threw, if it threw, and the world it leaves. *)
Definition acceptMatch
    (onAllAccepted : nat -> Queue.t -> Ctl.World -> option string * Ctl.World)
    (fresh sid : string) (w : Ctl.World) : nat * option string * Ctl.World :=
  let '(j, queue, qs) := Ctl.getActiveQueue fresh (Ctl.queues w) in
  let world qs' :=
    {| Ctl.matches := Ctl.matches w; Ctl.users := Ctl.users w;
       Ctl.queues := qs'; Ctl.sessions := Ctl.sessions w |} in
  match Queue.acceptMatch sid queue with
  | Err e => (400%nat, Some (message_or "Failed to accept match" e), world qs)
  | Ok q1 =>
      let w1 := world (store_queue j q1 qs) in
      if bool_decide (length (Queue.acceptedPlayers (Queue.acceptPhase q1))
                      = Queue.requiredPlayers q1)
      then match onAllAccepted j q1 w1 with
           | (Some e, w2) =>
               (400%nat, Some (message_or "Failed to accept match" e), w2)
           | (None, w2) => (200%nat, None, w2)
           end
      else (200%nat, None, w1)
  end.

(** [POST /api/queue/decline] behind [authenticate]. *)
Definition declineMatch (fresh sid : string) (w : Ctl.World)
  : nat * option string * Ctl.World :=
  let '(j, queue, qs) := Ctl.getActiveQueue fresh (Ctl.queues w) in
  let world qs' us :=
    {| Ctl.matches := Ctl.matches w; Ctl.users := us; Ctl.queues := qs';
       Ctl.sessions := Ctl.sessions w |} in
  match Queue.declineMatch sid queue with
  | Err e =>
      (400%nat, Some (message_or "Failed to decline match" e),
       world qs (Ctl.users w))
  | Ok q1 =>
      (200%nat, None,
       world (store_queue j q1 qs)
             (alter (set_inQueue false) sid (Ctl.users w)))
  end.

(** What writes the queue collection: the four requests above and the two
    timers. *)
Inductive queue_step
    (onAllAccepted : nat -> Queue.t -> Ctl.World -> option string * Ctl.World)
  : Ctl.World -> Ctl.World -> Prop :=
  | step_join r w : queue_step onAllAccepted w (join w r).2
  | step_leave fresh sid w :
      queue_step onAllAccepted w (leaveQueue fresh sid w).2
  | step_accept fresh sid w :
      queue_step onAllAccepted w (acceptMatch onAllAccepted fresh sid w).2
  | step_decline fresh sid w :
      queue_step onAllAccepted w (declineMatch fresh sid w).2
  | step_ready_timeout mid w :
      queue_step onAllAccepted w (Ctl.readyTimeoutFires mid w)
  | step_accept_timeout now fresh mid w :
      queue_step onAllAccepted w (Ctl.processAcceptTimeout now fresh mid w).

(** No stored queue is in an accept phase. *)
Definition no_accept_phase (w : Ctl.World) : Prop :=
  Forall (fun iq : string * Queue.t =>
            Queue.active (Queue.acceptPhase iq.2) = false) (Ctl.queues w).

End QueueCtl.

(** ** config/mapPool.js and utils/matchzyConfig.js *)

Module Matchzy.

Record MapEntry := mkMapEntry {
  map_id : string;
  workshopId : option string;
  displayName : string;
}.

Definition MAP_POOL : gmap string MapEntry :=
  list_to_map
    [("Dust II", mkMapEntry "de_dust2" None "Dust II");
     ("Mirage", mkMapEntry "de_mirage" None "Mirage");
     ("Inferno", mkMapEntry "de_inferno" None "Inferno");
     ("Nuke", mkMapEntry "de_nuke" None "Nuke");
     ("Overpass", mkMapEntry "de_overpass" None "Overpass");
     ("Vertigo", mkMapEntry "de_vertigo" None "Vertigo");
     ("Ancient", mkMapEntry "de_ancient" None "Ancient");
     ("Anubis", mkMapEntry "de_anubis" None "Anubis");
     ("Cache", mkMapEntry "3437809122" (Some "3437809122") "Cache");
     ("Cobblestone", mkMapEntry "3070293560" (Some "3070293560")
                                "Cobblestone");
     ("Train", mkMapEntry "3070284539" (Some "3070284539") "Train");
     ("Aztec", mkMapEntry "3079692971" (Some "3079692971") "Aztec")].

(** The property names every object literal inherits: [MAP_POOL[name]] is
    truthy for them and has no [id]. *)
Definition inherited : list string :=
  ["constructor"; "__defineGetter__"; "__defineSetter__"; "hasOwnProperty";
   "__lookupGetter__"; "__lookupSetter__"; "isPrototypeOf";
   "propertyIsEnumerable"; "toString"; "valueOf"; "__proto__";
   "toLocaleString"].

(** [getMapId(mapName)] for a string; [None] is [undefined].  [slug] is
    [mapName.toLowerCase().replace(/\s+/g, '_')]. *)
Definition getMapId (slug : string -> string) (mapName : string)
  : option string :=
  match MAP_POOL !! mapName with
  | Some e => Some (map_id e)
  | None => if includes mapName inherited then None else Some (slug mapName)
  end.

Record TeamConfig := mkTeamConfig {
  team_name : string;
  team_players : gmap string string;
}.

Record Config := mkConfig {
  matchid : Z;
  team1 : TeamConfig;
  team2 : TeamConfig;
  num_maps : nat;
  maplist : list (option string);
  map_sides : list string;
  spectators : gmap string string;
  clinch_series : bool;
  players_per_team : nat;
  cvars : list (string * string);
}.

(** [match.players.find(p => p.steamId === steamId)] *)
Definition find_player (sid : string) (ps : list Match.Player)
  : option Match.Player :=
  snd <$> list_find (fun p => Match.steamId p = sid) ps.

(** [player.name || 'Player'] *)
Definition shown_name (p : Match.Player) : string :=
  if bool_decide (Match.name p = "") then "Player" else Match.name p.

(** The [forEach] that fills [team1Players] or [team2Players].  Assigning
    a string to the key [__proto__] of an object adds no property. *)
Definition team_players_of (ids : list string) (ps : list Match.Player)
  : gmap string string :=
  foldl (fun acc sid =>
           match find_player sid ps with
           | Some p => if bool_decide (sid = "__proto__") then acc
                       else <[sid := shown_name p]> acc
           | None => acc
           end) ∅ ids.

(** [captain ? captain.name : fallback] *)
Definition captain_name (sid fallback : string) (ps : list Match.Player)
  : string :=
  match find_player sid ps with
  | Some p => Match.name p
  | None => fallback
  end.

Definition fixed_cvars : list (string * string) :=
  [("mp_friendlyfire", "0"); ("mp_match_can_clinch", "1");
   ("matchzy_force_teamnames", "1"); ("matchzy_force_playerlocknames", "1");
   ("mp_overtime_enable", "1"); ("mp_overtime_maxrounds", "6");
   ("mp_overtime_startmoney", "16000"); ("mp_warmup_start", "1");
   ("mp_warmup_pausetimer", "1"); ("mp_do_warmup_period", "1");
   ("mp_warmuptime", "60"); ("mp_warmup_end", "0");
   ("mp_autoteambalance", "0"); ("mp_limitteams", "0");
   ("matchzy_knife_winner_decision", "stay");
   ("matchzy_autobalance_teams", "0"); ("matchzy_ready_min_players", "1");
   ("matchzy_disconnect_tolerance_time", "300");
   ("mp_force_assign_teams", "0"); ("mp_respawn_on_death_ct", "0");
   ("mp_respawn_on_death_t", "0"); ("mp_join_grace_time", "60");
   ("mp_autokick", "0"); ("sv_cheats", "0"); ("sv_lan", "0");
   ("sv_hibernate_when_empty", "0"); ("mp_endmatch_votenextleveltime", "0");
   ("mp_roundtime", "1.92"); ("mp_roundtime_defuse", "1.92");
   ("mp_maxrounds", "30"); ("sv_log_onefile", "0"); ("sv_logflush", "1");
   ("sv_logfile", "1"); ("sv_logecho", "1")].

(** [generateGameConfig(match, matchId)].  With [selectedMap] still
    [null], [getMapId] finds no entry and calls [toLowerCase] on [null],
    which throws. *)
Definition generateGameConfig (slug : string -> string) (m : Match.t)
    (matchId : Z) : outcome Config :=
  let ps := Match.players m in
  let team1Players := team_players_of (Match.t_alpha (Match.teams m)) ps in
  let team2Players := team_players_of (Match.t_beta (Match.teams m)) ps in
  let team1Name :=
    captain_name (Match.c_alpha (Match.captains m)) "Team Alpha" ps in
  let team2Name :=
    captain_name (Match.c_beta (Match.captains m)) "Team Beta" ps in
  match Match.selectedMap m with
  | None => Err "Cannot read properties of null (reading 'toLowerCase')"
  | Some mapName =>
      Ok {| matchid := matchId;
            team1 := {| team_name := team1Name;
                        team_players := team1Players |};
            team2 := {| team_name := team2Name;
                        team_players := team2Players |};
            num_maps := 1;
            maplist := [getMapId slug mapName];
            map_sides := ["knife"];
            spectators := ∅;
            clinch_series := true;
            players_per_team := length (Match.t_alpha (Match.teams m));
            cvars :=
              ("hostname",
               "Romish.gg: " +:+ team1Name +:+ " vs " +:+ team2Name
                 +:+ " #" +:+ pretty matchId) :: fixed_cvars |}
  end.

Definition newline : string := String (Ascii.Ascii false true false true false false false false) "".

(** [steamIds.join('\n') + '\n'] *)
Definition generateWhitelist (m : Match.t) : string :=
  String.concat newline
    (Match.t_alpha (Match.teams m) ++ Match.t_beta (Match.teams m))
  +:+ newline.

(** [generateAutoSetup()] *)
Definition generateAutoSetup : string :=
  "matchzy_loadmatch cfg/MatchZy/gameConfig.json" +:+ newline.

(** The id and name of a player as the match stores them, and as the
    queue handed them over. *)
Definition tag (p : Match.Player) : string * string :=
  (Match.steamId p, Match.name p).

Definition rtag (r : PlayerRef) : string * string :=
  (ref_steamId r, ref_name r).

End Matchzy.

(** ** Concrete runs *)

Definition demo_ops : list Queue.Op :=
  [Queue.Join 10 (mkPlayerRef "a" "Ann" "a.png");
   Queue.Join 20 (mkPlayerRef "b" "Bob" "b.png");
   Queue.Join 30 (mkPlayerRef "c" "Cid" "c.png");
   Queue.Leave "a"; Queue.Leave "zz";
   Queue.Join 40 (mkPlayerRef "b" "Bob" "b.png")].

(** A ten-player match with captains p0 and p5, accepted by all ten. *)
Definition ten_players : list PlayerRef :=
  (fun s => mkPlayerRef s ("name " +:+ s) "avatar.png") <$>
  ["p0"; "p1"; "p2"; "p3"; "p4"; "p5"; "p6"; "p7"; "p8"; "p9"].

Definition accept_all (now : Z) (ids : list string) (m : Match.t) : Match.t :=
  foldl (fun m sid => or_keep (Match.acceptMatch now sid m) m) m ids.

Definition demo_created : outcome Match.t :=
  Match.createMatch "MATCH-1" 1000 ten_players ["p0"; "p5"].

Definition demo_match : Match.t :=
  Match.endAcceptPhase
    (accept_all 1500 (ref_steamId <$> ten_players)
       (or_keep demo_created Match.defaults)).

Definition picks (l : list (string * Match.Side)) (m : Match.t) : Match.t :=
  foldl (fun m c => or_keep (Match.pickPlayer 2000 c.1 c.2 m) m) m l.

Definition eight_picks : list (string * Match.Side) :=
  [("p1", Match.alpha); ("p2", Match.alpha); ("p3", Match.beta);
   ("p4", Match.beta); ("p6", Match.alpha); ("p7", Match.beta);
   ("p8", Match.alpha); ("p9", Match.beta)].

(** The same match with an eleventh player, whom no pick reaches. *)
Definition eleven_players : list PlayerRef :=
  ten_players ++ [mkPlayerRef "p10" "name p10" "avatar.png"].

Definition demo_match_of_eleven : Match.t :=
  Match.endAcceptPhase
    (accept_all 1500 (ref_steamId <$> eleven_players)
       (or_keep (Match.createMatch "MATCH-2" 1000 eleven_players ["p0"; "p5"])
                Match.defaults)).

(** The match of the demonstration after its draft, and eleven bans that
    take the twelve default maps down to one. *)
Definition demo_veto : Match.t := picks eight_picks demo_match.

Definition demo_bans : list Ctl.BanCall :=
  [Ctl.mkBanCall 3001 "Dust II" Match.alpha;
   Ctl.mkBanCall 3002 "Mirage" Match.alpha;
   Ctl.mkBanCall 3003 "Mirage" Match.beta;
   Ctl.mkBanCall 3004 "Mirage" Match.alpha;
   Ctl.mkBanCall 3005 "Inferno" Match.alpha;
   Ctl.mkBanCall 3006 "Nuke" Match.beta;
   Ctl.mkBanCall 3007 "Overpass" Match.alpha;
   Ctl.mkBanCall 3008 "Vertigo" Match.beta;
   Ctl.mkBanCall 3009 "Ancient" Match.alpha;
   Ctl.mkBanCall 3010 "Cache" Match.beta;
   Ctl.mkBanCall 3011 "Cobblestone" Match.alpha;
   Ctl.mkBanCall 3012 "Anubis" Match.beta;
   Ctl.mkBanCall 3013 "Train" Match.alpha;
   Ctl.mkBanCall 3014 "Aztec" Match.beta].

(** The ban that ends the veto once ten maps are banned. *)
Definition demo_last_ban : Ctl.BanCall :=
  Ctl.mkBanCall 3013 "Train" Match.alpha.

Definition demo_server : Ctl.ProvisionedServer :=
  Ctl.mkProvisioned "10.0.0.7" 27015 "" "srv-1" "connect 10.0.0.7:27015".

(** The demonstration match, live: draft, veto and provisioning done. *)
Definition demo_live : Match.t :=
  Ctl.afterProvision (Ctl.ProvisionOk demo_server) false
    (Ctl.run_bans demo_bans demo_veto).1.

(** Its ten users, each with [currentMatch] pointing at the match. *)
Definition demo_users : User.coll :=
  list_to_map
    ((fun p => (ref_steamId p,
                User.mkUser (ref_name p) (User.mkStats 4 2 2 1000)
                            (Some "MATCH-1") false)) <$> ten_players).

(** The ready session of the ten players, created at time 1000 with the
    20 second window (so [expiresAt] is 21000), stored alone. *)
Definition demo_sessions : list Ready.Session :=
  match Ready.startReadyPhase 1000 "PEND-1" (ref_steamId <$> ten_players)
          (Some "Q1") 20 [] with
  | Ok (_, st) => st
  | Err _ => []
  end.

Definition seven_acceptors : list string :=
  ["p0"; "p1"; "p2"; "p3"; "p4"; "p5"; "p6"].

(** The match in its accept phase with seven of ten accepted, a queue that
    "late" joined meanwhile, and the users as [createMatchFromQueue] leaves
    them ([currentMatch] set, [inQueue] false). *)
Definition demo_timeout_match : Match.t :=
  accept_all 1500 seven_acceptors (or_keep demo_created Match.defaults).

Definition demo_late_queue : Queue.t :=
  or_keep (Queue.addPlayer 30000 (mkPlayerRef "late" "Late" "late.png")
             Queue.create) Queue.create.

Definition demo_timeout_world : Ctl.World :=
  {| Ctl.matches := [demo_timeout_match];
     Ctl.users := demo_users;
     Ctl.queues := [("Q2", demo_late_queue)];
     Ctl.sessions := [] |}.

(** The ReadySession path at its deadline: the queue the session came from
    still lists the ten players, seven have accepted, and all ten users
    have [inQueue] set. *)
Definition demo_full_queue : Queue.t :=
  foldl (fun q p => or_keep (Queue.addPlayer 500 p q) q) Queue.create
        ten_players.

Definition demo_queued_users : User.coll :=
  list_to_map
    ((fun p => (ref_steamId p,
                User.mkUser (ref_name p) (User.mkStats 4 2 2 1000) None true))
     <$> ten_players).

Definition demo_ready_world : Ctl.World :=
  {| Ctl.matches := [];
     Ctl.users := demo_queued_users;
     Ctl.queues := [("Q1", demo_full_queue)];
     Ctl.sessions :=
       foldl (fun st u => (Ready.recordPlayerAccept 1500 "PEND-1" u st).2)
             demo_sessions seven_acceptors |}.

(** A ready session started for the ten players, two of them accept. *)
Definition demo_calls : list Ready.Call :=
  [Ready.Start 1000 "PEND-1" (ref_steamId <$> ten_players) (Some "Q1") 20;
   Ready.Accept 1500 "PEND-1" "p0"; Ready.Accept 1600 "PEND-1" "p4"].

Definition demo_timed_out : list Ready.Session :=
  Ready.calls (demo_calls ++ [Ready.Timeout "PEND-1"]) [].

(** Ten join requests, one per player of [ten_players], a second apart
    from time 1000 on; the first one finds no open queue and creates "Q1".
    The world they arrive in has the ten users and nothing else. *)
Definition demo_join (i : Z) (p : PlayerRef) : QueueCtl.JoinReq :=
  QueueCtl.mkJoinReq (1000 + i) (1000 + i) (1000 + i) "Q1" p.


Definition demo_join_front : list QueueCtl.JoinReq :=
  imap (fun i p => demo_join (Z.of_nat i) p) (take 9 ten_players).

Definition demo_join_last : QueueCtl.JoinReq :=
  demo_join 9 (mkPlayerRef "p9" "name p9" "avatar.png").

Definition demo_lobby_users : User.coll :=
  list_to_map
    ((fun p => (ref_steamId p,
                User.mkUser (ref_name p) (User.mkStats 4 2 2 1000) None false))
     <$> ten_players).

Definition demo_lobby : Ctl.World :=
  {| Ctl.matches := []; Ctl.users := demo_lobby_users; Ctl.queues := [];
     Ctl.sessions := [] |}.

(** The demonstration match drafted and vetoed through the routes: the
    eight picks, then the bans of [demo_bans] (those out of turn or of a
    map already banned are refused), which leave one map. *)
Definition route_picks (l : list (string * Match.Side)) (m : Match.t)
  : Match.t :=
  foldl (fun m c => or_keep (Ctl.pickRoute 2000 c.1 c.2 m) m) m l.

Definition demo_ready : Match.t :=
  (Ctl.run_bans demo_bans (route_picks eight_picks demo_match)).1.

(** The ten users of [demo_lobby] after their join requests, and seven of
    them accepting the ready session this started (PEND-1009, which
    expires at 21009) through the accept request. *)
Definition demo_joined : Ctl.World :=
  QueueCtl.joins (demo_join_front ++ [demo_join_last]) demo_lobby.

Definition demo_seven_accepts : list (Z * Z * option string) :=
  (fun u => (2000%Z, 2001%Z, Some u)) <$> seven_acceptors.

Definition demo_at_deadline : Ctl.World :=
  Ctl.with_sessions
    (Ctl.acceptReady_all "PEND-1009" demo_seven_accepts
       (Ctl.sessions demo_joined)).2
    demo_joined.

(** The same world once the TTL index has deleted the expired session. *)
Definition demo_after_deadline : Ctl.World :=
  Ctl.with_sessions
    (Ready.calls [Ready.Purge 22000] (Ctl.sessions demo_at_deadline))
    demo_at_deadline.

(** A match whose ten players are simulated ones, SIM_PLAYER_0 and
    SIM_PLAYER_5 the captains: accepted by all and drafted, then ten ticks
    of the auto-ban, each drawing the first map left, so that Train and
    Aztec are left and it is alpha's turn. *)
Definition sim_ids : list string :=
  (fun s => "SIM_PLAYER_" +:+ s)
    <$> ["0"; "1"; "2"; "3"; "4"; "5"; "6"; "7"; "8"; "9"].

Definition sim_players : list PlayerRef :=
  (fun s => mkPlayerRef s ("name " +:+ s) "avatar.png") <$> sim_ids.

Definition sim_created : Match.t :=
  or_keep (Match.createMatch "MATCH-7" 1000 sim_players
             ["SIM_PLAYER_0"; "SIM_PLAYER_5"]) Match.defaults.

Definition sim_picks : list (string * Match.Side) :=
  [("SIM_PLAYER_1", Match.alpha); ("SIM_PLAYER_2", Match.alpha);
   ("SIM_PLAYER_3", Match.beta); ("SIM_PLAYER_4", Match.beta);
   ("SIM_PLAYER_6", Match.alpha); ("SIM_PLAYER_7", Match.beta);
   ("SIM_PLAYER_8", Match.alpha); ("SIM_PLAYER_9", Match.beta)].

Definition sim_veto : Match.t :=
  route_picks sim_picks
    (Match.endAcceptPhase (accept_all 1500 sim_ids sim_created)).

Definition sim_two_maps_left : Match.t :=
  Nat.iter 10 (Ctl.autoBanTick true 3000 0 (Ctl.ProvisionFailed "no server"))
    sim_veto.

(** The session of [demo_sessions], and the accept requests of p0..p7,
    served one after the other. *)
Definition demo_session : Ready.Session :=
  Ready.mkSession "PEND-1" (Some "Q1") (ref_steamId <$> ten_players)
    ((fun u => Ready.mkSPlayer u false None) <$> (ref_steamId <$> ten_players))
    21000 Ready.active None.

Definition demo_eight_accepts : list (Z * Z * option string) :=
  (fun u => (1500%Z, 1501%Z, Some u))
    <$> ["p0"; "p1"; "p2"; "p3"; "p4"; "p5"; "p6"; "p7"].

(** ** Queue positions *)

Section QueuePositions.
Import Queue.

Lemma recalc_positions_ok l : positions_ok (recalc l).
Proof.
  intros i e. unfold recalc. rewrite list_lookup_imap.
  destruct (l !! i) as [p|]; simpl; [|done].
  intros [= <-]. done.
Qed.

Create HintDb queue_pos.
#[local] Hint Resolve recalc_positions_ok : queue_pos.

Lemma addPlayer_positions_ok now player q q' :
  positions_ok (players q) → addPlayer now player q = Ok q' →
  positions_ok (players q').
Proof.
  intros Hq. unfold addPlayer.
  destruct (has_player _ _); [done|].
  case_bool_decide; [done|]. intros [= <-]. simpl.
  intros i e Hi. apply lookup_app_Some in Hi as [Hi | [Hge Hi]].
  - by apply Hq.
  - apply list_lookup_singleton_Some in Hi as [Hi <-]. simpl. lia.
Qed.

Lemma removePlayer_positions_ok sid q q' :
  removePlayer sid q = Ok q' → positions_ok (players q').
Proof.
  unfold removePlayer. case_bool_decide; [done|].
  intros [= <-]. apply recalc_positions_ok.
Qed.

Lemma apply_op_positions_ok q o :
  positions_ok (players q) → positions_ok (players (apply_op q o)).
Proof.
  intros Hq. destruct o as [now player | sid | | acc non]; simpl.
  - destruct (addPlayer now player q) as [q'|] eqn:E; simpl; [|done].
    by eapply addPlayer_positions_ok.
  - destruct (removePlayer sid q) as [q'|] eqn:E; simpl; [|done].
    by eapply removePlayer_positions_ok.
  - auto with queue_pos.
  - auto with queue_pos.
Qed.

Lemma run_positions_ok ops q :
  positions_ok (players q) → positions_ok (players (run ops q)).
Proof.
  revert q. induction ops as [|o ops IH]; intros q Hq; [done|].
  apply IH. by apply apply_op_positions_ok.
Qed.

(** C7. Starting from the queue that [getActiveQueue] creates, after any
    sequence of joins, leaves and accept-phase or ready-timeout rebuilds
    (failed calls leave the queue as it was), the entries' positions are
    the contiguous integers 1..n in array order:
    [entries[i].position = i + 1]. *)
Theorem queue_positions_contiguous (ops : list Queue.Op) :
  ∀ i e, Queue.players (Queue.run ops Queue.create) !! i = Some e →
         Queue.position e = (i + 1)%nat.
Proof.
  apply run_positions_ok. intros i e Hi. simpl in Hi. by rewrite lookup_nil in Hi.
Qed.

Lemma queue_positions_contiguous_witness :
  ∃ e, Queue.players (Queue.run demo_ops Queue.create) !! 1%nat = Some e ∧
       Queue.steamId e = "c" ∧ Queue.position e = 2%nat.
Proof.
  eexists. split; [vm_compute; reflexivity|]. split; [reflexivity|].
  apply (queue_positions_contiguous demo_ops 1). vm_compute. reflexivity.
Defined.

End QueuePositions.

(** ** The draft: pick order and [pickPlayer] *)

Section Draft.
Import Match.

Lemma pickPlayer_Ok now sid cap m m' :
  pickPlayer now sid cap m = Ok m' →
  currentPicker m = cap ∧
  ∃ i p, find_undrafted sid (players m) = Some (i, p) ∧
    let ps1 := <[i := set_team (on cap) p]> (players m) in
    let ts1 := push_team cap sid (teams m) in
    pickHistory m' = pickHistory m ++ [mkPick cap sid now] ∧
    pickIndex m' = S (pickIndex m) ∧
    pickOrder m' = pickOrder m ∧
    availableMaps m' = availableMaps m ∧
    captains m' = captains m ∧
    match pickOrder m !! S (pickIndex m) with
    | Some next =>
        players m' = ps1 ∧ teams m' = ts1 ∧ phase m' = phase m ∧
        currentPicker m' = next
    | None =>
        (players m', teams m') = assign_last ps1 ts1 ∧ phase m' = veto ∧
        currentVeto m' = alpha ∧ vetoIndex m' = 0%nat ∧
        vetoOrder m' = veto_order (availableMaps m)
    end.
Proof.
  unfold pickPlayer. case_bool_decide as Hturn; [done|].
  destruct (find_undrafted sid (players m)) as [[i p]|] eqn:Hfind; [|done].
  intros Hok. split; [by destruct (decide (currentPicker m = cap))|].
  exists i, p. split; [done|]. cbv zeta.
  destruct (pickOrder m !! S (pickIndex m)) as [next|] eqn:Hnext.
  - injection Hok as <-. by simpl.
  - destruct (assign_last _ _) as [ps2 ts2] eqn:Hlast.
    injection Hok as <-. by simpl.
Qed.

Lemma pickPlayer_wrong_turn now sid cap m :
  cap ≠ currentPicker m →
  pickPlayer now sid cap m = Err "Not this captain's turn".
Proof.
  intros Hne. unfold pickPlayer. case_bool_decide as H; [done|congruence].
Qed.

Lemma find_undrafted_None sid ps :
  (∀ p, p ∈ ps → steamId p = sid → team p ≠ undrafted) →
  find_undrafted sid ps = None.
Proof.
  intros Hno. unfold find_undrafted. apply list_find_None, Forall_forall.
  intros p Hp [Hs Ht]. by apply (Hno p).
Qed.

Lemma pickPlayer_unavailable now sid cap m :
  (∀ p, p ∈ players m → steamId p = sid → team p ≠ undrafted) →
  pickPlayer now sid cap m =
    Err (if bool_decide (currentPicker m ≠ cap)
         then "Not this captain's turn"
         else "Player not found or already drafted").
Proof.
  intros Hno. unfold pickPlayer. case_bool_decide; [done|].
  by rewrite find_undrafted_None.
Qed.

Lemma assign_last_spec ps ts ps' ts' :
  assign_last ps ts = (ps', ts') →
  (Forall (fun p => team p ≠ undrafted) ps ∧ ps' = ps ∧ ts' = ts) ∨
  (∃ j q, ps !! j = Some q ∧ team q = undrafted ∧
     (∀ k r, ps !! k = Some r → (k < j)%nat → team r ≠ undrafted) ∧
     let side := if bool_decide (length (t_alpha ts) < length (t_beta ts))%nat
                 then alpha else beta in
     ps' = <[j := set_team (on side) q]> ps ∧
     team_of side ts' = team_of side ts ++ [steamId q] ∧
     team_of (other side) ts' = team_of (other side) ts).
Proof.
  unfold assign_last, find_any_undrafted.
  destruct (list_find _ ps) as [[j q]|] eqn:Hfind.
  - apply list_find_Some in Hfind as (Hj & Hq & Hmin).
    intros [= <- <-]. right. exists j, q. repeat split; try done.
    + case_bool_decide; done.
    + case_bool_decide; done.
  - apply list_find_None in Hfind. intros [= <- <-]. by left.
Qed.

Lemma acceptMatch_Ok now sid m m' :
  Match.acceptMatch now sid m = Ok m' →
  active (acceptPhase m) = true ∧ (now <= expiresAt (acceptPhase m))%Z ∧
  is_required sid (acceptPhase m) = true ∧
  is_accepted sid (acceptPhase m) = false ∧
  m' = set_acceptPhase
         {| active := active (acceptPhase m);
            startedAt := startedAt (acceptPhase m);
            expiresAt := expiresAt (acceptPhase m);
            timeout := timeout (acceptPhase m);
            acceptedPlayers := acceptedPlayers (acceptPhase m) ++
                               [mkAccepted sid now];
            requiredPlayers := requiredPlayers (acceptPhase m) |} m.
Proof.
  unfold Match.acceptMatch.
  destruct (active (acceptPhase m)); [|done]. simpl.
  case_bool_decide as Hexp; [done|].
  destruct (is_required sid (acceptPhase m)); [|done]. simpl.
  destruct (is_accepted sid (acceptPhase m)); [done|].
  intros [= <-]. repeat split; try done. lia.
Qed.

Lemma banMap_Ok now mapName cap m m' :
  banMap now mapName cap m = Ok m' →
  currentVeto m = cap ∧ mapName ∈ availableMaps m ∧
  availableMaps m' = filter (fun x => x ≠ mapName) (availableMaps m) ∧
  bannedMaps m' = bannedMaps m ++ [mkBan mapName cap now] ∧
  players m' = players m ∧ teams m' = teams m ∧
  pickOrder m' = pickOrder m ∧ captains m' = captains m ∧
  serverInfo m' = serverInfo m ∧
  if bool_decide (length (availableMaps m') = 1%nat)
  then phase m' = ready ∧ selectedMap m' = availableMaps m' !! 0%nat ∧
       currentVeto m' = currentVeto m
  else phase m' = phase m ∧ selectedMap m' = selectedMap m ∧
       currentVeto m' = other (currentVeto m) ∧
       vetoIndex m' = S (vetoIndex m).
Proof.
  unfold banMap, includes. case_bool_decide as Hturn; [done|].
  case_bool_decide as Hin; [|done]. simpl.
  destruct (bool_decide (length (filter _ (availableMaps m)) = 1%nat)) eqn:E;
    intros [= <-]; simpl; rewrite E; done.
Qed.

(** No document method changes the pick order or the captains, and a
    player's team only ever goes from [undrafted] to a side. *)
Lemma step_frame m m' :
  step m m' →
  pickOrder m' = pickOrder m ∧ captains m' = captains m ∧
  ∀ p', p' ∈ players m' → team p' ≠ undrafted ∨ p' ∈ players m.
Proof.
  destruct 1 as [now sid m m' H | m | now sid cap m m' H | now mp cap m m' H
                | now m | si m | now w sa sb m | now m].
  - unfold acceptMatch in H.
    repeat (destruct (negb _) || destruct (bool_decide _)
            || destruct (is_accepted _ _)); try done.
    injection H as <-. simpl. auto.
  - simpl. auto.
  - apply pickPlayer_Ok in H as (_ & i & p & Hfind & Hrest). cbv zeta in Hrest.
    destruct Hrest as (_ & _ & Hpo & _ & Hcap & Hcase).
    split; [done|]. split; [done|].
    assert (Hps1 : ∀ p', p' ∈ <[i:=set_team (on cap) p]> (players m) →
                         team p' ≠ undrafted ∨ p' ∈ players m).
    { intros p' Hp'. apply list_elem_of_lookup in Hp' as [k Hk].
      destruct (decide (k = i)) as [->|Hne].
      - apply list_lookup_insert_Some in Hk as [(_ & <- & _)|[? _]]; [|done].
        by left.
      - rewrite list_lookup_insert_ne in Hk by done.
        right. by eapply list_elem_of_lookup_2. }
    destruct (pickOrder m !! S (pickIndex m)).
    + destruct Hcase as (-> & _). done.
    + destruct Hcase as (Hlast & _). symmetry in Hlast.
      apply assign_last_spec in Hlast as [(_ & -> & _)|(j & q & _ & _ & _ & Hl)];
        [done|].
      cbv zeta in Hl. destruct Hl as (-> & _).
      intros p' Hp'. apply list_elem_of_lookup in Hp' as [k Hk].
      destruct (decide (k = j)) as [->|Hne].
      * apply list_lookup_insert_Some in Hk as [(_ & <- & _)|[? _]]; [|done].
        left. simpl. by case_bool_decide.
      * rewrite list_lookup_insert_ne in Hk by done.
        apply Hps1. by eapply list_elem_of_lookup_2.
  - apply banMap_Ok in H as (_ & _ & _ & _ & -> & _ & -> & -> & _). auto.
  - simpl. auto.
  - simpl. auto.
  - simpl. auto.
  - simpl. auto.
Qed.

Lemma reachable_frame m0 m :
  reachable m0 m →
  pickOrder m = pickOrder m0 ∧ captains m = captains m0 ∧
  ∀ p, p ∈ players m → team p ≠ undrafted ∨ p ∈ players m0.
Proof.
  induction 1 as [|m m' _ (IHo & IHc & IHp) Hstep]; [auto|].
  apply step_frame in Hstep as (Ho & Hc & Hp).
  split; [congruence|]. split; [congruence|].
  intros p Hin. destruct (Hp p Hin) as [?|Hm]; auto.
Qed.

Lemma createMatch_Ok id now ps caps m :
  createMatch id now ps caps = Ok m →
  ∃ c0 c1, caps !! 0%nat = Some c0 ∧ caps !! 1%nat = Some c1 ∧
    captains m = mkCaptains c0 c1 ∧ teams m = mkTeams [c0] [c1] ∧
    pickOrder m = pick_order ∧ currentPicker m = alpha ∧
    pickIndex m = 0%nat ∧ phase m = accept ∧
    availableMaps m = default_maps ∧ serverInfo m = no_server ∧
    players m = (fun p =>
      mkPlayer (ref_steamId p) (ref_name p) (ref_avatar p)
        (if includes (ref_steamId p) caps
         then (if bool_decide (ref_steamId p = c0) then on alpha else on beta)
         else undrafted)) <$> ps.
Proof.
  unfold createMatch.
  destruct (caps !! 0%nat) as [c0|]; [|done].
  destruct (caps !! 1%nat) as [c1|]; [|done].
  destruct (negb _); [done|].
  intros [= <-]. exists c0, c1. by simpl.
Qed.

Lemma pickPlayer_progress now sid m p :
  p ∈ players m → steamId p = sid → team p = undrafted →
  ∃ m', pickPlayer now sid (currentPicker m) m = Ok m'.
Proof.
  intros Hp Hs Ht. unfold pickPlayer.
  rewrite (bool_decide_eq_false_2 (currentPicker m ≠ currentPicker m))
    by (by intros H; apply H).
  destruct (find_undrafted sid (players m)) as [[i q]|] eqn:Hfind.
  - destruct (pickOrder m !! S (pickIndex m)); [by eexists|].
    destruct (assign_last _ _). by eexists.
  - apply list_find_None in Hfind. rewrite Forall_forall in Hfind.
    by destruct (Hfind p Hp).
Qed.

(** C1. A match made by [createMatch] has the fixed pick order
    alpha, alpha, beta, beta, alpha, beta, alpha, beta (in every state it
    reaches, so also in the draft phase) and starts with picker alpha.
    [pickPlayer] throws when the acting side is not the current picker and
    when no undrafted player has the given id; a pick by the current
    picker of an undrafted player succeeds.  A successful pick was made by
    the current picker; the player picked is the first undrafted entry
    with the id, and afterwards that entry has the acting side as its team
    (id, name and avatar kept) and the id is on that side's team list; the
    pick is appended to the pick history and the pick index advances by
    one.  While picks remain nothing else changes in players and teams,
    the phase stays and the next picker is read off the pick order; when
    the order is exhausted the phase becomes veto and the first player
    still undrafted, if any, gets as team alpha when alpha has strictly
    fewer members and beta otherwise, and is appended to that side's
    list. *)
Theorem draft_pick_sequence :
  (∀ id now ps caps m, Match.createMatch id now ps caps = Ok m →
     Match.pickOrder m =
       [Match.alpha; Match.alpha; Match.beta; Match.beta;
        Match.alpha; Match.beta; Match.alpha; Match.beta] ∧
     Match.currentPicker m = Match.alpha ∧ Match.pickIndex m = 0%nat ∧
     ∀ m', Match.reachable m m' → Match.pickOrder m' = Match.pickOrder m) ∧
  (∀ now sid cap m, cap ≠ Match.currentPicker m →
     Match.pickPlayer now sid cap m = Err "Not this captain's turn") ∧
  (∀ now sid cap m,
     (∀ p, p ∈ Match.players m → Match.steamId p = sid →
           Match.team p ≠ Match.undrafted) →
     cap = Match.currentPicker m →
     Match.pickPlayer now sid cap m =
       Err "Player not found or already drafted") ∧
  (∀ now sid m p,
     p ∈ Match.players m → Match.steamId p = sid →
     Match.team p = Match.undrafted →
     ∃ m', Match.pickPlayer now sid (Match.currentPicker m) m = Ok m') ∧
  (∀ now sid cap m m', Match.pickPlayer now sid cap m = Ok m' →
     cap = Match.currentPicker m ∧
     ∃ i p, Match.players m !! i = Some p ∧ Match.steamId p = sid ∧
       Match.team p = Match.undrafted ∧
       (∀ k r, Match.players m !! k = Some r → (k < i)%nat →
               ¬ (Match.steamId r = sid ∧ Match.team r = Match.undrafted)) ∧
       let picked :=
         Match.mkPlayer sid (Match.name p) (Match.avatar p) (Match.on cap) in
       let ps1 := <[i := picked]> (Match.players m) in
       let ts1 :=
         match cap with
         | Match.alpha =>
             Match.mkTeams (Match.t_alpha (Match.teams m) ++ [sid])
                           (Match.t_beta (Match.teams m))
         | Match.beta =>
             Match.mkTeams (Match.t_alpha (Match.teams m))
                           (Match.t_beta (Match.teams m) ++ [sid])
         end in
       Match.players m' !! i = Some picked ∧
       length (Match.players m') = length (Match.players m) ∧
       sid ∈ Match.team_of cap (Match.teams m') ∧
       Match.pickHistory m' =
         Match.pickHistory m ++ [Match.mkPick cap sid now] ∧
       Match.pickIndex m' = S (Match.pickIndex m) ∧
       ((S (Match.pickIndex m) < length (Match.pickOrder m))%nat →
          Match.players m' = ps1 ∧ Match.teams m' = ts1 ∧
          Match.phase m' = Match.phase m ∧
          Match.pickOrder m !! S (Match.pickIndex m) =
            Some (Match.currentPicker m')) ∧
       ((length (Match.pickOrder m) <= S (Match.pickIndex m))%nat →
          Match.phase m' = Match.veto ∧
          ((Forall (fun r => Match.team r ≠ Match.undrafted) ps1 ∧
            Match.players m' = ps1 ∧ Match.teams m' = ts1) ∨
           (∃ j q, ps1 !! j = Some q ∧ Match.team q = Match.undrafted ∧
              (∀ k r, ps1 !! k = Some r → (k < j)%nat →
                      Match.team r ≠ Match.undrafted) ∧
              let side :=
                if bool_decide (length (Match.t_alpha ts1)
                                < length (Match.t_beta ts1))%nat
                then Match.alpha else Match.beta in
              Match.players m' =
                <[j := Match.mkPlayer (Match.steamId q) (Match.name q)
                         (Match.avatar q) (Match.on side)]> ps1 ∧
              Match.team_of side (Match.teams m') =
                Match.team_of side ts1 ++ [Match.steamId q] ∧
              Match.team_of (Match.other side) (Match.teams m') =
                Match.team_of (Match.other side) ts1)))).
Proof.
  split_and!.
  - intros id now ps caps m Hc.
    apply createMatch_Ok in Hc as (c0 & c1 & _ & _ & _ & _ & Ho & Hp & Hi & _).
    repeat split; try done.
    intros m' Hr. by apply reachable_frame in Hr as (-> & _).
  - intros. by apply pickPlayer_wrong_turn.
  - intros now sid cap m Hno ->. rewrite pickPlayer_unavailable by done.
    by case_bool_decide.
  - intros. by eapply pickPlayer_progress.
  - intros now sid cap m m' Hok.
    apply pickPlayer_Ok in Hok as (Hturn & i & p & Hfind & Hrest).
    split; [done|].
    apply list_find_Some in Hfind as (Hi & [Hs Ht] & Hmin).
    exists i, p. repeat (split; [done|]).
    cbv zeta in *.
    assert (Hpicked : set_team (on cap) p
                      = mkPlayer sid (name p) (avatar p) (on cap))
      by (unfold set_team; by rewrite Hs).
    assert (Hts : push_team cap sid (teams m) =
                  match cap with
                  | alpha => mkTeams (t_alpha (teams m) ++ [sid])
                                     (t_beta (teams m))
                  | beta => mkTeams (t_alpha (teams m))
                                    (t_beta (teams m) ++ [sid])
                  end) by (by destruct cap).
    rewrite Hpicked, Hts in Hrest. clear Hpicked.
    set (picked := mkPlayer sid (name p) (avatar p) (on cap)) in *.
    set (ps1 := <[i := picked]> (players m)) in *.
    set (ts1 := match cap with alpha => _ | beta => _ end) in *.
    assert (Hlt : (i < length (players m))%nat)
      by (by eapply lookup_lt_Some).
    assert (Hps1 : ps1 !! i = Some picked)
      by (by apply list_lookup_insert_eq).
    assert (Hin1 : sid ∈ team_of cap ts1).
    { subst ts1. destruct cap; simpl; apply elem_of_app; right; by left. }
    destruct Hrest as (Hh & Hx & _ & _ & _ & Hcase).
    destruct (pickOrder m !! S (pickIndex m)) as [next|] eqn:Hnext.
    + destruct Hcase as (Hps & Hts' & Hph & Hcp).
      rewrite Hps, Hts'. split_and!; try done.
      * subst ps1. by rewrite length_insert.
      * intros _. by rewrite Hcp.
      * intros Hge. apply lookup_ge_None_2 in Hge. congruence.
    + destruct Hcase as (Hlast & Hph & _).
      symmetry in Hlast. apply assign_last_spec in Hlast.
      destruct Hlast as [(Hall & Hps & Hts')|(j & q & Hj & Hq & Hfirst & Hl)].
      * rewrite Hps, Hts'. split_and!; try done.
        -- subst ps1. by rewrite length_insert.
        -- intros Hlt'. apply lookup_lt_is_Some_2 in Hlt' as [? ?].
           congruence.
        -- intros _. split; [done|]. by left.
      * cbv zeta in Hl. destruct Hl as (Hps & Hside & Hother).
        assert (Hij : i ≠ j).
        { intros <-. rewrite Hps1 in Hj. injection Hj as <-. done. }
        assert (Hq' : set_team
                        (on (if bool_decide (length (t_alpha ts1)
                                             < length (t_beta ts1))%nat
                             then alpha else beta)) q
                      = mkPlayer (steamId q) (name q) (avatar q)
                          (on (if bool_decide (length (t_alpha ts1)
                                               < length (t_beta ts1))%nat
                               then alpha else beta))) by done.
        rewrite Hq' in Hps.
        split_and!; try done.
        -- rewrite Hps, list_lookup_insert_ne by done. exact Hps1.
        -- rewrite Hps, length_insert. subst ps1. by rewrite length_insert.
        -- destruct (decide (cap = if bool_decide (length (t_alpha ts1)
                                                  < length (t_beta ts1))%nat
                                   then alpha else beta)) as [E|E].
           ++ rewrite E in Hin1 |- *. rewrite Hside. apply elem_of_app.
              by left.
           ++ assert (cap = other (if bool_decide (length (t_alpha ts1)
                                                   < length (t_beta ts1))%nat
                                   then alpha else beta)) as E'.
              { destruct cap; case_bool_decide; simpl in *; congruence. }
              rewrite E' in Hin1 |- *. by rewrite Hother.
        -- intros Hlt'. apply lookup_lt_is_Some_2 in Hlt' as [? ?].
           congruence.
        -- intros _. split; [done|]. right. by exists j, q.
Qed.

Example demo_match_in_draft :
  Match.phase demo_match = Match.draft ∧
  Match.steamId <$>
    filter (fun p => Match.team p = Match.undrafted) (Match.players demo_match)
  = ["p1"; "p2"; "p3"; "p4"; "p6"; "p7"; "p8"; "p9"].
Proof. vm_compute. split; reflexivity. Qed.

Example demo_full_draft :
  let m := picks eight_picks demo_match in
  Match.phase m = Match.veto ∧
  Match.teams m = Match.mkTeams ["p0"; "p1"; "p2"; "p6"; "p8"]
                                ["p5"; "p3"; "p4"; "p7"; "p9"] ∧
  length (Match.vetoOrder m) = 11%nat.
Proof. vm_compute. repeat split; reflexivity. Qed.

(** With eleven players one is left when the pick order is exhausted; the
    teams are level at five, and the player joins beta. *)
Example demo_last_player_on_a_tie :
  let m := picks eight_picks demo_match_of_eleven in
  Match.phase m = Match.veto ∧
  Match.teams m = Match.mkTeams ["p0"; "p1"; "p2"; "p6"; "p8"]
                                ["p5"; "p3"; "p4"; "p7"; "p9"; "p10"].
Proof. vm_compute. repeat split; reflexivity. Qed.

Lemma draft_pick_sequence_witness :
  ∃ m' i p,
    Match.pickPlayer 2000 "p1" (Match.currentPicker demo_match) demo_match
      = Ok m' ∧
    Match.players demo_match !! i = Some p ∧
    Match.team p = Match.undrafted ∧
    Match.players m' !! i =
      Some (Match.mkPlayer "p1" (Match.name p) (Match.avatar p)
              (Match.on (Match.currentPicker demo_match))) ∧
    "p1" ∈ Match.team_of (Match.currentPicker demo_match) (Match.teams m') ∧
    Match.pickIndex m' = S (Match.pickIndex demo_match).
Proof.
  pose (p1 := Match.mkPlayer "p1" "name p1" "avatar.png" Match.undrafted).
  assert (Hin : p1 ∈ Match.players demo_match).
  { apply (list_elem_of_lookup_2 (Match.players demo_match) 1 p1).
    vm_compute. reflexivity. }
  destruct draft_pick_sequence as (_ & _ & _ & Hprogress & Heffect).
  destruct (Hprogress 2000%Z "p1" demo_match p1 Hin eq_refl eq_refl)
    as [m' Hok].
  destruct (Heffect 2000%Z "p1" _ demo_match m' Hok)
    as (_ & i & p & Hi & _ & Ht & _ & Hp' & _ & Hteam & _ & Hidx & _).
  exists m', i, p. by split_and!.
Defined.

(** *** Captains are never in the undrafted pool *)

Lemma filter_keeps_all {A} (P : A → Prop) `{∀ x, Decision (P x)} (l : list A) :
  (∀ x, x ∈ l → P x) → filter P l = l.
Proof.
  induction l as [|x l IH]; intros Hall; [done|].
  rewrite filter_cons_True by (apply Hall; left).
  f_equal. apply IH. intros y Hy. apply Hall. by right.
Qed.

Lemma filter_out_two (l : list string) a b :
  NoDup l → a ≠ b → a ∈ l → b ∈ l →
  length (filter (fun x => includes x [a; b] = false) l) = (length l - 2)%nat.
Proof.
  intros Hnd Hab Ha Hb.
  apply (elem_of_Permutation l a) in Ha as [l1 H1].
  assert (Hb1 : b ∈ l1).
  { rewrite H1 in Hb. apply elem_of_cons in Hb as [?|?]; [congruence|done]. }
  apply (elem_of_Permutation l1 b) in Hb1 as [l2 H2].
  rewrite H2 in H1. rewrite H1 in Hnd.
  apply NoDup_cons in Hnd as [Ha2 Hnd]. apply NoDup_cons in Hnd as [Hb2 _].
  rewrite H1.
  assert (Hin : ∀ x, x ∈ [a; b] → includes x [a; b] ≠ false).
  { intros x Hx. unfold includes. by rewrite bool_decide_eq_true_2. }
  rewrite filter_cons_False by (apply Hin; set_solver).
  rewrite filter_cons_False by (apply Hin; set_solver).
  clear Hin. simpl.
  rewrite filter_keeps_all; [lia|].
  intros x Hx. unfold includes. apply bool_decide_eq_false_2.
  intros Hin. apply elem_of_cons in Hin as [->|Hin]; [set_solver|].
  apply elem_of_cons in Hin as [->|Hin]; [done|]. by apply elem_of_nil in Hin.
Qed.

Lemma created_undrafted_pool id now ps caps m :
  createMatch id now ps caps = Ok m →
  steamId <$> filter (fun p => team p = undrafted) (players m) =
  filter (fun x => includes x caps = false) (ref_steamId <$> ps).
Proof.
  intros Hc. apply createMatch_Ok in Hc as (c0 & c1 & _ & _ & Hrest).
  destruct Hrest as (_ & _ & _ & _ & _ & _ & _ & _ & ->).
  clear. induction ps as [|p ps IH]; [done|].
  rewrite !fmap_cons, !filter_cons. simpl.
  destruct (includes (ref_steamId p) caps) eqn:E.
  - repeat case_decide; try done; by case_bool_decide.
  - repeat case_decide; try done. rewrite fmap_cons. f_equal. apply IH.
Qed.

Lemma created_player_team id now ps caps m c0 c1 p :
  createMatch id now ps caps = Ok m →
  caps !! 0%nat = Some c0 → caps !! 1%nat = Some c1 →
  p ∈ players m →
  (steamId p = c0 → team p = on alpha) ∧
  (steamId p = c1 → c1 ≠ c0 → team p = on beta) ∧
  (steamId p ∈ caps → team p ≠ undrafted).
Proof.
  intros Hc H0 H1 Hp.
  apply createMatch_Ok in Hc as (c0' & c1' & H0' & H1' & Hrest).
  assert (c0' = c0) as -> by congruence. assert (c1' = c1) as -> by congruence.
  destruct Hrest as (_ & _ & _ & _ & _ & _ & _ & _ & Hps).
  rewrite Hps in Hp. apply list_elem_of_fmap in Hp as (r & -> & _). simpl.
  assert (Hin0 : c0 ∈ caps) by (by eapply list_elem_of_lookup_2).
  assert (Hin1 : c1 ∈ caps) by (by eapply list_elem_of_lookup_2).
  unfold includes. repeat split.
  - intros ->. by rewrite !bool_decide_eq_true_2.
  - intros -> Hne. rewrite bool_decide_eq_true_2 by done.
    by rewrite bool_decide_eq_false_2.
  - intros Hin. rewrite bool_decide_eq_true_2 by done. by case_bool_decide.
Qed.

(** C10. [createMatch] puts each captain on their own side: teams.alpha is
    exactly [captains[0]], teams.beta exactly [captains[1]], and a captain's
    player entry has team alpha / beta, never undrafted.  The undrafted pool
    is the list of players that are not captains, eight of them for ten
    distinct players with two distinct captains among them, and accepting
    and ending the accept phase leave it as it is; in every state the match
    reaches, [pickPlayer] on a captain's id throws. *)
Theorem captains_preassigned id now ps caps m :
  Match.createMatch id now ps caps = Ok m →
  ∃ cA cB, caps !! 0%nat = Some cA ∧ caps !! 1%nat = Some cB ∧
    Match.captains m = Match.mkCaptains cA cB ∧
    Match.teams m = Match.mkTeams [cA] [cB] ∧
    (∀ p, p ∈ Match.players m → Match.steamId p = cA →
          Match.team p = Match.on Match.alpha) ∧
    (∀ p, p ∈ Match.players m → Match.steamId p = cB → cB ≠ cA →
          Match.team p = Match.on Match.beta) ∧
    Match.steamId <$>
      filter (fun p => Match.team p = Match.undrafted) (Match.players m) =
      filter (fun x => includes x caps = false) (ref_steamId <$> ps) ∧
    (length ps = 10%nat → NoDup (ref_steamId <$> ps) → caps = [cA; cB] →
     cA ≠ cB → cA ∈ ref_steamId <$> ps → cB ∈ ref_steamId <$> ps →
     length (filter (fun p => Match.team p = Match.undrafted)
                    (Match.players m)) = 8%nat) ∧
    Match.players (Match.endAcceptPhase m) = Match.players m ∧
    (∀ now' sid m', Match.acceptMatch now' sid m = Ok m' →
       Match.players m' = Match.players m) ∧
    (∀ m', Match.reachable m m' → ∀ now' sid cap, sid = cA ∨ sid = cB →
       ∃ msg, Match.pickPlayer now' sid cap m' = Err msg).
Proof.
  intros Hc. pose proof (createMatch_Ok _ _ _ _ _ Hc) as
    (cA & cB & H0 & H1 & Hcap & Hteams & _).
  exists cA, cB. repeat (split; [done|]).
  pose proof (created_undrafted_pool _ _ _ _ _ Hc) as Hpool.
  split; [|split; [|split; [done|split; [|split; [done|split]]]]].
  - intros p Hp. by eapply created_player_team.
  - intros p Hp. by eapply created_player_team.
  - intros Hlen Hnd -> Hne HA HB.
    rewrite <- (length_fmap Match.steamId), Hpool.
    rewrite filter_out_two by done. rewrite length_fmap. lia.
  - intros now' sid m' Hacc.
    by apply acceptMatch_Ok in Hacc as (_ & _ & _ & _ & ->).
  - intros m' Hr now' sid cap Hsid.
    apply reachable_frame in Hr as (_ & _ & Hp).
    eexists. apply pickPlayer_unavailable.
    intros p Hin Hs Hun. destruct (Hp p Hin) as [?|Hm]; [done|].
    eapply created_player_team in Hm as (_ & _ & Hno); [| done..].
    apply Hno; [|done]. rewrite Hs.
    destruct Hsid as [-> | ->]; by eapply list_elem_of_lookup_2.
Qed.

Lemma captains_preassigned_witness :
  ∃ m, demo_created = Ok m ∧
       Match.teams m = Match.mkTeams ["p0"] ["p5"].
Proof.
  exists (or_keep demo_created Match.defaults).
  assert (H : demo_created = Ok (or_keep demo_created Match.defaults))
    by (vm_compute; reflexivity).
  split; [exact H|].
  destruct (captains_preassigned _ _ _ _ _ H)
    as (cA & cB & HA & HB & _ & Ht & _).
  vm_compute in HA, HB. injection HA as <-. injection HB as <-. exact Ht.
Defined.

End Draft.

(** ** The veto: [banMap] behind the ban route *)

Section Veto.
Import Match Ctl.

Lemma filter_out_one (l : list string) x :
  NoDup l → x ∈ l →
  length (filter (fun y => y ≠ x) l) = (length l - 1)%nat.
Proof.
  intros Hnd Hx. apply (elem_of_Permutation l x) in Hx as [k Hk].
  rewrite Hk in Hnd. apply NoDup_cons in Hnd as [Hxk _].
  rewrite Hk. rewrite filter_cons_False by (intros H; by apply H).
  rewrite filter_keeps_all; [simpl; lia|].
  intros y Hy ->. done.
Qed.

Lemma veto_order_alternates (maps : list string) :
  length (veto_order maps) = (length maps - 1)%nat ∧
  ∀ k s, veto_order maps !! k = Some s →
         s = if Nat.even k then alpha else beta.
Proof.
  unfold veto_order. split; [by rewrite length_fmap, length_seq|].
  intros k s Hk. rewrite list_lookup_fmap in Hk.
  destruct (seq 0 (length maps - 1) !! k) as [i|] eqn:Hi; [|done].
  apply lookup_seq in Hi as [-> _]. simpl in Hk. congruence.
Qed.

Lemma banRoute_Ok c m m' :
  banRoute c m = Ok m' →
  phase m = veto ∧ banMap (ban_now c) (ban_map c) (ban_by c) m = Ok m'.
Proof.
  unfold banRoute. case_bool_decide as Hph; [|done]. simpl.
  case_bool_decide; [done|]. case_bool_decide; [done|].
  destruct (negb _); done.
Qed.

Lemma run_bans_closed calls m :
  phase m ≠ veto → run_bans calls m = (m, []).
Proof.
  intros Hph. induction calls as [|c cs IH]; [done|]. simpl.
  unfold banRoute. rewrite bool_decide_eq_false_2 by done. done.
Qed.

(** Any available map can be banned by the side whose turn it is. *)
Lemma banRoute_progress now x m :
  phase m = veto → x ∈ availableMaps m → x ≠ "" →
  is_ok (banRoute (mkBanCall now x (currentVeto m)) m) = true.
Proof.
  intros Hph Hx Hne. unfold banRoute, banMap, includes. simpl.
  rewrite (bool_decide_eq_true_2 _ Hph). simpl.
  rewrite (bool_decide_eq_false_2 (currentVeto m ≠ currentVeto m))
    by (intros H; by apply H).
  rewrite (bool_decide_eq_false_2 _ Hne).
  rewrite (bool_decide_eq_true_2 _ Hx). simpl.
  by destruct (bool_decide (length _ = 1%nat)).
Qed.

Lemma run_bans_spec calls : ∀ m,
  phase m = veto → NoDup (availableMaps m) →
  (2 <= length (availableMaps m))%nat →
  ∀ m' ok, run_bans calls m = (m', ok) →
  let N := length (availableMaps m) in
  (length ok <= N - 1)%nat ∧
  (∀ k c, ok !! k = Some c →
     ban_by c = if Nat.even k then currentVeto m else other (currentVeto m)) ∧
  ((length ok < N - 1)%nat →
     phase m' = veto ∧ selectedMap m' = selectedMap m ∧
     length (availableMaps m') = (N - length ok)%nat) ∧
  (length ok = (N - 1)%nat →
     phase m' = ready ∧
     ∃ x, x ∈ availableMaps m ∧ availableMaps m' = [x] ∧
          selectedMap m' = Some x).
Proof.
  induction calls as [|c cs IH]; intros m Hph Hnd Hlen m' ok Hrun; simpl in Hrun.
  { injection Hrun as <- <-. simpl. repeat split; try done; try lia. }
  destruct (banRoute c m) as [m1|msg] eqn:Hban; [|by eapply IH].
  apply banRoute_Ok in Hban as [_ Hban].
  apply banMap_Ok in Hban as (Hturn & Hin & Hmaps & _ & _ & _ & _ & _ & _ & Hcase).
  assert (Hlen1 : length (availableMaps m1) = (length (availableMaps m) - 1)%nat)
    by (rewrite Hmaps; by apply filter_out_one).
  assert (Hsub : ∀ x, x ∈ availableMaps m1 → x ∈ availableMaps m).
  { intros x. rewrite Hmaps. intros Hx.
    by apply list_elem_of_filter in Hx as [_ ?]. }
  case_bool_decide as Hone.
  - destruct Hcase as (Hph1 & Hsel & _).
    rewrite run_bans_closed in Hrun by (rewrite Hph1; done).
    injection Hrun as <- <-. cbv zeta. simpl.
    split; [lia|]. split; [|split].
    + intros [|k] c' Hk; simpl in Hk; [|by rewrite lookup_nil in Hk].
      injection Hk as <-. simpl. done.
    + intros H. exfalso. lia.
    + intros _. split; [done|].
      destruct (availableMaps m1) as [|x [|? ?]] eqn:E; simpl in Hone; try done.
      exists x. split; [apply Hsub; left|]. split; [done|].
      by rewrite Hsel.
  - destruct Hcase as (Hph1 & Hsel & Hcv & _).
    destruct (run_bans cs m1) as [mf ok1] eqn:Hrun1.
    injection Hrun as <- <-.
    assert (Hnd1 : NoDup (availableMaps m1)) by (rewrite Hmaps; by apply NoDup_filter).
    specialize (IH m1 (eq_trans Hph1 Hph) Hnd1 ltac:(lia) _ _ Hrun1).
    cbv zeta in IH. destruct IH as (IH1 & IH2 & IH3 & IH4).
    cbv zeta. simpl. split; [lia|]. split; [|split].
    + intros [|k] c' Hk; simpl in Hk.
      * injection Hk as <-. simpl. done.
      * apply IH2 in Hk. rewrite Hk, Hcv, Nat.even_succ, <- Nat.negb_even.
        destruct (Nat.even k), (currentVeto m); done.
    + intros Hlt. destruct IH3 as (? & ? & ?); [lia|].
      repeat split; [done|congruence|lia].
    + intros Heq. destruct IH4 as (? & x & ? & ? & ?); [lia|].
      split; [done|]. exists x. auto.
Qed.

Lemma default_maps_distinct :
  NoDup default_maps ∧ length default_maps = 12%nat.
Proof.
  split; [|done]. apply (bool_decide_unpack _). vm_compute. exact I.
Qed.

Lemma pickRoute_Ok now sid cap m m' :
  pickRoute now sid cap m = Ok m' →
  phase m = draft ∧ pickPlayer now sid cap m = Ok m'.
Proof.
  unfold pickRoute. case_bool_decide as Hph; [|done]. simpl.
  repeat (case_bool_decide; simpl; try done).
Qed.

Lemma afterProvision_live r notifyThrows m :
  phase (afterProvision r notifyThrows m) = live.
Proof. destruct r; simpl; [by destruct notifyThrows|done..]. Qed.

Lemma pickPlayer_acceptPhase now sid cap m m' :
  pickPlayer now sid cap m = Ok m' → acceptPhase m' = acceptPhase m.
Proof.
  unfold pickPlayer. case_bool_decide; [done|].
  destruct (find_undrafted _ _) as [[i p]|]; [|done].
  destruct (pickOrder m !! _).
  - by intros [= <-].
  - destruct (assign_last _ _). by intros [= <-].
Qed.

Lemma banMap_acceptPhase now mapName cap m m' :
  banMap now mapName cap m = Ok m' → acceptPhase m' = acceptPhase m.
Proof.
  unfold banMap. case_bool_decide; [done|]. destruct (negb _); [done|].
  case_bool_decide; by intros [= <-].
Qed.

Lemma route_step_pool m m' : route_step m m' → pool_ok m → pool_ok m'.
Proof.
  intros Hstep (Hact & Hpre & Hveto).
  destruct Hstep as [now sid m m' Hph H | m Hg | now sid cap m m' H
                    | c m m' H | r notifyThrows m Hph].
  - apply acceptMatch_Ok in H as (_ & _ & _ & _ & ->).
    split; [|split]; simpl; [auto|auto|congruence].
  - assert (Hmaps : availableMaps m = default_maps).
    { apply Hpre. destruct Hg as [?|[?|?]]; auto. }
    split; [|split]; simpl; [done|done|].
    intros Hv. by destruct (allPlayersAccepted _).
  - apply pickRoute_Ok in H as [Hph H].
    pose proof (pickPlayer_acceptPhase _ _ _ _ _ H) as Hacc.
    apply pickPlayer_Ok in H as (_ & i & p & _ & Hrest). cbv zeta in Hrest.
    destruct Hrest as (_ & _ & _ & Hmaps & _ & Hcase).
    assert (Hdef : availableMaps m' = default_maps)
      by (rewrite Hmaps; apply Hpre; auto).
    split; [|split].
    + rewrite Hacc. intros Ha. apply Hact in Ha. congruence.
    + done.
    + intros _. rewrite Hdef.
      destruct default_maps_distinct as [? ->]. split; [done|lia].
  - apply banRoute_Ok in H as [Hph H].
    pose proof (banMap_acceptPhase _ _ _ _ _ H) as Hacc.
    destruct (Hveto Hph) as [Hnd Hlen].
    apply banMap_Ok in H as (_ & Hin & Hmaps & _ & _ & _ & _ & _ & _ & Hcase).
    assert (Hlen' : length (availableMaps m') =
                    (length (availableMaps m) - 1)%nat)
      by (rewrite Hmaps; by apply filter_out_one).
    case_bool_decide as Hone.
    + destruct Hcase as (Hr & _). split; [|split].
      * rewrite Hacc. intros Ha. apply Hact in Ha. congruence.
      * intros [?|?]; congruence.
      * congruence.
    + destruct Hcase as (Hp & _). split; [|split].
      * rewrite Hacc. intros Ha. apply Hact in Ha. congruence.
      * intros [?|?]; congruence.
      * intros _. split; [rewrite Hmaps; by apply NoDup_filter|lia].
  - split; [|split]; rewrite afterProvision_live.
    + intros Ha. destruct r; [destruct notifyThrows|..]; simpl in Ha;
        apply Hact in Ha; congruence.
    + intros [?|?]; congruence.
    + congruence.
Qed.

Lemma routes_keep_pool id now ps caps m0 m :
  createMatch id now ps caps = Ok m0 → rtc route_step m0 m → pool_ok m.
Proof.
  intros Hc Hsteps.
  assert (H0 : pool_ok m0).
  { apply createMatch_Ok in Hc as (c0 & c1 & _ & _ & _ & _ & Hrest).
    destruct Hrest as (_ & _ & _ & Hph & Hmaps & _).
    split; [|split]; [done|done|congruence]. }
  clear Hc. induction Hsteps as [m|m1 m2 m3 Hstep _ IH]; [done|].
  apply IH. by eapply route_step_pool.
Qed.

Lemma banMap_wrong_turn now mapName cap m :
  cap ≠ currentVeto m →
  banMap now mapName cap m = Err "Not this captain's turn".
Proof.
  intros Hne. unfold banMap. case_bool_decide; [done|congruence].
Qed.

Lemma banMap_unavailable now mapName cap m :
  mapName ∉ availableMaps m → cap = currentVeto m →
  banMap now mapName cap m = Err "Map not available or already banned".
Proof.
  intros Hin ->. unfold banMap, includes.
  rewrite bool_decide_eq_false_2 by (intros H; by apply H).
  by rewrite (bool_decide_eq_false_2 _ Hin).
Qed.

(** C2. In the veto phase with a pool of N distinct maps (N at least 2) and
    alpha to ban first, as the last pick of the draft leaves it: whatever
    ban requests arrive, at most N-1 of them succeed, the k-th successful
    ban is by alpha for odd k and by beta for even k (counting from 1), the
    match is in the ready phase exactly when N-1 bans have succeeded, and
    then the one map left is [selectedMap]; until then the phase stays veto
    and any available map can be banned by the side whose turn it is.
    [banMap] throws when the acting side is not [currentVeto] and when the
    map is not in [availableMaps]; the ban that leaves exactly one map
    selects it and moves the phase to ready.  Every match made by
    [createMatch] and driven through the routes has, whenever it is in the
    veto phase, such a pool of at least two distinct maps. *)
Theorem veto_alternating_bans :
  (∀ now mapName cap m, cap ≠ Match.currentVeto m →
     Match.banMap now mapName cap m = Err "Not this captain's turn") ∧
  (∀ now mapName cap m, mapName ∉ Match.availableMaps m →
     cap = Match.currentVeto m →
     Match.banMap now mapName cap m =
       Err "Map not available or already banned") ∧
  (∀ now sid cap m m', Match.pickPlayer now sid cap m = Ok m' →
     Match.phase m = Match.draft → Match.phase m' = Match.veto →
     Match.currentVeto m' = Match.alpha ∧
     Match.availableMaps m' = Match.availableMaps m ∧
     length (Match.vetoOrder m') = (length (Match.availableMaps m) - 1)%nat ∧
     ∀ k s, Match.vetoOrder m' !! k = Some s →
            s = if Nat.even k then Match.alpha else Match.beta) ∧
  (∀ m calls m' ok,
     Match.phase m = Match.veto → Match.currentVeto m = Match.alpha →
     NoDup (Match.availableMaps m) →
     (2 <= length (Match.availableMaps m))%nat →
     Ctl.run_bans calls m = (m', ok) →
     let N := length (Match.availableMaps m) in
     (length ok <= N - 1)%nat ∧
     (∀ k c, ok !! k = Some c →
        Ctl.ban_by c = if Nat.even k then Match.alpha else Match.beta) ∧
     (Match.phase m' = Match.ready ↔ length ok = (N - 1)%nat) ∧
     (Match.phase m' = Match.ready →
        ∃ x, x ∈ Match.availableMaps m ∧ Match.availableMaps m' = [x] ∧
             Match.selectedMap m' = Some x) ∧
     ((length ok < N - 1)%nat →
        Match.phase m' = Match.veto ∧
        length (Match.availableMaps m') = (N - length ok)%nat)) ∧
  (∀ now x m, Match.phase m = Match.veto → x ∈ Match.availableMaps m →
     x ≠ "" →
     is_ok (Ctl.banRoute (Ctl.mkBanCall now x (Match.currentVeto m)) m)
       = true) ∧
  (∀ now mapName cap m m' x, Match.banMap now mapName cap m = Ok m' →
     Match.availableMaps m' = [x] →
     Match.phase m' = Match.ready ∧ Match.selectedMap m' = Some x) ∧
  (∀ id now ps caps m0 m,
     Match.createMatch id now ps caps = Ok m0 → rtc Ctl.route_step m0 m →
     Match.phase m = Match.veto →
     NoDup (Match.availableMaps m) ∧
     (2 <= length (Match.availableMaps m))%nat).
Proof.
  split_and!.
  - intros. by apply banMap_wrong_turn.
  - intros. by apply banMap_unavailable.
  - intros now sid cap m m' Hok Hd Hv.
    apply pickPlayer_Ok in Hok as (_ & i & p & _ & Hrest). cbv zeta in Hrest.
    destruct Hrest as (_ & _ & _ & Hmaps & _ & Hcase).
    destruct (pickOrder m !! S (pickIndex m)).
    + destruct Hcase as (_ & _ & Hph & _). congruence.
    + destruct Hcase as (_ & _ & Hcv & _ & Hvo).
      rewrite Hvo. split; [done|]. split; [done|].
      apply veto_order_alternates.
  - intros m calls m' ok Hph Hcv Hnd Hlen Hrun.
    pose proof (run_bans_spec calls m Hph Hnd Hlen m' ok Hrun) as Hspec.
    cbv zeta in *. rewrite Hcv in Hspec. simpl in Hspec.
    destruct Hspec as (H1 & H2 & H3 & H4).
    split; [done|]. split; [done|].
    assert (Hiff : phase m' = ready ↔
                   length ok = (length (availableMaps m) - 1)%nat).
    { split; [|by intros H; apply H4].
      intros Hr. destruct (decide (length ok < length (availableMaps m) - 1)%nat)
        as [Hlt|Hge]; [|lia].
      apply H3 in Hlt as (Hv & _). congruence. }
    split; [done|]. split.
    + intros Hr. apply Hiff in Hr. by apply H4.
    + intros Hlt. apply H3 in Hlt as (? & _ & ?). done.
  - intros. by apply banRoute_progress.
  - intros now mapName cap m m' x Hok Hx.
    apply banMap_Ok in Hok as (_ & _ & _ & _ & _ & _ & _ & _ & _ & Hcase).
    rewrite Hx in Hcase. simpl in Hcase. destruct Hcase as (? & ? & _). done.
  - intros id now ps caps m0 m Hc Hsteps Hv.
    by apply (routes_keep_pool _ _ _ _ _ _ Hc Hsteps).
Qed.

Lemma veto_alternating_bans_witness :
  Match.phase demo_veto = Match.veto ∧
  length (Match.availableMaps demo_veto) = 12%nat ∧
  length (Ctl.run_bans demo_bans demo_veto).2 = 11%nat ∧
  Match.phase (Ctl.run_bans demo_bans demo_veto).1 = Match.ready ∧
  Match.selectedMap (Ctl.run_bans demo_bans demo_veto).1 = Some "Aztec".
Proof.
  assert (Hph : Match.phase demo_veto = Match.veto) by (vm_compute; reflexivity).
  assert (Hcv : Match.currentVeto demo_veto = Match.alpha)
    by (vm_compute; reflexivity).
  assert (Hnd : NoDup (Match.availableMaps demo_veto))
    by (apply (bool_decide_unpack _); vm_compute; exact I).
  assert (Hlen : (2 <= length (Match.availableMaps demo_veto))%nat)
    by (vm_compute; lia).
  pose proof (proj1 (proj2 (proj2 (proj2 veto_alternating_bans)))
                demo_veto demo_bans _ _ Hph Hcv Hnd Hlen
                (surjective_pairing (Ctl.run_bans demo_bans demo_veto)))
    as (_ & _ & Hiff & _).
  split; [exact Hph|]. split; [vm_compute; reflexivity|].
  split; [vm_compute; reflexivity|].
  split; [apply Hiff; vm_compute; reflexivity|].
  vm_compute. reflexivity.
Defined.

End Veto.

(** ** From ready to live: provisioning outcomes *)

Section Provisioning.
Import Match Ctl.

Lemma route_step_serverInfo m m' :
  route_step m m' → pool_ok m →
  (phase m ≠ live → serverInfo m = no_server) →
  phase m' ≠ live → serverInfo m' = no_server.
Proof.
  intros Hstep (Hact & _) Hsi.
  destruct Hstep as [now sid m m' Hph H | m Hg | now sid cap m m' H
                    | c m m' H | r notifyThrows m Hph]; intros Hnl.
  - apply acceptMatch_Ok in H as (_ & _ & _ & _ & ->). simpl.
    apply Hsi. congruence.
  - simpl. apply Hsi. destruct Hg as [Ha|[?|?]]; [|congruence..].
    apply Hact in Ha. congruence.
  - apply pickRoute_Ok in H as [Hph H].
    assert (Hsame : serverInfo m' = serverInfo m).
    { unfold pickPlayer in H. case_bool_decide; [done|].
      destruct (find_undrafted _ _) as [[i p]|]; [|done].
      destruct (pickOrder m !! _).
      - by injection H as <-.
      - destruct (assign_last _ _). by injection H as <-. }
    rewrite Hsame. apply Hsi. congruence.
  - apply banRoute_Ok in H as [Hph H].
    apply banMap_Ok in H as (_ & _ & _ & _ & _ & _ & _ & _ & -> & _).
    apply Hsi. congruence.
  - by rewrite afterProvision_live in Hnl.
Qed.

Lemma routes_keep_serverInfo id now ps caps m0 m :
  createMatch id now ps caps = Ok m0 → rtc route_step m0 m →
  phase m ≠ live → serverInfo m = no_server.
Proof.
  intros Hc Hsteps.
  assert (Hp0 : pool_ok m0) by (by eapply routes_keep_pool).
  assert (H0 : phase m0 ≠ live → serverInfo m0 = no_server).
  { apply createMatch_Ok in Hc as (c0 & c1 & _ & _ & _ & _ & Hrest).
    by destruct Hrest as (_ & _ & _ & _ & _ & ? & _). }
  clear Hc. induction Hsteps as [m|m1 m2 m3 Hstep _ IH]; [done|].
  apply IH; [by eapply route_step_pool | by eapply route_step_serverInfo].
Qed.

(** The provisioning chain of the ban request ends in the live phase
    whatever the provisioning outcome; nothing of the ready state is rolled
    back. *)
Lemma banRequest_goes_live c r notifyThrows m m' :
  banRoute c m = Ok m' → phase m' = ready →
  ∃ mf, banRequest c r notifyThrows m = Ok mf ∧
    phase mf = live ∧
    selectedMap mf = selectedMap m' ∧
    teams mf = teams m' ∧
    players mf = players m' ∧
    availableMaps mf = availableMaps m' ∧
    bannedMaps mf = bannedMaps m' ∧
    match r with
    | ProvisionOk info =>
        ip (serverInfo mf) = Some (pv_ip info) ∧
        password (serverInfo mf) = Some (pv_password info) ∧
        serverId (serverInfo mf) = Some (pv_serverId info) ∧
        connectString (serverInfo mf) = Some (pv_connectString info)
    | ProvisionFailed _ | ProvisionThrew _ => serverInfo mf = serverInfo m
    end.
Proof.
  intros Hban Hready.
  exists (afterProvision r notifyThrows m').
  unfold banRequest. rewrite Hban, (bool_decide_eq_true_2 _ Hready).
  split; [done|]. split; [apply afterProvision_live|].
  apply banRoute_Ok in Hban as [_ Hban].
  apply banMap_Ok in Hban as (_ & _ & _ & _ & _ & _ & _ & _ & Hsi & _).
  destruct r as [info| |]; simpl; [destruct notifyThrows|..]; done.
Qed.

(** The tick of the auto-ban that bans the last map but one. *)
Lemma autoBanTick_last_ban io now pick r m x :
  phase m = veto →
  String.prefix "SIM_PLAYER_" (captain_of (currentVeto m) m) = true →
  availableMaps m !! pick = Some x →
  length (filter (fun y => y ≠ x) (availableMaps m)) = 1%nat →
  ∃ m1, banMap now x (currentVeto m) m = Ok m1 ∧ phase m1 = ready ∧
    selectedMap m1 = filter (fun y => y ≠ x) (availableMaps m) !! 0%nat ∧
    serverInfo m1 = serverInfo m ∧
    autoBanTick io now pick r m =
      if io then
        match r with
        | ProvisionOk info =>
            set_phase live (set_serverInfo (server_of info) m1)
        | ProvisionFailed _ | ProvisionThrew _ => m1
        end
      else m1.
Proof.
  intros Hph Hsim Hpick Hone.
  assert (Hin : x ∈ availableMaps m) by (by eapply list_elem_of_lookup_2).
  assert (Hlen : (2 <= length (availableMaps m))%nat).
  { destruct (availableMaps m) as [|a [|b l]] eqn:E; simpl; try lia.
    - by apply elem_of_nil in Hin.
    - apply list_elem_of_singleton in Hin as ->.
      rewrite filter_cons_False in Hone by (by intros H; apply H). done. }
  unfold autoBanTick.
  rewrite (bool_decide_eq_true_2 _ Hph), Hsim,
    (bool_decide_eq_true_2 _ Hlen), Hpick. cbn [negb].
  unfold banMap, includes.
  rewrite (bool_decide_eq_false_2 (currentVeto m ≠ currentVeto m))
    by (by intros H; apply H).
  rewrite (bool_decide_eq_true_2 _ Hin). cbn [negb].
  rewrite (bool_decide_eq_true_2 _ Hone).
  eexists. split; [reflexivity|]. cbn [phase selectedMap serverInfo
                                       availableMaps].
  rewrite (bool_decide_eq_true_2 (ready = ready)) by done.
  rewrite orb_true_l, andb_true_r. by destruct io.
Qed.

(** C8.  The ban request of a captain that completes the veto ends, through
    its provisioning chain, in the live phase for every provisioning
    outcome, with the server stored on success and [serverInfo] untouched
    otherwise.  The auto-ban of simulated captains completes a veto as
    well, and there a provisioning that fails or throws is only logged:
    the match stays in the ready phase with the map selected and no
    server, every later tick returns at once, and no ban request reaches
    the provisioning chain any more (the route demands the veto phase), so
    the match never goes live; without a Socket.IO instance the tick does
    not provision at all.  On success the tick stores the server and the
    live phase, like the ban request.  At the simulated match with Train
    and Aztec left: the tick bans Train, provisioning fails, and the match
    is ready with Aztec selected for good, where the same ban sent as a
    request leaves it live. *)
Theorem provisioning_failure_blocks_the_auto_ban :
  (∀ c r notifyThrows m m',
     Ctl.banRoute c m = Ok m' → Match.phase m' = Match.ready →
     ∃ mf, Ctl.banRequest c r notifyThrows m = Ok mf ∧
       Match.phase mf = Match.live ∧
       Match.selectedMap mf = Match.selectedMap m' ∧
       Match.teams mf = Match.teams m' ∧
       Match.players mf = Match.players m' ∧
       Match.availableMaps mf = Match.availableMaps m' ∧
       Match.bannedMaps mf = Match.bannedMaps m' ∧
       match r with
       | Ctl.ProvisionOk info =>
           Match.ip (Match.serverInfo mf) = Some (Ctl.pv_ip info) ∧
           Match.password (Match.serverInfo mf) = Some (Ctl.pv_password info) ∧
           Match.serverId (Match.serverInfo mf) = Some (Ctl.pv_serverId info) ∧
           Match.connectString (Match.serverInfo mf) =
             Some (Ctl.pv_connectString info)
       | Ctl.ProvisionFailed _ | Ctl.ProvisionThrew _ =>
           Match.serverInfo mf = Match.serverInfo m
       end) ∧
  (∀ io now pick r m x,
     Match.phase m = Match.veto →
     String.prefix "SIM_PLAYER_"
       (Ctl.captain_of (Match.currentVeto m) m) = true →
     Match.availableMaps m !! pick = Some x →
     length (filter (fun y => y ≠ x) (Match.availableMaps m)) = 1%nat →
     let m' := Ctl.autoBanTick io now pick r m in
     Match.selectedMap m' =
       filter (fun y => y ≠ x) (Match.availableMaps m) !! 0%nat ∧
     match r with
     | Ctl.ProvisionOk info =>
         if io
         then Match.phase m' = Match.live ∧
              Match.serverInfo m' = Ctl.server_of info
         else Match.phase m' = Match.ready ∧
              Match.serverInfo m' = Match.serverInfo m
     | Ctl.ProvisionFailed _ | Ctl.ProvisionThrew _ =>
         Match.phase m' = Match.ready ∧
         Match.serverInfo m' = Match.serverInfo m
     end ∧
     (Match.phase m' = Match.ready →
        (∀ io' now' pick' r', Ctl.autoBanTick io' now' pick' r' m' = m') ∧
        (∀ c r' notifyThrows,
           Ctl.banRequest c r' notifyThrows m'
           = Err "Match must be in veto phase"))) ∧
  (let tick := Ctl.autoBanTick true 4000 0 (Ctl.ProvisionFailed "no server") in
   Match.phase sim_two_maps_left = Match.veto ∧
   Match.availableMaps sim_two_maps_left = ["Train"; "Aztec"] ∧
   Ctl.captain_of (Match.currentVeto sim_two_maps_left) sim_two_maps_left
     = "SIM_PLAYER_0" ∧
   Match.phase (tick sim_two_maps_left) = Match.ready ∧
   Match.selectedMap (tick sim_two_maps_left) = Some "Aztec" ∧
   Match.serverInfo (tick sim_two_maps_left) = Match.no_server ∧
   tick (tick sim_two_maps_left) = tick sim_two_maps_left ∧
   Match.phase
     (or_keep (Ctl.banRequest (Ctl.mkBanCall 4000 "Train" Match.alpha)
                 (Ctl.ProvisionFailed "no server") false sim_two_maps_left)
        sim_two_maps_left) = Match.live).
Proof.
  split_and!.
  - intros. by eapply banRequest_goes_live.
  - intros io now pick r m x Hph Hsim Hpick Hone m'.
    destruct (autoBanTick_last_ban io now pick r m x Hph Hsim Hpick Hone)
      as (m1 & Hban & Hready & Hsel & Hsi & Htick).
    subst m'. rewrite Htick. clear Htick.
    assert (Hstuck : ∀ m2, phase m2 = ready →
      (∀ io' now' pick' r', autoBanTick io' now' pick' r' m2 = m2) ∧
      (∀ c r' notifyThrows,
         banRequest c r' notifyThrows m2 = Err "Match must be in veto phase")).
    { intros m2 H2. split.
      - intros. unfold autoBanTick. by rewrite H2.
      - intros. unfold banRequest, banRoute. by rewrite H2. }
    destruct io, r as [info|e|e]; cbn [selectedMap phase serverInfo
      set_phase set_serverInfo]; split_and!; try done; exact (Hstuck m1).
  - vm_compute. repeat split; reflexivity.
Qed.

End Provisioning.

(** ** Completing a match: what the user collection sees *)

Section Results.
Import Match.

Lemma updateMany_lookup ids f (us : User.coll) k :
  User.updateMany ids f us !! k =
  (fun u => if bool_decide (Some k ∈ ids) then f u else u) <$> us !! k.
Proof.
  unfold User.updateMany. rewrite map_lookup_imap.
  by destruct (us !! k).
Qed.

Lemma updateMany_undefined ids f (us : User.coll) :
  (∀ x, x ∈ ids → x = None) → User.updateMany ids f us = us.
Proof.
  intros Hall. apply map_eq. intros k. rewrite updateMany_lookup.
  rewrite bool_decide_eq_false_2; [by destruct (us !! k)|].
  intros Hin. by apply Hall in Hin.
Qed.

Lemma team_entries_undefined (team : list string) :
  ∀ x, x ∈ Ctl.team_entry_steamId <$> team → x = None.
Proof. intros x Hx. by apply list_elem_of_fmap in Hx as (p & -> & _). Qed.

Lemma updateTeamStats_currentMatch f won team : ∀ (us : User.coll) k,
  User.currentMatch <$> Ctl.updateTeamStats f won team us !! k =
  User.currentMatch <$> us !! k.
Proof.
  unfold Ctl.updateTeamStats.
  induction team as [|p team IH]; intros us k; [done|]. simpl.
  rewrite IH. destruct (f us) as [j|]; [|done].
  destruct (decide (j = k)) as [->|Hne].
  - rewrite lookup_alter_eq. by destruct (us !! k).
  - by rewrite lookup_alter_ne.
Qed.

Lemma updateTeamStats_none won team (us : User.coll) :
  Ctl.updateTeamStats (fun _ => None) won team us = us.
Proof.
  unfold Ctl.updateTeamStats. by induction team as [|p team IH].
Qed.

(** Whatever the store answers to the [undefined] filter, a win for alpha
    or beta leaves every user's [currentMatch] as it was. *)
Lemma completeMatch_win_currentMatch f now w sa sb m (us : User.coll) :
  phase m = live → w = "alpha" ∨ w = "beta" →
  ∀ k, User.currentMatch <$> (Ctl.completeMatch f now w sa sb m us).2 !! k =
       User.currentMatch <$> us !! k.
Proof.
  intros Hlive Hw k. unfold Ctl.completeMatch.
  rewrite (bool_decide_eq_true_2 _ Hlive). simpl.
  destruct Hw as [-> | ->]; simpl.
  all: rewrite !updateTeamStats_currentMatch.
  all: rewrite !updateMany_undefined by apply team_entries_undefined.
  all: by rewrite !updateTeamStats_currentMatch.
Qed.

Lemma completeMatch_win_answer f now w sa sb m (us : User.coll) :
  phase m = live → w = "alpha" ∨ w = "beta" →
  (Ctl.completeMatch f now w sa sb m us).1 =
  (200%nat, Match.completeMatch now w sa sb m).
Proof.
  intros Hlive Hw. unfold Ctl.completeMatch.
  rewrite (bool_decide_eq_true_2 _ Hlive). simpl.
  by destruct Hw as [-> | ->].
Qed.

Lemma completeMatch_win_no_document now w sa sb m (us : User.coll) :
  phase m = live → w = "alpha" ∨ w = "beta" →
  (Ctl.completeMatch (fun _ => None) now w sa sb m us).2 = us.
Proof.
  intros Hlive Hw. unfold Ctl.completeMatch.
  rewrite (bool_decide_eq_true_2 _ Hlive). simpl.
  destruct Hw as [-> | ->]; simpl.
  all: rewrite !updateTeamStats_none.
  all: by rewrite !updateMany_undefined by apply team_entries_undefined.
Qed.

Example demo_live_state :
  phase demo_live = live ∧
  teams demo_live = mkTeams ["p0"; "p1"; "p2"; "p6"; "p8"]
                            ["p5"; "p3"; "p4"; "p7"; "p9"] ∧
  selectedMap demo_live = Some "Aztec".
Proof. vm_compute. repeat split; reflexivity. Qed.

(** C5, the code at a win for alpha.  The ten-player match is live with
    teams alpha = p0 p1 p2 p6 p8 and beta = p5 p3 p4 p7 p9 and every user's
    [currentMatch] set.  The request [{ winner: 'alpha', scoreAlpha: 16,
    scoreBeta: 8 }] answers 200 and completes the match, and whatever
    document the store returns for the [undefined] filter, every one of the
    ten users still has [currentMatch] set afterwards.  If the store
    returns no document the user collection is unchanged altogether: no
    win, loss, rating or games-played count moves.  If it returns the
    document of p0, that one user is credited five wins and five losses and
    ten games, and p1, also on the winning side, nothing. *)
Theorem completeMatch_alpha_win_at_demo :
  (∀ f,
     let r := Ctl.completeMatch f 9000 "alpha" 16 8 demo_live demo_users in
     r.1.1 = 200%nat ∧ Match.phase r.1.2 = Match.complete ∧
     Match.winner (Match.result r.1.2) = Some "alpha" ∧
     ∀ k, k ∈ ref_steamId <$> ten_players →
          User.currentMatch <$> r.2 !! k = Some (Some "MATCH-1")) ∧
  (Ctl.completeMatch (fun _ => None) 9000 "alpha" 16 8 demo_live demo_users).2
    = demo_users ∧
  (let r := Ctl.completeMatch (fun _ => Some "p0") 9000 "alpha" 16 8
              demo_live demo_users in
   User.stats <$> r.2 !! "p0" = Some (User.mkStats 14 7 7 1000) ∧
   User.stats <$> r.2 !! "p1" = Some (User.mkStats 4 2 2 1000)).
Proof.
  split; [|split].
  - intros f r. subst r.
    assert (Hlive : phase demo_live = live) by (vm_compute; reflexivity).
    rewrite (completeMatch_win_answer f _ _ _ _ _ _ Hlive) by (by left).
    split; [reflexivity|]. split; [reflexivity|]. split; [reflexivity|].
    intros k Hk. rewrite completeMatch_win_currentMatch; [|done|by left].
    assert (Hall : Forall (fun k => User.currentMatch <$> demo_users !! k
                                    = Some (Some "MATCH-1"))
                          (ref_steamId <$> ten_players)).
    { apply (bool_decide_unpack _). vm_compute. exact I. }
    rewrite Forall_forall in Hall. by apply Hall.
  - apply completeMatch_win_no_document; [vm_compute; reflexivity|by left].
  - vm_compute. split; reflexivity.
Qed.

End Results.

(** ** Accepting: the ReadySession path and the match-embedded path *)

Section Accepting.
Import Ready.

Lemma list_find_insert {A} (P : A → Prop) `{∀ x, Decision (P x)}
    (l : list A) i x y :
  list_find P l = Some (i, x) → P y →
  list_find P (<[i := y]> l) = Some (i, y).
Proof.
  intros Hfind Hy. apply list_find_Some in Hfind as (Hi & Hx & Hmin).
  apply list_find_Some. split; [|split; [done|]].
  - apply list_lookup_insert_eq. by eapply lookup_lt_Some.
  - intros j z Hj Hlt. rewrite list_lookup_insert_ne in Hj by lia.
    by eapply Hmin.
Qed.

Lemma findActive_None mid (st : list Session) :
  (∀ s, s ∈ st → matchId s = mid → status s ≠ active) →
  findActive mid st = None.
Proof.
  intros Hno. apply list_find_None, Forall_forall.
  intros s Hs [Hm Ha]. by apply (Hno s).
Qed.

Lemma accept_not_found now mid uid (st : list Session) :
  (∀ s, s ∈ st → matchId s = mid → status s ≠ active) →
  recordPlayerAccept now mid uid st =
    (AcceptError "Session not found or expired", st).
Proof.
  intros Hno. unfold recordPlayerAccept. by rewrite findActive_None.
Qed.

Lemma accept_not_participant now mid uid (st : list Session) i session :
  findActive mid st = Some (i, session) →
  (∀ p, p ∈ players session → userId p ≠ uid) →
  recordPlayerAccept now mid uid st = (AcceptError "User not in session", st).
Proof.
  intros Hfind Hno. unfold recordPlayerAccept. rewrite Hfind.
  destruct (list_find _ (players session)) as [[j p]|] eqn:Hp; [|done].
  apply list_find_Some in Hp as (Hj & Hu & _).
  exfalso. eapply Hno; [|exact Hu]. by eapply list_elem_of_lookup_2.
Qed.

Lemma accept_duplicate now mid uid (st : list Session) i session j p :
  findActive mid st = Some (i, session) →
  list_find (fun p => userId p = uid) (players session) = Some (j, p) →
  accepted p = true →
  recordPlayerAccept now mid uid st =
    (AcceptStats (getSessionStats now session), st).
Proof.
  intros Hfind Hp Hacc. unfold recordPlayerAccept.
  by rewrite Hfind, Hp, Hacc.
Qed.

(** With an active session and a roster member who has not accepted, the
    accept is recorded, whatever the time. *)
Lemma accept_recorded now mid uid (st : list Session) i session j p :
  findActive mid st = Some (i, session) →
  list_find (fun p => userId p = uid) (players session) = Some (j, p) →
  accepted p = false →
  let session' :=
    set_players (<[j := mkSPlayer uid true (Some now)]> (players session))
                session in
  recordPlayerAccept now mid uid st =
    (AcceptStats (getSessionStats now session'), <[i := session']> st) ∧
  findActive mid (<[i := session']> st) = Some (i, session') ∧
  list_find (fun p => userId p = uid) (players session') =
    Some (j, mkSPlayer uid true (Some now)).
Proof.
  intros Hfind Hp Hacc session'.
  pose proof Hp as Hp'. apply list_find_Some in Hp' as (_ & Hu & _).
  pose proof Hfind as Hf'. apply list_find_Some in Hf' as (_ & [Hm Ha] & _).
  split; [|split].
  - unfold recordPlayerAccept. rewrite Hfind, Hp, Hacc.
    subst session'. by rewrite Hu.
  - by apply (list_find_insert _ _ _ _ _ Hfind).
  - by apply (list_find_insert _ _ _ _ _ Hp).
Qed.

Lemma match_accept_expired now sid m :
  Match.active (Match.acceptPhase m) = true →
  (Match.expiresAt (Match.acceptPhase m) < now)%Z →
  Match.acceptMatch now sid m = Err "Accept phase has expired".
Proof.
  intros Ha Hexp. unfold Match.acceptMatch. rewrite Ha. simpl.
  by rewrite bool_decide_eq_true_2.
Qed.

Lemma match_accept_duplicate now sid m :
  Match.active (Match.acceptPhase m) = true →
  (now <= Match.expiresAt (Match.acceptPhase m))%Z →
  Match.is_required sid (Match.acceptPhase m) = true →
  Match.is_accepted sid (Match.acceptPhase m) = true →
  Match.acceptMatch now sid m = Err "Player already accepted".
Proof.
  intros Ha Hexp Hreq Hacc. unfold Match.acceptMatch. rewrite Ha. simpl.
  rewrite bool_decide_eq_false_2 by lia. by rewrite Hreq, Hacc.
Qed.

Lemma ctl_accept_error now mid sid (ms : list Match.t) i m e :
  list_find (fun m => Match.matchId m = mid) ms = Some (i, m) →
  Match.phase m = Match.accept →
  Match.acceptMatch now sid m = Err e →
  Ctl.acceptMatch now mid sid ms = (400%nat, Some e, ms).
Proof.
  intros Hfind Hph Herr. unfold Ctl.acceptMatch.
  by rewrite Hfind, (bool_decide_eq_true_2 _ Hph), Herr.
Qed.

Lemma queue_accept_duplicate sid (q : Queue.t) :
  Queue.has_player sid q = true →
  Queue.active (Queue.acceptPhase q) = true →
  includes sid (Queue.acceptedPlayers (Queue.acceptPhase q)) = true →
  Queue.acceptMatch sid q = Err "Player already accepted".
Proof.
  intros Hin Ha Hacc. unfold Queue.acceptMatch. by rewrite Hin, Ha, Hacc.
Qed.

(** C3 as the claim states it fails on the ReadySession accept: the session
    of the demonstration expires at 21000 and is still active; the accept
    of p3 at time 99000 is answered with stats (one player accepted), not
    with an error. *)
Lemma accept_after_expiry_is_recorded :
  (Ready.expiresAt <$> demo_sessions !! 0%nat = Some 21000%Z ∧
   Ready.status <$> demo_sessions !! 0%nat = Some Ready.active ∧
   (21000 < 99000)%Z) ∧
  (Ready.recordPlayerAccept 99000 "PEND-1" "p3" demo_sessions).1 =
    Ready.AcceptStats
      (Ready.mkStats "PEND-1" 10 1 9
         [("p0", false); ("p1", false); ("p2", false); ("p3", true);
          ("p4", false); ("p5", false); ("p6", false); ("p7", false);
          ("p8", false); ("p9", false)] 0).
Proof.
  split; [split; [|split]|]; [vm_compute; reflexivity..| lia |].
  vm_compute. reflexivity.
Qed.

(** C3, amended.  [recordPlayerAccept] (the accept of a ReadySession)
    answers "Session not found or expired" when no active session has the
    match id, answers "User not in session" when the player is not in the
    roster, and answers a re-submitted accept with the stats of the
    unchanged session, leaving the store as it was; a second accept after a
    recorded one reports the same accepted count and the same players.  It
    never compares the time with [expiresAt]: while the session is active,
    the accept of a roster member is recorded whatever [now] is.  The error
    "Accept phase has expired" exists only in the match-embedded
    [Match.acceptMatch], which throws it whenever its accept phase is
    active and [now > expiresAt]; there a re-submitted accept throws
    "Player already accepted", which the controller answers with status 400
    and that message.  The queue-embedded [Queue.acceptMatch], which takes
    no time at all, throws the same error on a re-submitted accept. *)
Theorem accept_outcomes :
  (∀ now mid uid (st : list Ready.Session),
     (∀ s, s ∈ st → Ready.matchId s = mid → Ready.status s ≠ Ready.active) →
     Ready.recordPlayerAccept now mid uid st =
       (Ready.AcceptError "Session not found or expired", st)) ∧
  (∀ now mid uid (st : list Ready.Session) i session,
     Ready.findActive mid st = Some (i, session) →
     (∀ p, p ∈ Ready.players session → Ready.userId p ≠ uid) →
     Ready.recordPlayerAccept now mid uid st =
       (Ready.AcceptError "User not in session", st)) ∧
  (∀ now mid uid (st : list Ready.Session) i session j p,
     Ready.findActive mid st = Some (i, session) →
     list_find (fun p => Ready.userId p = uid) (Ready.players session)
       = Some (j, p) →
     Ready.accepted p = true →
     Ready.recordPlayerAccept now mid uid st =
       (Ready.AcceptStats (Ready.getSessionStats now session), st)) ∧
  (∀ now now' mid uid (st : list Ready.Session) i session j p,
     Ready.findActive mid st = Some (i, session) →
     list_find (fun p => Ready.userId p = uid) (Ready.players session)
       = Some (j, p) →
     Ready.accepted p = false →
     ∃ stats st',
       Ready.recordPlayerAccept now mid uid st = (Ready.AcceptStats stats, st') ∧
       Ready.acceptedCount stats =
         length (filter (fun q => Ready.accepted q = true)
                   (<[j := Ready.mkSPlayer uid true (Some now)]>
                      (Ready.players session))) ∧
       ∃ stats',
         Ready.recordPlayerAccept now' mid uid st' =
           (Ready.AcceptStats stats', st') ∧
         Ready.acceptedCount stats' = Ready.acceptedCount stats ∧
         Ready.st_players stats' = Ready.st_players stats) ∧
  (∀ now sid m,
     Match.active (Match.acceptPhase m) = true →
     (Match.expiresAt (Match.acceptPhase m) < now)%Z →
     Match.acceptMatch now sid m = Err "Accept phase has expired") ∧
  (∀ now mid sid (ms : list Match.t) i m,
     list_find (fun m => Match.matchId m = mid) ms = Some (i, m) →
     Match.phase m = Match.accept →
     Match.active (Match.acceptPhase m) = true →
     (now <= Match.expiresAt (Match.acceptPhase m))%Z →
     Match.is_required sid (Match.acceptPhase m) = true →
     Match.is_accepted sid (Match.acceptPhase m) = true →
     Match.acceptMatch now sid m = Err "Player already accepted" ∧
     Ctl.acceptMatch now mid sid ms =
       (400%nat, Some "Player already accepted", ms)) ∧
  (∀ sid (q : Queue.t),
     Queue.has_player sid q = true →
     Queue.active (Queue.acceptPhase q) = true →
     includes sid (Queue.acceptedPlayers (Queue.acceptPhase q)) = true →
     Queue.acceptMatch sid q = Err "Player already accepted").
Proof.
  split_and!.
  - intros. by apply accept_not_found.
  - intros. by eapply accept_not_participant.
  - intros. by eapply accept_duplicate.
  - intros now now' mid uid st i session j p Hfind Hp Hacc.
    destruct (accept_recorded now mid uid st i session j p Hfind Hp Hacc)
      as (Hrec & Hfind' & Hp').
    eexists _, _. split; [exact Hrec|]. split; [done|].
    eexists. split; [by eapply accept_duplicate|]. done.
  - intros. by apply match_accept_expired.
  - intros now mid sid ms i m Hfind Hph Ha Hexp Hreq Hacc.
    pose proof (match_accept_duplicate now sid m Ha Hexp Hreq Hacc) as Herr.
    split; [done|]. by eapply ctl_accept_error.
  - intros. by apply queue_accept_duplicate.
Qed.

Lemma accept_outcomes_witness :
  (∀ s, s ∈ demo_sessions → Ready.matchId s = "PEND-2" →
        Ready.status s ≠ Ready.active) ∧
  Ready.recordPlayerAccept 5000 "PEND-2" "p3" demo_sessions =
    (Ready.AcceptError "Session not found or expired", demo_sessions).
Proof.
  assert (H : ∀ s, s ∈ demo_sessions → Ready.matchId s = "PEND-2" →
                   Ready.status s ≠ Ready.active).
  { intros s Hs. vm_compute in Hs. apply list_elem_of_singleton in Hs as ->.
    discriminate. }
  split; [exact H|]. apply (proj1 accept_outcomes). exact H.
Defined.

End Accepting.

(** ** The deadline handlers run at most once *)

Section Deadline.
Import Ready.

Lemma updated_session_inactive (st : list Session) mid i session session' :
  NoDup (matchId <$> st) →
  findActive mid st = Some (i, session) →
  matchId session' = mid → status session' ≠ active →
  ∀ s, s ∈ <[i := session']> st → matchId s = mid → status s ≠ active.
Proof.
  intros Hnd Hfind Hm Hst s Hs Hsm.
  apply list_find_Some in Hfind as (Hi & [Him _] & _).
  apply list_elem_of_lookup in Hs as [k Hk].
  destruct (decide (k = i)) as [->|Hne].
  - apply list_lookup_insert_Some in Hk as [(_ & <- & _)|[? _]]; done.
  - rewrite list_lookup_insert_ne in Hk by done.
    exfalso. apply Hne.
    apply (NoDup_lookup (matchId <$> st) k i mid Hnd).
    + by rewrite list_lookup_fmap, Hk; simpl; rewrite Hsm.
    + by rewrite list_lookup_fmap, Hi; simpl; rewrite Him.
Qed.

Lemma handleReadyTimeout_idle mid (st : list Session) :
  (∀ s, s ∈ st → matchId s = mid → status s ≠ active) →
  handleReadyTimeout mid st = (None, st).
Proof.
  intros Hno. unfold handleReadyTimeout. by rewrite findActive_None.
Qed.

Lemma readyTimeoutFires_idle mid (w : Ctl.World) :
  (∀ s, s ∈ Ctl.sessions w → matchId s = mid → status s ≠ active) →
  Ctl.readyTimeoutFires mid w = w.
Proof.
  intros Hno. unfold Ctl.readyTimeoutFires.
  by rewrite handleReadyTimeout_idle.
Qed.

Lemma completeReadyPhase_closes now mid (st st' : list Session) session :
  NoDup (matchId <$> st) →
  completeReadyPhase now mid st = (Some session, st') →
  status session = completed ∧
  (∀ s, s ∈ st' → matchId s = mid → status s ≠ active).
Proof.
  intros Hnd. unfold completeReadyPhase.
  destruct (findActive mid st) as [[i s0]|] eqn:Hfind; [|done].
  intros [= <- <-]. split; [done|].
  pose proof Hfind as Hf. apply list_find_Some in Hf as (_ & [Hm _] & _).
  by eapply updated_session_inactive.
Qed.

Lemma handleReadyTimeout_closes mid (st st' : list Session) r :
  NoDup (matchId <$> st) →
  handleReadyTimeout mid st = (Some r, st') →
  (∀ s, s ∈ st' → matchId s = mid → status s ≠ active).
Proof.
  intros Hnd. unfold handleReadyTimeout.
  destruct (findActive mid st) as [[i s0]|] eqn:Hfind; [|done].
  intros [= <- <-].
  pose proof Hfind as Hf. apply list_find_Some in Hf as (_ & [Hm _] & _).
  by eapply updated_session_inactive.
Qed.

Lemma readyTimeoutFires_sessions mid (w : Ctl.World) :
  Ctl.sessions (Ctl.readyTimeoutFires mid w) =
  (handleReadyTimeout mid (Ctl.sessions w)).2.
Proof.
  unfold Ctl.readyTimeoutFires.
  destruct (handleReadyTimeout mid (Ctl.sessions w)) as [[r|] ss] eqn:E.
  - destruct (tr_queueGroupId r) as [qid|]; [|done].
    case_bool_decide; [done|].
    destruct (list_find _ (Ctl.queues w)) as [[j [? q]]|]; [|done].
    by destruct (Queue.rebuildAfterTimeout _ _ q).
  - simpl. unfold handleReadyTimeout in E.
    destruct (findActive mid (Ctl.sessions w)) as [[i s0]|]; [done|].
    by injection E as <-.
Qed.

Lemma readyTimeoutFires_once mid (w : Ctl.World) :
  NoDup (matchId <$> Ctl.sessions w) →
  Ctl.readyTimeoutFires mid (Ctl.readyTimeoutFires mid w) =
  Ctl.readyTimeoutFires mid w.
Proof.
  intros Hnd. apply readyTimeoutFires_idle.
  rewrite readyTimeoutFires_sessions.
  destruct (handleReadyTimeout mid (Ctl.sessions w)) as [[r|] ss] eqn:E.
  - simpl. by eapply handleReadyTimeout_closes.
  - simpl. unfold handleReadyTimeout in E.
    destruct (findActive mid (Ctl.sessions w)) as [[i s0]|] eqn:Hf; [done|].
    injection E as <-. apply list_find_None in Hf.
    rewrite Forall_forall in Hf. intros s Hs Hm Ha. by apply (Hf s).
Qed.

Lemma processAcceptTimeout_inactive now fresh mid (w : Ctl.World) i m :
  list_find (fun m => Match.matchId m = mid) (Ctl.matches w) = Some (i, m) →
  Match.active (Match.acceptPhase m) = false →
  Ctl.processAcceptTimeout now fresh mid w = w.
Proof.
  intros Hfind Ha. unfold Ctl.processAcceptTimeout. by rewrite Hfind, Ha.
Qed.

Lemma processAcceptTimeout_matches now fresh mid (w : Ctl.World) i m :
  list_find (fun m => Match.matchId m = mid) (Ctl.matches w) = Some (i, m) →
  Match.active (Match.acceptPhase m) = true →
  Ctl.matches (Ctl.processAcceptTimeout now fresh mid w) =
  <[i := Match.endAcceptPhase m]> (Ctl.matches w).
Proof.
  intros Hfind Ha. unfold Ctl.processAcceptTimeout. rewrite Hfind, Ha. simpl.
  destruct (Match.allPlayersAccepted m); [done|].
  destruct (Ctl.getActiveQueue fresh (Ctl.queues w)) as [[j q] qs1].
  by destruct (Ctl.readd _ _ q _).
Qed.

Lemma endAcceptPhase_inactive m :
  Match.active (Match.acceptPhase (Match.endAcceptPhase m)) = false ∧
  Match.matchId (Match.endAcceptPhase m) = Match.matchId m.
Proof. done. Qed.

Lemma processAcceptTimeout_once now now' fresh fresh' mid (w : Ctl.World) :
  Ctl.processAcceptTimeout now' fresh' mid
    (Ctl.processAcceptTimeout now fresh mid w) =
  Ctl.processAcceptTimeout now fresh mid w.
Proof.
  destruct (list_find (fun m => Match.matchId m = mid) (Ctl.matches w))
    as [[i m]|] eqn:Hfind.
  - destruct (Match.active (Match.acceptPhase m)) eqn:Ha.
    + eapply (processAcceptTimeout_inactive _ _ _ _ i).
      * rewrite (processAcceptTimeout_matches _ _ _ _ _ _ Hfind Ha).
        apply (list_find_insert _ _ _ _ _ Hfind).
        apply list_find_Some in Hfind as (_ & ? & _). done.
      * done.
    + by rewrite !(processAcceptTimeout_inactive _ _ _ _ _ _ Hfind Ha).
  - unfold Ctl.processAcceptTimeout at 2. rewrite Hfind.
    unfold Ctl.processAcceptTimeout. by rewrite Hfind.
Qed.

(** C6. The deadline handler of a ready session changes nothing when no
    session with the match id is active: after [completeReadyPhase] (the
    all-accepted fast path) marked it completed, and after the handler has
    already run once.  The match-embedded handler [processAcceptTimeout]
    returns without change when [acceptPhase.active] is false, which holds
    after [endAcceptPhase] on the fast path and after its own first run.
    Match ids of ready sessions are unique, as the schema declares. *)
Theorem deadline_handler_runs_once :
  (∀ mid (w : Ctl.World),
     (∀ s, s ∈ Ctl.sessions w → Ready.matchId s = mid →
           Ready.status s ≠ Ready.active) →
     Ready.handleReadyTimeout mid (Ctl.sessions w) = (None, Ctl.sessions w) ∧
     Ctl.readyTimeoutFires mid w = w) ∧
  (∀ now mid (w : Ctl.World) session st',
     NoDup (Ready.matchId <$> Ctl.sessions w) →
     Ready.completeReadyPhase now mid (Ctl.sessions w) = (Some session, st') →
     Ready.status session = Ready.completed ∧
     Ctl.readyTimeoutFires mid (Ctl.with_sessions st' w) =
       Ctl.with_sessions st' w) ∧
  (∀ mid (w : Ctl.World),
     NoDup (Ready.matchId <$> Ctl.sessions w) →
     Ctl.readyTimeoutFires mid (Ctl.readyTimeoutFires mid w) =
       Ctl.readyTimeoutFires mid w) ∧
  (∀ now fresh mid (w : Ctl.World) i m,
     list_find (fun m => Match.matchId m = mid) (Ctl.matches w) = Some (i, m) →
     Match.active (Match.acceptPhase m) = false →
     Ctl.processAcceptTimeout now fresh mid w = w) ∧
  (∀ now fresh mid (w : Ctl.World) i m,
     list_find (fun m => Match.matchId m = mid) (Ctl.matches w) = Some (i, m) →
     let w' := Ctl.with_matches
                 (<[i := Match.endAcceptPhase m]> (Ctl.matches w)) w in
     Ctl.processAcceptTimeout now fresh mid w' = w') ∧
  (∀ now now' fresh fresh' mid (w : Ctl.World),
     Ctl.processAcceptTimeout now' fresh' mid
       (Ctl.processAcceptTimeout now fresh mid w) =
     Ctl.processAcceptTimeout now fresh mid w).
Proof.
  split_and!.
  - intros mid w Hno. split;
      [by apply handleReadyTimeout_idle | by apply readyTimeoutFires_idle].
  - intros now mid w session st' Hnd Hc.
    apply completeReadyPhase_closes in Hc as [Hs Hno]; [|done].
    split; [done|]. by apply readyTimeoutFires_idle.
  - intros. by apply readyTimeoutFires_once.
  - intros. by eapply processAcceptTimeout_inactive.
  - intros now fresh mid w i m Hfind w'.
    eapply (processAcceptTimeout_inactive _ _ _ _ i).
    + subst w'. simpl. apply (list_find_insert _ _ _ _ _ Hfind).
      apply list_find_Some in Hfind as (_ & ? & _). done.
    + done.
  - intros. apply processAcceptTimeout_once.
Qed.

Lemma deadline_handler_runs_once_witness :
  NoDup (Ready.matchId <$> Ctl.sessions demo_ready_world) ∧
  let st' := (Ready.completeReadyPhase 5000 "PEND-1"
                (Ctl.sessions demo_ready_world)).2 in
  Ctl.readyTimeoutFires "PEND-1" (Ctl.with_sessions st' demo_ready_world) =
    Ctl.with_sessions st' demo_ready_world.
Proof.
  assert (Hnd : NoDup (Ready.matchId <$> Ctl.sessions demo_ready_world))
    by (apply (bool_decide_unpack _); vm_compute; exact I).
  split; [exact Hnd|]. cbv zeta.
  destruct (Ready.completeReadyPhase 5000 "PEND-1"
              (Ctl.sessions demo_ready_world)) as [[s|] st'] eqn:E.
  - cbn [snd].
    exact (proj2 (proj1 (proj2 deadline_handler_runs_once)
                    5000%Z "PEND-1" demo_ready_world s st' Hnd E)).
  - exfalso. vm_compute in E. discriminate.
Defined.

End Deadline.

(** ** After a missed deadline: who goes back to the queue, and how *)

Section Requeue.
Import Queue.

Lemma elem_of_set_of_aux (seen l : list string) x :
  x ∈ set_of_aux seen l ↔ x ∈ l ∧ x ∉ seen.
Proof.
  revert seen. induction l as [|y l IH]; intros seen; simpl.
  - split; [by intros ?%elem_of_nil | by intros [?%elem_of_nil _]].
  - unfold includes. case_bool_decide as Hy.
    + rewrite IH. split.
      * intros [? ?]. split; [by right|done].
      * intros [Hx ?]. apply elem_of_cons in Hx as [->|?]; done.
    + rewrite elem_of_cons, IH, !elem_of_cons. split.
      * intros [->|[? Hn]]; [by split; [left|]|].
        split; [by right|]. intros ?. apply Hn. by right.
      * intros [Hx Hs]. destruct Hx as [->|Hl]; [by left|].
        destruct (decide (x = y)) as [->|Hne]; [by left|].
        right. split; [done|]. by intros [?|?].
Qed.

Lemma includes_set_of x (l : list string) :
  includes x (set_of l) = true ↔ x ∈ l.
Proof.
  unfold includes, set_of. rewrite bool_decide_eq_true, elem_of_set_of_aux.
  split; [by intros [? _]|]. intros ?. split; [done|]. by intros ?%elem_of_nil.
Qed.

Lemma includes_set_of_false x (l : list string) :
  includes x (set_of l) = false ↔ x ∉ l.
Proof.
  rewrite <- includes_set_of. by destruct (includes x (set_of l)).
Qed.

Lemma recalc_lookup (l : list Entry) i :
  recalc l !! i = (set_position (i + 1) <$> (l !! i)).
Proof. unfold recalc. by rewrite list_lookup_imap. Qed.

Lemma recalc_elem (l : list Entry) e :
  e ∈ recalc l →
  ∃ e0, e0 ∈ l ∧ steamId e = steamId e0 ∧ hasPriority e = hasPriority e0.
Proof.
  intros [i Hi]%list_elem_of_lookup. rewrite recalc_lookup in Hi.
  destruct (l !! i) as [e0|] eqn:E; [|done]. injection Hi as <-.
  exists e0. split; [by eapply list_elem_of_lookup_2|done].
Qed.

Lemma elem_recalc (l : list Entry) e0 :
  e0 ∈ l →
  ∃ e, e ∈ recalc l ∧ steamId e = steamId e0 ∧ hasPriority e = hasPriority e0.
Proof.
  intros [i Hi]%list_elem_of_lookup.
  exists (set_position (i + 1) e0). split; [|done].
  apply (list_elem_of_lookup_2 _ i). by rewrite recalc_lookup, Hi.
Qed.

(** The queue rebuilt by the ready-session timeout callback: session
    players who accepted stay, with priority and ahead of everyone else;
    session players who did not accept are gone and reported for the
    [inQueue] reset; players outside the session stay as they were. *)
Lemma rebuildAfterTimeout_spec acc non (q : t) :
  let r := rebuildAfterTimeout acc non q in
  (∀ e, e ∈ players r.1 → steamId e ∈ acc → hasPriority e = true) ∧
  (∀ i j ei ej, players r.1 !! i = Some ei → players r.1 !! j = Some ej →
     steamId ei ∈ acc → steamId ej ∉ acc → (i < j)%nat) ∧
  (∀ x, x ∈ non → x ∉ acc →
     x ∈ r.2 ∧ ∀ e, e ∈ players r.1 → steamId e ≠ x) ∧
  (∀ e0, e0 ∈ players q → steamId e0 ∈ acc →
     ∃ e, e ∈ players r.1 ∧ steamId e = steamId e0) ∧
  (∀ e0, e0 ∈ players q → steamId e0 ∉ acc → steamId e0 ∉ non →
     ∃ e, e ∈ players r.1 ∧ steamId e = steamId e0 ∧
          hasPriority e = hasPriority e0) ∧
  positions_ok (players r.1).
Proof.
  cbv zeta. unfold rebuildAfterTimeout. cbn [fst snd players].
  set (PA := fun p : Entry =>
         includes (steamId p) (set_of (acc ++ non)) = true
         ∧ includes (steamId p) (set_of acc) = true).
  set (PB := fun p : Entry =>
         includes (steamId p) (set_of (acc ++ non)) = false).
  set (A := set_priority <$> filter PA (players q)).
  set (B := filter PB (players q)).
  assert (HA : ∀ e, e ∈ A → steamId e ∈ acc ∧ hasPriority e = true).
  { intros e (e0 & -> & He0)%list_elem_of_fmap.
    apply list_elem_of_filter in He0 as [[_ H2] _].
    by apply includes_set_of in H2. }
  assert (HB : ∀ e, e ∈ B →
            (steamId e ∉ acc) ∧ (steamId e ∉ non) ∧ e ∈ players q).
  { intros e [He ?]%list_elem_of_filter.
    apply includes_set_of_false in He.
    repeat split; [| |done]; intros ?; apply He; apply elem_of_app; auto. }
  split_and!.
  - intros e (e0 & [He0|He0]%elem_of_app & Hs & Hp)%recalc_elem Hacc.
    + rewrite Hp. by apply HA.
    + exfalso. apply HB in He0 as (Hn & _). apply Hn. by rewrite <- Hs.
  - intros i j ei ej Hi Hj Hacc Hnacc.
    rewrite recalc_lookup in Hi, Hj.
    destruct ((A ++ B) !! i) as [ei0|] eqn:Ei; [|done].
    destruct ((A ++ B) !! j) as [ej0|] eqn:Ej; [|done].
    injection Hi as <-. injection Hj as <-. simpl in Hacc, Hnacc.
    apply lookup_app_Some in Ei as [Ei|[_ Ei]].
    + apply lookup_app_Some in Ej as [Ej|[Hge _]].
      * exfalso. apply Hnacc.
        apply (HA ej0). by apply (list_elem_of_lookup_2 _ j).
      * apply lookup_lt_Some in Ei. lia.
    + exfalso. apply list_elem_of_lookup_2 in Ei.
      apply HB in Ei as (Hn & _). done.
  - intros x Hx Hnx. split.
    + apply list_elem_of_filter. split; [by apply includes_set_of_false|].
      apply (proj2 (elem_of_set_of_aux [] _ _)).
      split; [apply elem_of_app; by right|]. by intros ?%elem_of_nil.
    + intros e (e0 & [He0|He0]%elem_of_app & Hs & _)%recalc_elem Heq.
      * apply HA in He0 as [? _]. congruence.
      * apply HB in He0 as (_ & ? & _). congruence.
  - intros e0 He0 Hacc.
    destruct (elem_recalc (A ++ B) (set_priority e0)) as (e & ? & ? & _).
    { apply elem_of_app. left. apply list_elem_of_fmap.
      exists e0. split; [done|]. apply list_elem_of_filter. split; [|done].
      split; apply includes_set_of; [apply elem_of_app; by left|done]. }
    by exists e.
  - intros e0 He0 Hn1 Hn2.
    destruct (elem_recalc (A ++ B) e0) as (e & ? & ? & ?).
    { apply elem_of_app. right. apply list_elem_of_filter. split; [|done].
      apply includes_set_of_false. by intros [?|?]%elem_of_app. }
    by exists e.
  - apply recalc_positions_ok.
Qed.

Lemma addPlayer_appends now p (q q' : t) :
  addPlayer now p q = Ok q' →
  ∃ e, players q' = players q ++ [e] ∧ steamId e = ref_steamId p ∧
       hasPriority e = false ∧ position e = (length (players q) + 1)%nat.
Proof.
  unfold addPlayer. destruct (has_player _ _); [done|].
  case_bool_decide; [done|]. intros [= <-]. eexists. by simpl.
Qed.

(** The timer of [startReadyPhaseMatch] fires on a session with p0..p6
    accepted.  The queue the session came from keeps exactly the
    seven acceptors, at positions 1..7 and with [hasPriority] true; p7, p8
    and p9 are dropped and their [inQueue] flag is cleared. *)
Example readyTimeoutFires_requeues_with_priority :
  let w := Ctl.readyTimeoutFires "PEND-1" demo_ready_world in
  Ready.status <$> Ctl.sessions w !! 0%nat = Some Ready.timeout ∧
  (fun iq => Queue.queue_view iq.2) <$> Ctl.queues w =
    [[("p0", 1%nat, true); ("p1", 2%nat, true); ("p2", 3%nat, true);
      ("p3", 4%nat, true); ("p4", 5%nat, true); ("p5", 6%nat, true);
      ("p6", 7%nat, true)]] ∧
  User.inQueue <$> Ctl.users w !! "p0" = Some true ∧
  User.inQueue <$> Ctl.users w !! "p7" = Some false.
Proof. vm_compute. repeat split; reflexivity. Qed.

End Requeue.

(** ** The queue document: capacity, distinct players, accept lists *)

Section QueueDocument.
Import Queue.

Lemma ids_recalc (l : list Entry) : steamId <$> recalc l = steamId <$> l.
Proof.
  apply list_eq. intros i. rewrite !list_lookup_fmap, recalc_lookup.
  by destruct (l !! i).
Qed.

Lemma length_recalc (l : list Entry) : length (recalc l) = length l.
Proof. by rewrite <- (length_fmap steamId), ids_recalc, length_fmap. Qed.

Lemma ids_set_priority (l : list Entry) :
  steamId <$> (set_priority <$> l) = steamId <$> l.
Proof. rewrite <- list_fmap_compose. by apply list_fmap_ext. Qed.

Lemma has_player_spec sid (q : t) :
  has_player sid q = true ↔ sid ∈ steamId <$> players q.
Proof.
  unfold has_player. rewrite bool_decide_eq_true, Exists_exists, list_elem_of_fmap.
  split; intros (p & H1 & H2); exists p; by split.
Qed.

Lemma NoDup_fmap_filter {A B} (f : A → B) (P : A → Prop)
    `{∀ x, Decision (P x)} (l : list A) :
  NoDup (f <$> l) → NoDup (f <$> filter P l).
Proof.
  induction l as [|x l IH]; [done|]. rewrite fmap_cons, NoDup_cons.
  intros [Hx Hl]. rewrite filter_cons. case_decide; [|by apply IH].
  rewrite fmap_cons. apply NoDup_cons. split; [|by apply IH].
  intros (y & Hy & Hin)%list_elem_of_fmap. apply Hx.
  apply list_elem_of_fmap. exists y. split; [done|].
  by apply list_elem_of_filter in Hin as [_ ?].
Qed.

Lemma NoDup_fmap_two_filters {A B} (f : A → B) (P Q : A → Prop)
    `{∀ x, Decision (P x)} `{∀ x, Decision (Q x)} (l : list A) :
  (∀ x, P x → Q x → False) →
  NoDup (f <$> l) → NoDup (f <$> (filter P l ++ filter Q l)).
Proof.
  intros Hdis Hnd. rewrite fmap_app. apply NoDup_app. split_and!.
  - by apply NoDup_fmap_filter.
  - intros b (x & -> & Hx)%list_elem_of_fmap (y & Hxy & Hy)%list_elem_of_fmap.
    apply list_elem_of_filter in Hx as [HP Hxl].
    apply list_elem_of_filter in Hy as [HQ Hyl].
    assert (x = y) as ->; [|by eapply Hdis].
    apply list_elem_of_lookup in Hxl as [i Hi].
    apply list_elem_of_lookup in Hyl as [j Hj].
    assert (i = j) as ->; [|congruence].
    apply (NoDup_lookup (f <$> l) i j (f x) Hnd).
    + by rewrite list_lookup_fmap, Hi.
    + by rewrite list_lookup_fmap, Hj, Hxy.
  - by apply NoDup_fmap_filter.
Qed.

Lemma length_two_filters {A} (P Q : A → Prop)
    `{∀ x, Decision (P x)} `{∀ x, Decision (Q x)} (l : list A) :
  (∀ x, P x → Q x → False) →
  (length (filter P l) + length (filter Q l) <= length l)%nat.
Proof.
  intros Hdis. induction l as [|x l IH]; [done|].
  rewrite !filter_cons. repeat case_decide; simpl; try lia.
  exfalso. by eapply Hdis.
Qed.

Lemma addPlayer_doc_ok now p (q q' : t) :
  doc_ok q → addPlayer now p q = Ok q' → doc_ok q'.
Proof.
  intros (Hreq & Hlen & Hnd & Ha & Hd). unfold addPlayer.
  destruct (has_player _ q) eqn:Hhas; [done|].
  case_bool_decide as Hfull; [done|]. intros [= <-]. split_and!; simpl; try done.
  - rewrite length_app. simpl. lia.
  - rewrite fmap_app. apply NoDup_app. split_and!; [done| |apply NoDup_singleton].
    intros x Hx Hx2. apply list_elem_of_singleton in Hx2 as ->. simpl in Hx.
    apply has_player_spec in Hx. congruence.
Qed.

Lemma removePlayer_doc_ok sid (q q' : t) :
  doc_ok q → removePlayer sid q = Ok q' → doc_ok q'.
Proof.
  intros (Hreq & Hlen & Hnd & Ha & Hd). unfold removePlayer.
  case_bool_decide; [done|]. intros [= <-]. split_and!; simpl; try done.
  - rewrite length_recalc. pose proof (length_filter (fun p => steamId p ≠ sid) (players q)). lia.
  - rewrite ids_recalc. by apply NoDup_fmap_filter.
Qed.

Lemma apply_action_doc_ok (q : t) a : doc_ok q → doc_ok (apply_action q a).
Proof.
  intros Hq. pose proof Hq as (Hreq & Hlen & Hnd & Ha & Hd).
  destruct a as [[now p | sid | | acc non] | now | sid | sid]; simpl.
  - destruct (addPlayer now p q) eqn:E; simpl; [|done].
    by eapply addPlayer_doc_ok.
  - destruct (removePlayer sid q) eqn:E; simpl; [|done].
    by eapply removePlayer_doc_ok.
  - split_and!; simpl; try done; try apply NoDup_nil_2.
    + rewrite length_recalc, length_fmap.
      pose proof (length_filter
        (fun p => includes (steamId p) (acceptedPlayers (acceptPhase q)) = true)
        (players q)). lia.
    + rewrite ids_recalc, ids_set_priority. by apply NoDup_fmap_filter.
  - split_and!; simpl; try done; try apply NoDup_nil_2.
    + rewrite length_recalc, length_app, length_fmap.
      etrans; [apply length_two_filters|done].
      intros x [H3 _] H4. congruence.
    + rewrite ids_recalc, fmap_app, ids_set_priority, <- fmap_app.
      apply NoDup_fmap_two_filters; [|done].
      intros x [H3 _] H4. congruence.
  - split_and!; simpl; try done; apply NoDup_nil_2.
  - unfold acceptMatch.
    destruct (negb (has_player sid q)); [done|].
    destruct (negb (active (acceptPhase q))); [done|].
    destruct (includes sid (acceptedPlayers (acceptPhase q))) eqn:E; [done|].
    destruct (includes sid (declinedPlayers (acceptPhase q))); [done|].
    simpl. split_and!; simpl; try done.
    apply NoDup_app. split_and!; [done| |apply NoDup_singleton].
    intros x Hx Hx2. apply list_elem_of_singleton in Hx2 as ->.
    unfold includes in E. by apply bool_decide_eq_false in E.
  - unfold declineMatch.
    destruct (negb (has_player sid q)); [done|].
    destruct (negb (active (acceptPhase q))); [done|].
    simpl. split_and!; simpl; try done.
    destruct (includes sid (declinedPlayers (acceptPhase q))) eqn:E; [done|].
    apply NoDup_app. split_and!; [done| |apply NoDup_singleton].
    intros x Hx Hx2. apply list_elem_of_singleton in Hx2 as ->.
    unfold includes in E. by apply bool_decide_eq_false in E.
Qed.

(** X1. From the queue that [getActiveQueue] creates, whatever methods run
    on the document (joins, leaves, starting the accept phase, accepts,
    declines, the accept-phase and ready-timeout rebuilds): the queue never
    holds more than its ten required players, never holds a steam id twice,
    and neither accept list ever counts an id twice. *)
Theorem queue_capacity_and_distinct (acts : list Queue.Action) :
  let q := Queue.run_actions acts Queue.create in
  Queue.requiredPlayers q = 10%nat ∧
  (length (Queue.players q) <= 10)%nat ∧
  NoDup (Queue.steamId <$> Queue.players q) ∧
  NoDup (Queue.acceptedPlayers (Queue.acceptPhase q)) ∧
  NoDup (Queue.declinedPlayers (Queue.acceptPhase q)).
Proof.
  cbv zeta. assert (H : doc_ok (run_actions acts create)).
  { unfold run_actions. generalize create,
      (conj eq_refl (conj (Nat.le_0_l 10) (conj (NoDup_nil_2 (A:=string))
        (conj (NoDup_nil_2 (A:=string)) (NoDup_nil_2 (A:=string)))))
       : doc_ok create).
    induction acts as [|a acts IH]; intros q Hq; [done|].
    simpl. apply IH. by apply apply_action_doc_ok. }
  destruct H as (Hreq & Hlen & ? & ? & ?). rewrite Hreq in Hlen. done.
Qed.

Lemma apply_op_status_ok (q : t) o : status_ok q → status_ok (apply_op q o).
Proof.
  intros (Hreq & Hst).
  assert (Hby : ∀ l : list Entry, (length l <= length (players q))%nat →
            (status_by_size l (requiredPlayers q) = full ∧ length l = 10%nat) ∨
            (status_by_size l (requiredPlayers q) = waiting
             ∧ (length l < 10)%nat)).
  { intros l Hl. unfold status_by_size. rewrite Hreq.
    case_bool_decide; [left|right]; split; try done; destruct Hst as [[_ ?]|[_ ?]]; lia. }
  destruct o as [now p | sid | | acc non]; simpl.
  - unfold addPlayer. destruct (has_player _ q); [done|].
    case_bool_decide as Hfull; [done|]. simpl. split; [done|].
    simpl. rewrite !length_app. simpl. rewrite Hreq in *.
    case_bool_decide; [left; split; [done|lia]|right].
    destruct Hst as [[_ ?]|[? _]]; [lia|]. split; [done|lia].
  - unfold removePlayer. case_bool_decide as Hsame; [done|]. simpl.
    split; [done|]. simpl. rewrite length_recalc, Hreq.
    pose proof (length_filter (fun p => steamId p ≠ sid) (players q)).
    right. rewrite bool_decide_eq_true_2; [split; [done|]|];
      destruct Hst as [[_ ?]|[_ ?]]; lia.
  - split; [done|]. simpl. rewrite length_recalc. apply Hby.
    rewrite length_fmap. apply length_filter.
  - split; [done|]. simpl. rewrite length_recalc. apply Hby.
    rewrite length_app, length_fmap.
    etrans; [apply length_two_filters|done].
    intros x [H3 _] H4. congruence.
Qed.

(** X2. Through joins, leaves and the two rebuilds the status tells the
    size: the queue is [full] exactly when it holds ten players, it is
    [waiting] otherwise, and [isFull()] answers accordingly. *)
Theorem queue_status_tracks_size (ops : list Queue.Op) :
  let q := Queue.run ops Queue.create in
  ((Queue.status q = Queue.full ∧ length (Queue.players q) = 10%nat) ∨
   (Queue.status q = Queue.waiting ∧ (length (Queue.players q) < 10)%nat)) ∧
  (Queue.isFull q = true ↔ Queue.status q = Queue.full).
Proof.
  cbv zeta. assert (H : status_ok (run ops create)).
  { unfold run. assert (H0 : status_ok create).
    { split; [done|]. right. split; [done|]. simpl. lia. }
    revert H0. generalize create.
    induction ops as [|o ops IH]; intros q Hq; [done|].
    simpl. apply IH. by apply apply_op_status_ok. }
  destruct H as (Hreq & Hst). split; [done|].
  unfold isFull. rewrite Hreq, bool_decide_eq_true.
  destruct Hst as [[-> ?]|[-> ?]]; split; intros; try done; lia.
Qed.

Lemma recalc_id (l : list Entry) : positions_ok l → recalc l = l.
Proof.
  intros Hok. apply list_eq. intros i. rewrite recalc_lookup.
  destruct (l !! i) as [e|] eqn:E; [|done]. simpl.
  rewrite <- (Hok i e E). by destruct e.
Qed.

(** X3. Leaving undoes joining: when a join succeeds on a queue whose
    positions are in order, removing the same player succeeds and gives
    back exactly the entries that were there before. *)
Theorem leave_undoes_join now p (q q1 : Queue.t) :
  Queue.positions_ok (Queue.players q) →
  Queue.addPlayer now p q = Ok q1 →
  ∃ q2, Queue.removePlayer (ref_steamId p) q1 = Ok q2 ∧
        Queue.players q2 = Queue.players q.
Proof.
  intros Hok. unfold addPlayer.
  destruct (has_player _ q) eqn:Hhas; [done|].
  case_bool_decide; [done|]. intros [= <-]. unfold removePlayer. simpl.
  assert (Hf : filter (fun e => steamId e ≠ ref_steamId p)
                 (players q ++
                  [mkEntry (ref_steamId p) (ref_name p) (ref_avatar p) now
                     (length (players q) + 1) false]) = players q).
  { rewrite filter_app, filter_cons_False by (intros H'; by apply H').
    rewrite filter_nil, app_nil_r. apply filter_keeps_all.
    intros e He Heq. assert (has_player (ref_steamId p) q = true); [|congruence].
    apply has_player_spec, list_elem_of_fmap. by exists e. }
  rewrite Hf, length_app. simpl.
  rewrite bool_decide_eq_false_2 by lia.
  eexists. split; [done|]. simpl. by apply recalc_id.
Qed.

Lemma leave_undoes_join_witness :
  ∃ q2, Queue.removePlayer "c"
          (or_keep (Queue.addPlayer 50 (mkPlayerRef "c" "Cid" "c.png")
                      demo_late_queue) demo_late_queue) = Ok q2 ∧
        Queue.players q2 = Queue.players demo_late_queue.
Proof.
  apply (leave_undoes_join 50 (mkPlayerRef "c" "Cid" "c.png") demo_late_queue).
  - intros i e Hi. destruct i as [|[|i]]; vm_compute in Hi; [|done..].
    by injection Hi as <-.
  - vm_compute. reflexivity.
Defined.

Lemma filter_bool_partition {A} (f : A → bool) (l : list A) :
  filter (fun x => f x = true) l ++ filter (fun x => f x = false) l ≡ₚ l.
Proof.
  induction l as [|x l IH]; [done|].
  destruct (f x) eqn:E.
  - rewrite (filter_cons_True (fun x => f x = true)) by done.
    rewrite (filter_cons_False (fun x => f x = false)) by congruence.
    simpl. by rewrite IH.
  - rewrite (filter_cons_False (fun x => f x = true)) by congruence.
    rewrite (filter_cons_True (fun x => f x = false)) by done.
    rewrite <- Permutation_middle. by rewrite IH.
Qed.

(** X4. [processAcceptPhaseResults] splits the queue in two: the players it
    keeps and the ids it reports as removed are together exactly the
    players that were queued; the kept ones are those on the accepted list
    and all carry the priority flag, the removed ones are those not on it;
    the accept phase is reset and positions are renumbered from 1. *)
Theorem processAcceptPhaseResults_partition (q : Queue.t) :
  let r := Queue.processAcceptPhaseResults q in
  let accepted := Queue.acceptedPlayers (Queue.acceptPhase q) in
  (Queue.steamId <$> Queue.players r.1) ++ r.2 ≡ₚ
    Queue.steamId <$> Queue.players q ∧
  (∀ e, e ∈ Queue.players r.1 →
     Queue.hasPriority e = true ∧ Queue.steamId e ∈ accepted) ∧
  (∀ x, x ∈ r.2 → x ∉ accepted) ∧
  Queue.active (Queue.acceptPhase r.1) = false ∧
  Queue.acceptedPlayers (Queue.acceptPhase r.1) = [] ∧
  Queue.declinedPlayers (Queue.acceptPhase r.1) = [] ∧
  Queue.positions_ok (Queue.players r.1).
Proof.
  cbv zeta. unfold processAcceptPhaseResults. cbn [fst snd players acceptPhase].
  split_and!; try done.
  - rewrite ids_recalc, ids_set_priority, <- fmap_app.
    by rewrite (filter_bool_partition
      (fun p => includes (steamId p) (acceptedPlayers (acceptPhase q)))).
  - intros e (e0 & He0 & Hs & Hp)%recalc_elem.
    apply list_elem_of_fmap in He0 as (e1 & -> & He1).
    apply list_elem_of_filter in He1 as [Hin _].
    rewrite Hs, Hp. split; [done|]. simpl.
    unfold includes in Hin. by apply bool_decide_eq_true in Hin.
  - intros x (e & -> & He)%list_elem_of_fmap.
    apply list_elem_of_filter in He as [Hin _].
    unfold includes in Hin. by apply bool_decide_eq_false in Hin.
  - apply recalc_positions_ok.
Qed.

Lemma queue_acceptMatch_Ok sid (q q1 : t) :
  acceptMatch sid q = Ok q1 →
  has_player sid q = true ∧ active (acceptPhase q) = true ∧
  includes sid (acceptedPlayers (acceptPhase q)) = false ∧
  includes sid (declinedPlayers (acceptPhase q)) = false ∧
  players q1 = players q ∧
  active (acceptPhase q1) = true ∧
  acceptedPlayers (acceptPhase q1) = acceptedPlayers (acceptPhase q) ++ [sid] ∧
  declinedPlayers (acceptPhase q1) = declinedPlayers (acceptPhase q).
Proof.
  unfold acceptMatch.
  destruct (has_player sid q) eqn:Hhas; [|done]. simpl.
  destruct (active (acceptPhase q)) eqn:Hact; [|done]. simpl.
  destruct (includes sid (acceptedPlayers (acceptPhase q))) eqn:Hacc; [done|].
  destruct (includes sid (declinedPlayers (acceptPhase q))) eqn:Hdec; [done|].
  by intros [= <-].
Qed.

Lemma queue_declineMatch_Ok sid (q q1 : t) :
  declineMatch sid q = Ok q1 →
  has_player sid q = true ∧ active (acceptPhase q) = true ∧
  players q1 = players q ∧
  active (acceptPhase q1) = true ∧
  acceptedPlayers (acceptPhase q1) = acceptedPlayers (acceptPhase q) ∧
  sid ∈ declinedPlayers (acceptPhase q1).
Proof.
  unfold declineMatch.
  destruct (has_player sid q) eqn:Hhas; [|done]. simpl.
  destruct (active (acceptPhase q)) eqn:Hact; [|done]. simpl.
  intros [= <-]. simpl. split_and!; try done.
  unfold includes. case_bool_decide; [done|].
  apply elem_of_app. right. by left.
Qed.

Lemma has_player_players sid (q q' : t) :
  players q' = players q → has_player sid q' = has_player sid q.
Proof. unfold has_player. by intros ->. Qed.

(** X5. Declining does not take back an accept.  A player who accepts and
    then declines is on both lists, and [processAcceptPhaseResults] still
    keeps that player in the queue, with priority.  The other way round is
    refused: after a decline, [acceptMatch] throws. *)
Theorem decline_after_accept_is_kept sid (q q1 q2 : Queue.t) :
  Queue.acceptMatch sid q = Ok q1 →
  Queue.declineMatch sid q1 = Ok q2 →
  Queue.hasAccepted sid q2 = true ∧ Queue.hasDeclined sid q2 = true ∧
  (∃ e, e ∈ Queue.players (Queue.processAcceptPhaseResults q2).1 ∧
        Queue.steamId e = sid ∧ Queue.hasPriority e = true) ∧
  (sid ∉ (Queue.processAcceptPhaseResults q2).2) ∧
  Queue.acceptMatch sid q2 = Err "Player already accepted" ∧
  (∀ q3, Queue.declineMatch sid q = Ok q3 →
         Queue.acceptMatch sid q3 = Err "Player already declined").
Proof.
  intros (Hhas & Hact & Hacc & Hdec & Hp1 & Ha1 & Hacc1 & Hdec1)%queue_acceptMatch_Ok
         (_ & _ & Hp2 & Ha2 & Hacc2 & Hdec2)%queue_declineMatch_Ok.
  assert (Hin : includes sid (acceptedPlayers (acceptPhase q2)) = true).
  { rewrite Hacc2, Hacc1. apply bool_decide_eq_true.
    apply elem_of_app. right. by left. }
  assert (Hhas2 : has_player sid q2 = true).
  { rewrite (has_player_players sid q1 q2 Hp2).
    by rewrite (has_player_players sid q q1 Hp1). }
  split_and!.
  - done.
  - by apply bool_decide_eq_true.
  - apply has_player_spec in Hhas2.
    apply list_elem_of_fmap in Hhas2 as (e0 & Hs & He0).
    destruct (elem_recalc
      (set_priority <$>
        filter (fun p => includes (steamId p)
                           (acceptedPlayers (acceptPhase q2)) = true)
               (players q2)) (set_priority e0)) as (e & He & Hse & Hpe).
    { apply list_elem_of_fmap. exists e0. split; [done|].
      apply list_elem_of_filter. split; [|done]. by rewrite <- Hs. }
    exists e. split; [exact He|]. by rewrite Hse, Hpe.
  - unfold processAcceptPhaseResults. cbn [snd].
    intros (e & Hs & He)%list_elem_of_fmap.
    apply list_elem_of_filter in He as [Hno _]. rewrite <- Hs in Hno. congruence.
  - unfold acceptMatch. by rewrite Hhas2, Ha2, Hin.
  - intros q3 (_ & _ & Hp3 & Ha3 & Hacc3 & Hdec3)%queue_declineMatch_Ok.
    unfold acceptMatch.
    rewrite (has_player_players sid q q3 Hp3), Hhas, Ha3, Hacc3, Hacc. simpl.
    unfold includes. by rewrite bool_decide_eq_true_2.
Qed.

Lemma decline_after_accept_is_kept_witness :
  ∃ q0 q1 q2,
    Queue.acceptMatch "late" q0 = Ok q1 ∧ Queue.declineMatch "late" q1 = Ok q2 ∧
    Queue.hasAccepted "late" q2 = true ∧ Queue.hasDeclined "late" q2 = true.
Proof.
  pose (q0 := Queue.startAcceptPhase 100 demo_late_queue).
  pose (q1 := or_keep (Queue.acceptMatch "late" q0) q0).
  pose (q2 := or_keep (Queue.declineMatch "late" q1) q1).
  assert (H1 : Queue.acceptMatch "late" q0 = Ok q1) by (vm_compute; reflexivity).
  assert (H2 : Queue.declineMatch "late" q1 = Ok q2) by (vm_compute; reflexivity).
  exists q0, q1, q2. split; [exact H1|]. split; [exact H2|].
  destruct (decline_after_accept_is_kept "late" q0 q1 q2 H1 H2) as (Ha & Hd & _).
  split; [exact Ha|exact Hd].
Defined.

End QueueDocument.

(** ** The ready service on its collection *)

Section ReadySessions.
Import Ready.

Lemma findActive_Some mid (st : list Session) i s :
  findActive mid st = Some (i, s) →
  st !! i = Some s ∧ matchId s = mid ∧ status s = active.
Proof. by intros (? & [? ?] & _)%list_find_Some. Qed.

Lemma ids_of_fresh_players (ids : list string) :
  userId <$> ((fun u => mkSPlayer u false None) <$> ids) = ids.
Proof. induction ids as [|x ids IH]; [done|]. simpl. by f_equal. Qed.

Lemma update_store_ok (st : list Session) i s s' :
  store_ok st → st !! i = Some s → matchId s' = matchId s → session_ok s' →
  store_ok (<[i := s']> st).
Proof.
  intros [Hnd Hall] Hi Hm Hok. split.
  - rewrite list_fmap_insert, Hm, list_insert_id; [done|].
    by rewrite list_lookup_fmap, Hi.
  - by apply Forall_insert.
Qed.

Lemma close_store_ok (st : list Session) mid i s stt d :
  store_ok st → findActive mid st = Some (i, s) →
  store_ok (<[i := set_status stt d s]> st).
Proof.
  intros Hok (Hi & _ & _)%findActive_Some.
  apply (update_store_ok _ _ s); [done..|].
  destruct Hok as [_ Hall]. rewrite Forall_lookup in Hall.
  exact (Hall _ _ Hi).
Qed.

Lemma call_store_ok (st : list Session) c : store_ok st → store_ok (call st c).
Proof.
  intros Hok.
  destruct c as [now mid ids qid secs|now mid uid|now mid|mid|mid|now]; simpl.
  - case_bool_decide as Hin; [done|]. unfold startReadyPhase.
    destruct (bool_decide (mid = "") || negb (bool_decide (length ids = 10%nat)))
      eqn:Hc; [done|].
    apply orb_false_elim in Hc as [Hm Hl]. apply bool_decide_eq_false in Hm.
    apply negb_false_iff, bool_decide_eq_true in Hl.
    destruct Hok as [Hnd Hall]. split.
    + rewrite fmap_app. apply NoDup_app. split; [done|].
      split; [|apply NoDup_singleton].
      intros x Hx Hx2. apply list_elem_of_singleton in Hx2 as ->. by apply Hin.
    + apply Forall_app. split; [done|]. apply Forall_singleton.
      split_and!; simpl; [done|by rewrite length_fmap|].
      apply ids_of_fresh_players.
  - unfold recordPlayerAccept.
    destruct (findActive mid st) as [[i s]|] eqn:Hf; [|done].
    destruct (list_find _ (players s)) as [[j p]|] eqn:Hp; [|done].
    destruct (accepted p); [done|]. simpl.
    apply findActive_Some in Hf as (Hi & Hm & Ha).
    apply (update_store_ok _ _ s); [done..|].
    destruct Hok as [_ Hall]. rewrite Forall_lookup in Hall.
    destruct (Hall _ _ Hi) as (H1 & H2 & H3).
    apply list_find_Some in Hp as (Hj & Hu & _).
    split_and!; simpl; [done|by rewrite length_insert|].
    rewrite list_fmap_insert. simpl. rewrite list_insert_id; [done|].
    by rewrite list_lookup_fmap, Hj.
  - unfold completeReadyPhase.
    destruct (findActive mid st) as [[i s]|] eqn:Hf; [|done].
    by eapply close_store_ok.
  - unfold handleReadyTimeout.
    destruct (findActive mid st) as [[i s]|] eqn:Hf; [|done].
    by eapply close_store_ok.
  - unfold cancelReadySession.
    destruct (findActive mid st) as [[i s]|] eqn:Hf; [|done].
    by eapply close_store_ok.
  - destruct Hok as [Hnd Hall]. split; [by apply NoDup_fmap_filter|].
    rewrite Forall_forall in Hall. apply Forall_forall.
    intros s [_ Hs]%list_elem_of_filter. by apply Hall.
Qed.

Lemma calls_store_ok cs (st : list Session) :
  store_ok st → store_ok (calls cs st).
Proof.
  revert st. induction cs as [|c cs IH]; intros st Hok; [done|].
  apply IH. by apply call_store_ok.
Qed.

Lemma store_ok_nil : store_ok [].
Proof. split; [apply NoDup_nil_2|apply Forall_nil_2]. Qed.

(** X6. Whatever calls the ready service has served on an empty
    collection (starts, accepts, completions, timeouts, cancellations,
    TTL deletions), no two stored sessions share a match id, and every
    stored session has a match id, exactly ten player entries, and these
    entries list the ids of [playerIds] in order. *)
Theorem ready_store_invariant (cs : list Ready.Call) :
  let st := Ready.calls cs [] in
  NoDup (Ready.matchId <$> st) ∧
  ∀ s, s ∈ st →
    Ready.matchId s ≠ "" ∧ length (Ready.players s) = 10%nat ∧
    Ready.userId <$> Ready.players s = Ready.playerIds s.
Proof.
  cbv zeta. destruct (calls_store_ok cs [] store_ok_nil) as [Hnd Hall].
  split; [done|]. rewrite Forall_forall in Hall. exact Hall.
Qed.

Lemma insert_keeps_other {A} (l : list A) i x0 x' x :
  l !! i = Some x0 → x ≠ x0 → x ∈ l → x ∈ <[i := x']> l.
Proof.
  intros Hi Hne [k Hk]%list_elem_of_lookup. apply list_elem_of_lookup.
  exists k. rewrite list_lookup_insert_ne; [done|]. intros ->. congruence.
Qed.

Lemma update_keeps_closed mid (st : list Session) i s0 s' s :
  findActive mid st = Some (i, s0) → s ∈ st → status s ≠ active →
  s ∈ <[i := s']> st.
Proof.
  intros (Hi & _ & Ha)%findActive_Some Hs Hst.
  apply (insert_keeps_other _ _ s0); [done| |done]. intros ->. done.
Qed.

Lemma call_keeps_closed (st : list Session) c s :
  s ∈ st → status s ≠ active →
  s ∈ call st c ∨ ∃ now, c = Purge now ∧ (expiresAt s <= now)%Z.
Proof.
  intros Hs Hst.
  destruct c as [now mid ids qid secs|now mid uid|now mid|mid|mid|now]; simpl.
  - left. case_bool_decide; [done|]. unfold startReadyPhase.
    destruct (_ || _); [done|]. apply elem_of_app. by left.
  - left. unfold recordPlayerAccept.
    destruct (findActive mid st) as [[i s0]|] eqn:Hf; [|done].
    destruct (list_find _ (players s0)) as [[j p]|]; [|done].
    destruct (accepted p); [done|]. by eapply update_keeps_closed.
  - left. unfold completeReadyPhase.
    destruct (findActive mid st) as [[i s0]|] eqn:Hf; [|done].
    by eapply update_keeps_closed.
  - left. unfold handleReadyTimeout.
    destruct (findActive mid st) as [[i s0]|] eqn:Hf; [|done].
    by eapply update_keeps_closed.
  - left. unfold cancelReadySession.
    destruct (findActive mid st) as [[i s0]|] eqn:Hf; [|done].
    by eapply update_keeps_closed.
  - destruct (decide (now < expiresAt s)%Z) as [Hlt|Hge].
    + left. by apply list_elem_of_filter.
    + right. exists now. split; [done|lia].
Qed.

(** X7. A session that is no longer active is never written again: after
    any further calls it is stored exactly as it was (no accept is
    recorded on it, its status is not changed a second time), unless the
    TTL index deleted it once [expiresAt] had passed. *)
Theorem closed_session_is_final (cs : list Ready.Call)
    (st : list Ready.Session) s :
  s ∈ st → Ready.status s ≠ Ready.active →
  s ∈ Ready.calls cs st ∨
  ∃ now, Ready.Purge now ∈ cs ∧ (Ready.expiresAt s <= now)%Z.
Proof.
  revert st. induction cs as [|c cs IH]; intros st Hs Hst; [by left|].
  destruct (call_keeps_closed st c s Hs Hst) as [Hin|(now & -> & Hle)].
  - destruct (IH _ Hin Hst) as [?|(now & Hp & Hle)]; [by left|].
    right. exists now. split; [by right|done].
  - right. exists now. split; [by left|done].
Qed.

Lemma closed_session_is_final_witness :
  ∃ s, s ∈ demo_timed_out ∧ Ready.status s ≠ Ready.active ∧
       s ∈ Ready.calls [Ready.Accept 1700 "PEND-1" "p7";
                        Ready.Complete 1800 "PEND-1";
                        Ready.Purge 2000] demo_timed_out.
Proof.
  assert (H : ∃ s, demo_timed_out = [s] ∧ Ready.status s = Ready.timeout ∧
                   Ready.expiresAt s = 21000%Z).
  { vm_compute. eexists. split; [reflexivity|]. split; reflexivity. }
  destruct H as (s & E & Hst & Hexp). exists s.
  assert (Hin : s ∈ demo_timed_out) by (rewrite E; by left).
  assert (Hcl : Ready.status s ≠ Ready.active) by (rewrite Hst; discriminate).
  split; [exact Hin|]. split; [exact Hcl|].
  destruct (closed_session_is_final
              [Ready.Accept 1700 "PEND-1" "p7"; Ready.Complete 1800 "PEND-1";
               Ready.Purge 2000] demo_timed_out s Hin Hcl)
    as [H|(now & Hp & Hle)]; [exact H|].
  exfalso. apply elem_of_cons in Hp as [Hp|Hp]; [discriminate|].
  apply elem_of_cons in Hp as [Hp|Hp]; [discriminate|].
  apply list_elem_of_singleton in Hp. injection Hp as ->. lia.
Defined.

(** X8. The deadline of a session splits its roster: the acceptors and
    the non-acceptors that [handleReadyTimeout] reports are together
    exactly the ten ids of [playerIds], the non-acceptors are what
    [getNonAcceptors] answered just before, no id is on both lists when
    the roster has no repeated id, and afterwards the session counts
    neither as all-accepted nor as having non-acceptors. *)
Theorem timeout_splits_roster (cs : list Ready.Call) mid r st' :
  let st := Ready.calls cs [] in
  Ready.handleReadyTimeout mid st = (Some r, st') →
  ∃ i s, Ready.findActive mid st = Some (i, s) ∧
    Ready.acceptors r ++ Ready.nonAcceptors r ≡ₚ Ready.playerIds s ∧
    (length (Ready.acceptors r) + length (Ready.nonAcceptors r) = 10)%nat ∧
    Ready.nonAcceptors r = Ready.getNonAcceptors mid st ∧
    (NoDup (Ready.playerIds s) →
     ∀ x, x ∈ Ready.acceptors r → x ∉ Ready.nonAcceptors r) ∧
    Ready.getNonAcceptors mid st' = [] ∧
    Ready.checkAllAccepted mid st' = false.
Proof.
  cbv zeta. pose proof (calls_store_ok cs [] store_ok_nil) as Hok.
  generalize dependent (calls cs []). intros st Hok.
  unfold handleReadyTimeout.
  destruct (findActive mid st) as [[i s]|] eqn:Hf; [|done].
  intros [= <- <-]. exists i, s. cbn [acceptors nonAcceptors].
  change (players (set_status timeout (completedAt s) s)) with (players s).
  pose proof Hf as (Hi & Hm & Ha)%findActive_Some.
  destruct Hok as [Hnd Hall]. rewrite Forall_lookup in Hall.
  destruct (Hall _ _ Hi) as (_ & Hlen & Hids).
  assert (Hperm : (userId <$> filter (fun p => accepted p = true) (players s)) ++
                  (userId <$> filter (fun p => accepted p = false) (players s))
                  ≡ₚ playerIds s).
  { rewrite <- fmap_app, (filter_bool_partition accepted). by rewrite Hids. }
  assert (Hnone : findActive mid
            (<[i := set_status timeout (completedAt s) s]> st) = None).
  { apply findActive_None.
    by apply (updated_session_inactive st mid i s). }
  split_and!.
  - done.
  - done.
  - rewrite <- length_app, Hperm, <- Hids, length_fmap. done.
  - unfold getNonAcceptors. by rewrite Hf.
  - intros Hnds x Hx Hx'. rewrite <- Hperm in Hnds.
    apply NoDup_app in Hnds as (_ & Hdis & _). by apply (Hdis x).
  - unfold getNonAcceptors. by rewrite Hnone.
  - unfold checkAllAccepted. by rewrite Hnone.
Qed.

Lemma timeout_splits_roster_witness :
  ∃ r st',
    Ready.handleReadyTimeout "PEND-1" (Ready.calls demo_calls []) =
      (Some r, st') ∧
    (length (Ready.acceptors r) + length (Ready.nonAcceptors r) = 10)%nat.
Proof.
  assert (H : ∃ r st',
    Ready.handleReadyTimeout "PEND-1" (Ready.calls demo_calls []) =
      (Some r, st')).
  { vm_compute. eexists _, _. reflexivity. }
  destruct H as (r & st' & E). exists r, st'. split; [exact E|].
  destruct (timeout_splits_roster demo_calls "PEND-1" r st' E)
    as (i & s & _ & _ & Hlen & _).
  exact Hlen.
Defined.

Lemma findActive_fresh (st0 : list Session) s mid :
  mid ∉ matchId <$> st0 → matchId s = mid →
  findActive mid (st0 ++ [s]) =
    if decide (status s = active) then Some (length st0, s) else None.
Proof.
  intros Hfresh Hm. unfold findActive.
  rewrite list_find_app_r.
  - simpl. destruct (decide (status s = active)) as [Ha|Ha].
    + by rewrite decide_True.
    + rewrite decide_False; [done|]. by intros [_ ?].
  - apply list_find_None, Forall_forall. intros x Hx [Hxm _].
    apply Hfresh, list_elem_of_fmap. by exists x.
Qed.

Lemma insert_last {A} (l : list A) x y : <[length l := y]> (l ++ [x]) = l ++ [y].
Proof.
  rewrite insert_app_r_alt by lia. by rewrite Nat.sub_diag.
Qed.

Lemma recordPlayerAccept_fresh (st0 : list Session) s mid t u :
  mid ∉ matchId <$> st0 → matchId s = mid → status s = active →
  recordPlayerAccept t mid u (st0 ++ [s]) =
    match list_find (fun p => userId p = u) (players s) with
    | None => (AcceptError "User not in session", st0 ++ [s])
    | Some (j, p) =>
        if accepted p then (AcceptStats (getSessionStats t s), st0 ++ [s])
        else
          let s' := set_players
                      (<[j := mkSPlayer (userId p) true (Some t)]> (players s))
                      s in
          (AcceptStats (getSessionStats t s'), st0 ++ [s'])
    end.
Proof.
  intros Hfresh Hm Ha. unfold recordPlayerAccept.
  rewrite findActive_fresh, decide_True by done.
  destruct (list_find _ (players s)) as [[j p]|]; [|done].
  destruct (accepted p); [done|]. cbv zeta. by rewrite insert_last.
Qed.

Lemma accept_step_ok ids us uid t (ps : list SPlayer) :
  accepts_ok ids us ps →
  accepts_ok ids (us ++ [uid])
    (match list_find (fun p => userId p = uid) ps with
     | Some (j, p) =>
         if accepted p then ps
         else <[j := mkSPlayer (userId p) true (Some t)]> ps
     | None => ps
     end).
Proof.
  intros [Hids Hinv].
  destruct (list_find _ ps) as [[j0 p0]|] eqn:Hf.
  - apply list_find_Some in Hf as (Hj0 & Hu0 & Hmin).
    assert (Hfirst0 : ∀ k, (k < j0)%nat → ids !! k ≠ Some uid).
    { intros k Hk Hidk. rewrite <- Hids, list_lookup_fmap in Hidk.
      destruct (ps !! k) as [pk|] eqn:Hpk; [|done]. simpl in Hidk.
      injection Hidk as Hidk. by apply (Hmin k pk). }
    assert (Hid0 : ids !! j0 = Some uid).
    { rewrite <- Hids, list_lookup_fmap, Hj0. simpl. by rewrite Hu0. }
    assert (Huniq : ∀ j, ids !! j = Some uid →
              (∀ k, (k < j)%nat → ids !! k ≠ Some uid) → j = j0).
    { intros j Hj Hfj. destruct (lt_eq_lt_dec j j0) as [[Hlt|]|Hgt]; [|done|].
      - exfalso. by apply (Hfirst0 j).
      - exfalso. by apply (Hfj j0). }
    assert (Hidj : ∀ j p, ps !! j = Some p → ids !! j = Some (userId p)).
    { intros j p Hj. by rewrite <- Hids, list_lookup_fmap, Hj. }
    destruct (accepted p0) eqn:Hacc0.
    + split; [done|]. intros j p Hj. rewrite (Hinv j p Hj). split.
      * intros [Hin Hfirst]. split; [|done]. apply elem_of_app. by left.
      * intros [Hin Hfirst]. apply elem_of_app in Hin as [Hin|Hin]; [done|].
        apply list_elem_of_singleton in Hin.
        assert (j = j0) as ->.
        { apply Huniq; [|by rewrite <- Hin]. rewrite <- Hin. by apply Hidj. }
        assert (p = p0) as -> by congruence.
        by apply (Hinv j0 p0 Hj0).
    + split.
      { rewrite list_fmap_insert. simpl. rewrite list_insert_id; [done|].
        by rewrite list_lookup_fmap, Hj0. }
      intros j p Hj. destruct (decide (j = j0)) as [->|Hne].
      * rewrite list_lookup_insert_eq in Hj by (by eapply lookup_lt_Some).
        injection Hj as <-. simpl. split; [|done]. intros _. rewrite Hu0.
        split; [|done]. apply elem_of_app. right. by left.
      * rewrite list_lookup_insert_ne in Hj by done.
        rewrite (Hinv j p Hj). split.
        -- intros [Hin Hfirst]. split; [|done]. apply elem_of_app. by left.
        -- intros [Hin Hfirst]. split; [|done].
           apply elem_of_app in Hin as [Hin|Hin]; [done|].
           apply list_elem_of_singleton in Hin. exfalso. apply Hne.
           apply Huniq; [|by rewrite <- Hin]. rewrite <- Hin. by apply Hidj.
  - apply list_find_None in Hf. rewrite Forall_forall in Hf.
    split; [done|]. intros j p Hj. rewrite (Hinv j p Hj).
    split; intros [Hin Hfirst]; (split; [|done]).
    + apply elem_of_app. by left.
    + apply elem_of_app in Hin as [Hin|Hin]; [done|].
      apply list_elem_of_singleton in Hin. exfalso.
      apply (Hf p); [by eapply list_elem_of_lookup_2|done].
Qed.

Lemma accepts_ok_all ids us (ps : list SPlayer) :
  accepts_ok ids us ps →
  Forall (fun p => accepted p = true) ps ↔
  NoDup ids ∧ ∀ id, id ∈ ids → id ∈ us.
Proof.
  intros [Hids Hinv]. rewrite Forall_lookup.
  assert (Hidj : ∀ j p, ps !! j = Some p → ids !! j = Some (userId p)).
  { intros j p Hj. by rewrite <- Hids, list_lookup_fmap, Hj. }
  assert (Hpj : ∀ j x, ids !! j = Some x → ∃ p, ps !! j = Some p ∧ userId p = x).
  { intros j x Hj. rewrite <- Hids, list_lookup_fmap in Hj.
    destruct (ps !! j) as [p|]; [|done]. injection Hj as <-. by exists p. }
  split.
  - intros Hall. split.
    + apply NoDup_alt. intros i j x Hi Hj.
      destruct (Hpj i x Hi) as (pi & Hpi & Hxi).
      destruct (Hpj j x Hj) as (pj & Hpj' & Hxj).
      destruct (proj1 (Hinv i pi Hpi) (Hall i pi Hpi)) as [_ Hfi].
      destruct (proj1 (Hinv j pj Hpj') (Hall j pj Hpj')) as [_ Hfj].
      rewrite Hxi in Hfi. rewrite Hxj in Hfj.
      destruct (lt_eq_lt_dec i j) as [[Hlt|]|Hgt]; [|done|].
      * exfalso. by apply (Hfj i).
      * exfalso. by apply (Hfi j).
    + intros id Hid. rewrite <- Hids in Hid.
      apply list_elem_of_fmap in Hid as (p & -> & Hp).
      apply list_elem_of_lookup in Hp as [j Hj].
      by apply (Hinv j p Hj), (Hall j p Hj).
  - intros [Hnd Hsub] j p Hj. apply (Hinv j p Hj). split.
    + apply Hsub. eapply list_elem_of_lookup_2. by apply Hidj.
    + intros k Hk Hidk.
      pose proof (proj1 (NoDup_alt ids) Hnd k j _ Hidk (Hidj j p Hj)). lia.
Qed.

Lemma fresh_accepts_ok (ids : list string) :
  accepts_ok ids [] ((fun u => mkSPlayer u false None) <$> ids).
Proof.
  split; [apply ids_of_fresh_players|]. intros j p Hj.
  rewrite list_lookup_fmap in Hj. destruct (ids !! j); [|done].
  injection Hj as <-. simpl. split; [done|]. intros [Hin _].
  by apply elem_of_nil in Hin.
Qed.

Lemma startReadyPhase_Ok now mid ids qid secs (st0 : list Session) s st1 :
  startReadyPhase now mid ids qid secs st0 = Ok (s, st1) →
  st1 = st0 ++ [s] ∧ matchId s = mid ∧ mid ≠ "" ∧ status s = active ∧
  playerIds s = ids ∧ length ids = 10%nat ∧
  players s = (fun u => mkSPlayer u false None) <$> ids ∧
  expiresAt s = (now + secs * 1000)%Z ∧ queueGroupId s = qid.
Proof.
  unfold startReadyPhase.
  destruct (bool_decide (mid = "") || negb (bool_decide (length ids = 10%nat)))
    eqn:Hc; [done|].
  apply orb_false_elim in Hc as [Hm Hl]. apply bool_decide_eq_false in Hm.
  apply negb_false_iff, bool_decide_eq_true in Hl.
  by intros [= <- <-].
Qed.

Lemma accepts_on_fresh (st0 : list Session) s mid ids (tus : list (Z * string)) :
  mid ∉ matchId <$> st0 → matchId s = mid → status s = active →
  accepts_ok ids [] (players s) →
  ∃ s', calls ((fun tu => Accept tu.1 mid tu.2) <$> tus) (st0 ++ [s])
          = st0 ++ [s'] ∧
        matchId s' = mid ∧ status s' = active ∧
        accepts_ok ids (tus.*2) (players s').
Proof.
  intros Hfresh Hm Ha Hok.
  induction tus as [|tu tus IH] using rev_ind; [by exists s|].
  destruct IH as (s1 & Hrun & Hm1 & Ha1 & Hok1).
  rewrite !fmap_app. unfold calls in *. rewrite foldl_app, Hrun. simpl.
  rewrite recordPlayerAccept_fresh by done.
  pose proof (accept_step_ok ids (tus.*2) tu.2 tu.1 (players s1) Hok1) as Hstep.
  destruct (list_find _ (players s1)) as [[j p]|]; [|by exists s1].
  destruct (accepted p); [by exists s1|].
  by eexists.
Qed.

(** X9. After a ready session is started under a match id the collection
    does not hold yet, and any accepts are recorded for it, the session
    counts as all-accepted exactly when its roster repeats no id and every
    roster id is among the submitted ones.  A roster that names a player
    twice can never complete: the accept marks the first entry only. *)
Theorem all_accepted_iff now mid ids qid secs (st0 : list Ready.Session) s st1
    (tus : list (Z * string)) :
  mid ∉ Ready.matchId <$> st0 →
  Ready.startReadyPhase now mid ids qid secs st0 = Ok (s, st1) →
  Ready.checkAllAccepted mid
    (Ready.calls ((fun tu => Ready.Accept tu.1 mid tu.2) <$> tus) st1) = true
  ↔ NoDup ids ∧ ∀ id, id ∈ ids → id ∈ tus.*2.
Proof.
  intros Hfresh (-> & Hm & _ & Ha & _ & _ & Hps & _)%startReadyPhase_Ok.
  destruct (accepts_on_fresh st0 s mid ids tus Hfresh Hm Ha)
    as (s' & -> & Hm' & Ha' & Hok).
  { rewrite Hps. apply fresh_accepts_ok. }
  unfold checkAllAccepted. rewrite findActive_fresh, decide_True by done.
  rewrite bool_decide_eq_true. by apply accepts_ok_all.
Qed.

Lemma all_accepted_iff_witness :
  ∃ s st1,
    Ready.startReadyPhase 1000 "PEND-1" (ref_steamId <$> ten_players)
      (Some "Q1") 20 [] = Ok (s, st1) ∧
    (Ready.checkAllAccepted "PEND-1"
       (Ready.calls ((fun tu => Ready.Accept tu.1 "PEND-1" tu.2) <$>
                       [(1500%Z, "p0"); (1600%Z, "p4")]) st1) = true
     ↔ NoDup (ref_steamId <$> ten_players) ∧
       ∀ id, id ∈ ref_steamId <$> ten_players →
             id ∈ [(1500%Z, "p0"); (1600%Z, "p4")].*2).
Proof.
  assert (H : ∃ s st1,
    Ready.startReadyPhase 1000 "PEND-1" (ref_steamId <$> ten_players)
      (Some "Q1") 20 [] = Ok (s, st1)).
  { vm_compute. eexists _, _. reflexivity. }
  destruct H as (s & st1 & E). exists s, st1. split; [exact E|].
  apply (all_accepted_iff 1000 "PEND-1" (ref_steamId <$> ten_players)
           (Some "Q1") 20 [] s st1 [(1500%Z, "p0"); (1600%Z, "p4")]);
    [|exact E].
  intros Hin. by apply elem_of_nil in Hin.
Defined.

Lemma filter_insert_accepted (ps : list SPlayer) j p u t :
  ps !! j = Some p → accepted p = false →
  length (filter (fun q => accepted q = true) (<[j := mkSPlayer u true t]> ps))
  = S (length (filter (fun q => accepted q = true) ps)).
Proof.
  revert j. induction ps as [|x ps IH]; intros j Hj Hacc; [done|].
  destruct j as [|j]; simpl in Hj.
  - injection Hj as ->.
    change (<[0%nat := mkSPlayer u true t]> (p :: ps))
      with (mkSPlayer u true t :: ps).
    rewrite (filter_cons_True (fun q => accepted q = true)) by done.
    rewrite (filter_cons_False (fun q => accepted q = true) p) by congruence.
    done.
  - change (<[S j := mkSPlayer u true t]> (x :: ps))
      with (x :: <[j := mkSPlayer u true t]> ps).
    rewrite !filter_cons. case_decide; simpl; by rewrite (IH j).
Qed.

(** X10. Each accept that is recorded raises the accepted count of the
    stats by exactly one and lowers the pending count by one; the total
    stays, accepted and pending always add up to it, and the seconds
    remaining are never negative. *)
Theorem accept_raises_count now mid uid (st : list Ready.Session) i s j p :
  Ready.findActive mid st = Some (i, s) →
  list_find (fun p => Ready.userId p = uid) (Ready.players s) = Some (j, p) →
  Ready.accepted p = false →
  ∃ stats st',
    Ready.recordPlayerAccept now mid uid st = (Ready.AcceptStats stats, st') ∧
    let before := Ready.getSessionStats now s in
    Ready.acceptedCount stats = S (Ready.acceptedCount before) ∧
    S (Ready.pendingCount stats) = Ready.pendingCount before ∧
    Ready.totalPlayers stats = Ready.totalPlayers before ∧
    (Ready.acceptedCount stats + Ready.pendingCount stats
       = Ready.totalPlayers stats)%nat ∧
    (0 <= Ready.secondsRemaining stats)%Z.
Proof.
  intros Hf Hp Hacc.
  destruct (accept_recorded now mid uid st i s j p Hf Hp Hacc) as (Hrec & _).
  eexists _, _. split; [exact Hrec|]. cbv zeta.
  apply list_find_Some in Hp as (Hj & _ & _).
  cbn [acceptedCount pendingCount totalPlayers secondsRemaining
       getSessionStats set_players players expiresAt].
  rewrite (filter_insert_accepted _ _ p) by done. rewrite length_insert.
  pose proof (length_filter (fun q => accepted q = true) (players s)) as Hle.
  assert (Hlt : (length (filter (fun q => accepted q = true) (players s))
                 < length (players s))%nat).
  { unfold lt.
    rewrite <- (filter_insert_accepted (players s) j p uid (Some now)) by done.
    etrans; [apply length_filter|]. by rewrite length_insert. }
  split_and!; lia.
Qed.

Lemma accept_raises_count_witness :
  ∃ stats st',
    Ready.recordPlayerAccept 1500 "PEND-1" "p3" demo_sessions =
      (Ready.AcceptStats stats, st') ∧
    Ready.acceptedCount stats = 1%nat ∧ Ready.pendingCount stats = 9%nat.
Proof.
  assert (H : ∃ i s j p,
    Ready.findActive "PEND-1" demo_sessions = Some (i, s) ∧
    list_find (fun p => Ready.userId p = "p3") (Ready.players s) = Some (j, p) ∧
    Ready.accepted p = false ∧
    Ready.acceptedCount (Ready.getSessionStats 1500 s) = 0%nat ∧
    Ready.pendingCount (Ready.getSessionStats 1500 s) = 10%nat).
  { vm_compute. eexists _, _, _, _. split_and!; reflexivity. }
  destruct H as (i & s & j & p & Hf & Hp & Hacc & H0 & H10).
  destruct (accept_raises_count 1500 "PEND-1" "p3" demo_sessions i s j p
              Hf Hp Hacc) as (stats & st' & Hrec & Ha & Hpe & _).
  exists stats, st'. split; [exact Hrec|]. rewrite H0 in Ha. rewrite H10 in Hpe.
  split; [exact Ha|]. by injection Hpe.
Defined.

End ReadySessions.

(** ** ready.controller.js: the accept requests of one ready session *)

Section ReadyAccept.
Import Ready.

Lemma checkAllAccepted_fresh (st0 : list Session) s mid :
  mid ∉ matchId <$> st0 → matchId s = mid →
  checkAllAccepted mid (st0 ++ [s]) =
    if decide (status s = active)
    then bool_decide (Forall (fun p => accepted p = true) (players s))
    else false.
Proof.
  intros Hfresh Hm. unfold checkAllAccepted. rewrite findActive_fresh by done.
  by destruct (decide (status s = active)).
Qed.

Lemma completeReadyPhase_fresh (st0 : list Session) s mid t :
  mid ∉ matchId <$> st0 → matchId s = mid → status s = active →
  (completeReadyPhase t mid (st0 ++ [s])).2 =
    st0 ++ [set_status completed (Some t) s].
Proof.
  intros Hfresh Hm Ha. unfold completeReadyPhase.
  rewrite findActive_fresh, decide_True by done. simpl.
  by rewrite insert_last.
Qed.

Lemma acceptReady_closed now now' mid uid (st0 : list Session) s :
  mid ∉ matchId <$> st0 → matchId s = mid → status s ≠ active →
  (Ctl.acceptReady now now' mid uid (st0 ++ [s])).1.2 = false ∧
  (Ctl.acceptReady now now' mid uid (st0 ++ [s])).2 = st0 ++ [s].
Proof.
  intros Hfresh Hm Ha. unfold Ctl.acceptReady.
  case_bool_decide; [done|]. destruct uid as [u|]; [|done].
  unfold recordPlayerAccept. rewrite findActive_fresh by done.
  by rewrite decide_False.
Qed.

Lemma not_all_accepted_fresh (ids : list string) :
  length ids = 10%nat →
  ¬ Forall (fun p => accepted p = true)
      ((fun u => mkSPlayer u false None) <$> ids).
Proof.
  intros Hlen Hall. destruct ids as [|x ids]; [done|].
  by apply Forall_cons in Hall as [? _].
Qed.

(** The state of the series of requests after the ids [us] have been
    submitted: either nothing was created and the session is active and
    marked as [us] demands, or the creation was called once and the
    session is completed. *)
Lemma acceptReady_all_inv now mid ids qid secs (st0 : list Session) s st1
    (reqs : list (Z * Z * option string)) :
  mid ∉ matchId <$> st0 →
  startReadyPhase now mid ids qid secs st0 = Ok (s, st1) →
  let us := omap (fun r : Z * Z * option string => r.2) reqs in
  let r := Ctl.acceptReady_all mid reqs st1 in
  ∃ s', r.2 = st0 ++ [s'] ∧ matchId s' = mid ∧
    ((r.1 = 0%nat ∧ status s' = active ∧ accepts_ok ids us (players s') ∧
      ¬ Forall (fun p => accepted p = true) (players s')) ∨
     (r.1 = 1%nat ∧ status s' = completed ∧
      NoDup ids ∧ ∀ id, id ∈ ids → id ∈ us)).
Proof.
  intros Hfresh (-> & Hm & Hne & Ha & _ & Hlen & Hps & _)%startReadyPhase_Ok.
  cbv zeta. induction reqs as [|[[t t'] uid] reqs IH] using rev_ind.
  - exists s. split; [done|]. split; [done|]. left. rewrite Hps.
    split_and!; [done|done|apply fresh_accepts_ok|].
    by apply not_all_accepted_fresh.
  - destruct IH as (s1 & Hst & Hm1 & Hcase).
    unfold Ctl.acceptReady_all in *. rewrite foldl_app, omap_app.
    destruct (foldl _ _ reqs) as [n st]. simpl in Hst, Hcase. subst st.
    cbn [foldl]. cbv beta iota zeta. cbn [fst snd].
    destruct Hcase as [(-> & Ha1 & Hok & Hnot)|(-> & Hc1 & Hnd & Hsub)].
    + unfold Ctl.acceptReady. rewrite bool_decide_eq_false_2 by done.
      destruct uid as [u|]; cbn [omap list_omap option_bind mbind fst snd].
      2:{ exists s1. split; [done|]. split; [done|]. left.
          by rewrite app_nil_r. }
      change (omap _ [(t, t', Some u)]) with [u].
      rewrite recordPlayerAccept_fresh by done.
      pose proof (accept_step_ok ids _ u t (players s1) Hok) as Hstep.
      destruct (list_find _ (players s1)) as [[j p]|].
      2:{ exists s1. split; [done|]. split; [done|]. by left. }
      destruct (accepted p).
      { rewrite checkAllAccepted_fresh, decide_True by done.
        rewrite bool_decide_eq_false_2 by done.
        exists s1. split; [done|]. split; [done|]. by left. }
      cbv beta iota zeta.
      rewrite checkAllAccepted_fresh, decide_True
        by first [done|exact Hm1|exact Ha1].
      case_bool_decide as Hall.
      * rewrite completeReadyPhase_fresh by first [done|exact Hm1|exact Ha1].
        eexists.
        split; [done|]. split; [done|]. right.
        apply (accepts_ok_all _ _ _ Hstep) in Hall as [Hnd Hsub].
        by split_and!.
      * eexists. split; [done|]. split; [done|]. by left.
    + destruct (acceptReady_closed t t' mid uid st0 s1) as [Hflag Hstore];
        [done|done|by rewrite Hc1|].
      rewrite Hflag, Hstore. exists s1. split; [done|]. split; [done|].
      right. split_and!; [done..|]. intros id Hid.
      apply elem_of_app. left. by apply Hsub.
Qed.

(** A request that runs alone through its four calls is [acceptReady]. *)
Lemma acceptReady_as_schedule now now' mid uid (st : list Session) :
  let r := Ctl.acceptReady now now' mid uid st in
  Ctl.run_schedule mid [(0%nat, now); (0%nat, now); (0%nat, now');
                        (0%nat, now')]
    [Ctl.mkReadyRequest uid Ctl.AtRecord] st
  = ([Ctl.mkReadyRequest uid (Ctl.Answered r.1.1.1 r.1.1.2)],
     (if r.1.2 then 1%nat else 0%nat), r.2).
Proof.
  cbv zeta. unfold Ctl.run_schedule, Ctl.acceptReady.
  destruct (bool_decide (mid = "")) eqn:Hm;
    [|destruct uid as [u|];
      [destruct (recordPlayerAccept now mid u st) as [[e|x] st1] eqn:Hr;
        [|destruct (checkAllAccepted mid st1) eqn:Hc]|]];
    repeat (cbn -[recordPlayerAccept checkAllAccepted completeReadyPhase];
            rewrite ?Hm, ?Hr, ?Hc); reflexivity.
Qed.

(** Two requests whose accepts are both recorded before either checks. *)
Lemma overlapping_accepts mid t u v (st st1 st2 : list Session) x y :
  mid ≠ "" →
  recordPlayerAccept t mid u st = (AcceptStats x, st1) →
  recordPlayerAccept t mid v st1 = (AcceptStats y, st2) →
  checkAllAccepted mid st2 = true →
  Ctl.run_schedule mid
    [(0%nat, t); (1%nat, t); (0%nat, t); (1%nat, t);
     (0%nat, t); (1%nat, t); (0%nat, t); (1%nat, t)]
    [Ctl.mkReadyRequest (Some u) Ctl.AtRecord;
     Ctl.mkReadyRequest (Some v) Ctl.AtRecord] st
  = ([Ctl.mkReadyRequest (Some u) (Ctl.Answered 200 None);
      Ctl.mkReadyRequest (Some v) (Ctl.Answered 200 None)],
     2%nat,
     (completeReadyPhase t mid (completeReadyPhase t mid st2).2).2).
Proof.
  intros Hmid Hu Hv Hall. unfold Ctl.run_schedule.
  pose proof (bool_decide_eq_false_2 _ Hmid) as Hm.
  repeat (cbn -[recordPlayerAccept checkAllAccepted completeReadyPhase];
          rewrite ?Hm, ?Hu, ?Hv, ?Hall).
  reflexivity.
Qed.

Lemma record_on_fresh (st0 : list Session) s mid ids us t u :
  mid ∉ matchId <$> st0 → matchId s = mid → status s = active →
  accepts_ok ids us (players s) → u ∈ ids →
  ∃ x s', recordPlayerAccept t mid u (st0 ++ [s])
            = (AcceptStats x, st0 ++ [s']) ∧
    matchId s' = mid ∧ status s' = active ∧
    accepts_ok ids (us ++ [u]) (players s').
Proof.
  intros Hfresh Hm Ha Hok Hu.
  rewrite recordPlayerAccept_fresh by done.
  pose proof (accept_step_ok ids us u t (players s) Hok) as Hstep.
  destruct (list_find (fun p => userId p = u) (players s))
    as [[j p]|] eqn:Hfind.
  - destruct (accepted p).
    + by eexists _, s.
    + eexists _, _. split; [reflexivity|]. by split_and!.
  - exfalso. apply list_find_None in Hfind. rewrite Forall_forall in Hfind.
    destruct Hok as [Hids _]. rewrite <- Hids in Hu.
    apply list_elem_of_fmap in Hu as (p & -> & Hp). by apply (Hfind p).
Qed.

(** X11. The accept requests of a ready session started under a new match
    id.  Served one after the other, [acceptReady] calls the match
    creation at most once: exactly when the roster repeats no id and every
    roster id has been submitted; the session is then stored as completed,
    and until then it stays active.  A request running alone through its
    four awaited calls is one such service.  But the controller awaits
    between the calls: when two requests of roster members that complete
    the roster are both recorded before either checks, both find everyone
    accepted, the second [completeReadyPhase] finds no active session and
    its null is ignored, and the match creation is called twice. *)
Theorem ready_accepts_and_match_creation now mid ids qid secs
    (st0 : list Ready.Session) s st1 :
  mid ∉ Ready.matchId <$> st0 →
  Ready.startReadyPhase now mid ids qid secs st0 = Ok (s, st1) →
  (∀ reqs : list (Z * Z * option string),
     let us := omap (fun r : Z * Z * option string => r.2) reqs in
     let r := Ctl.acceptReady_all mid reqs st1 in
     (r.1 <= 1)%nat ∧
     (r.1 = 1%nat ↔ NoDup ids ∧ ∀ id, id ∈ ids → id ∈ us) ∧
     (r.1 = 1%nat → Ready.findActive mid r.2 = None) ∧
     (r.1 = 0%nat → ∃ i s', Ready.findActive mid r.2 = Some (i, s'))) ∧
  (∀ t t' uid (st : list Ready.Session),
     let r := Ctl.acceptReady t t' mid uid st in
     Ctl.run_schedule mid [(0%nat, t); (0%nat, t); (0%nat, t'); (0%nat, t')]
       [Ctl.mkReadyRequest uid Ctl.AtRecord] st
     = ([Ctl.mkReadyRequest uid (Ctl.Answered r.1.1.1 r.1.1.2)],
        (if r.1.2 then 1%nat else 0%nat), r.2)) ∧
  (∀ (reqs : list (Z * Z * option string)) t u v,
     let us := omap (fun r : Z * Z * option string => r.2) reqs in
     let r := Ctl.acceptReady_all mid reqs st1 in
     r.1 = 0%nat → NoDup ids → u ∈ ids → v ∈ ids →
     (∀ id, id ∈ ids → id ∈ us ++ [u; v]) →
     ∃ st',
       Ctl.run_schedule mid
         [(0%nat, t); (1%nat, t); (0%nat, t); (1%nat, t);
          (0%nat, t); (1%nat, t); (0%nat, t); (1%nat, t)]
         [Ctl.mkReadyRequest (Some u) Ctl.AtRecord;
          Ctl.mkReadyRequest (Some v) Ctl.AtRecord] r.2
       = ([Ctl.mkReadyRequest (Some u) (Ctl.Answered 200 None);
           Ctl.mkReadyRequest (Some v) (Ctl.Answered 200 None)],
          2%nat, st') ∧
       Ready.findActive mid st' = None).
Proof.
  intros Hfresh Hstart. split_and!.
  - intros reqs.
    destruct (acceptReady_all_inv now mid ids qid secs st0 s st1 reqs
                Hfresh Hstart)
      as (s' & Hst & Hm & [(Hn & Ha & Hok & Hnot)|(Hn & Hc & Hnd & Hsub)]);
      cbv zeta; rewrite Hn, Hst, findActive_fresh by done.
    + rewrite decide_True by done. split_and!; [lia| |done|by eexists _, _].
      split; [done|]. intros H. exfalso. apply Hnot.
      by apply (accepts_ok_all _ _ _ Hok).
    + rewrite decide_False by (by rewrite Hc). by split_and!.
  - intros. apply acceptReady_as_schedule.
  - intros reqs t u v us r Hzero Hnd Hu Hv Hcover. subst us r.
    destruct (acceptReady_all_inv now mid ids qid secs st0 s st1 reqs
                Hfresh Hstart)
      as (s' & Hst & Hm & [(_ & Ha & Hok & _)|(Hn & _)]);
      [|cbv zeta in Hn; congruence].
    cbv zeta in Hst. rewrite Hst.
    apply startReadyPhase_Ok in Hstart as (_ & _ & Hne & _).
    destruct (record_on_fresh st0 s' mid ids _ t u Hfresh Hm Ha Hok Hu)
      as (x & su & Hru & Hmu & Hau & Hoku).
    destruct (record_on_fresh st0 su mid ids _ t v Hfresh Hmu Hau Hoku Hv)
      as (y & sv & Hrv & Hmv & Hav & Hokv).
    assert (Hall : checkAllAccepted mid (st0 ++ [sv]) = true).
    { rewrite checkAllAccepted_fresh, decide_True by done.
      apply bool_decide_eq_true_2. apply (accepts_ok_all _ _ _ Hokv).
      split; [done|]. intros id Hid. rewrite <- app_assoc. by apply Hcover. }
    eexists. split.
    + by apply (overlapping_accepts mid t u v _ _ _ x y Hne Hru Hrv Hall).
    + rewrite completeReadyPhase_fresh by done.
      unfold completeReadyPhase. rewrite !findActive_fresh by done.
      rewrite decide_False by done. cbn [snd].
      rewrite findActive_fresh by done. by rewrite decide_False.
Qed.

Lemma ready_accepts_and_match_creation_witness :
  Ready.startReadyPhase 1000 "PEND-1" (ref_steamId <$> ten_players)
    (Some "Q1") 20 [] = Ok (demo_session, demo_sessions) ∧
  (Ctl.acceptReady_all "PEND-1" demo_eight_accepts demo_sessions).1 = 0%nat ∧
  ∃ st',
    Ctl.run_schedule "PEND-1"
      [(0%nat, 1600%Z); (1%nat, 1600%Z); (0%nat, 1600%Z); (1%nat, 1600%Z);
       (0%nat, 1600%Z); (1%nat, 1600%Z); (0%nat, 1600%Z); (1%nat, 1600%Z)]
      [Ctl.mkReadyRequest (Some "p8") Ctl.AtRecord;
       Ctl.mkReadyRequest (Some "p9") Ctl.AtRecord]
      (Ctl.acceptReady_all "PEND-1" demo_eight_accepts demo_sessions).2
    = ([Ctl.mkReadyRequest (Some "p8") (Ctl.Answered 200 None);
        Ctl.mkReadyRequest (Some "p9") (Ctl.Answered 200 None)],
       2%nat, st').
Proof.
  assert (E : Ready.startReadyPhase 1000 "PEND-1" (ref_steamId <$> ten_players)
                (Some "Q1") 20 [] = Ok (demo_session, demo_sessions))
    by (vm_compute; reflexivity).
  assert (Hzero : (Ctl.acceptReady_all "PEND-1" demo_eight_accepts
                     demo_sessions).1 = 0%nat) by (vm_compute; reflexivity).
  assert (Hnd : NoDup (ref_steamId <$> ten_players))
    by (apply (bool_decide_unpack _); vm_compute; exact I).
  assert (H8 : "p8" ∈ ref_steamId <$> ten_players)
    by (apply (bool_decide_unpack _); vm_compute; exact I).
  assert (H9 : "p9" ∈ ref_steamId <$> ten_players)
    by (apply (bool_decide_unpack _); vm_compute; exact I).
  assert (Hcover : ∀ id, id ∈ ref_steamId <$> ten_players →
            id ∈ omap (fun r : Z * Z * option string => r.2)
                   demo_eight_accepts ++ ["p8"; "p9"]).
  { intros id Hid.
    assert (Heq : omap (fun r : Z * Z * option string => r.2)
                    demo_eight_accepts ++ ["p8"; "p9"]
                  = ref_steamId <$> ten_players) by (vm_compute; reflexivity).
    by rewrite Heq. }
  assert (Hfresh : "PEND-1" ∉ Ready.matchId <$> @nil Ready.Session)
    by apply not_elem_of_nil.
  split; [exact E|]. split; [exact Hzero|].
  destruct (proj2 (proj2 (ready_accepts_and_match_creation 1000 "PEND-1"
                            (ref_steamId <$> ten_players) (Some "Q1") 20 []
                            demo_session demo_sessions Hfresh E))
              demo_eight_accepts 1600%Z "p8" "p9" Hzero Hnd H8 H9 Hcover)
    as (st' & Hrun & _).
  by exists st'.
Defined.

End ReadyAccept.

(** ** The teams of a match of ten players *)

Section Teams.
Import Match Ctl.

Lemma team_of_push s cap sid ts :
  team_of s (push_team cap sid ts) =
    if decide (s = cap) then team_of s ts ++ [sid] else team_of s ts.
Proof. by destruct s, cap. Qed.

Lemma push_team_perm cap sid ts :
  t_alpha (push_team cap sid ts) ++ t_beta (push_team cap sid ts)
  ≡ₚ sid :: (t_alpha ts ++ t_beta ts).
Proof.
  destruct cap; simpl.
  - rewrite <- app_assoc. simpl. by rewrite <- Permutation_middle.
  - rewrite app_assoc. symmetry. apply Permutation_cons_append.
Qed.

Lemma team_sizes_S k cap :
  pick_order !! k = Some cap →
  team_sizes (S k) =
    match cap with
    | alpha => (S (team_sizes k).1, (team_sizes k).2)
    | beta => ((team_sizes k).1, S (team_sizes k).2)
    end.
Proof.
  intros Hk.
  do 8 (destruct k as [|k]; [injection Hk as <-; reflexivity|]).
  done.
Qed.

Lemma team_sizes_sum k :
  (k <= 8)%nat → ((team_sizes k).1 + (team_sizes k).2 = 2 + k)%nat.
Proof.
  intros Hk. do 9 (destruct k as [|k]; [reflexivity|]). lia.
Qed.

Lemma roster_pick ids ps ts k cap i p :
  NoDup ids → roster_ok ids ps ts k → pick_order !! k = Some cap →
  ps !! i = Some p → team p = undrafted →
  roster_ok ids (<[i := set_team (on cap) p]> ps)
    (push_team cap (steamId p) ts) (S k).
Proof.
  intros Hnd (Hids & Ha & Hb & Hndt & Hsub & Hcons) Hk Hi Hun.
  assert (Hpin : p ∈ ps) by (by eapply list_elem_of_lookup_2).
  assert (Hnot : steamId p ∉ t_alpha ts ++ t_beta ts).
  { intros [Hin|Hin]%elem_of_app.
    - apply (Hcons p alpha) in Hin; [congruence|done].
    - apply (Hcons p beta) in Hin; [congruence|done]. }
  split_and!.
  - rewrite list_fmap_insert. simpl. rewrite list_insert_id; [done|].
    by rewrite list_lookup_fmap, Hi.
  - rewrite (team_sizes_S _ _ Hk).
    destruct cap; cbn [push_team t_alpha t_beta fst snd];
      rewrite ?length_app; cbn [length]; lia.
  - rewrite (team_sizes_S _ _ Hk).
    destruct cap; cbn [push_team t_alpha t_beta fst snd];
      rewrite ?length_app; cbn [length]; lia.
  - rewrite push_team_perm. by apply NoDup_cons.
  - intros x Hx. rewrite push_team_perm in Hx.
    apply elem_of_cons in Hx as [->|Hx]; [|by apply Hsub].
    rewrite <- Hids. apply list_elem_of_fmap. by exists p.
  - intros p' s Hp'. apply list_elem_of_lookup in Hp' as [j Hj].
    rewrite team_of_push. destruct (decide (j = i)) as [->|Hne].
    + rewrite list_lookup_insert_eq in Hj by (by eapply lookup_lt_Some).
      injection Hj as <-. simpl. destruct (decide (s = cap)) as [->|Hs].
      * split; [|done]. intros _. apply elem_of_app. right. by left.
      * split; [intros [= ?]; congruence|]. intros Hin. exfalso.
        apply Hnot, elem_of_app. destruct s; [by left|by right].
    + rewrite list_lookup_insert_ne in Hj by done.
      assert (Hp' : p' ∈ ps) by (by eapply list_elem_of_lookup_2).
      assert (Hdiff : steamId p' ≠ steamId p).
      { intros Heq. apply Hne. apply (NoDup_lookup ids j i (steamId p) Hnd).
        - by rewrite <- Hids, list_lookup_fmap, Hj, <- Heq.
        - by rewrite <- Hids, list_lookup_fmap, Hi. }
      rewrite (Hcons p' s Hp'). destruct (decide (s = cap)); [|done].
      split; [intros; apply elem_of_app; by left|].
      intros [?|Hx]%elem_of_app; [done|].
      by apply list_elem_of_singleton in Hx.
Qed.

Lemma roster_full ids ps ts :
  NoDup ids → length ids = 10%nat → roster_ok ids ps ts 8 →
  t_alpha ts ++ t_beta ts ≡ₚ ids ∧
  Forall (fun p => team p ≠ undrafted) ps.
Proof.
  intros Hnd Hlen (Hids & Ha & Hb & Hndt & Hsub & Hcons).
  change (team_sizes 8) with (5%nat, 5%nat) in Ha, Hb. simpl in Ha, Hb.
  assert (Hperm : t_alpha ts ++ t_beta ts ≡ₚ ids).
  { apply submseteq_length_Permutation; [by apply NoDup_submseteq|].
    rewrite length_app. lia. }
  split; [done|]. apply Forall_forall. intros p Hp Hun.
  assert (Hin : steamId p ∈ ids).
  { rewrite <- Hids. apply list_elem_of_fmap. by exists p. }
  rewrite <- Hperm in Hin. apply elem_of_app in Hin as [Hin|Hin].
  - apply (Hcons p alpha) in Hin; [congruence|done].
  - apply (Hcons p beta) in Hin; [congruence|done].
Qed.

Lemma pick_teams_ok ids now sid cap m m' :
  teams_ok ids m → phase m = draft → pickPlayer now sid cap m = Ok m' →
  teams_ok ids m'.
Proof.
  intros (Hnd & Hlen & Hro & Hpo & Hpi & Hcur & Hacc & Hdr & Hlate) Hph Hok.
  apply pickPlayer_Ok in Hok as (Hcap & i & p & Hfind & Hrest).
  cbv zeta in Hrest. destruct Hrest as (Hhist & Hidx & Hord & _ & _ & Hcase).
  apply list_find_Some in Hfind as (Hi & [Hs Ht] & _).
  specialize (Hdr Hph). pose proof (Hcur Hdr) as Hk. rewrite Hcap in Hk.
  pose proof (roster_pick ids _ _ _ cap i p Hnd Hro Hk Hi Ht) as Hro'.
  rewrite Hs in Hro'. rewrite Hpo in Hcase.
  destruct (pick_order !! S (pickIndex m)) as [next|] eqn:Hnext.
  - destruct Hcase as (Hps & Hts & Hph' & Hcp).
    assert (Hlt : (S (pickIndex m) < 8)%nat)
      by (by apply lookup_lt_Some in Hnext).
    split_and!.
    + done.
    + done.
    + by rewrite Hps, Hts, Hidx.
    + congruence.
    + rewrite Hidx, Hhist, length_app. simpl. lia.
    + intros _. by rewrite Hidx, Hcp.
    + by rewrite Hph', Hph.
    + intros _. by rewrite Hidx.
    + rewrite Hph', Hph. by intros [?|[?|?]].
  - destruct Hcase as (Hpair & Hph' & _).
    apply lookup_ge_None in Hnext. simpl in Hnext.
    assert (Hseven : pickIndex m = 7%nat) by lia.
    rewrite Hseven in Hro'.
    destruct (roster_full ids _ _ Hnd Hlen Hro') as [Hperm Hall].
    symmetry in Hpair.
    apply assign_last_spec in Hpair as [(_ & Hps & Hts)|(j & q & Hj & Hq & _)].
    2:{ rewrite Forall_lookup in Hall. by destruct (Hall j q Hj). }
    split_and!.
    + done.
    + done.
    + by rewrite Hps, Hts, Hidx, Hseven.
    + congruence.
    + rewrite Hidx, Hhist, length_app. simpl. lia.
    + rewrite Hidx, Hseven. lia.
    + by rewrite Hph'.
    + by rewrite Hph'.
    + intros _. by rewrite Hidx, Hseven.
Qed.

Lemma banMap_draft_frame now mapName cap m m' :
  banMap now mapName cap m = Ok m' →
  pickIndex m' = pickIndex m ∧ pickHistory m' = pickHistory m ∧
  currentPicker m' = currentPicker m ∧ vetoOrder m' = vetoOrder m ∧
  (phase m' = ready ∨ phase m' = phase m).
Proof.
  unfold banMap. case_bool_decide; [done|]. destruct (negb _); [done|].
  case_bool_decide; intros [= <-]; simpl; split_and!; auto.
Qed.

Lemma route_step_teams ids m m' :
  route_step m m' → pool_ok m → teams_ok ids m → teams_ok ids m'.
Proof.
  intros Hstep (Hact & _) Hok.
  destruct Hstep as [now sid m m' Hph H | m Hg | now sid cap m m' H
                    | c m m' H | r notifyThrows m Hph].
  - apply acceptMatch_Ok in H as (_ & _ & _ & _ & ->). exact Hok.
  - destruct Hok as (Hnd & Hlen & Hro & Hpo & Hpi & Hcur & Hacc & Hdr & Hlate).
    assert (Hlt : (pickIndex m < 8)%nat).
    { destruct Hg as [Ha|[Ha|Hd]]; [apply Hact in Ha| |by apply Hdr];
        rewrite (Hacc Ha); lia. }
    unfold endAcceptPhase. cbv zeta.
    destruct (allPlayersAccepted _); split_and!; try done;
      simpl; try done; by intros [?|[?|?]].
  - apply pickRoute_Ok in H as [Hph H]. by eapply pick_teams_ok.
  - apply banRoute_Ok in H as [Hph H].
    pose proof (banMap_draft_frame _ _ _ _ _ H) as (Hi & Hh & Hc & _ & Hph').
    apply banMap_Ok in H as (_ & _ & _ & _ & Hps & Hts & Hpo' & _).
    destruct Hok as (Hnd & Hlen & Hro & Hpo & Hpi & Hcur & Hacc & Hdr & Hlate).
    assert (Height : pickIndex m = 8%nat) by (apply Hlate; by left).
    split_and!; try done.
    + by rewrite Hps, Hts, Hi.
    + congruence.
    + congruence.
    + rewrite Hi, Height. lia.
    + destruct Hph' as [Hr|Hr]; rewrite Hr; [done|by rewrite Hph].
    + destruct Hph' as [Hr|Hr]; rewrite Hr; [done|by rewrite Hph].
    + intros _. congruence.
  - destruct Hok as (Hnd & Hlen & Hro & Hpo & Hpi & Hcur & Hacc & Hdr & Hlate).
    assert (Height : pickIndex m = 8%nat) by (apply Hlate; auto).
    destruct r; [destruct notifyThrows|..]; split_and!; try done;
      simpl; try done; lia.
Qed.

Lemma created_teams_ok id now ps c0 c1 m0 :
  NoDup (ref_steamId <$> ps) → length ps = 10%nat → c0 ≠ c1 →
  c0 ∈ ref_steamId <$> ps → c1 ∈ ref_steamId <$> ps →
  createMatch id now ps [c0; c1] = Ok m0 →
  teams_ok (ref_steamId <$> ps) m0.
Proof.
  intros Hnd Hlen Hne H0 H1. unfold createMatch. cbn [lookup list_lookup].
  destruct (negb _); [done|]. intros [= <-].
  split_and!; cbn [players teams pickIndex pickOrder pickHistory
                   currentPicker phase]; try done; try (simpl; lia).
  - by rewrite length_fmap.
  - split_and!; simpl.
    + rewrite <- list_fmap_compose. done.
    + done.
    + done.
    + apply NoDup_cons. split; [|apply NoDup_singleton].
      by intros ->%list_elem_of_singleton.
    + intros x [->|Hx]%elem_of_cons; [done|].
      by apply list_elem_of_singleton in Hx as ->.
    + intros p s (r & -> & Hr)%list_elem_of_fmap.
      cbn [team steamId teams]. unfold includes.
      assert (Hs : ref_steamId r ∈ team_of s (mkTeams [c0] [c1]) ↔
                   ref_steamId r = (if s is alpha then c0 else c1)).
      { destruct s; simpl; apply list_elem_of_singleton. }
      rewrite Hs. clear Hs.
      destruct (decide (ref_steamId r = c0)) as [E0|E0].
      * rewrite bool_decide_eq_true_2 by (rewrite E0; by left).
        rewrite (bool_decide_eq_true_2 _ E0).
        destruct s; split; try done; intros; congruence.
      * rewrite (bool_decide_eq_false_2 _ E0).
        destruct (decide (ref_steamId r = c1)) as [E1|E1].
        -- rewrite bool_decide_eq_true_2 by (rewrite E1; right; by left).
           destruct s; split; try done; intros; congruence.
        -- rewrite bool_decide_eq_false_2.
           2:{ intros [?|Hx]%elem_of_cons; [done|].
               by apply list_elem_of_singleton in Hx. }
           destruct s; split; try done; intros; congruence.
  - by intros [?|[?|?]].
Qed.

Lemma routes_keep_teams id now ps c0 c1 m0 m :
  NoDup (ref_steamId <$> ps) → length ps = 10%nat → c0 ≠ c1 →
  c0 ∈ ref_steamId <$> ps → c1 ∈ ref_steamId <$> ps →
  createMatch id now ps [c0; c1] = Ok m0 → rtc route_step m0 m →
  teams_ok (ref_steamId <$> ps) m.
Proof.
  intros Hnd Hlen Hne H0 H1 Hc Hsteps.
  pose proof (created_teams_ok id now ps c0 c1 m0 Hnd Hlen Hne H0 H1 Hc) as Hok.
  revert m Hsteps. apply rtc_ind_r; [done|].
  intros m1 m2 Hr Hstep IH. eapply route_step_teams; [done| |done].
  by eapply routes_keep_pool.
Qed.

Lemma roster_undrafted ids ps ts k :
  NoDup ids → roster_ok ids ps ts k →
  (length (filter (fun p => team p = undrafted) ps)
   + length (t_alpha ts ++ t_beta ts) = length ids)%nat.
Proof.
  intros Hnd (Hids & _ & _ & Hndt & Hsub & Hcons).
  assert (Hperm : steamId <$> filter (fun p => team p ≠ undrafted) ps
                  ≡ₚ t_alpha ts ++ t_beta ts).
  { apply NoDup_Permutation; [|done|].
    - apply NoDup_fmap_filter. by rewrite Hids.
    - intros x. split.
      + intros (p & -> & [Hp Hin]%list_elem_of_filter)%list_elem_of_fmap.
        destruct (team p) as [s|] eqn:Ht; [|done].
        apply (Hcons p s Hin) in Ht. apply elem_of_app.
        destruct s; [by left|by right].
      + intros Hx. pose proof (Hsub x Hx) as Hin. rewrite <- Hids in Hin.
        apply list_elem_of_fmap in Hin as (p & -> & Hp).
        apply list_elem_of_fmap. exists p. split; [done|].
        apply list_elem_of_filter. split; [|done].
        apply elem_of_app in Hx as [Hx|Hx].
        * apply (Hcons p alpha Hp) in Hx. congruence.
        * apply (Hcons p beta Hp) in Hx. congruence. }
  rewrite <- Hperm, length_fmap, <- length_app.
  rewrite (filter_app_complement (fun p => team p = undrafted) ps).
  by rewrite <- Hids, length_fmap.
Qed.

Lemma draft_state ids m :
  teams_ok ids m → phase m = draft →
  (pickIndex m < 8)%nat ∧
  pick_order !! pickIndex m = Some (currentPicker m) ∧
  (length (t_alpha (teams m)) + length (t_beta (teams m))
   = 2 + pickIndex m)%nat ∧
  length (filter (fun p => team p = undrafted) (players m))
  = (8 - pickIndex m)%nat.
Proof.
  intros (Hnd & Hlen & Hro & Hpo & Hpi & Hcur & Hacc & Hdr & Hlate) Hph.
  pose proof Hro as (Hids & Ha & Hb & Hndt & Hsub & Hcons).
  specialize (Hdr Hph).
  pose proof (team_sizes_sum (pickIndex m)) as Hsum.
  pose proof (roster_undrafted _ _ _ _ Hnd Hro) as Hun.
  rewrite length_app in Hun. split_and!; [done|by apply Hcur|lia|lia].
Qed.

(** X12. A match created for ten players with distinct ids and two
    different captains from among them, driven through the routes: every
    player's [team] field names a side exactly when that side's team list
    holds the player's id, and no id is on a team twice or on both teams.
    In the draft phase the teams hold the two captains and one id per pick
    made, and the players still undrafted are the picks still to come.
    From the veto phase on both teams have five members, together exactly
    the ten players, and nobody is undrafted; the last-player rule never
    applies. *)
Theorem ten_player_draft id now ps c0 c1 m0 m :
  NoDup (ref_steamId <$> ps) → length ps = 10%nat → c0 ≠ c1 →
  c0 ∈ ref_steamId <$> ps → c1 ∈ ref_steamId <$> ps →
  Match.createMatch id now ps [c0; c1] = Ok m0 → rtc Ctl.route_step m0 m →
  let ta := Match.t_alpha (Match.teams m) in
  let tb := Match.t_beta (Match.teams m) in
  Match.steamId <$> Match.players m = ref_steamId <$> ps ∧
  NoDup (ta ++ tb) ∧
  (∀ p s, p ∈ Match.players m →
     Match.team p = Match.on s ↔
     Match.steamId p ∈ Match.team_of s (Match.teams m)) ∧
  (Match.phase m = Match.draft →
     (Match.pickIndex m < 8)%nat ∧
     Match.pick_order !! Match.pickIndex m = Some (Match.currentPicker m) ∧
     (length ta + length tb = 2 + Match.pickIndex m)%nat ∧
     length (filter (fun p => Match.team p = Match.undrafted)
               (Match.players m)) = (8 - Match.pickIndex m)%nat) ∧
  (Match.phase m = Match.veto ∨ Match.phase m = Match.ready ∨
   Match.phase m = Match.live →
     length ta = 5%nat ∧ length tb = 5%nat ∧
     ta ++ tb ≡ₚ ref_steamId <$> ps ∧
     Forall (fun p => Match.team p ≠ Match.undrafted) (Match.players m)).
Proof.
  intros Hnd Hlen Hne H0 H1 Hc Hsteps.
  pose proof (routes_keep_teams id now ps c0 c1 m0 m Hnd Hlen Hne H0 H1 Hc
                Hsteps) as Hok.
  pose proof Hok as (_ & Hlen' & Hro & Hpo & Hpi & Hcur & Hacc & Hdr & Hlate).
  pose proof Hro as (Hids & Ha & Hb & Hndt & Hsub & Hcons).
  cbv zeta. split_and!; try done.
  - intros Hph. by apply (draft_state _ m Hok).
  - intros Hph. rewrite (Hlate Hph) in Hro.
    destruct (roster_full _ _ _ Hnd Hlen' Hro) as [Hperm Hall].
    rewrite (Hlate Hph) in Ha, Hb. by split_and!.
Qed.

Lemma ten_player_draft_witness :
  let m0 := or_keep demo_created Match.defaults in
  NoDup (ref_steamId <$> ten_players) ∧ length ten_players = 10%nat ∧
  "p0" ≠ "p5" ∧
  Match.steamId <$> Match.players m0 = ref_steamId <$> ten_players ∧
  NoDup (Match.t_alpha (Match.teams m0) ++ Match.t_beta (Match.teams m0)).
Proof.
  cbv zeta.
  assert (Hnd : NoDup (ref_steamId <$> ten_players))
    by (apply (bool_decide_unpack _); vm_compute; exact I).
  assert (Hlen : length ten_players = 10%nat) by (vm_compute; reflexivity).
  assert (Hne : "p0" ≠ "p5") by discriminate.
  assert (H0 : "p0" ∈ ref_steamId <$> ten_players)
    by (apply (bool_decide_unpack _); vm_compute; exact I).
  assert (H1 : "p5" ∈ ref_steamId <$> ten_players)
    by (apply (bool_decide_unpack _); vm_compute; exact I).
  assert (Hc : Match.createMatch "MATCH-1" 1000 ten_players ["p0"; "p5"] =
               Ok (or_keep demo_created Match.defaults))
    by (vm_compute; reflexivity).
  destruct (ten_player_draft "MATCH-1" 1000 ten_players "p0" "p5" _ _
              Hnd Hlen Hne H0 H1 Hc (rtc_refl _ _)) as (Hids & Hteams & _).
  split_and!; [exact Hnd|exact Hlen|exact Hne|exact Hids|exact Hteams].
Defined.

(** X13. The draft of such a match cannot get stuck and takes exactly
    eight picks: while the phase is draft some player is still undrafted,
    the captain whose turn it is can pick any undrafted player (with a
    non-empty id), each pick advances the pick index by one, the phase
    stays draft up to the seventh pick and becomes veto with the
    eighth. *)
Theorem draft_never_stuck id now ps c0 c1 m0 m :
  NoDup (ref_steamId <$> ps) → length ps = 10%nat → c0 ≠ c1 →
  c0 ∈ ref_steamId <$> ps → c1 ∈ ref_steamId <$> ps →
  Match.createMatch id now ps [c0; c1] = Ok m0 → rtc Ctl.route_step m0 m →
  Match.phase m = Match.draft →
  (∃ p, p ∈ Match.players m ∧ Match.team p = Match.undrafted) ∧
  ∀ p t, p ∈ Match.players m → Match.team p = Match.undrafted →
    Match.steamId p ≠ "" →
    ∃ m', Ctl.pickRoute t (Match.steamId p) (Match.currentPicker m) m = Ok m' ∧
      Match.pickIndex m' = S (Match.pickIndex m) ∧
      Match.phase m' =
        (if bool_decide (Match.pickIndex m = 7%nat)
         then Match.veto else Match.draft).
Proof.
  intros Hnd Hlen Hne H0 H1 Hc Hsteps Hph.
  pose proof (routes_keep_teams id now ps c0 c1 m0 m Hnd Hlen Hne H0 H1 Hc
                Hsteps) as Hok.
  destruct (draft_state _ m Hok Hph) as (Hlt & Hcur & _ & Hcount).
  destruct Hok as (_ & _ & _ & Hpo & _).
  split.
  - destruct (filter (fun p => team p = undrafted) (players m))
      as [|p l] eqn:Hf; [simpl in Hcount; lia|].
    assert (Hp : p ∈ filter (fun p => team p = undrafted) (players m))
      by (rewrite Hf; by left).
    apply list_elem_of_filter in Hp as [? ?]. by exists p.
  - intros p t Hp Hun Hid.
    assert (Hpick : ∃ m', pickPlayer t (steamId p) (currentPicker m) m = Ok m').
    { unfold pickPlayer. rewrite bool_decide_eq_false_2 by (by intros []).
      destruct (find_undrafted (steamId p) (players m)) as [[i q]|] eqn:Hfind.
      - destruct (pickOrder m !! S (pickIndex m)); [by eexists|].
        destruct (assign_last _ _). by eexists.
      - apply list_find_None in Hfind. rewrite Forall_forall in Hfind.
        by destruct (Hfind p Hp). }
    destruct Hpick as (m' & Hpick). exists m'.
    assert (Hroute : pickRoute t (steamId p) (currentPicker m) m = Ok m').
    { unfold pickRoute. rewrite (bool_decide_eq_true_2 _ Hph). cbn [negb].
      rewrite bool_decide_eq_false_2 by (by intros []).
      rewrite (bool_decide_eq_false_2 _ Hid).
      rewrite (bool_decide_eq_true_2 (Exists _ (players m))).
      2:{ apply Exists_exists. by exists p. }
      cbn [negb]. rewrite bool_decide_eq_false_2; [done|].
      intros (x & _ & Hx)%Exists_exists. discriminate. }
    split; [done|].
    apply pickPlayer_Ok in Hpick as (_ & i & q & _ & Hrest).
    cbv zeta in Hrest. destruct Hrest as (_ & Hidx & _ & _ & _ & Hcase).
    split; [done|]. rewrite Hpo in Hcase.
    destruct (pick_order !! S (pickIndex m)) as [next|] eqn:Hnext.
    + apply lookup_lt_Some in Hnext. simpl in Hnext.
      rewrite bool_decide_eq_false_2 by lia.
      destruct Hcase as (_ & _ & -> & _). done.
    + apply lookup_ge_None in Hnext. simpl in Hnext.
      rewrite bool_decide_eq_true_2 by lia. by destruct Hcase as (_ & -> & _).
Qed.

Lemma draft_never_stuck_witness :
  Match.phase demo_match = Match.draft ∧
  ∃ p, p ∈ Match.players demo_match ∧ Match.team p = Match.undrafted.
Proof.
  assert (Hnd : NoDup (ref_steamId <$> ten_players))
    by (apply (bool_decide_unpack _); vm_compute; exact I).
  assert (Hlen : length ten_players = 10%nat) by (vm_compute; reflexivity).
  assert (Hne : "p0" ≠ "p5") by discriminate.
  assert (H0 : "p0" ∈ ref_steamId <$> ten_players)
    by (apply (bool_decide_unpack _); vm_compute; exact I).
  assert (H1 : "p5" ∈ ref_steamId <$> ten_players)
    by (apply (bool_decide_unpack _); vm_compute; exact I).
  assert (Hc : Match.createMatch "MATCH-1" 1000 ten_players ["p0"; "p5"] =
               Ok (or_keep demo_created Match.defaults))
    by (vm_compute; reflexivity).
  assert (Hph : Match.phase demo_match = Match.draft)
    by (vm_compute; reflexivity).
  assert (Hgen : ∀ ids m, Match.phase m = Match.accept →
            rtc Ctl.route_step m (accept_all 1500 ids m)).
  { clear. unfold accept_all.
    intros ids. induction ids as [|x ids IH]; intros m Hp; [done|].
    simpl. destruct (Match.acceptMatch 1500 x m) as [m1|e] eqn:E; simpl.
    - eapply rtc_l; [by eapply Ctl.route_accept|]. apply IH.
      apply acceptMatch_Ok in E as (_ & _ & _ & _ & ->). exact Hp.
    - by apply IH. }
  pose (ma := accept_all 1500 (ref_steamId <$> ten_players)
                (or_keep demo_created Match.defaults)).
  assert (Hp0 : Match.phase (or_keep demo_created Match.defaults)
                = Match.accept) by (vm_compute; reflexivity).
  assert (Hpa : Match.phase ma = Match.accept) by (vm_compute; reflexivity).
  assert (Hsteps : rtc Ctl.route_step (or_keep demo_created Match.defaults)
                     (Match.endAcceptPhase ma)).
  { apply (rtc_r _ ma).
    - exact (Hgen (ref_steamId <$> ten_players) _ Hp0).
    - exact (Ctl.route_endAccept ma (or_intror (or_introl Hpa))). }
  split; [exact Hph|].
  exact (proj1 (draft_never_stuck "MATCH-1" 1000 ten_players "p0" "p5"
                  (or_keep demo_created Match.defaults)
                  (Match.endAcceptPhase ma)
                  Hnd Hlen Hne H0 H1 Hc Hsteps Hph)).
Defined.

End Teams.

(** ** The map pool and the turn of a match *)

Section Maps.
Import Match Ctl.

Lemma filter_out_perm (l : list string) x :
  NoDup l → x ∈ l → x :: filter (fun y => y ≠ x) l ≡ₚ l.
Proof.
  induction l as [|a l IH]; intros Hnd Hin; [by apply elem_of_nil in Hin|].
  apply NoDup_cons in Hnd as [Ha Hnd].
  destruct (decide (a = x)) as [->|Hne].
  - rewrite filter_cons_False by (intros H; by apply H).
    rewrite filter_keeps_all; [done|]. by intros y Hy ->.
  - rewrite filter_cons_True by done.
    apply elem_of_cons in Hin as [->|Hin]; [done|].
    rewrite Permutation_swap. by rewrite IH.
Qed.

Lemma pickPlayer_veto_frame now sid cap m m' :
  pickPlayer now sid cap m = Ok m' →
  bannedMaps m' = bannedMaps m ∧ selectedMap m' = selectedMap m ∧
  (phase m' = draft → phase m = draft).
Proof.
  unfold pickPlayer. case_bool_decide; [done|].
  destruct (find_undrafted _ _) as [[i p]|]; [|done].
  destruct (pickOrder m !! _).
  - by intros [= <-].
  - destruct (assign_last _ _). by intros [= <-].
Qed.

Lemma created_veto_ok id now ps caps m0 :
  createMatch id now ps caps = Ok m0 → veto_ok m0.
Proof.
  unfold createMatch. destruct (caps !! 0%nat); [|done].
  destruct (caps !! 1%nat); [|done]. destruct (negb _); [done|].
  intros [= <-].
  split_and!; simpl; try done; try (by rewrite app_nil_r);
    by intros [?|?].
Qed.

Lemma route_step_veto m m' :
  route_step m m' → pool_ok m → veto_ok m → veto_ok m'.
Proof.
  intros Hstep (Hact & Hpre & Hpool) (Hcons & Hearly & Hveto & Hlate).
  destruct Hstep as [now sid m m' Hph H | m Hg | now sid cap m m' H
                    | c m m' H | r notifyThrows m Hph].
  - apply acceptMatch_Ok in H as (_ & _ & _ & _ & ->). by split_and!.
  - assert (He : phase m = accept ∨ phase m = draft).
    { destruct Hg as [Ha|[Ha|Hd]]; [left; by apply Hact|by left|by right]. }
    unfold endAcceptPhase. cbv zeta.
    destruct (allPlayersAccepted _); split_and!; simpl; try done;
      (intros _; by apply Hearly) || by intros [?|?].
  - apply pickRoute_Ok in H as [Hph H].
    pose proof (pickPlayer_veto_frame _ _ _ _ _ H) as (Hb & Hsel & _).
    apply pickPlayer_Ok in H as (_ & i & p & _ & Hrest). cbv zeta in Hrest.
    destruct Hrest as (_ & _ & _ & Hmaps & _ & Hcase).
    destruct (Hearly (or_intror Hph)) as [Hnob Hnosel].
    assert (Hdef : availableMaps m = default_maps) by (apply Hpre; by right).
    destruct (pickOrder m !! S (pickIndex m)).
    + destruct Hcase as (_ & _ & Hph' & _). split_and!.
      * by rewrite Hmaps, Hb.
      * intros _. by rewrite Hb, Hsel.
      * rewrite Hph', Hph. done.
      * rewrite Hph', Hph. by intros [?|?].
    + destruct Hcase as (_ & Hph' & Hcv & Hvi & Hvo). split_and!.
      * by rewrite Hmaps, Hb.
      * rewrite Hph'. by intros [?|?].
      * intros _. rewrite Hvo, Hdef, Hvi, Hcv, Hb, Hnob, Hsel.
        split_and!; try done. simpl. lia.
      * rewrite Hph'. by intros [?|?].
  - apply banRoute_Ok in H as [Hph H].
    pose proof (banMap_draft_frame _ _ _ _ _ H) as (_ & _ & _ & Hvo & _).
    destruct (Hpool Hph) as [Hnd Hlen].
    destruct (Hveto Hph) as (Hord & Hidx & Hlt & Hcur & Hsel).
    apply banMap_Ok in H as (_ & Hin & Hmaps & Hbans & _ & _ & _ & _ & _ & Hcase).
    assert (Hcons' : availableMaps m' ++ (map <$> bannedMaps m')
                     ≡ₚ default_maps).
    { rewrite Hmaps, Hbans, fmap_app. simpl.
      rewrite (Permutation_app_comm (map <$> bannedMaps m)), app_assoc.
      rewrite <- Permutation_cons_append. simpl.
      rewrite <- Hcons. rewrite (app_comm_cons _ _ (ban_map c)).
      by rewrite filter_out_perm. }
    assert (Htotal : (length (availableMaps m) + length (bannedMaps m)
                      = 12)%nat).
    { rewrite <- (length_fmap map (bannedMaps m)), <- length_app, Hcons.
      done. }
    assert (Hlen' : length (availableMaps m') =
                    (length (availableMaps m) - 1)%nat)
      by (rewrite Hmaps; by apply filter_out_one).
    case_bool_decide as Hone.
    + destruct Hcase as (Hr & Hs & _). split_and!; try done.
      * rewrite Hr. by intros [?|?].
      * by rewrite Hr.
      * intros _. split.
        -- rewrite Hbans, length_app. simpl. lia.
        -- destruct (availableMaps m') as [|x [|y l]]; try done.
           by exists x.
    + destruct Hcase as (Hp & Hs & Hc & Hi). split_and!; try done.
      * rewrite Hp, Hph. by intros [?|?].
      * intros _. split_and!.
        -- congruence.
        -- rewrite Hi, Hbans, length_app. simpl. lia.
        -- rewrite Hi. lia.
        -- rewrite Hc, Hi, Hcur, Nat.even_succ, <- Nat.negb_even.
           by destruct (Nat.even (vetoIndex m)).
        -- congruence.
      * rewrite Hp, Hph. by intros [?|?].
  - destruct (Hlate (or_introl Hph)) as [Hl Hx].
    destruct r; [destruct notifyThrows|..]; split_and!; simpl; try done;
      by intros [?|?].
Qed.

Lemma routes_keep_veto id now ps caps m0 m :
  createMatch id now ps caps = Ok m0 → rtc route_step m0 m → veto_ok m.
Proof.
  intros Hc Hsteps.
  pose proof (created_veto_ok _ _ _ _ _ Hc) as Hok.
  revert m Hsteps. apply rtc_ind_r; [done|].
  intros m1 m2 Hr Hstep IH. eapply route_step_veto; [done| |done].
  by eapply routes_keep_pool.
Qed.

Lemma demo_match_reachable :
  createMatch "MATCH-1" 1000 ten_players ["p0"; "p5"] =
    Ok (or_keep demo_created defaults) ∧
  rtc route_step (or_keep demo_created defaults) demo_match.
Proof.
  split; [vm_compute; reflexivity|].
  assert (Hgen : ∀ ids m, phase m = accept →
            rtc route_step m (accept_all 1500 ids m)).
  { clear. unfold accept_all.
    intros ids. induction ids as [|x ids IH]; intros m Hp; [done|].
    simpl. destruct (Match.acceptMatch 1500 x m) as [m1|e] eqn:E; simpl.
    - eapply rtc_l; [by eapply route_accept|]. apply IH.
      apply acceptMatch_Ok in E as (_ & _ & _ & _ & ->). exact Hp.
    - by apply IH. }
  pose (ma := accept_all 1500 (ref_steamId <$> ten_players)
                (or_keep demo_created defaults)).
  assert (Hp0 : phase (or_keep demo_created defaults) = accept)
    by (vm_compute; reflexivity).
  assert (Hpa : phase ma = accept) by (vm_compute; reflexivity).
  apply (rtc_r _ ma).
  - exact (Hgen (ref_steamId <$> ten_players) _ Hp0).
  - exact (route_endAccept ma (or_intror (or_introl Hpa))).
Qed.

Lemma veto_turn m :
  veto_ok m → phase m = veto →
  vetoOrder m !! vetoIndex m = Some (currentVeto m) ∧
  length (vetoOrder m) = 11%nat.
Proof.
  intros (_ & _ & Hveto & _) Hph.
  destruct (Hveto Hph) as (Hord & Hidx & Hlt & Hcur & Hsel).
  rewrite Hord, Hcur.
  destruct (veto_order_alternates default_maps) as [Hl Halt].
  split; [|by rewrite Hl].
  destruct (lookup_lt_is_Some_2 (veto_order default_maps) (vetoIndex m))
    as [s Hs]; [rewrite Hl; simpl; lia|].
  by rewrite Hs, (Halt _ _ Hs).
Qed.

(** X14. Through the routes the twelve maps are conserved: the maps still
    available and the maps banned are together exactly the default pool,
    so no map is banned twice and none is lost.  Before the veto nothing
    is banned or selected; in the veto phase the number of bans made is
    [vetoIndex], twelve minus that many maps remain, and the stored veto
    order names the side whose turn it is; in the ready and live phases
    eleven maps are banned and the one left is [selectedMap]. *)
Theorem map_pool_conserved id now ps caps m0 m :
  Match.createMatch id now ps caps = Ok m0 → rtc Ctl.route_step m0 m →
  Match.availableMaps m ++ (Match.map <$> Match.bannedMaps m)
    ≡ₚ Match.default_maps ∧
  NoDup (Match.map <$> Match.bannedMaps m) ∧
  (Match.phase m = Match.accept ∨ Match.phase m = Match.draft →
     Match.bannedMaps m = [] ∧ Match.selectedMap m = None) ∧
  (Match.phase m = Match.veto →
     Match.vetoIndex m = length (Match.bannedMaps m) ∧
     length (Match.availableMaps m) = (12 - Match.vetoIndex m)%nat ∧
     (Match.vetoIndex m < 11)%nat ∧
     Match.vetoOrder m !! Match.vetoIndex m = Some (Match.currentVeto m) ∧
     Match.selectedMap m = None) ∧
  (Match.phase m = Match.ready ∨ Match.phase m = Match.live →
     length (Match.bannedMaps m) = 11%nat ∧
     ∃ x, Match.availableMaps m = [x] ∧ Match.selectedMap m = Some x ∧
          x ∈ Match.default_maps ∧ x ∉ Match.map <$> Match.bannedMaps m).
Proof.
  intros Hc Hsteps.
  destruct (routes_keep_veto _ _ _ _ _ _ Hc Hsteps)
    as (Hcons & Hearly & Hveto & Hlate).
  assert (Hnd : NoDup (availableMaps m ++ (map <$> bannedMaps m))).
  { rewrite Hcons. apply default_maps_distinct. }
  assert (Htotal : (length (availableMaps m) + length (bannedMaps m)
                    = 12)%nat).
  { rewrite <- (length_fmap map (bannedMaps m)), <- length_app, Hcons. done. }
  split_and!; try done.
  - by apply NoDup_app in Hnd as (_ & _ & ?).
  - intros Hph. destruct (Hveto Hph) as (Hord & Hidx & Hlt & Hcur & Hsel).
    split_and!; try done; [lia|].
    by apply veto_turn.
  - intros Hph. destruct (Hlate Hph) as (Hl & x & Hx & Hsel).
    split; [done|]. exists x. split_and!; try done.
    + rewrite <- Hcons, Hx. by left.
    + rewrite Hx in Hnd. apply NoDup_cons in Hnd as [? _]. done.
Qed.

Lemma map_pool_conserved_witness :
  Match.availableMaps demo_match ++ (Match.map <$> Match.bannedMaps demo_match)
    ≡ₚ Match.default_maps ∧
  NoDup (Match.map <$> Match.bannedMaps demo_match).
Proof.
  destruct demo_match_reachable as [Hc Hsteps].
  destruct (map_pool_conserved "MATCH-1" 1000 ten_players ["p0"; "p5"]
              (or_keep demo_created Match.defaults) demo_match Hc Hsteps)
    as (H1 & H2 & _).
  split; [exact H1|exact H2].
Defined.

(** X15. What [getCurrentTurn] reports for a match of ten players driven
    through the routes: it answers in the draft and veto phases only; the
    number of the turn is one more than the picks (bans) made and never
    exceeds the total, which is 8 in the draft and 11 in the veto; and the
    captain it names is the one the stored order has at that position. *)
Theorem current_turn_consistent id now ps c0 c1 m0 m :
  NoDup (ref_steamId <$> ps) → length ps = 10%nat → c0 ≠ c1 →
  c0 ∈ ref_steamId <$> ps → c1 ∈ ref_steamId <$> ps →
  Match.createMatch id now ps [c0; c1] = Ok m0 → rtc Ctl.route_step m0 m →
  (is_Some (Match.getCurrentTurn m) ↔
   Match.phase m = Match.draft ∨ Match.phase m = Match.veto) ∧
  ∀ t, Match.getCurrentTurn m = Some t →
    Match.turn_phase t = Match.phase m ∧
    (1 <= Match.turn_number t <= Match.turn_total t)%nat ∧
    (Match.turn_phase t = Match.draft →
       Match.turn_total t = 8%nat ∧
       Match.turn_number t = S (length (Match.pickHistory m)) ∧
       Match.pickOrder m !! (Match.turn_number t - 1)%nat
         = Some (Match.turn_captain t)) ∧
    (Match.turn_phase t = Match.veto →
       Match.turn_total t = 11%nat ∧
       Match.turn_number t = S (length (Match.bannedMaps m)) ∧
       Match.vetoOrder m !! (Match.turn_number t - 1)%nat
         = Some (Match.turn_captain t)).
Proof.
  intros Hnd Hlen Hne H0 H1 Hc Hsteps.
  destruct (routes_keep_teams id now ps c0 c1 m0 m Hnd Hlen Hne H0 H1 Hc Hsteps)
    as (_ & _ & _ & Hpo & Hpi & Hcur & _ & Hdr & _).
  pose proof (routes_keep_veto _ _ _ _ _ _ Hc Hsteps) as Hvok.
  unfold getCurrentTurn. split.
  - case_bool_decide as Hd; [split; [by left|by eexists]|].
    case_bool_decide as Hv; [split; [by right|by eexists]|].
    split; [by intros [? ?]|]. by intros [?|?].
  - intros t. case_bool_decide as Hd.
    + intros [= <-]. cbn [turn_phase turn_number turn_total turn_captain].
      specialize (Hdr Hd). rewrite Hpo. cbn [length pick_order].
      split; [done|]. split; [lia|]. split; [|done].
      intros _. split; [done|]. split; [lia|].
      rewrite Nat.add_sub. by apply Hcur.
    + case_bool_decide as Hv; [|done].
      intros [= <-]. cbn [turn_phase turn_number turn_total turn_captain].
      destruct (veto_turn m Hvok Hv) as [Hturn Hl].
      destruct Hvok as (_ & _ & Hveto & _).
      destruct (Hveto Hv) as (_ & Hidx & Hlt & _).
      rewrite Hl. split; [done|]. split; [lia|]. split; [done|].
      intros _. split; [done|]. split; [lia|].
      by rewrite Nat.add_sub.
Qed.

Lemma current_turn_consistent_witness :
  is_Some (Match.getCurrentTurn demo_match) ↔
  Match.phase demo_match = Match.draft ∨ Match.phase demo_match = Match.veto.
Proof.
  destruct demo_match_reachable as [Hc Hsteps].
  assert (Hnd : NoDup (ref_steamId <$> ten_players))
    by (apply (bool_decide_unpack _); vm_compute; exact I).
  assert (Hlen : length ten_players = 10%nat) by (vm_compute; reflexivity).
  assert (Hne : "p0" ≠ "p5") by discriminate.
  assert (H0 : "p0" ∈ ref_steamId <$> ten_players)
    by (apply (bool_decide_unpack _); vm_compute; exact I).
  assert (H1 : "p5" ∈ ref_steamId <$> ten_players)
    by (apply (bool_decide_unpack _); vm_compute; exact I).
  exact (proj1 (current_turn_consistent "MATCH-1" 1000 ten_players "p0" "p5"
                  (or_keep demo_created Match.defaults) demo_match
                  Hnd Hlen Hne H0 H1 Hc Hsteps)).
Defined.

End Maps.

(** ** The guarded routes *)

Section GuardedRoutes.
Import Match.

Lemma captainChain_Next ph caller mid ms r :
  Routes.captainChain ph caller mid ms = Mw.Next r →
  ∃ i m,
    list_find (fun m => matchId m = mid) ms = Some (i, m) ∧ mid ≠ "" ∧
    Exists (fun p => steamId p = caller) (players m) ∧ phase m = ph ∧
    (c_alpha (captains m) = caller ∨ c_beta (captains m) = caller) ∧
    let cap := if bool_decide (c_alpha (captains m) = caller)
               then alpha else beta in
    r = Mw.mkReq caller (Some (i, m)) (Some cap) ∧
    ((ph = draft ∧ currentPicker m = cap) ∨
     (ph = veto ∧ currentVeto m = cap)).
Proof.
  unfold Routes.captainChain, Mw.verifyMatchParticipant.
  case_bool_decide as Hmid; [done|].
  destruct (list_find _ ms) as [[i m]|] eqn:Hfind; [|done].
  case_bool_decide as Hpart; [|done]. cbn [Mw.and_then Mw.steamId].
  unfold Mw.requirePhase. cbn [Mw.match_].
  case_bool_decide as Hph; [|done]. apply list_elem_of_singleton in Hph.
  cbn [Mw.and_then]. unfold Mw.verifyCaptain. cbn [Mw.match_ Mw.steamId].
  destruct (bool_decide (c_alpha (captains m) = caller)
            || bool_decide (c_beta (captains m) = caller)) eqn:Hcap; [|done].
  cbn [Mw.and_then]. unfold Mw.verifyTurn. cbn [Mw.match_ Mw.captainTeam].
  intros Hturn. exists i, m.
  split; [done|]. split; [done|]. split; [done|]. split; [done|].
  split.
  { apply orb_true_iff in Hcap as [H|H]; apply bool_decide_eq_true in H; auto. }
  cbv zeta. revert Hturn.
  set (cap := if bool_decide (c_alpha (captains m) = caller)
              then alpha else beta).
  clear Hcap.
  destruct (decide (phase m = draft)) as [Hd|Hd].
  - rewrite (bool_decide_eq_true_2 _ Hd).
    destruct (decide (currentPicker m = cap)) as [Ht|Ht].
    + rewrite bool_decide_eq_false_2 by (by intros []).
      intros [= <-]. split; [done|]. left. split; [congruence|done].
    + by rewrite (bool_decide_eq_true_2 _ Ht).
  - rewrite (bool_decide_eq_false_2 _ Hd).
    destruct (decide (phase m = veto)) as [Hv|Hv].
    + rewrite (bool_decide_eq_true_2 _ Hv).
      destruct (decide (currentVeto m = cap)) as [Ht|Ht].
      * rewrite bool_decide_eq_false_2 by (by intros []).
        intros [= <-]. split; [done|]. right. split; [congruence|done].
      * by rewrite (bool_decide_eq_true_2 _ Ht).
    + by rewrite (bool_decide_eq_false_2 _ Hv).
Qed.

Lemma captainChain_pass ph caller mid ms i m :
  list_find (fun m => matchId m = mid) ms = Some (i, m) → mid ≠ "" →
  Exists (fun p => steamId p = caller) (players m) → phase m = ph →
  (c_alpha (captains m) = caller ∨ c_beta (captains m) = caller) →
  let cap := if bool_decide (c_alpha (captains m) = caller)
             then alpha else beta in
  ((ph = draft ∧ currentPicker m = cap) ∨ (ph = veto ∧ currentVeto m = cap)) →
  Routes.captainChain ph caller mid ms =
    Mw.Next (Mw.mkReq caller (Some (i, m)) (Some cap)).
Proof.
  intros Hfind Hmid Hpart Hph Hcap cap Hturn.
  unfold Routes.captainChain, Mw.verifyMatchParticipant.
  rewrite (bool_decide_eq_false_2 _ Hmid), Hfind.
  cbn [Mw.steamId]. rewrite (bool_decide_eq_true_2 _ Hpart).
  cbn [Mw.and_then]. unfold Mw.requirePhase. cbn [Mw.match_].
  rewrite bool_decide_eq_true_2 by (rewrite Hph; by left).
  cbn [Mw.and_then]. unfold Mw.verifyCaptain. cbn [Mw.match_ Mw.steamId].
  assert (Hor : bool_decide (c_alpha (captains m) = caller)
                || bool_decide (c_beta (captains m) = caller) = true).
  { apply orb_true_iff. destruct Hcap as [H|H]; [left|right];
      by apply bool_decide_eq_true. }
  rewrite Hor. cbn [Mw.and_then]. unfold Mw.verifyTurn.
  cbn [Mw.match_ Mw.captainTeam]. fold cap.
  destruct Hturn as [[-> Ht]|[-> Ht]].
  - rewrite bool_decide_eq_true_2 by congruence.
    rewrite bool_decide_eq_false_2; [done|]. by intros [].
  - rewrite bool_decide_eq_false_2 by congruence.
    rewrite bool_decide_eq_true_2 by congruence.
    rewrite bool_decide_eq_false_2; [done|]. by intros [].
Qed.

Lemma captainChain_Reply ph caller mid ms s e :
  Routes.captainChain ph caller mid ms = Mw.Reply s e → s ≠ 200%nat.
Proof.
  unfold Routes.captainChain, Mw.verifyMatchParticipant.
  destruct (bool_decide (mid = "")); [by intros [= <- _]|].
  destruct (list_find _ ms) as [[i m]|]; [|by intros [= <- _]].
  destruct (bool_decide (Exists _ _)); [|by intros [= <- _]].
  cbn [Mw.and_then Mw.steamId]. unfold Mw.requirePhase. cbn [Mw.match_].
  destruct (bool_decide (phase m ∈ [ph])); [|by intros [= <- _]].
  cbn [Mw.and_then]. unfold Mw.verifyCaptain. cbn [Mw.match_ Mw.steamId].
  destruct (_ || _); [|by intros [= <- _]].
  cbn [Mw.and_then]. unfold Mw.verifyTurn. cbn [Mw.match_ Mw.captainTeam].
  destruct (bool_decide (phase m = draft)).
  - destruct (bool_decide (currentPicker m ≠ _)); [by intros [= <- _]|done].
  - destruct (bool_decide (phase m = veto)); [|by intros [= <- _]].
    destruct (bool_decide (currentVeto m ≠ _)); [by intros [= <- _]|done].
Qed.

Lemma pick_controller_spec now sid i m cap ms :
  phase m = draft → currentPicker m = cap →
  match Ctl.pickRoute now sid cap m with
  | Ok m' => Routes.pickPlayer now sid i m cap ms
             = (200%nat, None, <[i := m']> ms)
  | Err e => ∃ st, Routes.pickPlayer now sid i m cap ms = (st, Some e, ms) ∧
                   (st = 400%nat ∨ st = 500%nat)
  end.
Proof.
  intros Hph Hcur. unfold Ctl.pickRoute, Routes.pickPlayer.
  rewrite (bool_decide_eq_true_2 _ Hph). cbn [negb].
  rewrite bool_decide_eq_false_2 by (by intros []).
  destruct (bool_decide (sid = "")); [by eexists; eauto|].
  destruct (negb _); [by eexists; eauto|].
  destruct (bool_decide (Exists _ (_ ++ _))); [by eexists; eauto|].
  destruct (pickPlayer now sid cap m); [done|by eexists; eauto].
Qed.

Lemma ban_controller_spec now mapName i m cap ms :
  phase m = veto → currentVeto m = cap →
  match Ctl.banRoute (Ctl.mkBanCall now mapName cap) m with
  | Ok m' => Routes.banMap now mapName i m cap ms
             = (200%nat, None, <[i := m']> ms)
  | Err e => ∃ st, Routes.banMap now mapName i m cap ms = (st, Some e, ms) ∧
                   (st = 400%nat ∨ st = 500%nat)
  end.
Proof.
  intros Hph Hcur. unfold Ctl.banRoute, Routes.banMap.
  cbn [Ctl.ban_now Ctl.ban_map Ctl.ban_by].
  rewrite (bool_decide_eq_true_2 _ Hph). cbn [negb].
  rewrite bool_decide_eq_false_2 by (by intros []).
  destruct (bool_decide (mapName = "")); [by eexists; eauto|].
  destruct (negb _); [by eexists; eauto|].
  destruct (banMap now mapName cap m); [done|by eexists; eauto].
Qed.

Lemma on_turn caller m (turn : Side) :
  (c_alpha (captains m) = caller ∨ c_beta (captains m) = caller) →
  turn = (if bool_decide (c_alpha (captains m) = caller) then alpha else beta) →
  (turn = alpha ∧ c_alpha (captains m) = caller) ∨
  (turn = beta ∧ c_beta (captains m) = caller ∧
   c_alpha (captains m) ≠ caller).
Proof.
  intros Hcap ->. case_bool_decide as Ha; [by left|right].
  by destruct Hcap.
Qed.

(** X16. Only the captain whose turn it is changes a match through the
    pick and ban routes.  A pick (ban) request is answered 200 only when
    the match exists and is in the draft (veto) phase, the caller is a
    player of it and the captain of the side named by [currentPicker]
    ([currentVeto]), and then the stored match is replaced by what
    [match.pickPlayer] ([match.banMap]) returns; any other answer leaves
    the collection as it was.  Conversely such a captain's request gets
    exactly the controller's outcome.  A user who is captain of both sides
    is taken for alpha's: on beta's turn the request is answered 403. *)
Theorem only_the_captain_on_turn :
  (∀ now caller mid sid ms st e ms',
     Routes.pick now caller mid sid ms = (st, e, ms') →
     (st ≠ 200%nat → ms' = ms) ∧
     (st = 200%nat →
        ∃ i m m',
          list_find (fun m => Match.matchId m = mid) ms = Some (i, m) ∧
          Match.phase m = Match.draft ∧
          Exists (fun p => Match.steamId p = caller) (Match.players m) ∧
          ((Match.currentPicker m = Match.alpha ∧
            Match.c_alpha (Match.captains m) = caller) ∨
           (Match.currentPicker m = Match.beta ∧
            Match.c_beta (Match.captains m) = caller ∧
            Match.c_alpha (Match.captains m) ≠ caller)) ∧
          Match.pickPlayer now sid (Match.currentPicker m) m = Ok m' ∧
          ms' = <[i := m']> ms)) ∧
  (∀ now caller mid mapName ms st e ms',
     Routes.ban now caller mid mapName ms = (st, e, ms') →
     (st ≠ 200%nat → ms' = ms) ∧
     (st = 200%nat →
        ∃ i m m',
          list_find (fun m => Match.matchId m = mid) ms = Some (i, m) ∧
          Match.phase m = Match.veto ∧
          Exists (fun p => Match.steamId p = caller) (Match.players m) ∧
          ((Match.currentVeto m = Match.alpha ∧
            Match.c_alpha (Match.captains m) = caller) ∨
           (Match.currentVeto m = Match.beta ∧
            Match.c_beta (Match.captains m) = caller ∧
            Match.c_alpha (Match.captains m) ≠ caller)) ∧
          Match.banMap now mapName (Match.currentVeto m) m = Ok m' ∧
          ms' = <[i := m']> ms)) ∧
  (∀ now caller mid sid ms i m m',
     list_find (fun m => Match.matchId m = mid) ms = Some (i, m) →
     mid ≠ "" →
     Exists (fun p => Match.steamId p = caller) (Match.players m) →
     ((Match.currentPicker m = Match.alpha ∧
       Match.c_alpha (Match.captains m) = caller) ∨
      (Match.currentPicker m = Match.beta ∧
       Match.c_beta (Match.captains m) = caller ∧
       Match.c_alpha (Match.captains m) ≠ caller)) →
     Ctl.pickRoute now sid (Match.currentPicker m) m = Ok m' →
     Routes.pick now caller mid sid ms = (200%nat, None, <[i := m']> ms)) ∧
  (∀ now caller mid mapName ms i m m',
     list_find (fun m => Match.matchId m = mid) ms = Some (i, m) →
     mid ≠ "" →
     Exists (fun p => Match.steamId p = caller) (Match.players m) →
     ((Match.currentVeto m = Match.alpha ∧
       Match.c_alpha (Match.captains m) = caller) ∨
      (Match.currentVeto m = Match.beta ∧
       Match.c_beta (Match.captains m) = caller ∧
       Match.c_alpha (Match.captains m) ≠ caller)) →
     Ctl.banRoute (Ctl.mkBanCall now mapName (Match.currentVeto m)) m = Ok m' →
     Routes.ban now caller mid mapName ms = (200%nat, None, <[i := m']> ms)) ∧
  (∀ now caller mid sid ms i m,
     list_find (fun m => Match.matchId m = mid) ms = Some (i, m) →
     mid ≠ "" →
     Exists (fun p => Match.steamId p = caller) (Match.players m) →
     Match.phase m = Match.draft →
     Match.c_alpha (Match.captains m) = caller →
     Match.currentPicker m = Match.beta →
     Routes.pick now caller mid sid ms = (403%nat, Some "Not your turn", ms)).
Proof.
  split_and!.
  - intros now caller mid sid ms st e ms'. unfold Routes.pick.
    destruct (Routes.captainChain draft caller mid ms) as [r|s err] eqn:Hc.
    + apply captainChain_Next in Hc
        as (i & m & Hfind & Hmid & Hpart & Hph & Hcap & Hr).
      cbv zeta in Hr. destruct Hr as (-> & [[_ Hturn]|[? _]]); [|done].
      cbn [Mw.match_ Mw.captainTeam].
      pose proof (pick_controller_spec now sid i m _ ms Hph Hturn) as Hspec.
      pose proof (on_turn caller m _ Hcap Hturn) as Hon.
      rewrite <- Hturn in *. 
      destruct (Ctl.pickRoute now sid (currentPicker m) m) as [m'|err] eqn:Hr.
      * rewrite Hspec. intros [= <- <- <-]. split; [done|]. intros _.
        exists i, m, m'. apply pickRoute_Ok in Hr as [_ Hr]. by split_and!.
      * destruct Hspec as (s & -> & Hs). intros [= <- <- <-].
        split; [done|]. intros ->. by destruct Hs.
    + intros [= <- <- <-]. split; [done|]. intros ->.
      by apply captainChain_Reply in Hc.
  - intros now caller mid mapName ms st e ms'. unfold Routes.ban.
    destruct (Routes.captainChain veto caller mid ms) as [r|s err] eqn:Hc.
    + apply captainChain_Next in Hc
        as (i & m & Hfind & Hmid & Hpart & Hph & Hcap & Hr).
      cbv zeta in Hr. destruct Hr as (-> & [[? _]|[_ Hturn]]); [done|].
      cbn [Mw.match_ Mw.captainTeam].
      pose proof (ban_controller_spec now mapName i m _ ms Hph Hturn) as Hspec.
      pose proof (on_turn caller m _ Hcap Hturn) as Hon.
      rewrite <- Hturn in *.
      destruct (Ctl.banRoute (Ctl.mkBanCall now mapName (currentVeto m)) m)
        as [m'|err] eqn:Hr.
      * rewrite Hspec. intros [= <- <- <-]. split; [done|]. intros _.
        exists i, m, m'. apply banRoute_Ok in Hr as [_ Hr]. by split_and!.
      * destruct Hspec as (s & -> & Hs). intros [= <- <- <-].
        split; [done|]. intros ->. by destruct Hs.
    + intros [= <- <- <-]. split; [done|]. intros ->.
      by apply captainChain_Reply in Hc.
  - intros now caller mid sid ms i m m' Hfind Hmid Hpart Hon Hr.
    pose proof Hr as [Hph _]%pickRoute_Ok.
    unfold Routes.pick.
    rewrite (captainChain_pass draft caller mid ms i m Hfind Hmid Hpart Hph).
    + cbn [Mw.match_ Mw.captainTeam].
      assert (Hcap : currentPicker m =
                (if bool_decide (c_alpha (captains m) = caller)
                 then alpha else beta)).
      { destruct Hon as [[-> Ha]|(-> & _ & Hna)].
        - by rewrite (bool_decide_eq_true_2 _ Ha).
        - by rewrite (bool_decide_eq_false_2 _ Hna). }
      rewrite <- Hcap.
      pose proof (pick_controller_spec now sid i m _ ms Hph eq_refl) as Hspec.
      by rewrite Hr in Hspec.
    + destruct Hon as [[_ ?]|(_ & ? & _)]; auto.
    + left. split; [done|].
      destruct Hon as [[-> Ha]|(-> & _ & Hna)].
      * by rewrite (bool_decide_eq_true_2 _ Ha).
      * by rewrite (bool_decide_eq_false_2 _ Hna).
  - intros now caller mid mapName ms i m m' Hfind Hmid Hpart Hon Hr.
    pose proof Hr as [Hph _]%banRoute_Ok.
    unfold Routes.ban.
    rewrite (captainChain_pass veto caller mid ms i m Hfind Hmid Hpart Hph).
    + cbn [Mw.match_ Mw.captainTeam].
      assert (Hcap : currentVeto m =
                (if bool_decide (c_alpha (captains m) = caller)
                 then alpha else beta)).
      { destruct Hon as [[-> Ha]|(-> & _ & Hna)].
        - by rewrite (bool_decide_eq_true_2 _ Ha).
        - by rewrite (bool_decide_eq_false_2 _ Hna). }
      rewrite <- Hcap.
      pose proof (ban_controller_spec now mapName i m _ ms Hph eq_refl)
        as Hspec.
      by rewrite Hr in Hspec.
    + destruct Hon as [[_ ?]|(_ & ? & _)]; auto.
    + right. split; [done|].
      destruct Hon as [[-> Ha]|(-> & _ & Hna)].
      * by rewrite (bool_decide_eq_true_2 _ Ha).
      * by rewrite (bool_decide_eq_false_2 _ Hna).
  - intros now caller mid sid ms i m Hfind Hmid Hpart Hph Ha Hturn.
    unfold Routes.pick, Routes.captainChain, Mw.verifyMatchParticipant.
    rewrite (bool_decide_eq_false_2 _ Hmid), Hfind.
    cbn [Mw.steamId]. rewrite (bool_decide_eq_true_2 _ Hpart).
    cbn [Mw.and_then]. unfold Mw.requirePhase. cbn [Mw.match_].
    rewrite bool_decide_eq_true_2 by (rewrite Hph; by left).
    cbn [Mw.and_then]. unfold Mw.verifyCaptain. cbn [Mw.match_ Mw.steamId].
    rewrite (bool_decide_eq_true_2 _ Ha). cbn [orb Mw.and_then].
    unfold Mw.verifyTurn. cbn [Mw.match_ Mw.captainTeam].
    rewrite (bool_decide_eq_true_2 _ Hph).
    rewrite bool_decide_eq_true_2; [done|]. by rewrite Hturn.
Qed.

End GuardedRoutes.

(** ** Joining the queue again, server info, cancelling *)

Section Gates.
Import Match.

Lemma phase_never_completed ph : phase_name ph ≠ "completed".
Proof. by destruct ph. Qed.

Lemma phase_name_inj ph ph' : phase_name ph = phase_name ph' → ph = ph'.
Proof. by destruct ph, ph'. Qed.

Lemma canJoinQueue_with_match ts u ms ref i m :
  User.inQueue u = false → User.currentMatch u = Some ref →
  list_find (fun m => matchId m = ref) ms = Some (i, m) →
  Mw.canJoinQueue ts (Some u) ms =
    if bool_decide (phase m = cancelled)
    then (if bool_decide (ts < 50)%Z
          then Mw.Reply 403 "Trust score too low to join queue"
          else Mw.Next (Mw.clear_stale u))
    else Mw.Reply 400 "Already in an active match".
Proof.
  intros Hq Hc Hfind. unfold Mw.canJoinQueue. rewrite Hq, Hc, Hfind.
  rewrite (bool_decide_eq_false_2 _ (phase_never_completed _)). cbn [orb].
  destruct (decide (phase m = cancelled)) as [Hp|Hp].
  - rewrite (bool_decide_eq_true_2 (phase m = cancelled)) by done.
    by rewrite bool_decide_eq_true_2 by (by rewrite Hp).
  - rewrite (bool_decide_eq_false_2 (phase m = cancelled)) by done.
    rewrite bool_decide_eq_false_2; [done|].
    intros H. apply Hp. by apply phase_name_inj.
Qed.

(** X17. What the two stale-match checks make of a finished match.
    [canJoinQueue] compares the phase with 'completed', a value the phase
    never has: a user whose [currentMatch] is a stored match is let
    through (with the reference cleared) only when that match is
    cancelled, and is answered 400 'Already in an active match' in every
    other phase, the complete one included.  [checkActiveMatch] compares
    with 'complete': it lets the same user through and clears the
    reference, after which [canJoinQueue] passes.  When the referenced
    match is not stored, [canJoinQueue] clears the reference and
    [checkActiveMatch] leaves it. *)
Theorem stale_match_checks :
  (∀ ts u ms ref i m,
     User.inQueue u = false → User.currentMatch u = Some ref →
     list_find (fun m => Match.matchId m = ref) ms = Some (i, m) →
     Mw.canJoinQueue ts (Some u) ms =
       if bool_decide (Match.phase m = Match.cancelled)
       then (if bool_decide (ts < 50)%Z
             then Mw.Reply 403 "Trust score too low to join queue"
             else Mw.Next (Mw.clear_stale u))
       else Mw.Reply 400 "Already in an active match") ∧
  (∀ ts u ms ref i m,
     User.inQueue u = false → User.currentMatch u = Some ref →
     list_find (fun m => Match.matchId m = ref) ms = Some (i, m) →
     Match.phase m = Match.complete → (50 <= ts)%Z →
     Mw.canJoinQueue ts (Some u) ms =
       Mw.Reply 400 "Already in an active match" ∧
     Mw.checkActiveMatch (Some u) ms = Mw.Next (Mw.clear_stale u) ∧
     Mw.canJoinQueue ts (Some (Mw.clear_stale u)) ms =
       Mw.Next (Mw.clear_stale u)) ∧
  (∀ u ms ref i m,
     User.currentMatch u = Some ref →
     list_find (fun m => Match.matchId m = ref) ms = Some (i, m) →
     Mw.checkActiveMatch (Some u) ms =
       if bool_decide (Match.phase m = Match.complete)
          || bool_decide (Match.phase m = Match.cancelled)
       then Mw.Next (Mw.clear_stale u)
       else Mw.Reply 403 "Active match in progress") ∧
  (∀ ts u ms ref,
     User.inQueue u = false → User.currentMatch u = Some ref →
     list_find (fun m => Match.matchId m = ref) ms = None → (50 <= ts)%Z →
     Mw.canJoinQueue ts (Some u) ms = Mw.Next (Mw.clear_stale u) ∧
     Mw.checkActiveMatch (Some u) ms = Mw.Next u).
Proof.
  split_and!.
  - apply canJoinQueue_with_match.
  - intros ts u ms ref i m Hq Hc Hfind Hph Hts.
    rewrite (canJoinQueue_with_match ts u ms ref i m Hq Hc Hfind).
    rewrite bool_decide_eq_false_2 by (by rewrite Hph).
    split; [done|]. split.
    + unfold Mw.checkActiveMatch. rewrite Hc, Hfind, Hph. done.
    + unfold Mw.canJoinQueue. cbn [Mw.clear_stale User.clear_inQueue
        User.clear_match User.inQueue User.currentMatch].
      by rewrite bool_decide_eq_false_2 by lia.
  - intros u ms ref i m Hc Hfind. unfold Mw.checkActiveMatch.
    rewrite Hc, Hfind. by destruct (phase m).
  - intros ts u ms ref Hq Hc Hfind Hts. split.
    + unfold Mw.canJoinQueue. rewrite Hq, Hc, Hfind.
      by rewrite bool_decide_eq_false_2 by lia.
    + unfold Mw.checkActiveMatch. by rewrite Hc, Hfind.
Qed.

Lemma updateTeamStats_inQueue f won team : ∀ (us : User.coll) k,
  User.inQueue <$> Ctl.updateTeamStats f won team us !! k =
  User.inQueue <$> us !! k.
Proof.
  unfold Ctl.updateTeamStats.
  induction team as [|p team IH]; intros us k; [done|]. simpl.
  rewrite IH. destruct (f us) as [j|]; [|done].
  destruct (decide (j = k)) as [->|Hne].
  - rewrite lookup_alter_eq. by destruct (us !! k).
  - by rewrite lookup_alter_ne.
Qed.

Lemma completeMatch_win_inQueue f now w sa sb m (us : User.coll) :
  phase m = live → w = "alpha" ∨ w = "beta" →
  ∀ k, User.inQueue <$> (Ctl.completeMatch f now w sa sb m us).2 !! k =
       User.inQueue <$> us !! k.
Proof.
  intros Hlive Hw k. unfold Ctl.completeMatch.
  rewrite (bool_decide_eq_true_2 _ Hlive). simpl.
  destruct Hw as [-> | ->]; simpl.
  all: rewrite !updateTeamStats_inQueue.
  all: rewrite !updateMany_undefined by apply team_entries_undefined.
  all: by rewrite !updateTeamStats_inQueue.
Qed.

(** X18. After a match is completed with a win for alpha or beta, its
    players cannot join the queue: the complete request answers 200 and
    stores the match as complete, every user who had the match as
    [currentMatch] still has it, and [canJoinQueue] answers such a user
    400 'Already in an active match', whatever the store returns to the
    [undefined] filter and whatever the trust score. *)
Theorem won_match_blocks_requeue f now w sa sb (ms : list Match.t) i m
    (us : User.coll) k u ts :
  list_find (fun x => Match.matchId x = Match.matchId m) ms = Some (i, m) →
  Match.phase m = Match.live → w = "alpha" ∨ w = "beta" →
  us !! k = Some u → User.currentMatch u = Some (Match.matchId m) →
  User.inQueue u = false →
  let r := Ctl.completeMatch f now w sa sb m us in
  r.1.1 = 200%nat ∧ Match.phase r.1.2 = Match.complete ∧
  (∃ u', r.2 !! k = Some u' ∧
         User.currentMatch u' = Some (Match.matchId m)) ∧
  Mw.canJoinQueue ts (r.2 !! k) (<[i := r.1.2]> ms) =
    Mw.Reply 400 "Already in an active match".
Proof.
  intros Hfind Hlive Hw Hk Hc Hq r.
  pose proof (completeMatch_win_answer f now w sa sb m us Hlive Hw) as Hans.
  pose proof (completeMatch_win_currentMatch f now w sa sb m us Hlive Hw k)
    as Hcur.
  pose proof (completeMatch_win_inQueue f now w sa sb m us Hlive Hw k) as Hinq.
  fold r in Hans, Hcur, Hinq. rewrite Hk in Hcur, Hinq.
  destruct (r.2 !! k) as [u'|] eqn:Hu'; [|done].
  injection Hcur as Hcur. injection Hinq as Hinq.
  rewrite Hc in Hcur. rewrite Hq in Hinq.
  assert (H1 : r.1.1 = 200%nat) by (by rewrite Hans).
  assert (H2 : r.1.2 = Match.completeMatch now w sa sb m) by (by rewrite Hans).
  split; [done|]. split; [by rewrite H2|]. split; [by exists u'|].
  rewrite (canJoinQueue_with_match ts u' _ (matchId m) i r.1.2 Hinq Hcur).
  - rewrite bool_decide_eq_false_2; [done|]. by rewrite H2.
  - apply (list_find_insert _ _ _ _ _ Hfind). by rewrite H2.
Qed.

Lemma won_match_blocks_requeue_witness :
  let r := Ctl.completeMatch (fun _ => None) 9000 "alpha" 16 8 demo_live
             demo_users in
  Mw.canJoinQueue 100 (r.2 !! "p3") (<[0%nat := r.1.2]> [demo_live]) =
    Mw.Reply 400 "Already in an active match".
Proof.
  cbv zeta.
  assert (H : ∃ u, demo_users !! "p3" = Some u ∧
                   User.currentMatch u = Some (Match.matchId demo_live) ∧
                   User.inQueue u = false).
  { vm_compute. eexists. split; [reflexivity|]. split; reflexivity. }
  destruct H as (u & Hk & Hc & Hq).
  assert (Hfind : list_find (fun x => Match.matchId x = Match.matchId demo_live)
                    [demo_live] = Some (0%nat, demo_live)).
  { apply list_find_Some. split; [done|]. split; [done|].
    intros j y Hj Hlt. lia. }
  assert (Hlive : Match.phase demo_live = Match.live)
    by (vm_compute; reflexivity).
  exact (proj2 (proj2 (proj2
    (won_match_blocks_requeue (fun _ => None) 9000 "alpha" 16 8 [demo_live]
       0%nat demo_live demo_users "p3" u 100 Hfind Hlive (or_introl eq_refl)
       Hk Hc Hq)))).
Defined.

Lemma route_step_not_complete m m' :
  Ctl.route_step m m' → phase m ≠ complete → phase m' ≠ complete.
Proof.
  intros Hstep Hn.
  destruct Hstep as [now sid m m' Hph H | m Hg | now sid cap m m' H
                    | c m m' H | r notifyThrows m Hph].
  - by apply acceptMatch_Ok in H as (_ & _ & _ & _ & ->).
  - unfold endAcceptPhase. cbv zeta. by destruct (allPlayersAccepted _).
  - apply pickRoute_Ok in H as [Hph H].
    apply pickPlayer_Ok in H as (_ & i & p & _ & Hrest). cbv zeta in Hrest.
    destruct Hrest as (_ & _ & _ & _ & _ & Hcase).
    destruct (pickOrder m !! S (pickIndex m)).
    + destruct Hcase as (_ & _ & -> & _). done.
    + destruct Hcase as (_ & -> & _). done.
  - apply banRoute_Ok in H as [Hph H].
    apply banMap_draft_frame in H as (_ & _ & _ & _ & [->| ->]); [done|].
    by rewrite Hph.
  - by rewrite afterProvision_live.
Qed.

Lemma routes_not_complete id now ps caps m0 m :
  createMatch id now ps caps = Ok m0 → rtc Ctl.route_step m0 m →
  phase m ≠ complete.
Proof.
  intros Hc Hsteps.
  assert (H0 : phase m0 ≠ complete).
  { apply createMatch_Ok in Hc as (c0 & c1 & _ & _ & _ & _ & Hrest).
    destruct Hrest as (_ & _ & _ & -> & _). done. }
  revert m Hsteps. apply rtc_ind_r; [done|].
  intros m1 m2 _ Hstep IH. by eapply route_step_not_complete.
Qed.

(** X19. What [GET /server] tells a player of a match that was created
    by [createMatch] and driven through the routes.  Before the match is
    live the answer is 400.  Once the provisioning chain has run the
    match is live, and the answer depends on how provisioning settled: on
    success (with a non-empty ip) it is the ip, the password, the selected
    map and the string "connect <ip>; password <password>", built from
    these two fields and not the stored [connectString]; when
    provisioning failed or threw, the match is live all the same and the
    answer is 404 'Server info not available'. *)
Theorem server_info_after_provisioning id now ps caps m0 m :
  Match.createMatch id now ps caps = Ok m0 → rtc Ctl.route_step m0 m →
  (Match.phase m ≠ Match.live →
     Routes.getServerInfo m =
       inl (400%nat, "Server info only available for live matches")) ∧
  (∀ caller ms i,
     list_find (fun x => Match.matchId x = Match.matchId m) ms = Some (i, m) →
     Match.matchId m ≠ "" →
     Exists (fun p => Match.steamId p = caller) (Match.players m) →
     Routes.server caller (Match.matchId m) ms =
       if bool_decide (Match.phase m = Match.live)
       then Routes.getServerInfo m
       else inl (400%nat, "Match must be in live or complete phase")) ∧
  (Match.phase m = Match.ready →
     ∀ r notifyThrows,
       let mf := Ctl.afterProvision r notifyThrows m in
       Match.phase mf = Match.live ∧
       match r with
       | Ctl.ProvisionOk info =>
           Ctl.pv_ip info ≠ "" →
           ∃ x, Match.selectedMap m = Some x ∧
             Routes.getServerInfo mf =
               inr (Routes.mkServerReply (Ctl.pv_ip info)
                      (Some (Ctl.pv_password info)) (Some x)
                      ("connect " +:+ Ctl.pv_ip info +:+ "; password "
                       +:+ Ctl.pv_password info))
       | Ctl.ProvisionFailed _ | Ctl.ProvisionThrew _ =>
           Routes.getServerInfo mf =
             inl (404%nat, "Server info not available")
       end).
Proof.
  intros Hc Hsteps.
  pose proof (routes_keep_serverInfo _ _ _ _ _ _ Hc Hsteps) as Hsrv.
  pose proof (routes_keep_veto _ _ _ _ _ _ Hc Hsteps) as (_ & _ & _ & Hlate).
  pose proof (routes_keep_pool _ _ _ _ _ _ Hc Hsteps) as Hpool.
  pose proof (routes_not_complete _ _ _ _ _ _ Hc Hsteps) as Hcomp.
  split; [|split].
  - intros Hnl. unfold Routes.getServerInfo.
    rewrite (bool_decide_eq_false_2 _ Hnl). cbn [negb andb].
    by rewrite (bool_decide_eq_false_2 _ Hcomp).
  - intros caller ms i Hfind Hmid Hpart.
    unfold Routes.server, Mw.verifyMatchParticipant.
    rewrite (bool_decide_eq_false_2 _ Hmid), Hfind. cbn [Mw.steamId].
    rewrite (bool_decide_eq_true_2 _ Hpart). cbn [Mw.and_then].
    unfold Mw.requirePhase. cbn [Mw.match_].
    destruct (decide (phase m = live)) as [Hl|Hl].
    + rewrite (bool_decide_eq_true_2 (phase m = live)) by done.
      by rewrite bool_decide_eq_true_2 by (rewrite Hl; by left).
    + rewrite (bool_decide_eq_false_2 (phase m = live)) by done.
      rewrite bool_decide_eq_false_2; [done|].
      intros [?|[?|?%elem_of_nil]%elem_of_cons]%elem_of_cons; done.
  - intros Hready r notifyThrows mf. subst mf.
    split; [apply afterProvision_live|].
    assert (Hno : serverInfo m = no_server) by (apply Hsrv; by rewrite Hready).
    destruct (Hlate (or_introl Hready)) as (_ & x & _ & Hsel).
    destruct r as [info|err|msg].
    + intros Hip. exists x. split; [done|].
      unfold Routes.getServerInfo. rewrite afterProvision_live.
      rewrite (bool_decide_eq_true_2 (live = live)) by done. cbn [negb andb].
      destruct notifyThrows; cbn [Ctl.afterProvision set_phase set_serverInfo
        serverInfo selectedMap Ctl.server_of ip password];
        by rewrite (bool_decide_eq_false_2 _ Hip), Hsel.
    + unfold Routes.getServerInfo. rewrite afterProvision_live.
      rewrite (bool_decide_eq_true_2 (live = live)) by done. cbn [negb andb].
      cbn [Ctl.afterProvision set_phase serverInfo]. by rewrite Hno.
    + unfold Routes.getServerInfo. rewrite afterProvision_live.
      rewrite (bool_decide_eq_true_2 (live = live)) by done. cbn [negb andb].
      cbn [Ctl.afterProvision set_phase serverInfo]. by rewrite Hno.
Qed.

Lemma server_info_after_provisioning_witness :
  Routes.getServerInfo demo_match =
    inl (400%nat, "Server info only available for live matches").
Proof.
  destruct demo_match_reachable as [Hc Hsteps].
  apply (proj1 (server_info_after_provisioning "MATCH-1" 1000 ten_players
                  ["p0"; "p5"] (or_keep demo_created Match.defaults)
                  demo_match Hc Hsteps)).
  assert (H : Match.phase demo_match = Match.draft) by (vm_compute; reflexivity).
  rewrite H. discriminate.
Defined.

Lemma deleteOne_gone mid (ms : list Match.t) :
  NoDup (matchId <$> ms) →
  ∀ m', m' ∈ Routes.deleteOne mid ms → matchId m' ≠ mid.
Proof.
  intros Hnd m' Hin. unfold Routes.deleteOne in Hin.
  destruct (list_find (fun m => matchId m = mid) ms) as [[i m]|] eqn:Hfind.
  - apply list_find_Some in Hfind as (Hi & Hm & _).
    apply list_elem_of_lookup in Hin as [j Hj].
    rewrite list_lookup_delete in Hj. intros Heq.
    assert (Hij : (if decide (j < i)%nat then j else S j) = i).
    { apply (NoDup_lookup (matchId <$> ms) _ _ mid Hnd).
      - by rewrite list_lookup_fmap, Hj, <- Heq.
      - by rewrite list_lookup_fmap, Hi, <- Hm. }
    destruct (decide (j < i)%nat); lia.
  - apply list_find_None in Hfind. rewrite Forall_forall in Hfind.
    by apply Hfind.
Qed.

(** X20. Cancelling a match through the controller deletes it and frees
    its players: every user whose steamId is among the match's players
    has [currentMatch] cleared and [inQueue] false afterwards, all other
    users are untouched, no match with that id is left (match ids being
    unique), and [canJoinQueue] then lets each of these players through
    when the trust score is at least 50. *)
Theorem cancel_frees_the_players (m : Match.t) (ms : list Match.t)
    (us : User.coll) :
  let r := Routes.cancelMatch m ms us in
  let ids := Match.steamId <$> Match.players m in
  (∀ k u, us !! k = Some u → k ∈ ids → r.2 !! k = Some (Mw.clear_stale u)) ∧
  (∀ k, k ∉ ids → r.2 !! k = us !! k) ∧
  (NoDup (Match.matchId <$> ms) →
   ∀ m', m' ∈ r.1 → Match.matchId m' ≠ Match.matchId m) ∧
  (∀ m', m' ∈ r.1 → m' ∈ ms) ∧
  (∀ ts k u, us !! k = Some u → k ∈ ids → (50 <= ts)%Z →
     Mw.canJoinQueue ts (r.2 !! k) r.1 = Mw.Next (Mw.clear_stale u)).
Proof.
  cbv zeta. unfold Routes.cancelMatch. cbn [fst snd].
  assert (Hin : ∀ k, Some k ∈ (fun p => Some (steamId p)) <$> players m ↔
                     k ∈ steamId <$> players m).
  { intros k. rewrite !list_elem_of_fmap. split.
    - intros (p & [= ->] & Hp). by exists p.
    - intros (p & -> & Hp). by exists p. }
  assert (H1 : ∀ k u, us !! k = Some u → k ∈ steamId <$> players m →
             User.updateMany ((fun p => Some (steamId p)) <$> players m)
               Mw.clear_stale us !! k = Some (Mw.clear_stale u)).
  { intros k u Hk Hid. rewrite updateMany_lookup, Hk. simpl.
    rewrite bool_decide_eq_true_2; [done|]. by apply Hin. }
  split_and!.
  - done.
  - intros k Hk. rewrite updateMany_lookup.
    rewrite bool_decide_eq_false_2 by (by rewrite Hin).
    by destruct (us !! k).
  - intros Hnd. by apply deleteOne_gone.
  - intros m'. unfold Routes.deleteOne.
    destruct (list_find _ ms) as [[i ?]|]; [|done].
    apply list_elem_of_delete_inv.
  - intros ts k u Hk Hid Hts. rewrite (H1 k u Hk Hid).
    unfold Mw.canJoinQueue. cbn [Mw.clear_stale User.clear_inQueue
      User.clear_match User.inQueue User.currentMatch].
    by rewrite bool_decide_eq_false_2 by lia.
Qed.

End Gates.

(** ** The statistics of a user *)

Section UserStats.
Import User.

Lemma updateStats_step won (u : t) :
  let u' := updateStats won u in
  matchesPlayed (stats u') = (matchesPlayed (stats u) + 1)%Z ∧
  wins (stats u') = (wins (stats u) + if won then 1 else 0)%Z ∧
  losses (stats u') = (losses (stats u) + if won then 0 else 1)%Z ∧
  rating (stats u') =
    (if won then rating (stats u) + 25
     else Z.max 0 (rating (stats u) - 25))%Z ∧
  name u' = name u ∧ currentMatch u' = currentMatch u ∧
  inQueue u' = inQueue u.
Proof. destruct won; cbn; split_and!; (done || lia). Qed.

(** X21. [updateStats] over any series of results: the games played grow
    by the number of results, the wins by the number of wins and the
    losses by the number of losses, so a record with
    wins + losses = matchesPlayed keeps that; a win adds 25 to the rating
    and a loss takes 25 but never below zero, so the rating is at least
    the start plus 25 per win minus 25 per loss, exactly the start plus
    25 per win when nothing was lost, and never negative once it is not
    negative; name, [currentMatch] and [inQueue] are not touched.  The
    floor makes the order matter: a win followed by a loss gives back a
    non-negative rating, a loss followed by a win gives the larger of the
    rating and 25. *)
Theorem updateStats_over_matches (results : list bool) (u : User.t) :
  let u' := foldl (fun u won => User.updateStats won u) u results in
  let w := Z.of_nat (length (filter (fun b => b = true) results)) in
  let l := Z.of_nat (length (filter (fun b => b = false) results)) in
  (User.matchesPlayed (User.stats u')
   = User.matchesPlayed (User.stats u) + Z.of_nat (length results))%Z ∧
  (User.wins (User.stats u') = User.wins (User.stats u) + w)%Z ∧
  (User.losses (User.stats u') = User.losses (User.stats u) + l)%Z ∧
  (User.wins (User.stats u) + User.losses (User.stats u)
   = User.matchesPlayed (User.stats u) →
   User.wins (User.stats u') + User.losses (User.stats u')
   = User.matchesPlayed (User.stats u'))%Z ∧
  (User.rating (User.stats u) + 25 * (w - l)
   <= User.rating (User.stats u'))%Z ∧
  (User.rating (User.stats u')
   <= Z.max 0 (User.rating (User.stats u)) + 25 * w)%Z ∧
  (l = 0%Z →
   User.rating (User.stats u') = User.rating (User.stats u) + 25 * w)%Z ∧
  (0 <= User.rating (User.stats u) → 0 <= User.rating (User.stats u'))%Z ∧
  User.name u' = User.name u ∧
  User.currentMatch u' = User.currentMatch u ∧
  User.inQueue u' = User.inQueue u ∧
  (0 <= User.rating (User.stats u) →
   User.rating (User.stats (User.updateStats false (User.updateStats true u)))
   = User.rating (User.stats u))%Z ∧
  User.rating (User.stats (User.updateStats true (User.updateStats false u)))
  = Z.max 25 (User.rating (User.stats u)).
Proof.
  cbv zeta.
  assert (Hmain : ∀ results u,
    let u' := foldl (fun u won => updateStats won u) u results in
    let w := Z.of_nat (length (filter (fun b => b = true) results)) in
    let l := Z.of_nat (length (filter (fun b => b = false) results)) in
    (matchesPlayed (stats u')
     = matchesPlayed (stats u) + Z.of_nat (length results))%Z ∧
    (wins (stats u') = wins (stats u) + w)%Z ∧
    (losses (stats u') = losses (stats u) + l)%Z ∧
    (rating (stats u) + 25 * (w - l) <= rating (stats u'))%Z ∧
    (rating (stats u') <= Z.max 0 (rating (stats u)) + 25 * w)%Z ∧
    (l = 0%Z → rating (stats u') = rating (stats u) + 25 * w)%Z ∧
    (0 <= rating (stats u) → 0 <= rating (stats u'))%Z ∧
    name u' = name u ∧ currentMatch u' = currentMatch u ∧
    inQueue u' = inQueue u).
  { clear. intros results. induction results as [|won results IH]; intros u.
    - cbn. split_and!; (done || lia).
    - cbn [foldl]. cbv zeta.
      destruct (IH (updateStats won u))
        as (H1 & H2 & H3 & H4 & H5 & H6 & H7 & H8 & H9 & H10).
      destruct (updateStats_step won u)
        as (S1 & S2 & S3 & S4 & S5 & S6 & S7).
      rewrite S1 in H1. rewrite S2 in H2. rewrite S3 in H3.
      rewrite S4 in H4, H5, H6, H7.
      rewrite H8, H9, H10, S5, S6, S7.
      destruct won.
      + rewrite (filter_cons_True (fun b => b = true)) by done.
        rewrite (filter_cons_False (fun b => b = false)) by done.
        cbn [length]. split_and!; (done || lia).
      + rewrite (filter_cons_False (fun b => b = true)) by done.
        rewrite (filter_cons_True (fun b => b = false)) by done.
        cbn [length]. split_and!; (done || lia). }
  destruct (Hmain results u)
    as (H1 & H2 & H3 & H4 & H5 & H6 & H7 & H8 & H9 & H10).
  split_and!; try done.
  - pose proof (filter_bool_partition (fun b : bool => b) results) as Hp.
    apply Permutation_length in Hp. rewrite length_app in Hp. lia.
  - intros Hr. cbn. lia.
  - cbn. lia.
Qed.

End UserStats.

(** ** The accept phase of a match *)

Section MatchAccept.
Import Match.

Lemma allPlayersAccepted_acceptPhase m m' :
  acceptPhase m' = acceptPhase m →
  allPlayersAccepted m' = allPlayersAccepted m.
Proof. unfold allPlayersAccepted. by intros ->. Qed.

Lemma route_step_accept_ok m m' :
  Ctl.route_step m m' → accept_ok m → accept_ok m'.
Proof.
  intros Hstep (Hnd & Hsub & Hlate).
  destruct Hstep as [now sid m m' Hph H | m Hg | now sid cap m m' H
                    | c m m' H | r notifyThrows m Hph].
  - apply acceptMatch_Ok in H as (_ & _ & Hreq & Hacc & ->).
    unfold accept_ok. cbn [acceptPhase set_acceptPhase acceptedPlayers
      requiredPlayers phase].
    apply bool_decide_eq_true in Hreq. apply bool_decide_eq_false in Hacc.
    rewrite fmap_app. cbn [fmap list_fmap acc_steamId]. split_and!.
    + apply NoDup_app. split; [done|]. split; [|apply NoDup_singleton].
      intros x Hx Hx2. apply list_elem_of_singleton in Hx2 as ->.
      apply Hacc, Exists_exists.
      apply list_elem_of_fmap in Hx as (a & Ha & Hin). by exists a.
    + intros x [Hx|Hx]%elem_of_app; [by apply Hsub|].
      apply list_elem_of_singleton in Hx as ->.
      apply Exists_exists in Hreq as (p & Hp & Hs).
      apply list_elem_of_fmap. by exists p.
    + rewrite Hph. by intros [?|[?|[?|?]]].
  - unfold endAcceptPhase. cbv zeta.
    destruct (allPlayersAccepted _) eqn:Hall; split_and!; try done.
    by intros [?|[?|[?|?]]].
  - apply pickRoute_Ok in H as [Hph H].
    apply pickPlayer_acceptPhase in H.
    unfold accept_ok. rewrite (allPlayersAccepted_acceptPhase _ _ H), H.
    split_and!; [done|done|]. intros _. apply Hlate. by left.
  - apply banRoute_Ok in H as [Hph H].
    apply banMap_acceptPhase in H.
    unfold accept_ok. rewrite (allPlayersAccepted_acceptPhase _ _ H), H.
    split_and!; [done|done|]. intros _. apply Hlate. right. by left.
  - assert (H : acceptPhase (Ctl.afterProvision r notifyThrows m)
                = acceptPhase m)
      by (destruct r; [destruct notifyThrows|..]; done).
    unfold accept_ok. rewrite (allPlayersAccepted_acceptPhase _ _ H), H.
    split_and!; [done|done|]. intros _. apply Hlate. right. right. by left.
Qed.

Lemma routes_keep_accept_ok id now ps caps m0 m :
  createMatch id now ps caps = Ok m0 → rtc Ctl.route_step m0 m →
  accept_ok m ∧
  req_steamId <$> requiredPlayers (acceptPhase m) = ref_steamId <$> ps.
Proof.
  intros Hc Hsteps.
  assert (H0 : accept_ok m0 ∧
               req_steamId <$> requiredPlayers (acceptPhase m0)
               = ref_steamId <$> ps).
  { unfold createMatch in Hc. destruct (caps !! 0%nat); [|done].
    destruct (caps !! 1%nat); [|done]. destruct (negb _); [done|].
    injection Hc as <-.
    split; [split_and!|].
    - apply NoDup_nil_2.
    - intros x Hx. by apply elem_of_nil in Hx.
    - cbn [phase]. by intros [?|[?|[?|?]]].
    - cbn [acceptPhase requiredPlayers]. by rewrite <- list_fmap_compose. }
  revert m Hsteps. apply rtc_ind_r; [done|].
  intros m1 m2 _ Hstep [IH Hreq]. split; [by eapply route_step_accept_ok|].
  rewrite <- Hreq. f_equal.
  destruct Hstep as [t sid m1 m2 Hph H | m1 Hg | t sid cap m1 m2 H
                    | c m1 m2 H | r notifyThrows m1 Hph].
  - by apply acceptMatch_Ok in H as (_ & _ & _ & _ & ->).
  - done.
  - apply pickRoute_Ok in H as [_ H]. apply pickPlayer_acceptPhase in H.
    by rewrite H.
  - apply banRoute_Ok in H as [_ H]. apply banMap_acceptPhase in H.
    by rewrite H.
  - by destruct r; [destruct notifyThrows|..].
Qed.

Lemma all_accepted_iff_covered (acc req : list string) :
  NoDup acc → (∀ x, x ∈ acc → x ∈ req) →
  ((length req <= length acc)%nat ↔ NoDup req ∧ ∀ x, x ∈ req → x ∈ acc).
Proof.
  intros Hnd Hsub. split.
  - intros Hlen.
    assert (Hperm : acc ≡ₚ req).
    { apply submseteq_length_Permutation; [by apply NoDup_submseteq|done]. }
    split; [by rewrite <- Hperm|]. intros x Hx. by rewrite Hperm.
  - intros [Hndr Hcov]. apply submseteq_length. by apply NoDup_submseteq.
Qed.

(** X22. The accept phase of a match created by [createMatch] and driven
    through the routes.  The accepted list never names a player twice and
    names required players only, so [allPlayersAccepted], which compares
    two lengths, is true exactly when the required ids are distinct and
    every one of them has accepted; a match whose players repeat an id can
    never be accepted by all.  A match is in the draft, veto, ready or
    live phase only if all its players have accepted.  Ending the accept
    phase of a newly created match that has players cancels it. *)
Theorem match_accepts_sound id now ps caps m0 m :
  Match.createMatch id now ps caps = Ok m0 → rtc Ctl.route_step m0 m →
  let accepted :=
    Match.acc_steamId <$> Match.acceptedPlayers (Match.acceptPhase m) in
  let ids := ref_steamId <$> ps in
  NoDup accepted ∧ (∀ x, x ∈ accepted → x ∈ ids) ∧
  (Match.allPlayersAccepted m = true ↔
   NoDup ids ∧ ∀ x, x ∈ ids → x ∈ accepted) ∧
  (Match.phase m = Match.draft ∨ Match.phase m = Match.veto ∨
   Match.phase m = Match.ready ∨ Match.phase m = Match.live →
   NoDup ids ∧ ∀ x, x ∈ ids → x ∈ accepted) ∧
  (ps ≠ [] → Match.phase (Match.endAcceptPhase m0) = Match.cancelled).
Proof.
  intros Hc Hsteps.
  destruct (routes_keep_accept_ok _ _ _ _ _ _ Hc Hsteps)
    as [(Hnd & Hsub & Hlate) Hreq].
  rewrite Hreq in Hsub. cbv zeta.
  assert (Hiff : allPlayersAccepted m = true ↔
                 NoDup (ref_steamId <$> ps) ∧
                 ∀ x, x ∈ ref_steamId <$> ps →
                      x ∈ acc_steamId <$> acceptedPlayers (acceptPhase m)).
  { unfold allPlayersAccepted. rewrite bool_decide_eq_true.
    rewrite <- (all_accepted_iff_covered _ _ Hnd Hsub).
    by rewrite <- Hreq, !length_fmap. }
  split_and!; try done.
  - intros Hph. by apply Hiff, Hlate.
  - intros Hps. unfold createMatch in Hc. destruct (caps !! 0%nat); [|done].
    destruct (caps !! 1%nat); [|done]. destruct (negb _); [done|].
    injection Hc as <-.
    unfold endAcceptPhase, allPlayersAccepted.
    cbn [acceptPhase set_acceptPhase set_phase phase acceptedPlayers
         requiredPlayers].
    rewrite bool_decide_eq_false_2; [done|].
    rewrite length_fmap. destruct ps; [done|]. simpl. lia.
Qed.

Lemma match_accepts_sound_witness :
  Match.allPlayersAccepted demo_match = true ↔
  NoDup (ref_steamId <$> ten_players) ∧
  ∀ x, x ∈ ref_steamId <$> ten_players →
       x ∈ Match.acc_steamId <$>
             Match.acceptedPlayers (Match.acceptPhase demo_match).
Proof.
  destruct demo_match_reachable as [Hc Hsteps].
  exact (proj1 (proj2 (proj2
    (match_accepts_sound "MATCH-1" 1000 ten_players ["p0"; "p5"]
       (or_keep demo_created Match.defaults) demo_match Hc Hsteps)))).
Defined.

End MatchAccept.

(** ** Joining and leaving through the queue controller *)

Section Joining.
Import Queue QueueCtl.














End Joining.

(** ** The MatchZy configuration of a drafted match *)

Section MatchzyConfig.
Import Match Ctl Matchzy.

Variable slug : string → string.

Lemma insert_set_team_tag i p tm (ps : list Player) :
  ps !! i = Some p → tag <$> <[i := set_team tm p]> ps = tag <$> ps.
Proof.
  intros H. rewrite list_fmap_insert. simpl. apply list_insert_id.
  by rewrite list_lookup_fmap, H.
Qed.

Lemma route_step_names m m' :
  route_step m m' →
  captains m' = captains m ∧ tag <$> players m' = tag <$> players m.
Proof.
  destruct 1 as [now sid m m' Hph H | m Hg | now sid cap m m' H
                | c m m' H | r notifyThrows m Hph].
  - apply acceptMatch_Ok in H as (_ & _ & _ & _ & ->). done.
  - unfold endAcceptPhase. cbv zeta. by destruct (allPlayersAccepted _).
  - apply pickRoute_Ok in H as [_ H].
    apply pickPlayer_Ok in H as (_ & i & p & Hfind & Hrest).
    cbv zeta in Hrest. destruct Hrest as (_ & _ & _ & _ & Hcap & Hcase).
    apply list_find_Some in Hfind as (Hi & _ & _). split; [done|].
    destruct (pickOrder m !! S (pickIndex m)).
    + destruct Hcase as (-> & _). by apply insert_set_team_tag.
    + destruct Hcase as (Hpair & _). symmetry in Hpair.
      apply assign_last_spec in Hpair
        as [(_ & -> & _)|(j & q & Hj & _ & _ & Hl)].
      * by apply insert_set_team_tag.
      * cbv zeta in Hl. destruct Hl as (-> & _).
        rewrite insert_set_team_tag by done. by apply insert_set_team_tag.
  - apply banRoute_Ok in H as [_ H].
    apply banMap_Ok in H as (_ & _ & _ & _ & -> & _ & _ & -> & _). done.
  - by destruct r; [destruct notifyThrows|..].
Qed.

Lemma routes_keep_names id now ps c0 c1 m0 m :
  createMatch id now ps [c0; c1] = Ok m0 → rtc route_step m0 m →
  captains m = mkCaptains c0 c1 ∧ tag <$> players m = rtag <$> ps.
Proof.
  unfold createMatch. cbn [lookup list_lookup].
  destruct (negb _); [done|].
  intros [= <-] Hsteps. revert m Hsteps. apply rtc_ind_r.
  - split; [done|]. simpl. by rewrite <- list_fmap_compose.
  - intros m1 m2 _ Hstep [IHc IHn].
    apply route_step_names in Hstep as [-> ->]. done.
Qed.

Lemma find_player_tag sid (ps : list Player) (rs : list PlayerRef) r :
  tag <$> ps = rtag <$> rs → NoDup (ref_steamId <$> rs) → r ∈ rs →
  ref_steamId r = sid →
  ∃ p, find_player sid ps = Some p ∧ name p = ref_name r.
Proof.
  intros Htag Hnd Hr Hsid. unfold tag, rtag in Htag.
  assert (Hin : (ref_steamId r, ref_name r)
                ∈ (fun p => (steamId p, name p)) <$> ps).
  { rewrite Htag. apply list_elem_of_fmap. by exists r. }
  apply list_elem_of_fmap in Hin as (p0 & Hp0 & Hp0in).
  unfold find_player.
  destruct (list_find (fun p => steamId p = sid) ps) as [[i p]|] eqn:Hfind.
  - exists p. split; [done|].
    apply list_find_Some in Hfind as (Hi & Hs & _).
    assert (Hi' : ((fun r => (ref_steamId r, ref_name r)) <$> rs) !! i
                  = Some (steamId p, name p)).
    { rewrite <- Htag, list_lookup_fmap, Hi. done. }
    rewrite list_lookup_fmap in Hi'.
    destruct (rs !! i) as [r'|] eqn:Hr'; [|done].
    injection Hi' as Hs' Hn'.
    apply list_elem_of_lookup in Hr as [j Hj].
    assert (i = j) as ->.
    { eapply NoDup_lookup; [exact Hnd| |].
      - by rewrite list_lookup_fmap, Hr'.
      - rewrite list_lookup_fmap, Hj. simpl. congruence. }
    congruence.
  - apply list_find_None in Hfind. rewrite Forall_forall in Hfind.
    exfalso. apply (Hfind p0 Hp0in). simpl in Hp0. congruence.
Qed.

Lemma find_player_absent sid (ps : list Player) :
  sid ∉ steamId <$> ps → find_player sid ps = None.
Proof.
  intros Hnot. unfold find_player.
  destruct (list_find _ ps) as [[i p]|] eqn:Hfind; [|done].
  apply list_find_Some in Hfind as (Hi & Hs & _).
  exfalso. apply Hnot. rewrite <- Hs.
  apply list_elem_of_fmap_2. by eapply list_elem_of_lookup_2.
Qed.

Lemma team_players_lookup ids ps k :
  team_players_of ids ps !! k =
    if bool_decide (k ∈ ids ∧ k ≠ "__proto__")
    then shown_name <$> find_player k ps else None.
Proof.
  unfold team_players_of.
  set (f := fun (acc : gmap string string) sid => _).
  assert (Hgen : ∀ acc,
    foldl f acc ids !! k =
      match (if bool_decide (k ∈ ids ∧ k ≠ "__proto__")
             then shown_name <$> find_player k ps else None) with
      | Some v => Some v
      | None => acc !! k
      end).
  { induction ids as [|x ids IH]; intros acc.
    - rewrite bool_decide_eq_false_2; [done|].
      intros [H _]. by apply elem_of_nil in H.
    - cbn [foldl]. rewrite IH. clear IH.
      destruct (decide (k ∈ ids ∧ k ≠ "__proto__")) as [Hin|Hnin].
      + rewrite (bool_decide_eq_true_2 _ Hin).
        rewrite (bool_decide_eq_true_2 (k ∈ x :: ids ∧ _))
          by (split; [right|]; tauto).
        destruct (find_player k ps) as [p|] eqn:Hk; [done|].
        cbn [fmap option_fmap option_map]. subst f. cbv beta.
        destruct (find_player x ps) eqn:Hx; [|done].
        destruct (decide (x = "__proto__")) as [Hp|Hp].
        { by rewrite (bool_decide_eq_true_2 _ Hp). }
        rewrite (bool_decide_eq_false_2 _ Hp).
        destruct (decide (x = k)) as [->|Hne]; [congruence|].
        by rewrite lookup_insert_ne.
      + rewrite (bool_decide_eq_false_2 _ Hnin).
        destruct (decide (k = x)) as [->|Hne].
        * subst f. cbv beta.
          destruct (decide (x = "__proto__")) as [Hp|Hp].
          -- rewrite (bool_decide_eq_false_2 (x ∈ x :: ids ∧ _)) by tauto.
             destruct (find_player x ps); [|done].
             by rewrite (bool_decide_eq_true_2 _ Hp).
          -- rewrite (bool_decide_eq_true_2 (x ∈ x :: ids ∧ _))
               by (split; [left|]; done).
             destruct (find_player x ps) as [p|]; [|done].
             cbn [fmap option_fmap option_map].
             rewrite (bool_decide_eq_false_2 _ Hp).
             by rewrite lookup_insert_eq.
        * rewrite (bool_decide_eq_false_2 (k ∈ x :: ids ∧ _)).
          2:{ intros [Hin Hp]. apply Hnin. split; [|done].
              apply elem_of_cons in Hin as [?|?]; [done|done]. }
          subst f. cbv beta. destruct (find_player x ps); [|done].
          destruct (decide (x = "__proto__")) as [Hp|Hp].
          { by rewrite (bool_decide_eq_true_2 _ Hp). }
          rewrite (bool_decide_eq_false_2 _ Hp).
          by rewrite lookup_insert_ne.
  }
  rewrite Hgen. rewrite lookup_empty.
  by destruct (if bool_decide _ then _ else _).
Qed.

Lemma team_players_size ids ps :
  NoDup ids → "__proto__" ∉ ids →
  (∀ k, k ∈ ids → is_Some (find_player k ps)) →
  size (team_players_of ids ps) = length ids.
Proof.
  intros Hnd Hp Hall.
  rewrite <- size_dom, <- (size_list_to_set (C := gset string)) by done.
  f_equal. apply set_eq. intros k.
  rewrite elem_of_dom, team_players_lookup, elem_of_list_to_set.
  case_bool_decide as Hk.
  - destruct Hk as [Hk _]. destruct (Hall k Hk) as [p ->]. simpl.
    split; [done|]. by intros _; eexists.
  - split; [by intros [? ?]|]. intros Hin. exfalso. apply Hk.
    split; [done|]. by intros ->.
Qed.

Lemma default_map_in_pool x :
  x ∈ default_maps →
  ∃ e, MAP_POOL !! x = Some e ∧ getMapId slug x = Some (map_id e).
Proof.
  intros Hx.
  assert (Hall : Forall (fun y => is_Some (MAP_POOL !! y)) default_maps)
    by (apply (bool_decide_unpack _); vm_compute; exact I).
  rewrite Forall_forall in Hall. destruct (Hall x Hx) as [e He].
  exists e. split; [done|]. unfold getMapId. by rewrite He.
Qed.

Lemma ready_match_state id now ps c0 c1 m0 m :
  NoDup (ref_steamId <$> ps) → length ps = 10%nat → c0 ≠ c1 →
  c0 ∈ ref_steamId <$> ps → c1 ∈ ref_steamId <$> ps →
  createMatch id now ps [c0; c1] = Ok m0 → rtc route_step m0 m →
  phase m = ready ∨ phase m = live →
  t_alpha (teams m) ++ t_beta (teams m) ≡ₚ ref_steamId <$> ps ∧
  NoDup (t_alpha (teams m) ++ t_beta (teams m)) ∧
  length (t_alpha (teams m)) = 5%nat ∧ length (t_beta (teams m)) = 5%nat ∧
  captains m = mkCaptains c0 c1 ∧ tag <$> players m = rtag <$> ps ∧
  ∃ x, selectedMap m = Some x ∧ x ∈ default_maps.
Proof.
  intros Hnd Hlen Hne H0 H1 Hc Hsteps Hph.
  pose proof (routes_keep_teams _ _ _ _ _ _ _ Hnd Hlen Hne H0 H1 Hc Hsteps)
    as (_ & Hlen' & Hro & _ & _ & _ & _ & _ & Hlate).
  assert (H8 : pickIndex m = 8%nat) by (apply Hlate; tauto).
  rewrite H8 in Hro.
  destruct (roster_full _ _ _ Hnd Hlen' Hro) as [Hperm _].
  destruct Hro as (_ & Ha & Hb & Hndt & _ & _).
  change (team_sizes 8) with (5%nat, 5%nat) in Ha, Hb. simpl in Ha, Hb.
  pose proof (routes_keep_veto _ _ _ _ _ _ Hc Hsteps) as (Hcons & _ & _ & Hl).
  destruct (Hl Hph) as (_ & x & Hav & Hsel).
  destruct (routes_keep_names _ _ _ _ _ _ _ Hc Hsteps) as [Hcap Htag].
  split_and!; try done.
  exists x. split; [done|]. rewrite <- Hcons, Hav. by left.
Qed.

(** X24. The MatchZy configuration generated for a match of ten players
    that went through the routes to its ready (or live) phase: it is
    generated (nothing throws), its map list is the one id the map pool
    gives for the selected map, which is one of the twelve default maps, so
    neither the lower-casing fallback nor an inherited property is ever
    used; [players_per_team] is 5 and both player tables have five
    entries; each of the ten players is in exactly one of the two tables,
    under the name the queue handed over ('Player' if that is empty), and
    nobody else is in either; the team names are the names of the two
    captains; and the whitelist is the ten ids, one per line. *)
Theorem matchzy_config_of_ready_match id now ps c0 c1 m0 m n :
  NoDup (ref_steamId <$> ps) → length ps = 10%nat → c0 ≠ c1 →
  c0 ∈ ref_steamId <$> ps → c1 ∈ ref_steamId <$> ps →
"__proto__" ∉ (ref_steamId <$> ps) →
  Match.createMatch id now ps [c0; c1] = Ok m0 → rtc Ctl.route_step m0 m →
  Match.phase m = Match.ready ∨ Match.phase m = Match.live →
  ∃ cfg x e,
    Matchzy.generateGameConfig slug m n = Ok cfg ∧
    Match.selectedMap m = Some x ∧ x ∈ Match.default_maps ∧
    Matchzy.MAP_POOL !! x = Some e ∧
    Matchzy.maplist cfg = [Some (Matchzy.map_id e)] ∧
    Matchzy.matchid cfg = n ∧
    Matchzy.players_per_team cfg = 5%nat ∧
    size (Matchzy.team_players (Matchzy.team1 cfg)) = 5%nat ∧
    size (Matchzy.team_players (Matchzy.team2 cfg)) = 5%nat ∧
    (∀ r, r ∈ ps →
       let k := ref_steamId r in
       let v := Some (if bool_decide (ref_name r = "") then "Player"
                      else ref_name r) in
       (Matchzy.team_players (Matchzy.team1 cfg) !! k = v ∧
        Matchzy.team_players (Matchzy.team2 cfg) !! k = None) ∨
       (Matchzy.team_players (Matchzy.team1 cfg) !! k = None ∧
        Matchzy.team_players (Matchzy.team2 cfg) !! k = v)) ∧
    (∀ k, k ∉ (ref_steamId <$> ps) →
       Matchzy.team_players (Matchzy.team1 cfg) !! k = None ∧
       Matchzy.team_players (Matchzy.team2 cfg) !! k = None) ∧
    (∀ r, r ∈ ps → ref_steamId r = c0 →
       Matchzy.team_name (Matchzy.team1 cfg) = ref_name r) ∧
    (∀ r, r ∈ ps → ref_steamId r = c1 →
       Matchzy.team_name (Matchzy.team2 cfg) = ref_name r) ∧
    ∃ l, l ≡ₚ ref_steamId <$> ps ∧
      Matchzy.generateWhitelist m
      = String.concat Matchzy.newline l +:+ Matchzy.newline.
Proof.
  intros Hnd Hlen Hne H0 H1 Hproto Hc Hsteps Hph.
  destruct (ready_match_state _ _ _ _ _ _ _ Hnd Hlen Hne H0 H1 Hc Hsteps Hph)
    as (Hperm & Hndt & Ha & Hb & Hcap & Htag & x & Hsel & Hx).
  destruct (default_map_in_pool x Hx) as (e & He & Hid).
  assert (Hfind : ∀ r, r ∈ ps →
            ∃ p, find_player (ref_steamId r) (players m) = Some p ∧
                 name p = ref_name r).
  { intros r Hr. by eapply find_player_tag. }
  assert (Hside : ∀ k, k ∈ ref_steamId <$> ps →
            (k ∈ t_alpha (teams m) ∧ (k ∉ t_beta (teams m))) ∨
            ((k ∉ t_alpha (teams m)) ∧ k ∈ t_beta (teams m))).
  { intros k Hk. rewrite <- Hperm in Hk.
    apply NoDup_app in Hndt as (_ & Hdis & _).
    apply elem_of_app in Hk as [Hk|Hk]; [left|right]; split; try done.
    - by apply Hdis.
    - intros Hk'. by apply (Hdis k). }
  assert (Hin : ∀ k, k ∈ t_alpha (teams m) ∨ k ∈ t_beta (teams m) →
                     k ∈ ref_steamId <$> ps).
  { intros k Hk. rewrite <- Hperm. apply elem_of_app. done. }
  assert (Hsome : ∀ k, k ∈ ref_steamId <$> ps →
                       is_Some (find_player k (players m))).
  { intros k Hk. apply list_elem_of_fmap in Hk as (r & -> & Hr).
    destruct (Hfind r Hr) as (p & -> & _). by eexists. }
  unfold generateGameConfig. rewrite Hsel. cbv zeta.
  eexists _, x, e. split; [reflexivity|].
  cbn [maplist matchid players_per_team team1 team2 team_players team_name].
  split_and!; try done.
  - by rewrite Hid.
  - rewrite team_players_size; [exact Ha| | |].
    + by apply NoDup_app in Hndt as (? & _ & _).
    + intros H. apply Hproto, Hin. by left.
    + intros k Hk. apply Hsome, Hin. by left.
  - rewrite team_players_size; [exact Hb| | |].
    + by apply NoDup_app in Hndt as (_ & _ & ?).
    + intros H. apply Hproto, Hin. by right.
    + intros k Hk. apply Hsome, Hin. by right.
  - intros r Hr.
    destruct (Hfind r Hr) as (p & Hp & Hn).
    assert (Hk : ref_steamId r ∈ ref_steamId <$> ps)
      by (apply list_elem_of_fmap; by exists r).
    assert (Hnp : ref_steamId r ≠ "__proto__") by (by intros E; rewrite E in Hk).
    rewrite !team_players_lookup, Hp. cbn [fmap option_fmap option_map].
    unfold shown_name. rewrite Hn.
    destruct (Hside _ Hk) as [[Hi1 Hi2]|[Hi1 Hi2]]; [left|right].
    + rewrite (bool_decide_eq_true_2 (_ ∈ t_alpha _ ∧ _)) by done.
      rewrite (bool_decide_eq_false_2 (_ ∈ t_beta _ ∧ _))
        by (by intros [? _]).
      done.
    + rewrite (bool_decide_eq_false_2 (_ ∈ t_alpha _ ∧ _))
        by (by intros [? _]).
      rewrite (bool_decide_eq_true_2 (_ ∈ t_beta _ ∧ _)) by done.
      done.
  - intros k Hk. rewrite !team_players_lookup.
    rewrite !bool_decide_eq_false_2; [done| |].
    + intros [Hi _]. apply Hk, Hin. by right.
    + intros [Hi _]. apply Hk, Hin. by left.
  - unfold captain_name. rewrite Hcap. cbn [c_alpha].
    intros r Hr <-. by destruct (Hfind r Hr) as (p & -> & Hn).
  - unfold captain_name. rewrite Hcap. cbn [c_beta].
    intros r Hr <-. by destruct (Hfind r Hr) as (p & -> & Hn).
  - exists (t_alpha (teams m) ++ t_beta (teams m)). by split.
Qed.

Lemma route_picks_rtc l m : rtc route_step m (route_picks l m).
Proof.
  unfold route_picks. revert m.
  induction l as [|c l IH]; intros m; [done|]. cbn [foldl].
  destruct (pickRoute 2000 c.1 c.2 m) as [m1|e] eqn:E; cbn [or_keep].
  - eapply rtc_l; [by eapply route_pick|]. apply IH.
  - apply IH.
Qed.

Lemma run_bans_rtc calls m : rtc route_step m (run_bans calls m).1.
Proof.
  revert m. induction calls as [|c cs IH]; intros m; [done|].
  cbn [run_bans]. destruct (banRoute c m) as [m1|e] eqn:E.
  - specialize (IH m1). destruct (run_bans cs m1) as [mf ok].
    eapply rtc_l; [by eapply route_ban|]. exact IH.
  - apply IH.
Qed.

Lemma demo_ready_reachable :
  rtc route_step (or_keep demo_created defaults) demo_ready.
Proof.
  pose proof demo_match_reachable as [_ H1].
  pose proof (route_picks_rtc eight_picks demo_match) as H2.
  pose proof (run_bans_rtc demo_bans (route_picks eight_picks demo_match))
    as H3.
  exact (transitivity H1 (transitivity H2 H3)).
Qed.

End MatchzyConfig.

Lemma matchzy_config_of_ready_match_witness :
  ∃ cfg, Matchzy.generateGameConfig (fun s => s) demo_ready 7 = Ok cfg ∧
         Matchzy.maplist cfg = [Some "3079692971"] ∧
         Matchzy.players_per_team cfg = 5%nat.
Proof.
  assert (Hnd : NoDup (ref_steamId <$> ten_players))
    by (apply (bool_decide_unpack _); vm_compute; exact I).
  assert (Hlen : length ten_players = 10%nat) by (vm_compute; reflexivity).
  assert (Hne : "p0" ≠ "p5") by discriminate.
  assert (H0 : "p0" ∈ ref_steamId <$> ten_players)
    by (apply (bool_decide_unpack _); vm_compute; exact I).
  assert (H1 : "p5" ∈ ref_steamId <$> ten_players)
    by (apply (bool_decide_unpack _); vm_compute; exact I).
  assert (Hp : "__proto__" ∉ (ref_steamId <$> ten_players))
    by (apply (bool_decide_unpack _); vm_compute; exact I).
  assert (Hc : Match.createMatch "MATCH-1" 1000 ten_players ["p0"; "p5"] =
               Ok (or_keep demo_created Match.defaults))
    by (vm_compute; reflexivity).
  assert (Hph : Match.phase demo_ready = Match.ready)
    by (vm_compute; reflexivity).
  assert (Hs : Match.selectedMap demo_ready = Some "Aztec")
    by (vm_compute; reflexivity).
  assert (Ha : Matchzy.MAP_POOL !! "Aztec"
               = Some (Matchzy.mkMapEntry "3079692971" (Some "3079692971")
                         "Aztec")) by (vm_compute; reflexivity).
  destruct (matchzy_config_of_ready_match (fun s => s) "MATCH-1" 1000
              ten_players "p0" "p5" (or_keep demo_created Match.defaults)
              demo_ready 7 Hnd Hlen Hne H0 H1 Hp Hc demo_ready_reachable
              (or_introl Hph))
    as (cfg & x & e & Hg & Hsel & _ & He & Hml & _ & Hpp & _).
  exists cfg. split; [exact Hg|]. split; [|exact Hpp].
  rewrite Hs in Hsel. injection Hsel as <-.
  rewrite Ha in He. injection He as <-.
  exact Hml.
Defined.

(** ** The accept and decline requests of the queue *)

Section QueueAccept.
Import Queue QueueCtl.

Variable onAllAccepted :
  nat → Queue.t → Ctl.World → option string * Ctl.World.

Local Notation "'quiet'" :=
  (Forall (fun iq : string * Queue.t => active (acceptPhase iq.2) = false)).

Lemma getActiveQueue_quiet fresh qs j q qs' :
  quiet qs → Ctl.getActiveQueue fresh qs = (j, q, qs') →
  active (acceptPhase q) = false ∧ quiet qs' ∧
  (qs' = qs ∨ qs' = qs ++ [(fresh, create)]).
Proof.
  intros Hq. unfold Ctl.getActiveQueue.
  destruct (list_find _ qs) as [[i [k q0]]|] eqn:Hfind; intros [= <- <- <-].
  - apply list_find_Some in Hfind as (Hi & _ & _).
    rewrite Forall_lookup in Hq. split; [exact (Hq i _ Hi)|].
    split; [by apply Forall_lookup|by left].
  - split; [done|]. split; [|by right].
    apply Forall_app. split; [done|]. by apply Forall_singleton.
Qed.

Lemma store_queue_quiet j q qs :
  quiet qs → active (acceptPhase q) = false → quiet (store_queue j q qs).
Proof.
  intros Hq Ha. unfold store_queue. rewrite Forall_lookup in Hq.
  apply Forall_lookup. intros i [k q0] Hi.
  destruct (decide (i = j)) as [->|Hne].
  - rewrite list_lookup_alter_eq in Hi.
    destruct (qs !! j) as [[k1 q1]|]; [|done]. by injection Hi as <- <-.
  - rewrite list_lookup_alter_ne in Hi by done. exact (Hq i _ Hi).
Qed.

Lemma addPlayer_acceptPhase now p q q' :
  addPlayer now p q = Ok q' → acceptPhase q' = acceptPhase q.
Proof.
  unfold addPlayer. destruct (has_player _ q); [done|].
  case_bool_decide; [done|]. by intros [= <-].
Qed.

Lemma removePlayer_acceptPhase sid q q' :
  removePlayer sid q = Ok q' → acceptPhase q' = acceptPhase q.
Proof.
  unfold removePlayer. cbv zeta. case_bool_decide; [done|]. by intros [= <-].
Qed.

Lemma readd_acceptPhase now l q us :
  acceptPhase (Ctl.readd now l q us).1 = acceptPhase q.
Proof.
  revert q us. induction l as [|p l IH]; intros q us; [done|]. simpl.
  destruct (has_player _ q); [apply IH|].
  by destruct (addPlayer now _ q).
Qed.

Lemma queue_step_quiet w w' :
  queue_step onAllAccepted w w' → no_accept_phase w → no_accept_phase w'.
Proof.
  unfold no_accept_phase.
  destruct 1 as [r w|fresh sid w|fresh sid w|fresh sid w|mid w
                |now fresh mid w]; intros Hq.
  - unfold join, joinQueue.
    destruct (Ctl.getActiveQueue _ _) as [[j q] qs] eqn:Hg.
    destruct (getActiveQueue_quiet _ _ _ _ _ Hq Hg) as (Ha & Hqs & _).
    destruct (has_player _ q); [done|].
    destruct (addPlayer _ _ q) as [q1|e] eqn:E; [|done].
    apply addPlayer_acceptPhase in E.
    destruct (isFull q1).
    + case_bool_decide; [apply store_queue_quiet; [done|simpl; congruence]|].
      destruct (Ready.startReadyPhase _ _ _ _ _ _) as [[? ?]|?];
        apply store_queue_quiet; try done; simpl; congruence.
    + apply store_queue_quiet; [done|congruence].
  - unfold leaveQueue.
    destruct (Ctl.getActiveQueue _ _) as [[j q] qs] eqn:Hg.
    destruct (getActiveQueue_quiet _ _ _ _ _ Hq Hg) as (Ha & Hqs & _).
    destruct (negb _); [done|].
    destruct (removePlayer sid q) as [q1|e] eqn:E; [|done].
    apply removePlayer_acceptPhase in E.
    apply store_queue_quiet; [done|congruence].
  - unfold acceptMatch.
    destruct (Ctl.getActiveQueue _ _) as [[j q] qs] eqn:Hg.
    destruct (getActiveQueue_quiet _ _ _ _ _ Hq Hg) as (Ha & Hqs & _).
    unfold Queue.acceptMatch. cbv zeta. rewrite Ha.
    by destruct (negb (has_player sid q)).
  - unfold declineMatch.
    destruct (Ctl.getActiveQueue _ _) as [[j q] qs] eqn:Hg.
    destruct (getActiveQueue_quiet _ _ _ _ _ Hq Hg) as (Ha & Hqs & _).
    unfold Queue.declineMatch. cbv zeta. rewrite Ha.
    by destruct (negb (has_player sid q)).
  - unfold Ctl.readyTimeoutFires.
    destruct (Ready.handleReadyTimeout mid _) as [[r|] ss]; [|done].
    destruct (Ready.tr_queueGroupId r) as [qid|]; [|done].
    case_bool_decide; [done|].
    destruct (list_find _ _) as [[j [k q]]|]; [|done].
    destruct (rebuildAfterTimeout _ _ q) as [q' rem] eqn:E.
    injection E as <- _. simpl.
    apply Forall_insert; [done|]. done.
  - unfold Ctl.processAcceptTimeout.
    destruct (list_find _ (Ctl.matches w)) as [[i m]|]; [|done].
    destruct (negb _); [done|].
    destruct (Match.allPlayersAccepted m); [done|]. cbv zeta.
    destruct (Ctl.getActiveQueue _ _) as [[j q] qs] eqn:Hg.
    destruct (getActiveQueue_quiet _ _ _ _ _ Hq Hg) as (Ha & Hqs & _).
    destruct (Ctl.readd _ _ q _) as [q' us2] eqn:E. simpl.
    apply (store_queue_quiet j q' qs Hqs).
    pose proof (readd_acceptPhase now
      (filter (fun p => includes (Match.req_steamId p)
                 (Match.acc_steamId <$>
                  Match.acceptedPlayers (Match.acceptPhase m)) = true)
         (Match.requiredPlayers (Match.acceptPhase m))) q
      (User.updateMany
         ((fun p => Some (Match.req_steamId p)) <$>
          Match.requiredPlayers (Match.acceptPhase m))
         User.clear_match (Ctl.users w))) as Hr.
    rewrite E in Hr. simpl in Hr. congruence.
Qed.

Lemma queue_steps_quiet w0 w :
  no_accept_phase w0 → rtc (queue_step onAllAccepted) w0 w →
  no_accept_phase w.
Proof.
  intros H0 Hsteps. revert w Hsteps. apply rtc_ind_r; [done|].
  intros w1 w2 _ Hstep IH. by eapply queue_step_quiet.
Qed.

Lemma joins_rtc reqs w :
  rtc (queue_step onAllAccepted) w (joins reqs w).
Proof.
  unfold joins. revert w. induction reqs as [|r reqs IH]; intros w; [done|].
  cbn [foldl]. eapply rtc_l; [apply step_join|]. apply IH.
Qed.

(** X25. The accept and decline requests of the queue never succeed.
    [startAcceptPhase] is called by none of the requests and timers that
    write the queue collection (join, leave, accept, decline, the ready
    timeout, the match accept timeout), so starting from a collection in
    which no queue is in an accept phase, none ever is; then
    [POST /api/queue/accept] and [POST /api/queue/decline] are answered 400
    with 'Player not in queue' or 'Accept phase is not active', whoever
    asks: no accept is recorded, the all-accepted branch that would create
    a match is never reached, the decline does not clear the caller's
    [inQueue], users, matches and ready sessions stay as they are, and the
    only thing stored is the empty queue that [getActiveQueue] creates when
    no queue is open. *)
Theorem queue_accept_never_succeeds (w0 w : Ctl.World) (fresh sid : string) :
  no_accept_phase w0 → rtc (queue_step onAllAccepted) w0 w →
  no_accept_phase w ∧
  ∃ e qs',
    (qs' = Ctl.queues w ∨ qs' = Ctl.queues w ++ [(fresh, Queue.create)]) ∧
    (e = "Player not in queue" ∨ e = "Accept phase is not active") ∧
    QueueCtl.acceptMatch onAllAccepted fresh sid w
      = (400%nat, Some e,
         Ctl.mkWorld (Ctl.matches w) (Ctl.users w) qs' (Ctl.sessions w)) ∧
    QueueCtl.declineMatch fresh sid w
      = (400%nat, Some e,
         Ctl.mkWorld (Ctl.matches w) (Ctl.users w) qs' (Ctl.sessions w)).
Proof.
  intros H0 Hsteps.
  pose proof (queue_steps_quiet _ _ H0 Hsteps) as Hq. split; [exact Hq|].
  unfold acceptMatch, declineMatch.
  destruct (Ctl.getActiveQueue fresh (Ctl.queues w)) as [[j q] qs] eqn:Hg.
  destruct (getActiveQueue_quiet _ _ _ _ _ Hq Hg) as (Ha & _ & Hqs).
  unfold Queue.acceptMatch, Queue.declineMatch. cbv zeta. rewrite Ha.
  destruct (has_player sid q); simpl.
  - exists "Accept phase is not active", qs. split_and!; auto.
  - exists "Player not in queue", qs. split_and!; auto.
Qed.

End QueueAccept.

Lemma queue_accept_never_succeeds_witness :
  let k := fun (_ : nat) (_ : Queue.t) (w : Ctl.World) =>
             (@None string, w) in
  let w := QueueCtl.joins (demo_join_front ++ [demo_join_last]) demo_lobby in
  QueueCtl.no_accept_phase demo_lobby ∧
  ∃ e, (QueueCtl.acceptMatch k "Q2" "p3" w).1 = (400%nat, Some e) ∧
       (QueueCtl.declineMatch "Q2" "p3" w).1 = (400%nat, Some e).
Proof.
  intros k w.
  assert (H0 : QueueCtl.no_accept_phase demo_lobby) by apply Forall_nil_2.
  split; [exact H0|].
  destruct (queue_accept_never_succeeds k demo_lobby w "Q2" "p3" H0
              (joins_rtc k (demo_join_front ++ [demo_join_last]) demo_lobby))
    as (_ & e & qs' & _ & _ & Hacc & Hdec).
  exists e. split.
  - exact (f_equal fst Hacc).
  - exact (f_equal fst Hdec).
Defined.


(** ** A missed deadline: what the program does, and what its handlers do *)

Section MissedDeadline.
Import Queue.

Lemma entry_saves_no_avatar sid nm :
  Ctl.entry_saves (mkPlayerRef sid nm "") = false.
Proof. done. Qed.

Lemma readd_stores_nothing now l (q : t) us :
  Ctl.readd now l q us = (q, us).
Proof.
  induction l as [|p l IH]; [done|]. simpl.
  destruct (has_player _ q); [exact IH|].
  by destruct (addPlayer now _ q).
Qed.

Lemma getActiveQueue_lookup fresh qs j q qs' :
  Ctl.getActiveQueue fresh qs = (j, q, qs') →
  (∃ k, qs' !! j = Some (k, q)) ∧
  (qs' = qs ∨ qs' = qs ++ [(fresh, create)]).
Proof.
  unfold Ctl.getActiveQueue.
  destruct (list_find _ qs) as [[i [k q0]]|] eqn:Hfind; intros [= <- <- <-].
  - apply list_find_Some in Hfind as (Hi & _ & _).
    split; [by exists k|by left].
  - split; [|by right]. exists fresh.
    by rewrite lookup_app_r, Nat.sub_diag.
Qed.

Lemma alter_same_queue j k (q : t) (qs : list (string * t)) :
  qs !! j = Some (k, q) →
  alter (fun iq : string * t => (iq.1, q)) j qs = qs.
Proof.
  intros Hj. apply list_eq. intros i.
  destruct (decide (i = j)) as [->|Hne].
  - by rewrite list_lookup_alter_eq, Hj.
  - by rewrite list_lookup_alter_ne.
Qed.

Lemma updateMany_inQueue ids (us : User.coll) k :
  User.inQueue <$> User.updateMany ids User.clear_match us !! k
  = User.inQueue <$> us !! k.
Proof.
  unfold User.updateMany. rewrite map_lookup_imap.
  destruct (us !! k) as [u|]; [|done]. simpl. by case_bool_decide.
Qed.

(** [processAcceptTimeout] writes no queue entry and nobody's [inQueue]. *)
Lemma processAcceptTimeout_requeues_nobody now fresh mid (w : Ctl.World) :
  let w' := Ctl.processAcceptTimeout now fresh mid w in
  (Ctl.queues w' = Ctl.queues w ∨
   Ctl.queues w' = Ctl.queues w ++ [(fresh, create)]) ∧
  ∀ k, User.inQueue <$> Ctl.users w' !! k = User.inQueue <$> Ctl.users w !! k.
Proof.
  cbv zeta. unfold Ctl.processAcceptTimeout.
  destruct (list_find _ (Ctl.matches w)) as [[i m]|]; [|by split; [left|]].
  destruct (negb _); [by split; [left|]|].
  destruct (Match.allPlayersAccepted m); [by split; [left|]|].
  cbv zeta.
  destruct (Ctl.getActiveQueue fresh (Ctl.queues w)) as [[j q] qs1] eqn:Hg.
  apply getActiveQueue_lookup in Hg as [[k Hk] Hqs].
  rewrite readd_stores_nothing. cbn [Ctl.queues Ctl.users].
  rewrite (alter_same_queue _ _ _ _ Hk). split; [exact Hqs|].
  intros k'. apply updateMany_inQueue.
Qed.

(** Without a call of [handleReadyTimeout] or [cancelReadySession] a
    stored session is active or completed. *)
Lemma calls_without_handler cs (st : list Ready.Session) :
  Forall (fun c => match c with
                   | Ready.Timeout _ | Ready.Cancel _ => False
                   | _ => True
                   end) cs →
  Forall (fun s => Ready.status s = Ready.active
                   ∨ Ready.status s = Ready.completed) st →
  Forall (fun s => Ready.status s = Ready.active
                   ∨ Ready.status s = Ready.completed) (Ready.calls cs st).
Proof.
  unfold Ready.calls. revert st.
  induction cs as [|c cs IH]; intros st Hcs Hst; [done|].
  apply Forall_cons in Hcs as [Hc Hcs]. cbn [foldl]. apply IH; [done|].
  clear IH Hcs. destruct c as [now mid ids qid secs|now mid uid|now mid|mid|mid|now];
    try done; cbn [Ready.call].
  - case_bool_decide; [done|].
    destruct (Ready.startReadyPhase _ _ _ _ _ st) as [[s st']|e] eqn:E; [|done].
    apply startReadyPhase_Ok in E as (-> & _ & _ & Ha & _).
    apply Forall_app. split; [done|]. apply Forall_singleton. by left.
  - unfold Ready.recordPlayerAccept.
    destruct (Ready.findActive mid st) as [[i s]|] eqn:Hf; [|done].
    destruct (list_find _ (Ready.players s)) as [[j p]|]; [|done].
    destruct (Ready.accepted p); [done|]. cbn [snd].
    apply Forall_insert; [done|]. left.
    by apply findActive_Some in Hf as (_ & _ & ?).
  - unfold Ready.completeReadyPhase.
    destruct (Ready.findActive mid st) as [[i s]|]; [|done]. cbn [snd].
    apply Forall_insert; [done|]. by right.
  - apply Forall_forall. intros s [_ Hs]%list_elem_of_filter.
    rewrite Forall_forall in Hst. by apply Hst.
Qed.

(** C4.  The deadline of a ready session passes with seven of ten
    accepted, in the program as it is wired.  [joinQueue] starts the
    session with [startReadyPhase], which arms no timer, so nothing runs
    at the deadline: the session is active until the TTL index deletes
    it and is never marked timeout, the queue document stays completed
    with all ten players and no priority, and acceptors and non-acceptors
    alike keep [inQueue] set; a non-acceptor can then neither join
    ('Already in queue') nor leave ('Not in queue').  In general, a
    session is only ever active or completed as long as neither
    [handleReadyTimeout] nor [cancelReadySession] is called.
    The handler that [startReadyPhaseMatch] would arm does, on the same
    world, what is expected at a deadline: the session is marked timeout,
    the seven acceptors stay in the queue at positions 1..7 with
    [hasPriority] set, the three others are dropped and lose [inQueue];
    and in general its rebuilt queue has the acceptors first and with
    priority and none of the non-acceptors.
    The other deadline handler, [processAcceptTimeout], cancels the match
    but puts nobody back: its [addPlayer] call carries an empty avatar,
    which the save rejects, so whatever the world the stored queues get no
    entry (at most the empty queue of [getActiveQueue] is created) and
    nobody's [inQueue] changes. *)
Theorem missed_deadline_runs_no_handler :
  (let view (w : Ctl.World) :=
     ((fun s => (Ready.matchId s, Ready.status s, Ready.expiresAt s))
        <$> Ctl.sessions w,
      (fun iq : string * Queue.t =>
         (iq.1, Queue.status iq.2, Queue.queue_view iq.2)) <$> Ctl.queues w,
      User.inQueue <$> Ctl.users w !! "p0",
      User.inQueue <$> Ctl.users w !! "p7") in
   let ten :=
     [("p0", 1%nat, false); ("p1", 2%nat, false); ("p2", 3%nat, false);
      ("p3", 4%nat, false); ("p4", 5%nat, false); ("p5", 6%nat, false);
      ("p6", 7%nat, false); ("p7", 8%nat, false); ("p8", 9%nat, false);
      ("p9", 10%nat, false)] in
   view demo_at_deadline =
     ([("PEND-1009", Ready.active, 21009%Z)],
      [("Q1", Queue.completed, ten)], Some true, Some true) ∧
   Ready.getNonAcceptors "PEND-1009" (Ctl.sessions demo_at_deadline)
     = ["p7"; "p8"; "p9"] ∧
   view demo_after_deadline =
     ([], [("Q1", Queue.completed, ten)], Some true, Some true) ∧
   Mw.canJoinQueue 100 (Ctl.users demo_after_deadline !! "p7")
     (Ctl.matches demo_after_deadline) = Mw.Reply 400 "Already in queue" ∧
   (QueueCtl.leaveQueue "Q2" "p7" demo_after_deadline).1
     = (400%nat, Some "Not in queue") ∧
   view (Ctl.readyTimeoutFires "PEND-1009" demo_at_deadline) =
     ([("PEND-1009", Ready.timeout, 21009%Z)],
      [("Q1", Queue.waiting,
        [("p0", 1%nat, true); ("p1", 2%nat, true); ("p2", 3%nat, true);
         ("p3", 4%nat, true); ("p4", 5%nat, true); ("p5", 6%nat, true);
         ("p6", 7%nat, true)])], Some true, Some false)) ∧
  (∀ cs, Forall (fun c => match c with
                          | Ready.Timeout _ | Ready.Cancel _ => False
                          | _ => True
                          end) cs →
         Forall (fun s => Ready.status s = Ready.active
                          ∨ Ready.status s = Ready.completed)
                (Ready.calls cs [])) ∧
  (∀ acc non (q : Queue.t),
     let r := Queue.rebuildAfterTimeout acc non q in
     (∀ e, e ∈ Queue.players r.1 → Queue.steamId e ∈ acc →
           Queue.hasPriority e = true) ∧
     (∀ i j ei ej, Queue.players r.1 !! i = Some ei →
        Queue.players r.1 !! j = Some ej →
        Queue.steamId ei ∈ acc → Queue.steamId ej ∉ acc → (i < j)%nat) ∧
     (∀ x, x ∈ non → x ∉ acc →
        x ∈ r.2 ∧ ∀ e, e ∈ Queue.players r.1 → Queue.steamId e ≠ x) ∧
     (∀ e0, e0 ∈ Queue.players q → Queue.steamId e0 ∈ acc →
        ∃ e, e ∈ Queue.players r.1 ∧ Queue.steamId e = Queue.steamId e0)) ∧
  (∀ now fresh mid (w : Ctl.World),
     let w' := Ctl.processAcceptTimeout now fresh mid w in
     (Ctl.queues w' = Ctl.queues w ∨
      Ctl.queues w' = Ctl.queues w ++ [(fresh, Queue.create)]) ∧
     ∀ k, User.inQueue <$> Ctl.users w' !! k
          = User.inQueue <$> Ctl.users w !! k) ∧
  (let w := Ctl.processAcceptTimeout 61000 "Q3" "MATCH-1" demo_timeout_world in
   Match.phase <$> Ctl.matches w !! 0%nat = Some Match.cancelled ∧
   (fun iq : string * Queue.t => Queue.queue_view iq.2) <$> Ctl.queues w
     = [[("late", 1%nat, false)]] ∧
   User.inQueue <$> Ctl.users w !! "p0" = Some false ∧
   User.inQueue <$> Ctl.users w !! "p7" = Some false).
Proof.
  split_and!.
  - vm_compute. repeat split; reflexivity.
  - intros cs Hcs. by apply calls_without_handler.
  - intros acc non q.
    destruct (rebuildAfterTimeout_spec acc non q) as (H1 & H2 & H3 & H4 & _).
    by split_and!.
  - intros. apply processAcceptTimeout_requeues_nobody.
  - vm_compute. repeat split; reflexivity.
Qed.

End MissedDeadline.
